(** * Stay: an ambient-soundscape engine

    A shallow embedding of the audio core of the Stay web application
    (noise generator, audio analyzer, sample loader, scene players, audio
    engine and the [useStay] hook that owns the scene-transition lock),
    followed by the properties established about it.

    Conventions of the embedding.
    - JavaScript numbers are exact rationals ([Q]); the analyzer, which takes
      a square root, uses the real numbers ([R]).  Rounding of IEEE doubles
      and NaN are not modelled.
    - [Math.random()] is an explicit supply of future results.
    - An [async] function is a resumable computation ([Task]): the synchronous
      prefix runs at the call, every [await] is a suspension point with a
      continuation that reads the state again when it is resumed.
    - Web Audio nodes are objects in a store, addressed by reference; an
      [AudioParam] keeps its automation timeline. *)

From Stdlib Require Import ZArith QArith Qround Qminmax Qabs Psatz Lia.
From Stdlib Require Reals.
From stdpp Require Import gmap strings list fin_maps.

Set Warnings "-register-all".

(* ================================================================== *)
(** ** Promises and resumable computations *)
(* ================================================================== *)

(** How a promise settles. *)
Inductive Outcome (A : Type) : Type :=
| Fulfilled (a : A)
| Rejected (e : string).
Arguments Fulfilled {A} a.
Arguments Rejected {A} e.

(** An [AudioBuffer]: where it came from, how long it lasts (seconds) and
    the samples of its (single) channel. *)
Record AudioBuffer := mkBuffer {
  src_url : string;
  duration : Q;
  channelData : list Q }.

(** What a suspended computation is waiting for. *)
Inductive Wait : Type :=
| Tick                          (* an [await] on an already settled promise *)
| Timer (ms : Q)                (* [new Promise(r => setTimeout(r, ms))] *)
| Fetch (urls : list string)    (* [Promise.all] over fetch-and-decode of each url *)
| ContextResume                 (* [audioContext.resume()] *)
| Settle (p : nat).             (* a promise kept in a table, by reference *)

(** What the environment hands back when the wait is over. *)
Inductive Reply : Type :=
| RUnit
| RBuffers (r : nat -> option AudioBuffer)  (* per index: decoded buffer, or failure *)
| RBuffer (o : Outcome AudioBuffer)
| RError (e : string).

(** A computation over a world [W]: finished, suspended at an [await],
    having started an un-awaited [async] call ([Detach]), having written to
    the console ([Log]), or not returning ([Stuck]: a loop that found no
    exit within the supplied randomness). *)
Inductive Task (W A : Type) : Type :=
| Done (o : Outcome A)
| Await (wt : Wait) (k : Reply -> W -> W * Task W A)
| Detach (bg : Task W unit) (rest : Task W A)
| Log (msg : string) (rest : Task W A)
| Stuck.
Arguments Done {W A} o.
Arguments Await {W A} wt k.
Arguments Detach {W A} bg rest.
Arguments Log {W A} msg rest.
Arguments Stuck {W A}.

Definition Async (W A : Type) : Type := W -> W * Task W A.

Section AsyncMonad.
Context {W : Type}.

Definition ret {A : Type} (a : A) : Async W A := fun w => (w, Done (Fulfilled a)).

Definition throw {A : Type} (e : string) : Async W A := fun w => (w, Done (Rejected e)).

Fixpoint bind_task {A B : Type} (t : Task W A) (f : A -> Async W B) (w : W)
  {struct t} : W * Task W B :=
  match t with
  | Done (Fulfilled a) => f a w
  | Done (Rejected e) => (w, Done (Rejected e))
  | Await wt k =>
      (w, Await wt (fun r w' => let '(w'', t') := k r w' in bind_task t' f w''))
  | Detach bg rest => let '(w', t') := bind_task rest f w in (w', Detach bg t')
  | Log msg rest => let '(w', t') := bind_task rest f w in (w', Log msg t')
  | Stuck => (w, Stuck)
  end.

Definition bind {A B : Type} (m : Async W A) (f : A -> Async W B) : Async W B :=
  fun w => let '(w1, t) := m w in bind_task t f w1.

Definition get : Async W W := fun w => (w, Done (Fulfilled w)).
Definition gets {A : Type} (f : W -> A) : Async W A := fun w => (w, Done (Fulfilled (f w))).
Definition modify (f : W -> W) : Async W unit := fun w => (f w, Done (Fulfilled tt)).

(** A synchronous step that may not return. *)
Definition attempt (f : W -> option W) : Async W unit :=
  fun w => match f w with
           | Some w' => (w', Done (Fulfilled tt))
           | None => (w, Stuck)
           end.

Definition console (msg : string) : Async W unit :=
  fun w => (w, Log msg (Done (Fulfilled tt))).

(** [await] on something the environment settles. *)
Definition await (wt : Wait) : Async W Reply :=
  fun w => (w, Await wt (fun r w' => (w', Done (Fulfilled r)))).

(** [await f(...)] for an [async] function [f]: its synchronous prefix
    runs now, and the caller resumes one tick after it has settled. *)
Fixpoint settle_task {A : Type} (t : Task W A) : Task W A :=
  match t with
  | Done o => Await Tick (fun _ w => (w, Done o))
  | Await wt k => Await wt (fun r w => let '(w', t') := k r w in (w', settle_task t'))
  | Detach bg rest => Detach bg (settle_task rest)
  | Log msg rest => Log msg (settle_task rest)
  | Stuck => Stuck
  end.

Definition await_call {A : Type} (m : Async W A) : Async W A :=
  fun w => let '(w1, t) := m w in (w1, settle_task t).

(** [f(...)] for an [async] function [f] whose promise is dropped: the
    synchronous prefix runs now, the rest goes on by itself. *)
Fixpoint detach_task (t : Task W unit) : Task W unit :=
  match t with
  | Done _ => Done (Fulfilled tt)
  | Await wt k => Detach (Await wt k) (Done (Fulfilled tt))
  | Detach bg rest => Detach bg (detach_task rest)
  | Log msg rest => Log msg (detach_task rest)
  | Stuck => Stuck
  end.

Definition call_detached (m : Async W unit) : Async W unit :=
  fun w => let '(w1, t) := m w in (w1, detach_task t).

(** [try { m } catch (e) { h e }] *)
Fixpoint catch_task {A : Type} (t : Task W A) (h : string -> Async W A) (w : W)
  {struct t} : W * Task W A :=
  match t with
  | Done (Fulfilled a) => (w, Done (Fulfilled a))
  | Done (Rejected e) => h e w
  | Await wt k =>
      (w, Await wt (fun r w' => let '(w'', t') := k r w' in catch_task t' h w''))
  | Detach bg rest => let '(w', t') := catch_task rest h w in (w', Detach bg t')
  | Log msg rest => let '(w', t') := catch_task rest h w in (w', Log msg t')
  | Stuck => (w, Stuck)
  end.

Definition try_catch {A : Type} (m : Async W A) (h : string -> Async W A) : Async W A :=
  fun w => let '(w1, t) := m w in catch_task t h w1.

(** [try { m } finally { f }], for a [finally] block that is synchronous. *)
Fixpoint finally_task {A : Type} (t : Task W A) (f : W -> W) (w : W)
  {struct t} : W * Task W A :=
  match t with
  | Done o => (f w, Done o)
  | Await wt k =>
      (w, Await wt (fun r w' => let '(w'', t') := k r w' in finally_task t' f w''))
  | Detach bg rest => let '(w', t') := finally_task rest f w in (w', Detach bg t')
  | Log msg rest => let '(w', t') := finally_task rest f w in (w', Log msg t')
  | Stuck => (w, Stuck)
  end.

Definition try_finally {A : Type} (m : Async W A) (f : W -> W) : Async W A :=
  fun w => let '(w1, t) := m w in finally_task t f w1.
End AsyncMonad.

Notation "'do' x <- m ; k" := (bind m (fun x => k))
  (at level 10, x name, m at level 100, k at level 200,
   format "'[v' 'do'  x  <-  m ; '/' k ']'").
Notation "'exec' m ; k" := (bind m (fun _ => k))
  (at level 10, m at level 100, k at level 200,
   format "'[v' 'exec'  m ; '/' k ']'").

(** An object inside a larger world: how to find it and how to write it
    back.  A computation written against the object runs in the larger
    world through [zoom]; each continuation looks the object up again when
    it is resumed, so changes made in between are seen. *)
Record Lens (W V : Type) := mkLens {
  view : W -> option V;
  over : V -> W -> W }.
Arguments mkLens {W V} _ _.
Arguments view {W V} _ _.
Arguments over {W V} _ _ _.

Section Zoom.
Context {W V : Type} (L : Lens W V).

Fixpoint zoom_task {A : Type} (t : Task V A) : Task W A :=
  match t with
  | Done o => Done o
  | Await wt k =>
      Await wt (fun r w =>
        match view L w with
        | Some v => let '(v', t') := k r v in (over L v' w, zoom_task t')
        | None => (w, Stuck)
        end)
  | Detach bg rest => Detach (zoom_task bg) (zoom_task rest)
  | Log msg rest => Log msg (zoom_task rest)
  | Stuck => Stuck
  end.

Definition zoom {A : Type} (m : Async V A) : Async W A :=
  fun w =>
    match view L w with
    | Some v => let '(v', t) := m v in (over L v' w, zoom_task t)
    | None => (w, Stuck)
    end.
End Zoom.

(* ================================================================== *)
(** ** JavaScript arithmetic used by the code *)
(* ================================================================== *)

(** [Math.max(lo, Math.min(hi, x))] *)
Definition clamp (lo hi x : Q) : Q := Qmax lo (Qmin hi x).

(** [Math.floor] *)
Definition Math_floor (x : Q) : Z := Qfloor x.

(** [a || b] on numbers: [b] when [a] is missing or zero. *)
Definition num_or (a : option Q) (b : Q) : Q :=
  match a with
  | Some x => if Qeq_bool x 0 then b else x
  | None => b
  end.

(** [a ?? b] *)
Definition nullish {A} (a : option A) (b : A) : A :=
  match a with Some x => x | None => b end.

(** [Math.random()]: the next value of the supply, if any is left. *)
Definition Math_random (rng : list Q) : option (Q * list Q) :=
  match rng with
  | r :: rest => Some (r, rest)
  | [] => None
  end.

(** A supply is admissible when every value lies in [0, 1). *)
Definition unit_interval (r : Q) : Prop := (0 <= r /\ r < 1)%Q.

(* ================================================================== *)
(** ** The Web Audio platform, as far as the code uses it *)
(* ================================================================== *)

(** An [AudioParam]: the value its [value] getter returns (the value of
    the last rendering quantum) and its automation timeline, kept in time
    order. *)
Module AudioParam.
Inductive Event : Type :=
| SetValue (v : Q) (at_time : Q)       (* setValueAtTime(v, t) *)
| LinearRamp (v : Q) (end_time : Q).   (* linearRampToValueAtTime(v, t) *)

Definition time (e : Event) : Q :=
  match e with SetValue _ t => t | LinearRamp _ t => t end.

Definition target (e : Event) : Q :=
  match e with SetValue v _ => v | LinearRamp v _ => v end.

Record t := mk { value : Q; events : list Event }.

Definition create (v : Q) : t := mk v [].

(** A new event goes behind every event that is not later than it. *)
Fixpoint insert (e : Event) (l : list Event) : list Event :=
  match l with
  | [] => [e]
  | x :: r => if Qle_bool (time x) (time e) then x :: insert e r else e :: x :: r
  end.

Definition setValueAtTime (v time : Q) (p : t) : t :=
  mk (value p) (insert (SetValue v time) (events p)).

Definition linearRampToValueAtTime (v time : Q) (p : t) : t :=
  mk (value p) (insert (LinearRamp v time) (events p)).

(** Removes every event whose time is [cancelTime] or later; the value
    of the last rendering quantum stays. *)
Definition cancelScheduledValues (cancelTime : Q) (p : t) : t :=
  mk (value p) (filter (fun e => negb (Qle_bool cancelTime (time e))) (events p)).

(** [param.value = v] at context time [now]: sets the current value and
    acts as [setValueAtTime(v, now)]. *)
Definition set_value (v now : Q) (p : t) : t :=
  mk v (insert (SetValue v now) (events p)).

(** The value the timeline prescribes at time [tm], coming from the
    point [(prev_t, prev_v)]: a [SetValue] holds from its time on, a
    [LinearRamp] interpolates from the previous point to its end. *)
Fixpoint eval (prev_t prev_v : Q) (l : list Event) (tm : Q) : Q :=
  match l with
  | [] => prev_v
  | SetValue v te :: r =>
      if Qle_bool te tm then eval te v r tm else prev_v
  | LinearRamp v te :: r =>
      if Qle_bool te tm then eval te v r tm
      else prev_v + (v - prev_v) * ((tm - prev_t) / (te - prev_t))
  end.

(** Before the first event the current value is in force. *)
Definition scheduled (p : t) (tm : Q) : Q := eval tm (value p) (events p) tm.

(** One rendering quantum at time [now]. *)
Definition render (now : Q) (p : t) : t := mk (scheduled p now) (events p).
End AudioParam.

Inductive AudioNode : Type :=
| GainNode (gain : AudioParam.t)
| BufferSourceNode (buffer : option AudioBuffer) (loop : bool)
                   (playbackRate detune : Q)
                   (started : bool) (stopped : bool)
| BiquadFilterNode (type : string) (frequency q_factor gain : Q)
| AnalyserNode (fftSize : Z) (smoothingTimeConstant : Q)
| DestinationNode.

(** The closures the code hands to [setTimeout], by what they do and the
    objects they captured. *)
Inductive Callback : Type :=
| LoopCleanup (oldSource oldGain : nat)   (* LoopPlayer._playNext: stop and disconnect the old track *)
| LoopNext (player : nat)                 (* LoopPlayer._playNext: [if (isPlaying) _playNext(false)] *)
| CafeSfx (player : nat)                  (* CafePlayer._startSfx: [triggerSfx] *)
| WindCrossfade (player : nat)            (* WindPlayer._scheduleCrossfade *)
| WindCleanupOld (oldSource : option nat) (oldSourceGain : nat)
| WindRewire (player : nat) (newSourceGain : nat)
| SynthGust (player : nat).               (* WindSynth._startGusts: [generateGust] *)

Record TimerEntry := mkTimer { timer_id : nat; due : Q; callback : Callback }.

(** The platform state the code runs against. *)
Record Env := mkEnv {
  currentTime : Q;                 (* AudioContext.currentTime, seconds *)
  sampleRate : N;                  (* AudioContext.sampleRate, Hz *)
  nodes : list AudioNode;          (* every node created, by reference *)
  edges : list (nat * nat);        (* [a.connect(b)] *)
  timers : list TimerEntry;        (* pending [setTimeout] callbacks *)
  nextTimer : nat;                 (* timer ids are positive *)
  rng : list Q                     (* future results of Math.random() *)
}.

Definition with_nodes (ns : list AudioNode) (e : Env) : Env :=
  mkEnv (currentTime e) (sampleRate e) ns (edges e) (timers e) (nextTimer e) (rng e).
Definition with_edges (es : list (nat * nat)) (e : Env) : Env :=
  mkEnv (currentTime e) (sampleRate e) (nodes e) es (timers e) (nextTimer e) (rng e).
Definition with_timers (ts : list TimerEntry) (nxt : nat) (e : Env) : Env :=
  mkEnv (currentTime e) (sampleRate e) (nodes e) (edges e) ts nxt (rng e).
Definition with_rng (r : list Q) (e : Env) : Env :=
  mkEnv (currentTime e) (sampleRate e) (nodes e) (edges e) (timers e) (nextTimer e) r.
Definition with_currentTime (tm : Q) (e : Env) : Env :=
  mkEnv tm (sampleRate e) (nodes e) (edges e) (timers e) (nextTimer e) (rng e).

(** Allocation of a node; the reference is its position in the store. *)
Definition new_node (n : AudioNode) (e : Env) : nat * Env :=
  (length (nodes e), with_nodes (nodes e ++ [n]) e).

Definition createGain (e : Env) : nat * Env :=
  new_node (GainNode (AudioParam.create 1)) e.

Definition createBufferSource (e : Env) : nat * Env :=
  new_node (BufferSourceNode None false 1 0 false false) e.

Definition createBiquadFilter (e : Env) : nat * Env :=
  new_node (BiquadFilterNode "lowpass" 350 1 0) e.

Definition createAnalyser (e : Env) : nat * Env :=
  new_node (AnalyserNode 2048 0.8) e.

Definition update_node (r : nat) (f : AudioNode -> AudioNode) (e : Env) : Env :=
  match nodes e !! r with
  | Some n => with_nodes (<[r := f n]> (nodes e)) e
  | None => e
  end.

(** [node.gain.<method>(...)] on the gain node [r]. *)
Definition on_gain (r : nat) (f : AudioParam.t -> AudioParam.t) (e : Env) : Env :=
  update_node r (fun n => match n with GainNode p => GainNode (f p) | _ => n end) e.

(** [node.gain.value] *)
Definition gain_value (r : nat) (e : Env) : Q :=
  match nodes e !! r with
  | Some (GainNode p) => AudioParam.value p
  | _ => 0
  end.

Definition gain_param (r : nat) (e : Env) : option AudioParam.t :=
  match nodes e !! r with
  | Some (GainNode p) => Some p
  | _ => None
  end.

Definition set_buffer (r : nat) (b : AudioBuffer) (e : Env) : Env :=
  update_node r (fun n => match n with
    | BufferSourceNode _ l pr d st sp => BufferSourceNode (Some b) l pr d st sp
    | _ => n end) e.

Definition set_loop (r : nat) (l : bool) (e : Env) : Env :=
  update_node r (fun n => match n with
    | BufferSourceNode b _ pr d st sp => BufferSourceNode b l pr d st sp
    | _ => n end) e.

Definition set_playbackRate (r : nat) (pr : Q) (e : Env) : Env :=
  update_node r (fun n => match n with
    | BufferSourceNode b l _ d st sp => BufferSourceNode b l pr d st sp
    | _ => n end) e.

Definition set_detune (r : nat) (d : Q) (e : Env) : Env :=
  update_node r (fun n => match n with
    | BufferSourceNode b l pr _ st sp => BufferSourceNode b l pr d st sp
    | _ => n end) e.

Definition set_filter (r : nat) (ty : string) (freq q : Q) (e : Env) : Env :=
  update_node r (fun n => match n with
    | BiquadFilterNode _ _ _ g => BiquadFilterNode ty freq q g
    | _ => n end) e.

Definition set_filter_gain (r : nat) (g : Q) (e : Env) : Env :=
  update_node r (fun n => match n with
    | BiquadFilterNode ty f q _ => BiquadFilterNode ty f q g
    | _ => n end) e.

(** [a.connect(b)] and [a.disconnect()] (all outgoing connections). *)
Definition connect (a b : nat) (e : Env) : Env := with_edges (edges e ++ [(a, b)]) e.

Definition disconnect (a : nat) (e : Env) : Env :=
  with_edges (filter (fun ab => negb (Nat.eqb (fst ab) a)) (edges e)) e.

(** [source.start()] *)
Definition source_start (r : nat) (e : Env) : Env :=
  update_node r (fun n => match n with
    | BufferSourceNode b l pr d _ sp => BufferSourceNode b l pr d true sp
    | _ => n end) e.

(** [source.stop()]: throws when the source was never started. *)
Definition source_stop (r : nat) (e : Env) : option Env :=
  match nodes e !! r with
  | Some (BufferSourceNode b l pr d true _) =>
      Some (with_nodes (<[r := BufferSourceNode b l pr d true true]> (nodes e)) e)
  | _ => None
  end.

(** [try { s.stop(); rest } catch (e) { }]: when [stop] throws, the rest
    of the block is skipped. *)
Definition try_stop_then (s : nat) (rest : Env -> Env) (e : Env) : Env :=
  match source_stop s e with
  | Some e' => rest e'
  | None => e
  end.

(** [setTimeout(cb, ms)]: returns the (positive) timer id. *)
Definition setTimeout (cb : Callback) (ms : Q) (e : Env) : nat * Env :=
  let id := S (nextTimer e) in
  (id, with_timers (timers e ++ [mkTimer id (currentTime e + ms / 1000) cb]) id e).

Definition clearTimeout (id : nat) (e : Env) : Env :=
  with_timers (filter (fun tm => negb (Nat.eqb (timer_id tm) id)) (timers e)) (nextTimer e) e.

(** [Math.random()] against the supply of the environment. *)
Definition random (e : Env) : option (Q * Env) :=
  match Math_random (rng e) with
  | Some (r, rest) => Some (r, with_rng rest e)
  | None => None
  end.

(** The rendering thread reaches time [tm]: every gain follows its timeline. *)
Definition render_to (tm : Q) (e : Env) : Env :=
  with_currentTime tm
    (with_nodes (map (fun n => match n with
                               | GainNode p => GainNode (AudioParam.render tm p)
                               | _ => n end) (nodes e)) e).

(* ================================================================== *)
(** ** NoiseGenerator.js *)
(* ================================================================== *)

Module NoiseGenerator.
Local Open Scope Q_scope.

(** [context.sampleRate * 2]: two seconds of samples. *)
Definition bufferSize (e : Env) : nat := N.to_nat (sampleRate e * 2).

(** [Math.random() * 2 - 1] *)
Definition white_of (r : Q) : Q := r * 2 - 1.

(** The loop of [createWhiteNoise]: [data[i] = Math.random() * 2 - 1]. *)
Fixpoint white_loop (n : nat) (rng : list Q) : option (list Q * list Q) :=
  match n with
  | O => Some ([], rng)
  | S n' =>
      match Math_random rng with
      | None => None
      | Some (r, rng') =>
          match white_loop n' rng' with
          | Some (data, rest) => Some (white_of r :: data, rest)
          | None => None
          end
      end
  end.

(** The seven running sums [b0 .. b6] of [createPinkNoise]. *)
Record PinkState := mkPink { b0 : Q; b1 : Q; b2 : Q; b3 : Q; b4 : Q; b5 : Q; b6 : Q }.

Definition pink_init : PinkState := mkPink 0 0 0 0 0 0 0.

(** One iteration of the loop body of [createPinkNoise]: the new sums
    and the sample written to [data[i]]. *)
Definition pink_step (s : PinkState) (white : Q) : PinkState * Q :=
  let b0' := 0.99886 * b0 s + white * 0.0555179 in
  let b1' := 0.99332 * b1 s + white * 0.0750759 in
  let b2' := 0.96900 * b2 s + white * 0.1538520 in
  let b3' := 0.86650 * b3 s + white * 0.3104856 in
  let b4' := 0.55000 * b4 s + white * 0.5329522 in
  let b5' := -0.7616 * b5 s - white * 0.0168980 in
  let pink := b0' + b1' + b2' + b3' + b4' + b5' + b6 s + white * 0.5362 in
  let b6' := white * 0.115926 in
  (mkPink b0' b1' b2' b3' b4' b5' b6', pink * 0.11).

Fixpoint pink_loop (n : nat) (s : PinkState) (rng : list Q)
  : option (list Q * list Q) :=
  match n with
  | O => Some ([], rng)
  | S n' =>
      match Math_random rng with
      | None => None
      | Some (r, rng') =>
          let '(s', x) := pink_step s (white_of r) in
          match pink_loop n' s' rng' with
          | Some (data, rest) => Some (x :: data, rest)
          | None => None
          end
      end
  end.

(** One iteration of the loop body of [createBrownNoise]. *)
Definition brown_step (lastOut : Q) (white : Q) : Q * Q :=
  let lastOut' := (lastOut + (0.02 * white)) / 1.02 in
  (lastOut', lastOut' * 3.5).

Fixpoint brown_loop (n : nat) (lastOut : Q) (rng : list Q)
  : option (list Q * list Q) :=
  match n with
  | O => Some ([], rng)
  | S n' =>
      match Math_random rng with
      | None => None
      | Some (r, rng') =>
          let '(lastOut', x) := brown_step lastOut (white_of r) in
          match brown_loop n' lastOut' rng' with
          | Some (data, rest) => Some (x :: data, rest)
          | None => None
          end
      end
  end.

(** The tail shared by the three constructors: a looping source over
    the freshly filled buffer. *)
Definition looping_source (data : list Q) (rest : list Q) (e : Env) : nat * Env :=
  let e := with_rng rest e in
  let '(source, e) := createBufferSource e in
  let e := set_buffer source (mkBuffer "" 2 data) e in
  let e := set_loop source true e in
  (source, e).

Definition createWhiteNoise (e : Env) : option (nat * Env) :=
  match white_loop (bufferSize e) (rng e) with
  | Some (data, rest) => Some (looping_source data rest e)
  | None => None
  end.

Definition createPinkNoise (e : Env) : option (nat * Env) :=
  match pink_loop (bufferSize e) pink_init (rng e) with
  | Some (data, rest) => Some (looping_source data rest e)
  | None => None
  end.

Definition createBrownNoise (e : Env) : option (nat * Env) :=
  match brown_loop (bufferSize e) 0 (rng e) with
  | Some (data, rest) => Some (looping_source data rest e)
  | None => None
  end.

(** The samples of the buffer a source node plays. *)
Definition samples_of (source : nat) (e : Env) : list Q :=
  match nodes e !! source with
  | Some (BufferSourceNode (Some b) _ _ _ _ _) => channelData b
  | _ => []
  end.

(** The class [NoiseGenerator]. *)
Inductive NoiseType := white | pink | brown.

Record t := mk { type : NoiseType; source : option nat; output : nat }.

Definition create (ty : NoiseType) (e : Env) : t * Env :=
  let '(out, e) := createGain e in (mk ty None out, e).

Definition stop (g : t) (e : Env) : t * Env :=
  match source g with
  | Some s => (mk (type g) None (output g), try_stop_then s (disconnect s) e)
  | None => (g, e)
  end.

Definition start (g : t) (e : Env) : option (t * Env) :=
  let '(g, e) := match source g with Some _ => stop g e | None => (g, e) end in
  let made := match type g with
              | pink => createPinkNoise e
              | brown => createBrownNoise e
              | white => createWhiteNoise e
              end in
  match made with
  | Some (s, e) =>
      let e := connect s (output g) e in
      let e := source_start s e in
      Some (mk (type g) (Some s) (output g), e)
  | None => None
  end.

Definition dispose (g : t) (e : Env) : t * Env :=
  let '(g, e) := stop g e in (g, disconnect (output g) e).
End NoiseGenerator.

(* ================================================================== *)
(** ** JavaScript arrays with holes *)
(* ================================================================== *)

(** [arr[i] = v]: beyond the end the array grows and the gap stays empty. *)
Definition js_array_set {A} (arr : list (option A)) (i : nat) (v : A) : list (option A) :=
  if (i <? length arr)%nat then <[i := Some v]> arr
  else arr ++ replicate (i - length arr) None ++ [Some v].

(** [arr.filter(b => b !== undefined)]: the elements that are present. *)
Definition js_filter_defined {A} (arr : list (option A)) : list A := omap id arr.

(** What [Promise.all] over the per-url loaders resolved to at [index]:
    the decoded buffer, or nothing when fetch or decoding failed. *)
Definition loaded_at (r : Reply) (index : nat) : option AudioBuffer :=
  match r with
  | RBuffers f => f index
  | _ => None
  end.

(* ================================================================== *)
(** ** utils/LoopPlayer.js *)
(* ================================================================== *)

Module LoopPlayer.
Local Open Scope Q_scope.

Record t := mk {
  self : nat;                       (* the identity of this object *)
  crossfadeDuration : Q;
  buffers : list AudioBuffer;
  urls : list string;
  output : nat;
  currentSource : option nat;
  currentGain : option nat;
  currentIndex : Z;
  isPlaying : bool;
  isLoaded : bool;
  nextTimeout : option nat }.

Definition set_buffers v p := mk (self p) (crossfadeDuration p) v (urls p) (output p)
  (currentSource p) (currentGain p) (currentIndex p) (isPlaying p) (isLoaded p) (nextTimeout p).
Definition set_urls v p := mk (self p) (crossfadeDuration p) (buffers p) v (output p)
  (currentSource p) (currentGain p) (currentIndex p) (isPlaying p) (isLoaded p) (nextTimeout p).
Definition set_current src g p := mk (self p) (crossfadeDuration p) (buffers p) (urls p) (output p)
  src g (currentIndex p) (isPlaying p) (isLoaded p) (nextTimeout p).
Definition set_currentIndex v p := mk (self p) (crossfadeDuration p) (buffers p) (urls p) (output p)
  (currentSource p) (currentGain p) v (isPlaying p) (isLoaded p) (nextTimeout p).
Definition set_isPlaying v p := mk (self p) (crossfadeDuration p) (buffers p) (urls p) (output p)
  (currentSource p) (currentGain p) (currentIndex p) v (isLoaded p) (nextTimeout p).
Definition set_isLoaded v p := mk (self p) (crossfadeDuration p) (buffers p) (urls p) (output p)
  (currentSource p) (currentGain p) (currentIndex p) (isPlaying p) v (nextTimeout p).
Definition set_nextTimeout v p := mk (self p) (crossfadeDuration p) (buffers p) (urls p) (output p)
  (currentSource p) (currentGain p) (currentIndex p) (isPlaying p) (isLoaded p) v.

(** [new LoopPlayer(context, { crossfadeDuration })] *)
Definition create (self : nat) (crossfade : option Q) (e : Env) : t * Env :=
  let '(out, e) := createGain e in
  (mk self (num_or crossfade 2) [] [] out None None (-1) false false None, e).

(** [async load(urls)] *)
Definition load (urls : list string) : Async (t * Env) unit :=
  exec modify (fun '(p, e) => (set_buffers [] (set_urls urls p), e));
  do results <- await (Fetch urls);
  exec modify (fun '(p, e) =>
    let sparse :=
      foldl (fun arr index =>
               match loaded_at results index with
               | Some buffer => js_array_set arr index buffer
               | None => arr
               end)
            (map Some (buffers p)) (seq 0 (length urls)) in
    let p := set_buffers (js_filter_defined sparse) p in
    (set_isLoaded (0 <? length (buffers p))%nat p, e));
  console "[LoopPlayer] Loaded files".

(** The [do ... while] of [_getNextIndex]: draw until the index differs
    from the current one (or there is a single buffer). *)
Fixpoint draw_index (len : nat) (current : Z) (rng : list Q) : option (Z * list Q) :=
  match rng with
  | [] => None
  | r :: rest =>
      let nextIndex := Math_floor (r * inject_Z (Z.of_nat len)) in
      if (nextIndex =? current)%Z && (1 <? len)%nat
      then draw_index len current rest
      else Some (nextIndex, rest)
  end.

Definition _getNextIndex (p : t) (e : Env) : option (Z * Env) :=
  if (length (buffers p) =? 0)%nat then Some ((-1)%Z, e)
  else if (length (buffers p) =? 1)%nat then Some (0%Z, e)
  else match draw_index (length (buffers p)) (currentIndex p) (rng e) with
       | Some (nextIndex, rest) => Some (nextIndex, with_rng rest e)
       | None => None
       end.

(** [buffers[i]] for a number [i]. *)
Definition buffer_at (p : t) (i : Z) : option AudioBuffer :=
  if (i <? 0)%Z then None else buffers p !! Z.to_nat i.

(** [_playNext(isFirst)].  [None]: the call does not return normally
    (the index loop found no exit, or a missing buffer made it throw). *)
Definition _playNext (isFirst : bool) (p : t) (e : Env) : option (t * Env) :=
  if negb (isPlaying p) then Some (p, e) else
  match _getNextIndex p e with
  | None => None
  | Some (nextIndex, e) =>
    if (nextIndex =? -1)%Z then Some (p, e) else
    match buffer_at p nextIndex with
    | None => None
    | Some buffer =>
      let p := set_currentIndex nextIndex p in
      let '(source, e) := createBufferSource e in
      let e := set_buffer source buffer e in
      let e := set_loop source false e in
      let '(gainNode, e) := createGain e in
      let e := on_gain gainNode (AudioParam.set_value 0 (currentTime e)) e in
      let e := connect source gainNode e in
      let e := connect gainNode (output p) e in
      let now := currentTime e in
      let fadeTime := if isFirst then 1.5 else crossfadeDuration p in
      let e := on_gain gainNode (AudioParam.setValueAtTime 0 now) e in
      let e := on_gain gainNode (AudioParam.linearRampToValueAtTime 1 (now + fadeTime)) e in
      let e :=
        match currentGain p, currentSource p with
        | Some oldGain, Some oldSource =>
            let e := on_gain oldGain (AudioParam.setValueAtTime (gain_value oldGain e) now) e in
            let e := on_gain oldGain (AudioParam.linearRampToValueAtTime 0 (now + fadeTime)) e in
            snd (setTimeout (LoopCleanup oldSource oldGain) (fadeTime * 1000 + 100) e)
        | _, _ => e
        end in
      let p := set_current (Some source) (Some gainNode) p in
      let e := source_start source e in
      let nextPlayTime := (duration buffer - crossfadeDuration p) * 1000 in
      let e := match nextTimeout p with
               | Some id => clearTimeout id e
               | None => e
               end in
      let '(id, e) := setTimeout (LoopNext (self p)) (Qmax nextPlayTime 1000) e in
      Some (set_nextTimeout (Some id) p, e)
    end
  end.

(** [start()] *)
Definition start (p : t) (e : Env) : option (t * Env) :=
  if negb (isLoaded p) then Some (p, e)
  else if isPlaying p then Some (p, e)
  else _playNext true (set_isPlaying true p) e.

(** The [try] block at the end of [stop]: a missing source or gain makes
    it throw, and what follows in the block is skipped. *)
Definition release_current (p : t) (e : Env) : Env :=
  match currentSource p with
  | Some s =>
      try_stop_then s (fun e =>
        let e := disconnect s e in
        match currentGain p with
        | Some g => disconnect g e
        | None => e
        end) e
  | None => e
  end.

(** [async stop(fadeTime)] *)
Definition stop (fadeTime : Q) : Async (t * Env) unit :=
  do playing <- gets (fun '(p, _) => isPlaying p);
  if negb playing then ret tt else
  exec modify (fun '(p, e) =>
    let p := set_isPlaying false p in
    match nextTimeout p with
    | Some id => (set_nextTimeout None p, clearTimeout id e)
    | None => (p, e)
    end);
  do current <- gets (fun '(p, _) => (currentGain p, currentSource p));
  match current with
  | (Some currentGain, Some _) =>
      exec modify (fun '(p, e) =>
        let now := currentTime e in
        let e := on_gain currentGain
                   (AudioParam.setValueAtTime (gain_value currentGain e) now) e in
        let e := on_gain currentGain
                   (AudioParam.linearRampToValueAtTime 0 (now + fadeTime)) e in
        (p, e));
      exec await (Timer (fadeTime * 1000));
      modify (fun '(p, e) => (set_current None None p, release_current p e))
  | _ => ret tt
  end.

Definition connect_to (destination : nat) (p : t) (e : Env) : Env :=
  connect (output p) destination e.

(** [dispose()]: [stop(0)] is started and not awaited. *)
Definition dispose : Async (t * Env) unit :=
  exec call_detached (stop 0);
  modify (fun '(p, e) =>
    (set_isLoaded false (set_urls [] (set_buffers [] p)), disconnect (output p) e)).
End LoopPlayer.

(* ================================================================== *)
(** ** synthesizers/WindSynth.js, as the wind player uses it *)
(* ================================================================== *)

(** The synthesizer is kept at the level of its contract with the player:
    whether it plays, its output gain and its gust timer.  The graph
    behind the output (brown-noise source, filters, the two LFO
    oscillators) is summarised by the flags [noiseGen] and [lfos]; the
    samples of the noise bed are those of [NoiseGenerator.createBrownNoise]. *)
Module WindSynth.
Local Open Scope Q_scope.

Record t := mk {
  self : nat;
  output : nat;               (* BaseSynth: [this.output = context.createGain()] *)
  defaultFadeTime : Q;
  isPlaying : bool;
  noiseGen : bool;            (* [this.noiseGen !== null] *)
  lfos : bool;                (* [this.filterLFO] and [this.volumeLFO] are set *)
  gustTimer : option nat }.

Definition set_isPlaying v s := mk (self s) (output s) (defaultFadeTime s) v (noiseGen s) (lfos s) (gustTimer s).
Definition set_noiseGen v s := mk (self s) (output s) (defaultFadeTime s) (isPlaying s) v (lfos s) (gustTimer s).
Definition set_lfos v s := mk (self s) (output s) (defaultFadeTime s) (isPlaying s) (noiseGen s) v (gustTimer s).
Definition set_gustTimer v s := mk (self s) (output s) (defaultFadeTime s) (isPlaying s) (noiseGen s) (lfos s) v.

Definition create (self : nat) (e : Env) : t * Env :=
  let '(out, e) := createGain e in
  (mk self out 1.5 false false false None, e).

(** [fadeIn(duration, targetVolume)] of BaseSynth *)
Definition fadeIn (duration targetVolume : Q) (s : t) (e : Env) : Env :=
  let now := currentTime e in
  let e := on_gain (output s) (AudioParam.cancelScheduledValues now) e in
  let e := on_gain (output s) (AudioParam.setValueAtTime 0 now) e in
  on_gain (output s) (AudioParam.linearRampToValueAtTime targetVolume (now + duration)) e.

(** [fadeOut(duration)] of BaseSynth: resolves when the timer fires. *)
Definition fadeOut (duration : Q) : Async (t * Env) unit :=
  exec modify (fun '(s, e) =>
    let now := currentTime e in
    let currentVolume := gain_value (output s) e in
    let e := on_gain (output s) (AudioParam.cancelScheduledValues now) e in
    let e := on_gain (output s) (AudioParam.setValueAtTime currentVolume now) e in
    let e := on_gain (output s) (AudioParam.linearRampToValueAtTime 0 (now + duration)) e in
    (s, e));
  exec await (Timer (duration * 1000));
  ret tt.

(** [_startGusts()]: the first gust after 3 to 8 seconds. *)
Definition _startGusts (s : t) (e : Env) : option (t * Env) :=
  match random e with
  | Some (r, e) =>
      let '(id, e) := setTimeout (SynthGust (self s)) (3000 + r * 5000) e in
      Some (set_gustTimer (Some id) s, e)
  | None => None
  end.

Definition _stopGusts (s : t) (e : Env) : t * Env :=
  match gustTimer s with
  | Some id => (set_gustTimer None s, clearTimeout id e)
  | None => (s, e)
  end.

(** [start()] *)
Definition start (s : t) (e : Env) : option (t * Env) :=
  if isPlaying s then Some (s, e) else
  let s := set_isPlaying true s in
  let s := set_noiseGen true s in
  let s := set_lfos true s in
  match _startGusts s e with
  | Some (s, e) => Some (s, fadeIn (defaultFadeTime s) 1 s e)
  | None => None
  end.

(** [async stop(fadeTime)]: [isPlaying] falls only after the fade. *)
Definition stop (fadeTime : Q) : Async (t * Env) unit :=
  do playing <- gets (fun '(s, _) => isPlaying s);
  if negb playing then ret tt else
  exec modify (fun '(s, e) => _stopGusts s e);
  exec await_call (fadeOut fadeTime);
  modify (fun '(s, e) =>
    (set_isPlaying false (set_noiseGen false (set_lfos false s)), e)).

(** [dispose()] *)
Definition dispose : Async (t * Env) unit :=
  exec call_detached (stop 0);
  modify (fun '(s, e) => (set_lfos false s, disconnect (output s) e)).
End WindSynth.

(* ================================================================== *)
(** ** utils/WindPlayer.js *)
(* ================================================================== *)

Module WindPlayer.
Local Open Scope Q_scope.

Record t := mk {
  self : nat;
  softWindUrls : list string;
  synthMix : Q;
  recordingMix : Q;
  crossfadeDuration : Q;
  output : nat;
  windSynth : WindSynth.t;
  synthGain : nat;
  recordingBuffers : list AudioBuffer;
  currentSource : option nat;
  recordingGain : nat;
  recordingFilter : nat;
  isPlaying : bool;
  isLoaded : bool;
  crossfadeTimer : option nat;
  _currentBufferIndex : Z }.

Definition set_windSynth v p := mk (self p) (softWindUrls p) (synthMix p) (recordingMix p)
  (crossfadeDuration p) (output p) v (synthGain p) (recordingBuffers p) (currentSource p)
  (recordingGain p) (recordingFilter p) (isPlaying p) (isLoaded p) (crossfadeTimer p)
  (_currentBufferIndex p).
Definition set_recordingBuffers v p := mk (self p) (softWindUrls p) (synthMix p) (recordingMix p)
  (crossfadeDuration p) (output p) (windSynth p) (synthGain p) v (currentSource p)
  (recordingGain p) (recordingFilter p) (isPlaying p) (isLoaded p) (crossfadeTimer p)
  (_currentBufferIndex p).
Definition set_currentSource v p := mk (self p) (softWindUrls p) (synthMix p) (recordingMix p)
  (crossfadeDuration p) (output p) (windSynth p) (synthGain p) (recordingBuffers p) v
  (recordingGain p) (recordingFilter p) (isPlaying p) (isLoaded p) (crossfadeTimer p)
  (_currentBufferIndex p).
Definition set_isPlaying v p := mk (self p) (softWindUrls p) (synthMix p) (recordingMix p)
  (crossfadeDuration p) (output p) (windSynth p) (synthGain p) (recordingBuffers p)
  (currentSource p) (recordingGain p) (recordingFilter p) v (isLoaded p) (crossfadeTimer p)
  (_currentBufferIndex p).
Definition set_isLoaded v p := mk (self p) (softWindUrls p) (synthMix p) (recordingMix p)
  (crossfadeDuration p) (output p) (windSynth p) (synthGain p) (recordingBuffers p)
  (currentSource p) (recordingGain p) (recordingFilter p) (isPlaying p) v (crossfadeTimer p)
  (_currentBufferIndex p).
Definition set_crossfadeTimer v p := mk (self p) (softWindUrls p) (synthMix p) (recordingMix p)
  (crossfadeDuration p) (output p) (windSynth p) (synthGain p) (recordingBuffers p)
  (currentSource p) (recordingGain p) (recordingFilter p) (isPlaying p) (isLoaded p) v
  (_currentBufferIndex p).
Definition set_currentBufferIndex v p := mk (self p) (softWindUrls p) (synthMix p) (recordingMix p)
  (crossfadeDuration p) (output p) (windSynth p) (synthGain p) (recordingBuffers p)
  (currentSource p) (recordingGain p) (recordingFilter p) (isPlaying p) (isLoaded p)
  (crossfadeTimer p) v.
Definition set_mix sm rm p := mk (self p) (softWindUrls p) sm rm
  (crossfadeDuration p) (output p) (windSynth p) (synthGain p) (recordingBuffers p)
  (currentSource p) (recordingGain p) (recordingFilter p) (isPlaying p) (isLoaded p)
  (crossfadeTimer p) (_currentBufferIndex p).

(** The synthesizer this player owns, as an object inside it. *)
Definition synth : Lens (t * Env) (WindSynth.t * Env) :=
  mkLens (fun '(p, e) => Some (windSynth p, e))
         (fun '(s, e) '(p, _) => (set_windSynth s p, e)).

(** [new WindPlayer(context, options)] *)
Definition create (self : nat) (softWindUrls : option (list string))
    (synthMix recordingMix crossfade : option Q) (e : Env) : t * Env :=
  let synthMix := nullish synthMix 0.4 in
  let recordingMix := nullish recordingMix 0.6 in
  let '(out, e) := createGain e in
  let '(ws, e) := WindSynth.create self e in
  let '(sg, e) := createGain e in
  let e := on_gain sg (AudioParam.set_value synthMix (currentTime e)) e in
  let '(rg, e) := createGain e in
  let e := on_gain rg (AudioParam.set_value recordingMix (currentTime e)) e in
  let '(rf, e) := createBiquadFilter e in
  let e := set_filter rf "lowpass" 4000 0.5 e in
  let e := connect (WindSynth.output ws) sg e in
  let e := connect sg out e in
  let e := connect rf rg e in
  let e := connect rg out e in
  (mk self (nullish softWindUrls []) synthMix recordingMix (num_or crossfade 4)
      out ws sg [] None rg rf false false None (-1), e).

(** [async load()]: loaded even when no recording could be fetched. *)
Definition load : Async (t * Env) unit :=
  do urls <- gets (fun '(p, _) => softWindUrls p);
  exec (if (0 <? length urls)%nat then
          do results <- await (Fetch urls);
          exec modify (fun '(p, e) =>
            (set_recordingBuffers
               (omap (fun index => loaded_at results index) (seq 0 (length urls))) p, e));
          console "[WindPlayer] Loaded soft wind recordings"
        else ret tt);
  exec modify (fun '(p, e) => (set_isLoaded true p, e));
  console "[WindPlayer] Ready".

(** The [do ... while] of [_getRandomBufferIndex]. *)
Fixpoint draw_index (len : nat) (current : Z) (rng : list Q) : option (Z * list Q) :=
  match rng with
  | [] => None
  | r :: rest =>
      let index := Math_floor (r * inject_Z (Z.of_nat len)) in
      if (index =? current)%Z then draw_index len current rest
      else Some (index, rest)
  end.

Definition _getRandomBufferIndex (p : t) (e : Env) : option (Z * Env) :=
  if (length (recordingBuffers p) =? 1)%nat then Some (0%Z, e)
  else match draw_index (length (recordingBuffers p)) (_currentBufferIndex p) (rng e) with
       | Some (index, rest) => Some (index, with_rng rest e)
       | None => None
       end.

Definition buffer_at (p : t) (i : Z) : option AudioBuffer :=
  if (i <? 0)%Z then None else recordingBuffers p !! Z.to_nat i.

(** [_scheduleCrossfade(bufferDuration)] *)
Definition _scheduleCrossfade (bufferDuration : Q) (p : t) (e : Env) : t * Env :=
  let fadeStartTime := (bufferDuration - crossfadeDuration p) * 1000 in
  let '(id, e) := setTimeout (WindCrossfade (self p)) (Qmax fadeStartTime 1000) e in
  (set_crossfadeTimer (Some id) p, e).

(** A fresh source over [buffer] with randomised rate and detune. *)
Definition new_recording_source (buffer : AudioBuffer) (e : Env) : option (nat * Q * Env) :=
  let '(source, e) := createBufferSource e in
  let e := set_buffer source buffer e in
  let e := set_loop source false e in
  match random e with
  | None => None
  | Some (r1, e) =>
      let rate := 0.95 + r1 * 0.1 in
      let e := set_playbackRate source rate e in
      match random e with
      | None => None
      | Some (r2, e) =>
          let e := set_detune source ((r2 - 0.5) * 100) e in
          Some (source, rate, e)
      end
  end.

(** [_startRecordingLayer()] *)
Definition _startRecordingLayer (p : t) (e : Env) : option (t * Env) :=
  if (length (recordingBuffers p) =? 0)%nat then Some (p, e) else
  let now := currentTime e in
  match _getRandomBufferIndex p e with
  | None => None
  | Some (index, e) =>
    let p := set_currentBufferIndex index p in
    match buffer_at p index with
    | None => None
    | Some buffer =>
      match new_recording_source buffer e with
      | None => None
      | Some (source, rate, e) =>
        let p := set_currentSource (Some source) p in
        let e := connect source (recordingFilter p) e in
        let e := on_gain (recordingGain p) (AudioParam.setValueAtTime 0 now) e in
        let e := on_gain (recordingGain p)
                   (AudioParam.linearRampToValueAtTime (recordingMix p) (now + 2)) e in
        let e := source_start source e in
        Some (_scheduleCrossfade (duration buffer / rate) p e)
      end
    end
  end.

(** [start()] *)
Definition start (p : t) (e : Env) : option (t * Env) :=
  if negb (isLoaded p) || isPlaying p then Some (p, e) else
  let p := set_isPlaying true p in
  let now := currentTime e in
  match WindSynth.start (windSynth p) e with
  | None => None
  | Some (ws, e) =>
      let p := set_windSynth ws p in
      let e := on_gain (synthGain p) (AudioParam.setValueAtTime 0 now) e in
      let e := on_gain (synthGain p)
                 (AudioParam.linearRampToValueAtTime (synthMix p) (now + 1.5)) e in
      _startRecordingLayer p e
  end.

(** [_performCrossfade()] *)
Definition _performCrossfade (p : t) (e : Env) : option (t * Env) :=
  if negb (isPlaying p) || (length (recordingBuffers p) =? 0)%nat then Some (p, e) else
  let now := currentTime e in
  let oldSource := currentSource p in
  match _getRandomBufferIndex p e with
  | None => None
  | Some (index, e) =>
    let p := set_currentBufferIndex index p in
    match buffer_at p index with
    | None => None
    | Some buffer =>
      let '(newSourceGain, e) := createGain e in
      let e := on_gain newSourceGain (AudioParam.setValueAtTime 0 now) e in
      let e := on_gain newSourceGain
                 (AudioParam.linearRampToValueAtTime 1 (now + crossfadeDuration p)) e in
      let '(oldSourceGain, e) := createGain e in
      let e := on_gain oldSourceGain (AudioParam.setValueAtTime 1 now) e in
      let e := on_gain oldSourceGain
                 (AudioParam.linearRampToValueAtTime 0 (now + crossfadeDuration p)) e in
      match new_recording_source buffer e with
      | None => None
      | Some (source, rate, e) =>
        let p := set_currentSource (Some source) p in
        let e := match oldSource with
                 | Some old =>
                     let e := disconnect old e in
                     let e := connect old oldSourceGain e in
                     connect oldSourceGain (recordingFilter p) e
                 | None => e
                 end in
        let e := connect source newSourceGain e in
        let e := connect newSourceGain (recordingFilter p) e in
        let e := source_start source e in
        let e := snd (setTimeout (WindCleanupOld oldSource oldSourceGain)
                        (crossfadeDuration p * 1000 + 100) e) in
        let e := snd (setTimeout (WindRewire (self p) newSourceGain)
                        (crossfadeDuration p * 1000 + 100) e) in
        Some (_scheduleCrossfade (duration buffer / rate) p e)
      end
    end
  end.

(** [async stop(fadeTime)] *)
Definition stop (fadeTime : Q) : Async (t * Env) unit :=
  do playing <- gets (fun '(p, _) => isPlaying p);
  if negb playing then ret tt else
  exec modify (fun '(p, e) =>
    let p := set_isPlaying false p in
    let '(p, e) := match crossfadeTimer p with
                   | Some id => (set_crossfadeTimer None p, clearTimeout id e)
                   | None => (p, e)
                   end in
    let now := currentTime e in
    let e := on_gain (synthGain p)
               (AudioParam.setValueAtTime (gain_value (synthGain p) e) now) e in
    let e := on_gain (synthGain p) (AudioParam.linearRampToValueAtTime 0 (now + fadeTime)) e in
    let e := on_gain (recordingGain p)
               (AudioParam.setValueAtTime (gain_value (recordingGain p) e) now) e in
    let e := on_gain (recordingGain p)
               (AudioParam.linearRampToValueAtTime 0 (now + fadeTime)) e in
    (p, e));
  exec await_call (zoom synth (WindSynth.stop fadeTime));
  exec await (Timer (fadeTime * 1000));
  exec modify (fun '(p, e) =>
    match currentSource p with
    | Some s => (set_currentSource None p, try_stop_then s (disconnect s) e)
    | None => (p, e)
    end);
  console "[WindPlayer] Stopped".

(** [setMix(synthMix, recordingMix)] *)
Definition setMix (sm rm : Q) (p : t) (e : Env) : t * Env :=
  let now := currentTime e in
  let p := set_mix (clamp 0 1 sm) (clamp 0 1 rm) p in
  let e := on_gain (synthGain p)
             (AudioParam.setValueAtTime (gain_value (synthGain p) e) now) e in
  let e := on_gain (synthGain p)
             (AudioParam.linearRampToValueAtTime (synthMix p) (now + 0.5)) e in
  let e := on_gain (recordingGain p)
             (AudioParam.setValueAtTime (gain_value (recordingGain p) e) now) e in
  let e := on_gain (recordingGain p)
             (AudioParam.linearRampToValueAtTime (recordingMix p) (now + 0.5)) e in
  (p, e).

Definition connect_to (destination : nat) (p : t) (e : Env) : Env :=
  connect (output p) destination e.

(** [dispose()] *)
Definition dispose : Async (t * Env) unit :=
  exec call_detached (stop 0);
  exec zoom synth WindSynth.dispose;
  modify (fun '(p, e) => (set_recordingBuffers [] p, disconnect (output p) e)).
End WindPlayer.

(* ================================================================== *)
(** ** utils/CafePlayer.js *)
(* ================================================================== *)

Module CafePlayer.
Local Open Scope Q_scope.

Record t := mk {
  self : nat;
  ambienceUrl : option string;
  sfxUrls : list string;
  sfxInterval : Q;
  output : nat;
  ambienceBuffer : option AudioBuffer;      (* [null] until loaded *)
  ambienceSource : option nat;
  ambienceGain : nat;
  lowpassFilter : nat;
  highShelf : nat;
  sfxBuffers : list AudioBuffer;
  sfxGain : nat;
  isPlaying : bool;
  isLoaded : bool;
  sfxTimer : option nat }.

Definition set_ambienceBuffer v p := mk (self p) (ambienceUrl p) (sfxUrls p) (sfxInterval p)
  (output p) v (ambienceSource p) (ambienceGain p) (lowpassFilter p) (highShelf p)
  (sfxBuffers p) (sfxGain p) (isPlaying p) (isLoaded p) (sfxTimer p).
Definition set_ambienceSource v p := mk (self p) (ambienceUrl p) (sfxUrls p) (sfxInterval p)
  (output p) (ambienceBuffer p) v (ambienceGain p) (lowpassFilter p) (highShelf p)
  (sfxBuffers p) (sfxGain p) (isPlaying p) (isLoaded p) (sfxTimer p).
Definition set_sfxBuffers v p := mk (self p) (ambienceUrl p) (sfxUrls p) (sfxInterval p)
  (output p) (ambienceBuffer p) (ambienceSource p) (ambienceGain p) (lowpassFilter p)
  (highShelf p) v (sfxGain p) (isPlaying p) (isLoaded p) (sfxTimer p).
Definition set_isPlaying v p := mk (self p) (ambienceUrl p) (sfxUrls p) (sfxInterval p)
  (output p) (ambienceBuffer p) (ambienceSource p) (ambienceGain p) (lowpassFilter p)
  (highShelf p) (sfxBuffers p) (sfxGain p) v (isLoaded p) (sfxTimer p).
Definition set_isLoaded v p := mk (self p) (ambienceUrl p) (sfxUrls p) (sfxInterval p)
  (output p) (ambienceBuffer p) (ambienceSource p) (ambienceGain p) (lowpassFilter p)
  (highShelf p) (sfxBuffers p) (sfxGain p) (isPlaying p) v (sfxTimer p).
Definition set_sfxTimer v p := mk (self p) (ambienceUrl p) (sfxUrls p) (sfxInterval p)
  (output p) (ambienceBuffer p) (ambienceSource p) (ambienceGain p) (lowpassFilter p)
  (highShelf p) (sfxBuffers p) (sfxGain p) (isPlaying p) (isLoaded p) v.

(** [new CafePlayer(context, options)] *)
Definition create (self : nat) (ambienceUrl : option string)
    (sfxUrls : option (list string)) (sfxInterval : option Q) (e : Env) : t * Env :=
  let '(out, e) := createGain e in
  let '(ag, e) := createGain e in
  let e := on_gain ag (AudioParam.set_value 1.0 (currentTime e)) e in
  let '(lp, e) := createBiquadFilter e in
  let e := set_filter lp "lowpass" 1200 0.7 e in
  let '(hs, e) := createBiquadFilter e in
  let e := set_filter hs "highshelf" 2000 1 e in
  let e := set_filter_gain hs (-6) e in
  let '(sg, e) := createGain e in
  let e := on_gain sg (AudioParam.set_value 0.5 (currentTime e)) e in
  let e := connect lp hs e in
  let e := connect hs ag e in
  let e := connect ag out e in
  let e := connect sg out e in
  (mk self ambienceUrl (nullish sfxUrls []) (num_or sfxInterval 8)
      out None None ag lp hs [] sg false false None, e).

(** [if (this.ambienceUrl)]: a string that is present and not empty. *)
Definition truthy_url (u : option string) : option string :=
  match u with
  | Some "" => None
  | other => other
  end.

(** [async load()]: the player is loaded exactly when the ambience is. *)
Definition load : Async (t * Env) unit :=
  do url <- gets (fun '(p, _) => truthy_url (ambienceUrl p));
  exec match url with
       | Some u =>
           do result <- await (Fetch [u]);
           modify (fun '(p, e) => (set_ambienceBuffer (loaded_at result 0) p, e))
       | None => ret tt
       end;
  do urls <- gets (fun '(p, _) => sfxUrls p);
  do sfxResults <- await (Fetch urls);
  exec modify (fun '(p, e) =>
    let p := set_sfxBuffers
               (omap (fun index => loaded_at sfxResults index) (seq 0 (length urls))) p in
    (set_isLoaded (match ambienceBuffer p with Some _ => true | None => false end) p, e));
  console "[CafePlayer] Loaded".

(** [_startSfx()]: the first effect after 2 to 5 seconds. *)
Definition _startSfx (p : t) (e : Env) : option (t * Env) :=
  if (length (sfxBuffers p) =? 0)%nat then Some (p, e) else
  match random e with
  | Some (r, e) =>
      let '(id, e) := setTimeout (CafeSfx (self p)) (2000 + r * 3000) e in
      Some (set_sfxTimer (Some id) p, e)
  | None => None
  end.

Definition _stopSfx (p : t) (e : Env) : t * Env :=
  match sfxTimer p with
  | Some id => (set_sfxTimer None p, clearTimeout id e)
  | None => (p, e)
  end.

(** [start()] *)
Definition start (p : t) (e : Env) : option (t * Env) :=
  if negb (isLoaded p) || isPlaying p then Some (p, e) else
  let p := set_isPlaying true p in
  let '(p, e) :=
    match ambienceBuffer p with
    | Some buffer =>
        let '(source, e) := createBufferSource e in
        let p := set_ambienceSource (Some source) p in
        let e := set_buffer source buffer e in
        let e := set_loop source true e in
        let e := connect source (lowpassFilter p) e in
        let now := currentTime e in
        let e := on_gain (ambienceGain p) (AudioParam.setValueAtTime 0 now) e in
        let e := on_gain (ambienceGain p)
                   (AudioParam.linearRampToValueAtTime 1.0 (now + 1.5)) e in
        (p, source_start source e)
    | None => (p, e)
    end in
  _startSfx p e.

(** [async stop(fadeTime)] *)
Definition stop (fadeTime : Q) : Async (t * Env) unit :=
  do playing <- gets (fun '(p, _) => isPlaying p);
  if negb playing then ret tt else
  exec modify (fun '(p, e) =>
    let p := set_isPlaying false p in
    let '(p, e) := _stopSfx p e in
    let now := currentTime e in
    let e := on_gain (ambienceGain p)
               (AudioParam.setValueAtTime (gain_value (ambienceGain p) e) now) e in
    let e := on_gain (ambienceGain p)
               (AudioParam.linearRampToValueAtTime 0 (now + fadeTime)) e in
    (p, e));
  exec await (Timer (fadeTime * 1000));
  exec modify (fun '(p, e) =>
    match ambienceSource p with
    | Some s => (set_ambienceSource None p, try_stop_then s (disconnect s) e)
    | None => (p, e)
    end);
  console "[CafePlayer] Stopped".

Definition connect_to (destination : nat) (p : t) (e : Env) : Env :=
  connect (output p) destination e.

(** [dispose()] *)
Definition dispose : Async (t * Env) unit :=
  exec call_detached (stop 0);
  modify (fun '(p, e) =>
    (set_sfxBuffers [] (set_ambienceBuffer None p), disconnect (output p) e)).
End CafePlayer.

(* ================================================================== *)
(** ** AudioEngine.js *)
(* ================================================================== *)

(** A scene player object is one of the three classes. *)
Inductive Player : Type :=
| PLoop (p : LoopPlayer.t)
| PCafe (p : CafePlayer.t)
| PWind (p : WindPlayer.t).

(** A scene configuration object; a missing property is [None]. *)
Record SceneConfig := mkConfig {
  type : option string;
  files : option (list string);
  crossfadeDuration : option Q;
  ambience : option string;
  sfx : option (list string);
  sfxInterval : option Q;
  softWindFiles : option (list string);
  synthMix : option Q;
  recordingMix : option Q }.

Definition loop_config (files : list string) (crossfade : Q) : SceneConfig :=
  mkConfig None (Some files) (Some crossfade) None None None None None None.
Definition cafe_config (ambience : string) (sfx : list string) (interval : Q) : SceneConfig :=
  mkConfig (Some "cafe") None None (Some ambience) (Some sfx) (Some interval) None None None.
Definition wind_config (files : list string) (sm rm crossfade : Q) : SceneConfig :=
  mkConfig (Some "wind") None (Some crossfade) None None None (Some files) (Some sm) (Some rm).

Definition DEFAULT_SCENES : list (string * SceneConfig) := [
  ("rain", loop_config
     [ "src/audio/loops/rain/gentle-rain-from-window.mp3";
       "src/audio/loops/rain/rain-and-birds.mp3";
       "src/audio/loops/rain/rain-on-concrete-sound-30331.mp3" ] 3);
  ("cafe", cafe_config
     "src/audio/loops/coffee/people-talking-at-cafe-ambience.mp3"
     [ "src/audio/loops/coffee/cup_spoon_hotwater.mp3";
       "src/audio/loops/coffee/glass-cup-set-down71326.mp3";
       "src/audio/loops/coffee/coffee-pouring-into-a-cup.mp3";
       "src/audio/loops/coffee/teacup-clink-sfx.mp3" ] 6);
  ("wind", wind_config
     [ "src/audio/loops/wind/storegraphic-soft-wind-314945.mp3";
       "src/audio/loops/wind/storegraphic-soft-wind-316392.mp3";
       "src/audio/loops/wind/storegraphic-soft-wind-477404.mp3";
       "src/audio/loops/wind/storegraphic-soft-wind-leaves-316393.mp3" ] 0.35 0.65 4)
]%Q.

(** [scenes[scene]] on the configuration object. *)
Fixpoint scene_config (scenes : list (string * SceneConfig)) (scene : string)
  : option SceneConfig :=
  match scenes with
  | [] => None
  | (k, c) :: rest => if String.eqb k scene then Some c else scene_config rest scene
  end.

Module AudioEngine.
Local Open Scope Q_scope.

(** The fields of an [AudioEngine] object.  [audioContext] holds the
    destination node of the context once it exists; [analyzer] the
    analyser node of the [AudioAnalyzer] the engine owns. *)
Record t := mk {
  opt_scenes : list (string * SceneConfig); (* options.scenes *)
  opt_defaultVolume : Q;                    (* options.defaultVolume *)
  opt_crossfadeDuration : Q;                (* options.crossfadeDuration *)
  audioContext : option nat;
  masterGain : option nat;
  analyzer : option nat;
  players : gmap string nat;
  currentPlayer : option nat;
  currentScene : option string;
  isInitialized : bool;
  isPlaying : bool;
  animationFrameId : option nat;
  loadingStatus : gmap string bool }.

Definition set_graph ctx mg an g := mk (opt_scenes g) (opt_defaultVolume g) (opt_crossfadeDuration g)
  ctx mg an (players g) (currentPlayer g) (currentScene g) (isInitialized g) (isPlaying g)
  (animationFrameId g) (loadingStatus g).
Definition set_players v g := mk (opt_scenes g) (opt_defaultVolume g) (opt_crossfadeDuration g)
  (audioContext g) (masterGain g) (analyzer g) v (currentPlayer g) (currentScene g)
  (isInitialized g) (isPlaying g) (animationFrameId g) (loadingStatus g).
Definition set_playback pl sc playing g := mk (opt_scenes g) (opt_defaultVolume g) (opt_crossfadeDuration g)
  (audioContext g) (masterGain g) (analyzer g) (players g) pl sc
  (isInitialized g) playing (animationFrameId g) (loadingStatus g).
Definition set_isInitialized v g := mk (opt_scenes g) (opt_defaultVolume g) (opt_crossfadeDuration g)
  (audioContext g) (masterGain g) (analyzer g) (players g) (currentPlayer g) (currentScene g)
  v (isPlaying g) (animationFrameId g) (loadingStatus g).
Definition set_animationFrameId v g := mk (opt_scenes g) (opt_defaultVolume g) (opt_crossfadeDuration g)
  (audioContext g) (masterGain g) (analyzer g) (players g) (currentPlayer g) (currentScene g)
  (isInitialized g) (isPlaying g) v (loadingStatus g).
Definition set_loadingStatus v g := mk (opt_scenes g) (opt_defaultVolume g) (opt_crossfadeDuration g)
  (audioContext g) (masterGain g) (analyzer g) (players g) (currentPlayer g) (currentScene g)
  (isInitialized g) (isPlaying g) (animationFrameId g) v.

(** What the browser allows: whether an [AudioContext] may be created,
    and whether a new one starts suspended. *)
Record Policy := mkPolicy { allows_context : bool; starts_suspended : bool }.

(** Everything an engine method can reach: the platform, the player
    objects (by reference) and the engine object itself. *)
Record World := mkWorld {
  env : Env;
  heap : list Player;
  this : t;
  policy : Policy }.

Definition with_env v w := mkWorld v (heap w) (this w) (policy w).
Definition with_heap v w := mkWorld (env w) v (this w) (policy w).
Definition with_this v w := mkWorld (env w) (heap w) v (policy w).
Definition on_this (f : t -> t) w := with_this (f (this w)) w.
Definition on_env (f : Env -> Env) w := with_env (f (env w)) w.

(** [new AudioEngine(options)]: [...options] comes last in the object
    literal, so a [scenes] option replaces the default table. *)
Definition create (defaultVolume crossfade : option Q)
    (custom : option (list (string * SceneConfig))) : t :=
  mk (nullish custom DEFAULT_SCENES) (nullish defaultVolume 0.7) (nullish crossfade 1.5)
     None None None ∅ None None false false None ∅.

(** *** The player objects, by reference *)

Definition loop_at (r : nat) : Lens World (LoopPlayer.t * Env) :=
  mkLens (fun w => match heap w !! r with
                   | Some (PLoop p) => Some (p, env w)
                   | _ => None
                   end)
         (fun '(p, e) w => with_env e (with_heap (<[r := PLoop p]> (heap w)) w)).

Definition cafe_at (r : nat) : Lens World (CafePlayer.t * Env) :=
  mkLens (fun w => match heap w !! r with
                   | Some (PCafe p) => Some (p, env w)
                   | _ => None
                   end)
         (fun '(p, e) w => with_env e (with_heap (<[r := PCafe p]> (heap w)) w)).

Definition wind_at (r : nat) : Lens World (WindPlayer.t * Env) :=
  mkLens (fun w => match heap w !! r with
                   | Some (PWind p) => Some (p, env w)
                   | _ => None
                   end)
         (fun '(p, e) w => with_env e (with_heap (<[r := PWind p]> (heap w)) w)).

(** [new X(...)]: the object gets the next free reference. *)
Definition alloc (make : nat -> Env -> Player * Env) (w : World) : nat * World :=
  let r := length (heap w) in
  let '(pl, e) := make r (env w) in
  (r, with_env e (with_heap (heap w ++ [pl]) w)).

Definition player_isLoaded (pl : Player) : bool :=
  match pl with
  | PLoop p => LoopPlayer.isLoaded p
  | PCafe p => CafePlayer.isLoaded p
  | PWind p => WindPlayer.isLoaded p
  end.


Definition player_output (pl : Player) : nat :=
  match pl with
  | PLoop p => LoopPlayer.output p
  | PCafe p => CafePlayer.output p
  | PWind p => WindPlayer.output p
  end.

(** [player.start()] on the object at [r]. *)
Definition player_start (r : nat) (w : World) : option World :=
  match heap w !! r with
  | Some (PLoop p) =>
      match LoopPlayer.start p (env w) with
      | Some (p, e) => Some (with_env e (with_heap (<[r := PLoop p]> (heap w)) w))
      | None => None
      end
  | Some (PCafe p) =>
      match CafePlayer.start p (env w) with
      | Some (p, e) => Some (with_env e (with_heap (<[r := PCafe p]> (heap w)) w))
      | None => None
      end
  | Some (PWind p) =>
      match WindPlayer.start p (env w) with
      | Some (p, e) => Some (with_env e (with_heap (<[r := PWind p]> (heap w)) w))
      | None => None
      end
  | None => None
  end.

(** [player.stop(fadeTime)] on the object at [r]. *)
Definition player_stop (r : nat) (fadeTime : Q) : Async World unit :=
  fun w =>
    match heap w !! r with
    | Some (PLoop _) => zoom (loop_at r) (LoopPlayer.stop fadeTime) w
    | Some (PCafe _) => zoom (cafe_at r) (CafePlayer.stop fadeTime) w
    | Some (PWind _) => zoom (wind_at r) (WindPlayer.stop fadeTime) w
    | None => (w, Stuck)
    end.

(** *** Methods *)

(** [isSceneLoaded(scene)] *)
Definition isSceneLoaded (scene : string) (w : World) : bool :=
  match players (this w) !! scene with
  | Some r =>
      match heap w !! r with
      | Some pl => player_isLoaded pl
      | None => false
      end
  | None => false
  end.

(** The end of the [try] block of [_loadScene]: connect the player to
    the master gain and enter it in the table.  Without a master gain
    [connect] throws and the [catch] only logs. *)
Definition register_player (scene : string) (r : nat) : Async World unit :=
  do w <- get;
  match masterGain (this w), heap w !! r with
  | Some mg, Some pl =>
      exec modify (fun w =>
        on_this (set_players (<[scene := r]> (players (this w))))
                (on_env (connect (player_output pl) mg) w));
      console ("[AudioEngine] Scene loaded: " ++ scene)
  | _, _ => console ("[AudioEngine] Failed to load scene " ++ scene)
  end.

(** [async _loadScene(scene)] *)
Definition _loadScene (scene : string) : Async World unit :=
  do w <- get;
  match players (this w) !! scene with
  | Some _ => ret tt
  | None =>
    match scene_config (opt_scenes (this w)) scene with
    | None => console ("[AudioEngine] No config for scene: " ++ scene)
    | Some config =>
      exec modify (on_this (fun g =>
             set_loadingStatus (<[scene := true]> (loadingStatus g)) g));
      do finished <-
        (if bool_decide (type config = Some "cafe") then
           do r <- (fun w => let '(r, w) :=
                      alloc (fun self e =>
                        let '(p, e) := CafePlayer.create self (ambience config)
                                         (sfx config) (sfxInterval config) e in
                        (PCafe p, e)) w in ret r w);
           exec await_call (zoom (cafe_at r) CafePlayer.load);
           exec register_player scene r;
           ret true
         else if bool_decide (type config = Some "wind") then
           do r <- (fun w => let '(r, w) :=
                      alloc (fun self e =>
                        let '(p, e) := WindPlayer.create self (softWindFiles config)
                                         (Some (nullish (synthMix config) 0.35))
                                         (Some (nullish (recordingMix config) 0.65))
                                         (Some (num_or (crossfadeDuration config) 4)) e in
                        (PWind p, e)) w in ret r w);
           exec await_call (zoom (wind_at r) WindPlayer.load);
           exec register_player scene r;
           ret true
         else
           match files config with
           | None | Some [] =>
               exec console ("[AudioEngine] No files for scene: " ++ scene);
               ret false
           | Some urls =>
               do r <- (fun w => let '(r, w) :=
                          alloc (fun self e =>
                            let '(p, e) := LoopPlayer.create self
                                             (Some (num_or (crossfadeDuration config) 2)) e in
                            (PLoop p, e)) w in ret r w);
               exec await_call (zoom (loop_at r) (LoopPlayer.load urls));
               exec register_player scene r;
               ret true
           end);
      if finished : bool then
        modify (on_this (fun g =>
          set_loadingStatus (<[scene := false]> (loadingStatus g)) g))
      else ret tt
    end
  end.

(** [async _preloadScenes()]: every load is started, none is awaited. *)
Definition _preloadScenes : Async World unit :=
  do w <- get;
  (fix each (keys : list string) : Async World unit :=
     match keys with
     | [] => ret tt
     | scene :: rest =>
         exec call_detached (_loadScene scene);
         each rest
     end) (map fst (opt_scenes (this w))).

(** [async init()] *)
Definition init : Async World unit :=
  do w <- get;
  if isInitialized (this w) then ret tt else
  try_catch
    (if negb (allows_context (policy w)) then throw "NotAllowedError" else
     do destination <- (fun w => let '(d, e) := new_node DestinationNode (env w) in
                                 ret d (with_env e w));
     exec modify (on_this (fun g => set_graph (Some destination) (masterGain g) (analyzer g) g));
     exec (if starts_suspended (policy w) then
             do resumed <- await ContextResume;
             match resumed with
             | RError err => throw err
             | _ => ret tt
             end
           else ret tt);
     exec modify (fun w =>
       let '(mg, e) := createGain (env w) in
       let e := on_gain mg (AudioParam.set_value (opt_defaultVolume (this w)) (currentTime e)) e in
       let '(an, e) := new_node (AnalyserNode 2048 0.85) e in
       let e := connect mg an e in
       let e := connect an destination e in
       let g := set_graph (audioContext (this w)) (Some mg) (Some an) (this w) in
       let g := set_animationFrameId (Some 1%nat) g in
       with_env e (with_this (set_isInitialized true g) w));
     exec console "[AudioEngine] Initialized";
     call_detached _preloadScenes)
    (fun error =>
       exec console "[AudioEngine] Failed to initialize";
       throw error).

(** [async play(scene)] *)
Definition play (scene : string) : Async World unit :=
  do w <- get;
  if negb (isInitialized (this w)) then console "[AudioEngine] Not initialized" else
  if bool_decide (currentScene (this w) = Some scene) && isPlaying (this w) then ret tt else
  do available <-
    (if negb (isSceneLoaded scene w) then
       exec console ("[AudioEngine] Loading scene: " ++ scene);
       exec await_call (_loadScene scene);
       do w <- get;
       if negb (isSceneLoaded scene w) then
         exec console ("[AudioEngine] Scene not available: " ++ scene);
         ret false
       else ret true
     else ret true);
  if negb available then ret tt else
  do w <- get;
  exec match currentPlayer (this w) with
       | Some old => call_detached (player_stop old 0)
       | None => ret tt
       end;
  do w <- get;
  match players (this w) !! scene with
  | None => fun w => (w, Stuck)
  | Some player =>
      exec attempt (player_start player);
      exec modify (on_this (set_playback (Some player) (Some scene) true));
      console ("[AudioEngine] Playing: " ++ scene)
  end.

(** [async stop(fadeTime)] *)
Definition stop (fadeTime : Q) : Async World unit :=
  do w <- get;
  match isPlaying (this w), currentPlayer (this w) with
  | true, Some player =>
      exec await_call (player_stop player fadeTime);
      exec modify (on_this (set_playback None None false));
      console "[AudioEngine] Stopped"
  | _, _ => ret tt
  end.

(** [async switchScene(scene, fadeTime)] *)
Definition switchScene (scene : string) (fadeTime : Q) : Async World unit :=
  do w <- get;
  if negb (isInitialized (this w)) then console "[AudioEngine] Not initialized" else
  if bool_decide (currentScene (this w) = Some scene) then ret tt else
  do available <-
    (if negb (isSceneLoaded scene w) then
       exec await_call (_loadScene scene);
       do w <- get;
       if negb (isSceneLoaded scene w) then
         exec console ("[AudioEngine] Scene not available: " ++ scene);
         ret false
       else ret true
     else ret true);
  if negb available then ret tt else
  do w <- get;
  let oldPlayer := currentPlayer (this w) in
  match players (this w) !! scene with
  | None => fun w => (w, Stuck)
  | Some newPlayer =>
      exec attempt (player_start newPlayer);
      exec modify (on_this (set_playback (Some newPlayer) (Some scene) true));
      exec match oldPlayer with
           | Some old => call_detached (player_stop old fadeTime)
           | None => ret tt
           end;
      console ("[AudioEngine] Switched to: " ++ scene)
  end.

(** [setVolume(value, rampTime)] *)
Definition setVolume (value rampTime : Q) (w : World) : World :=
  match masterGain (this w), audioContext (this w) with
  | Some mg, Some _ =>
      let clampedValue := clamp 0 1 value in
      let now := currentTime (env w) in
      let e := env w in
      let e := on_gain mg (AudioParam.cancelScheduledValues now) e in
      let e := on_gain mg (AudioParam.setValueAtTime (gain_value mg e) now) e in
      let e := on_gain mg (AudioParam.linearRampToValueAtTime clampedValue (now + rampTime)) e in
      with_env e w
  | _, _ => w
  end.

(** [getVolume()] *)
Definition getVolume (w : World) : Q :=
  match masterGain (this w) with
  | Some mg => gain_value mg (env w)
  | None => 0
  end.

Definition getCurrentScene (w : World) : option string := currentScene (this w).
Definition getIsPlaying (w : World) : bool := isPlaying (this w).
End AudioEngine.

(* ================================================================== *)
(** ** The event loop *)
(* ================================================================== *)

(** JavaScript runs one task at a time: an event handler (or a timer or
    network callback) runs to its end, then every continuation that is
    ready runs (the microtask queue), and only then the next event is
    taken.  A continuation waiting for a timer or for the network stays
    blocked until the environment delivers its reply. *)
Module EventLoop.
Section Loop.
Context {W : Type} (clock : W -> Q).

Record Blocked := mkBlocked {
  waiting_for : Wait;
  since : Q;                                (* the clock when it suspended *)
  resume : Reply -> W -> W * Task W unit }.

Record t := mk {
  state : W;
  ready : list (W -> W * Task W unit);      (* microtask queue, oldest first *)
  blocked : list Blocked;
  output : list string;                     (* the console *)
  hung : bool }.                            (* a task did not return *)

(** What is left of a task after its segment ran: log lines go to the
    console, a tick goes to the back of the microtask queue, anything
    else blocks; an un-awaited call is filed before the caller's rest. *)
Fixpoint absorb (tk : Task W unit) (s : t) : t :=
  match tk with
  | Done _ => s
  | Await Tick k => mk (state s) (ready s ++ [k RUnit]) (blocked s) (output s) (hung s)
  | Await wt k =>
      mk (state s) (ready s) (blocked s ++ [mkBlocked wt (clock (state s)) k])
         (output s) (hung s)
  | Detach bg rest => absorb rest (absorb bg s)
  | Log msg rest => absorb rest (mk (state s) (ready s) (blocked s) (output s ++ [msg]) (hung s))
  | Stuck => mk (state s) (ready s) (blocked s) (output s) true
  end.

Definition step (k : W -> W * Task W unit) (s : t) : t :=
  let '(w, tk) := k (state s) in
  absorb tk (mk w (ready s) (blocked s) (output s) (hung s)).

(** Runs the microtask queue until it is empty. *)
Fixpoint drain (fuel : nat) (s : t) : option t :=
  match ready s with
  | [] => Some s
  | k :: rest =>
      match fuel with
      | O => None
      | S fuel' => drain fuel' (step k (mk (state s) rest (blocked s) (output s) (hung s)))
      end
  end.

(** An event handler calls the [async] function [m]. *)
Definition invoke (fuel : nat) (m : Async W unit) (s : t) : option t :=
  drain fuel (step m s).

(** A timer may fire only when its delay has passed. *)
Definition deliverable (b : Blocked) (now : Q) : bool :=
  match waiting_for b with
  | Timer ms => Qle_bool (since b + ms / 1000) now
  | _ => true
  end.

(** The environment settles what the [i]-th blocked continuation waits for. *)
Definition deliver (fuel : nat) (i : nat) (r : Reply) (s : t) : option t :=
  match blocked s !! i with
  | Some b =>
      if deliverable b (clock (state s)) then
        drain fuel (step (resume b r)
                      (mk (state s) (ready s) (delete i (blocked s)) (output s) (hung s)))
      else None
  | None => None
  end.
End Loop.
Arguments mk {W} state ready blocked output hung.
Arguments state {W} _.
Arguments ready {W} _.
Arguments blocked {W} _.
Arguments output {W} _.
Arguments hung {W} _.
Arguments waiting_for {W} _.
Arguments since {W} _.
Arguments resume {W} _ _ _.
End EventLoop.

(* ================================================================== *)
(** ** hooks/useStay.js: the scene switch and its lock *)
(* ================================================================== *)

Module UseStay.
Local Open Scope Q_scope.

Inductive PlaybackState := idle | switching | playing.

(** [CONFIG.FADE_DURATION] *)
Definition FADE_DURATION : Q := 3.

(** The refs and the React state of one mounted hook, with the engine
    object its mount effect created. *)
Record State := mk {
  engine : AudioEngine.World;
  engineRef : bool;                 (* [engineRef.current !== null] *)
  isSwitchingRef : bool;            (* [isSwitchingRef.current] *)
  currentScene : string;            (* useState('rain') *)
  isPlaying : bool;                 (* useState(false) *)
  playbackState : PlaybackState }.  (* useState('idle') *)

Definition set_engine v s := mk v (engineRef s) (isSwitchingRef s) (currentScene s)
  (isPlaying s) (playbackState s).
Definition set_isSwitchingRef v s := mk (engine s) (engineRef s) v (currentScene s)
  (isPlaying s) (playbackState s).
Definition setCurrentScene v s := mk (engine s) (engineRef s) (isSwitchingRef s) v
  (isPlaying s) (playbackState s).
Definition setIsPlaying v s := mk (engine s) (engineRef s) (isSwitchingRef s) (currentScene s)
  v (playbackState s).
Definition setPlaybackState v s := mk (engine s) (engineRef s) (isSwitchingRef s)
  (currentScene s) (isPlaying s) v.

(** The engine object, reached through the local [const engine]. *)
Definition the_engine : Lens State AudioEngine.World :=
  mkLens (fun s => Some (engine s)) (fun w s => set_engine w s).

(** The state right after the mount effect:
    [engineRef.current = new AudioEngine({ defaultVolume: volume })]. *)
Definition mount (e : Env) (policy : AudioEngine.Policy) : State :=
  mk (AudioEngine.mkWorld e [] (AudioEngine.create (Some 0.7) None None) policy)
     true false "rain" false idle.

(** What a callback created by a render has captured of the React state. *)
Record Closure := mkClosure { seen_scene : string; seen_playing : bool }.

(** The callbacks of the latest render see the latest state. *)
Definition latest (s : State) : Closure := mkClosure (currentScene s) (isPlaying s).

(** [ensureInit()] *)
Definition ensureInit : Async State bool :=
  do s <- get;
  if negb (engineRef s) then ret false else
  if AudioEngine.isInitialized (AudioEngine.this (engine s)) then ret true else
  try_catch
    (exec await_call (zoom the_engine AudioEngine.init);
     ret true)
    (fun err =>
       exec console "[useStay] AudioEngine init failed";
       ret false).

(** [switchScene(newScene)], as created by a render that saw [c]. *)
Definition switchScene (c : Closure) (newScene : string) : Async State unit :=
  do ready <- await_call ensureInit;
  if negb ready then ret tt else
  do s <- get;
  if negb (engineRef s) then console "[useStay] Engine not ready" else
  if isSwitchingRef s then console "[useStay] Scene switch in progress, ignored" else
  if String.eqb newScene (seen_scene c) && seen_playing c then ret tt else
  exec modify (fun s => setPlaybackState switching (set_isSwitchingRef true s));
  try_finally
    (try_catch
       (exec (if negb (String.eqb (seen_scene c) "") && seen_playing c
                 && negb (String.eqb newScene (seen_scene c))
              then await_call (zoom the_engine (AudioEngine.switchScene newScene FADE_DURATION))
              else await_call (zoom the_engine (AudioEngine.play newScene)));
        modify (fun s => setPlaybackState playing (setIsPlaying true (setCurrentScene newScene s))))
       (fun error =>
          exec console "[useStay] Scene switch failed";
          modify (setPlaybackState (if seen_playing c then playing else idle))))
    (set_isSwitchingRef false).

(** [togglePlay()], as created by a render that saw [c]. *)
Definition togglePlay (c : Closure) : Async State unit :=
  do ready <- await_call ensureInit;
  if negb ready then ret tt else
  do s <- get;
  if negb (engineRef s) then ret tt else
  if seen_playing c then
    exec await_call (zoom the_engine (AudioEngine.stop FADE_DURATION));
    modify (fun s => setPlaybackState idle (setIsPlaying false s))
  else
    await_call (switchScene c (seen_scene c)).

(** The clock of the page. *)
Definition clock (s : State) : Q := currentTime (AudioEngine.env (engine s)).

(** Time passes: the rendering thread follows. *)
Definition elapse (tm : Q) (s : State) : State :=
  set_engine (AudioEngine.on_env (render_to tm) (engine s)) s.
End UseStay.

(* ================================================================== *)
(** ** utils/AudioAnalyzer.js *)
(* ================================================================== *)

(** The analyzer computes with real numbers (it takes a square root).  A
    value that JavaScript would compute as [NaN] (an array read outside
    the array, a division of zero by zero) is [None]. *)
Module AudioAnalyzer.
Import Reals.
Local Open Scope R_scope.

(** [AudioAnalysisData] *)
Record Data := mkData {
  lowFrequency : R;
  midFrequency : R;
  highFrequency : R;
  volume : R }.

Record t := mk {
  analyser : nat;                  (* the AnalyserNode *)
  frequencyBinCount : Z;
  frequencyData : list Z;          (* Uint8Array *)
  timeDomainData : list Z;         (* Uint8Array *)
  smoothedData : Data;
  smoothingFactor : R;
  lowBinStart : Z;
  lowBinEnd : Z;
  midBinStart : Z;
  midBinEnd : Z;
  highBinStart : Z;
  highBinEnd : Z }.

Definition set_frequencyData v a := mk (analyser a) (frequencyBinCount a) v (timeDomainData a)
  (smoothedData a) (smoothingFactor a) (lowBinStart a) (lowBinEnd a) (midBinStart a)
  (midBinEnd a) (highBinStart a) (highBinEnd a).
Definition set_timeDomainData v a := mk (analyser a) (frequencyBinCount a) (frequencyData a) v
  (smoothedData a) (smoothingFactor a) (lowBinStart a) (lowBinEnd a) (midBinStart a)
  (midBinEnd a) (highBinStart a) (highBinEnd a).
Definition set_smoothedData v a := mk (analyser a) (frequencyBinCount a) (frequencyData a)
  (timeDomainData a) v (smoothingFactor a) (lowBinStart a) (lowBinEnd a) (midBinStart a)
  (midBinEnd a) (highBinStart a) (highBinEnd a).
Definition set_smoothingFactor v a := mk (analyser a) (frequencyBinCount a) (frequencyData a)
  (timeDomainData a) (smoothedData a) v (lowBinStart a) (lowBinEnd a) (midBinStart a)
  (midBinEnd a) (highBinStart a) (highBinEnd a).

(** The platform accepts an [fftSize] that is a power of two between 32
    and 32768, and throws on any other. *)
Definition valid_fftSize (n : Z) : bool :=
  ((32 <=? n) && (n <=? 32768) && (2 ^ Z.log2 n =? n))%Z.

(** [new AudioAnalyzer(context, options)]; [None] when the platform
    refuses the [fftSize]. *)
Definition create (fftSize : option Z) (smoothingTimeConstant : option Q) (e : Env)
  : option (t * Env) :=
  let size := match fftSize with
              | Some n => if (n =? 0)%Z then 2048%Z else n
              | None => 2048%Z
              end in
  if negb (valid_fftSize size) then None else
  let '(node, e) := new_node (AnalyserNode size (num_or smoothingTimeConstant 0.8%Q)) e in
  let frequencyBinCount := (size / 2)%Z in
  let nyquist := (inject_Z (Z.of_N (sampleRate e)) / 2)%Q in
  let binFrequency := (nyquist / inject_Z frequencyBinCount)%Q in
  let lowBinEnd := Math_floor (250 / binFrequency)%Q in
  let midBinEnd := Math_floor (2000 / binFrequency)%Q in
  Some (mk node frequencyBinCount
           (replicate (Z.to_nat frequencyBinCount) 0%Z)
           (replicate (Z.to_nat frequencyBinCount) 0%Z)
           (mkData 0 0 0 0)
           0.15
           (Math_floor (20 / binFrequency)%Q) lowBinEnd
           lowBinEnd midBinEnd
           midBinEnd (Math_floor (8000 / binFrequency)%Q), e).

(** [data[i]] on a typed array: nothing outside the array. *)
Definition byte_at (data : list Z) (i : Z) : option Z :=
  if (i <? 0)%Z then None else data !! Z.to_nat i.

(** [for (i = start; i < start + n; i++) sum += data[i]] *)
Fixpoint sum_from (data : list Z) (start : Z) (n : nat) : option Z :=
  match n with
  | O => Some 0%Z
  | S n' =>
      match byte_at data start, sum_from data (start + 1) n' with
      | Some b, Some s => Some (b + s)%Z
      | _, _ => None
      end
  end.

(** [_getAverageEnergy(startBin, endBin)] *)
Definition _getAverageEnergy (a : t) (startBin endBin : Z) : option R :=
  let clampedEnd := Z.min endBin (frequencyBinCount a) in
  let count := (clampedEnd - startBin)%Z in
  if (count <=? 0)%Z then Some 0 else
  match sum_from (frequencyData a) startBin (Z.to_nat count) with
  | Some sum => Some ((IZR sum / IZR count) / 255)
  | None => None
  end.

(** The loop of [_getRMSVolume]: the sum of the squared samples, each
    brought from 0..255 to -1..1. *)
Fixpoint square_sum (data : list Z) : R :=
  match data with
  | [] => 0
  | x :: rest =>
      let normalized := (IZR x - 128) / 128 in
      normalized * normalized + square_sum rest
  end.

(** [_getRMSVolume()], on the time-domain data just read. *)
Definition _getRMSVolume (a : t) : option R :=
  match timeDomainData a with
  | [] => None
  | _ =>
      let rms := sqrt (square_sum (timeDomainData a) / INR (length (timeDomainData a))) in
      Some (Rmin (rms * 2) 1)
  end.

(** [_smooth(currentSmoothed, newValue)] *)
Definition _smooth (a : t) (currentSmoothed newValue : R) : R :=
  currentSmoothed * (1 - smoothingFactor a) + newValue * smoothingFactor a.

(** [update()]: [frequency] and [timeDomain] are what the analyser node
    writes into the two arrays. *)
Definition update (frequency timeDomain : list Z) (a : t) : option t :=
  let a := set_frequencyData frequency a in
  match _getAverageEnergy a (lowBinStart a) (lowBinEnd a),
        _getAverageEnergy a (midBinStart a) (midBinEnd a),
        _getAverageEnergy a (highBinStart a) (highBinEnd a) with
  | Some rawLow, Some rawMid, Some rawHigh =>
      let a := set_timeDomainData timeDomain a in
      match _getRMSVolume a with
      | Some rawVolume =>
          let s := smoothedData a in
          Some (set_smoothedData
                  (mkData (_smooth a (lowFrequency s) rawLow)
                          (_smooth a (midFrequency s) rawMid)
                          (_smooth a (highFrequency s) rawHigh)
                          (_smooth a (volume s) rawVolume)) a)
      | None => None
      end
  | _, _, _ => None
  end.

(** [getData()]: a copy of the smoothed values. *)
Definition getData (a : t) : Data :=
  mkData (lowFrequency (smoothedData a)) (midFrequency (smoothedData a))
         (highFrequency (smoothedData a)) (volume (smoothedData a)).

(** [reset()] *)
Definition reset (a : t) : t := set_smoothedData (mkData 0 0 0 0) a.

(** [setSmoothingFactor(factor)] *)
Definition setSmoothingFactor (factor : R) (a : t) : t :=
  set_smoothingFactor (Rmax 0.01 (Rmin 1 factor)) a.

(** The calls a client can make on an analyzer, and a run of them. *)
Inductive Call : Type :=
| Update (frequency timeDomain : list Z)
| Reset
| SetSmoothingFactor (factor : R).

Definition call (c : Call) (a : t) : option t :=
  match c with
  | Update f d => update f d a
  | Reset => Some (reset a)
  | SetSmoothingFactor x => Some (setSmoothingFactor x a)
  end.

Fixpoint run (calls : list Call) (a : t) : option t :=
  match calls with
  | [] => Some a
  | c :: rest =>
      match call c a with
      | Some a' => run rest a'
      | None => None
      end
  end.
End AudioAnalyzer.

(* ================================================================== *)
(** ** utils/SampleLoader.js *)
(* ================================================================== *)

Module SampleLoader.
Local Open Scope Q_scope.

(** The fields of a [SampleLoader]: the cache and the loads in flight
    (each a promise, by reference). *)
Record t := mk {
  buffers : gmap string AudioBuffer;
  loading : gmap string nat }.

(** What a loader method can reach: the loader, its audio context and
    the network.  [fetched] lists the urls of every fetch started so far;
    the promise of the [n]-th fetch has reference [n].  [onended] lists
    the (source, gain) pairs whose cleanup handler is installed. *)
Record World := mkWorld {
  this : t;
  env : Env;
  destination : nat;               (* context.destination *)
  fetched : list string;
  onended : list (nat * nat) }.

Definition with_this v w := mkWorld v (env w) (destination w) (fetched w) (onended w).
Definition with_env v w := mkWorld (this w) v (destination w) (fetched w) (onended w).
Definition with_fetched v w := mkWorld (this w) (env w) (destination w) v (onended w).
Definition with_onended v w := mkWorld (this w) (env w) (destination w) (fetched w) v.

Definition set_buffers v (l : t) := mk v (loading l).
Definition set_loading v (l : t) := mk (buffers l) v.

(** [new SampleLoader(context)] *)
Definition create : t := mk ∅ ∅.

(** [_fetchAndDecode(url)]: starts the fetch and returns its promise.
    The promise is fulfilled with the decoded buffer, or rejected when
    the request fails, the status is not ok, or decoding fails. *)
Definition _fetchAndDecode (url : string) (w : World) : nat * World :=
  (length (fetched w), with_fetched (fetched w ++ [url]) w).

(** How the promise of a fetch settled, from the environment's reply. *)
Definition settlement (r : Reply) : Outcome AudioBuffer :=
  match r with
  | RBuffer o => o
  | RError e => Rejected e
  | _ => Rejected "TypeError"
  end.

(** [async load(name, url)] *)
Definition load (name url : string) : Async World AudioBuffer :=
  do w <- get;
  match buffers (this w) !! name with
  | Some buffer => ret buffer
  | None =>
    match loading (this w) !! name with
    | Some pending =>
        do r <- await (Settle pending);
        fun w => (w, Done (settlement r))
    | None =>
        do loadPromise <- (fun w => let '(p, w) := _fetchAndDecode url w in ret p w);
        exec modify (fun w =>
          with_this (set_loading (<[name := loadPromise]> (loading (this w))) (this w)) w);
        do r <- await (Settle loadPromise);
        match settlement r with
        | Fulfilled buffer =>
            exec modify (fun w =>
              let l := set_buffers (<[name := buffer]> (buffers (this w))) (this w) in
              with_this (set_loading (delete name (loading l)) l) w);
            exec console ("[SampleLoader] Loaded: " ++ name);
            ret buffer
        | Rejected error =>
            exec modify (fun w =>
              with_this (set_loading (delete name (loading (this w))) (this w)) w);
            exec console ("[SampleLoader] Failed to load " ++ name);
            throw error
        end
    end
  end.

(** [get(name)], [has(name)], [clear()] *)
Definition get_sample (name : string) (w : World) : option AudioBuffer :=
  buffers (this w) !! name.
Definition has (name : string) (w : World) : bool :=
  bool_decide (is_Some (buffers (this w) !! name)).
Definition clear (w : World) : World := with_this (mk ∅ ∅) w.

(** The [options] argument of [play]; a missing property is [None]. *)
Record PlayOptions := mkOptions {
  opt_destination : option nat;
  opt_volume : option Q;
  opt_playbackRate : option Q;
  opt_detune : option Q }.

(** [play(name, options)]: the started source, or [null]. *)
Definition play (name : string) (options : PlayOptions) (w : World) : option nat * World :=
  match buffers (this w) !! name with
  | None => (None, w)
  | Some buffer =>
      let destination := nullish (opt_destination options) (destination w) in
      let volume := nullish (opt_volume options) 1 in
      let playbackRate := nullish (opt_playbackRate options) 1 in
      let detune := nullish (opt_detune options) 0 in
      let e := env w in
      let '(source, e) := createBufferSource e in
      let e := set_buffer source buffer e in
      let e := set_playbackRate source playbackRate e in
      let e := set_detune source detune e in
      let '(gainNode, e) := createGain e in
      let e := on_gain gainNode (AudioParam.set_value volume (currentTime e)) e in
      let e := connect source gainNode e in
      let e := connect gainNode destination e in
      let e := source_start source e in
      (Some source, with_onended (onended w ++ [(source, gainNode)]) (with_env e w))
  end.

(** [source.onended]: the handler installed by [play]. *)
Definition ended (source : nat) (w : World) : World :=
  match list_find (fun sg => fst sg = source) (onended w) with
  | Some (_, (s, g)) => with_env (disconnect g (disconnect s (env w))) w
  | None => w
  end.
End SampleLoader.

(* ================================================================== *)
(** ** Notions used to state the properties *)
(* ================================================================== *)

(** No two neighbours of the list are equal. *)
Definition no_adjacent_repeat (l : list Z) : Prop :=
  forall i x y, l !! i = Some x -> l !! S i = Some y -> x <> y.

(** [n] track changes of a loop player in a row ([_playNext(false)], as
    its timer calls it), with the index picked by each. *)
Fixpoint loop_picks (n : nat) (p : LoopPlayer.t) (e : Env)
  : option (list Z * LoopPlayer.t * Env) :=
  match n with
  | O => Some ([], p, e)
  | S n' =>
      match LoopPlayer._playNext false p e with
      | Some (p', e') =>
          match loop_picks n' p' e' with
          | Some (l, p'', e'') => Some (LoopPlayer.currentIndex p' :: l, p'', e'')
          | None => None
          end
      | None => None
      end
  end.

(** [n] crossfades of a wind player in a row ([_performCrossfade()], as
    its timer calls it), with the index picked by each. *)
Fixpoint wind_picks (n : nat) (p : WindPlayer.t) (e : Env)
  : option (list Z * WindPlayer.t * Env) :=
  match n with
  | O => Some ([], p, e)
  | S n' =>
      match WindPlayer._performCrossfade p e with
      | Some (p', e') =>
          match wind_picks n' p' e' with
          | Some (l, p'', e'') => Some (WindPlayer._currentBufferIndex p' :: l, p'', e'')
          | None => None
          end
      | None => None
      end
  end.

(** The index [Math.floor(Math.random() * length)] for the draw [r]. *)
Definition index_of_draw (len : nat) (r : Q) : Z :=
  Math_floor (r * inject_Z (Z.of_nat len)).

(** A task run on its own: no other task touches the world while it is
    suspended, the environment answers each wait (other than a tick) with
    the next reply, and un-awaited calls are left to themselves. *)
Record Run (W A : Type) := mkRun {
  final : W;                 (* the world when the task has settled *)
  settled : Outcome A;       (* how it settled *)
  printed : list string;     (* what it wrote to the console *)
  unused : list Reply }.     (* the replies it did not consume *)
Arguments mkRun {W A} _ _ _ _.
Arguments final {W A} _.
Arguments settled {W A} _.
Arguments printed {W A} _.
Arguments unused {W A} _.

Definition and_printed {W A : Type} (msg : string) (r : Run W A) : Run W A :=
  mkRun (final r) (settled r) (msg :: printed r) (unused r).

Fixpoint run_alone {W A : Type} (fuel : nat) (replies : list Reply) (w : W) (tk : Task W A)
  : option (Run W A) :=
  match fuel with
  | O => None
  | S fuel' =>
      match tk with
      | Done o => Some (mkRun w o [] replies)
      | Await Tick k => let '(w', tk') := k RUnit w in run_alone fuel' replies w' tk'
      | Await _ k =>
          match replies with
          | r :: rest => let '(w', tk') := k r w in run_alone fuel' rest w' tk'
          | [] => None
          end
      | Detach _ rest => run_alone fuel' replies w rest
      | Log msg rest => and_printed msg <$> run_alone fuel' replies w rest
      | Stuck => None
      end
  end.

(** An [async] function called and run on its own. *)
Definition call_alone {W A : Type} (fuel : nat) (replies : list Reply) (m : Async W A) (w : W)
  : option (Run W A) :=
  let '(w1, tk) := m w in run_alone fuel replies w1 tk.

(** At least one of the first [n] entries of a fetch result is a buffer. *)
Definition some_loaded (r : Reply) (n : nat) : bool :=
  existsb (fun index => match loaded_at r index with Some _ => true | None => false end)
          (seq 0 n).

(** A lens that behaves like a field: what is written is what is read,
    the last write wins, and writing back what was read changes nothing. *)
Definition lawful {W V : Type} (L : Lens W V) : Prop :=
  (forall v w, (exists u, view L w = Some u) -> view L (over L v w) = Some v) /\
  (forall v v' w, over L v' (over L v w) = over L v' w) /\
  (forall v w, view L w = Some v -> over L v w = w).

(** Called on its own in the world [w] and answered with [replies], the
    [async] function [m] settles as [r] says. *)
Definition runs_to {W A : Type} (replies : list Reply) (m : Async W A) (w : W) (r : Run W A)
  : Prop :=
  exists fuel, call_alone fuel replies m w = Some r.

(** *** A concrete page *)

(** A browser that lets the page create a running audio context, with
    [supply] as the future of [Math.random()]. *)
Definition quiet_env (supply : list Q) : Env := mkEnv 0%Q 44100 [] [] [] 0 supply.

Definition fresh_world : AudioEngine.World :=
  AudioEngine.mkWorld (quiet_env [0.5; 0.25; 0.75; 0.125; 0.875; 0.625]%Q) []
                      (AudioEngine.create (Some 0.7%Q) None None)
                      (AudioEngine.mkPolicy true false).

(** The engine right after [init()], before any preload has got an answer. *)
Definition ready_world : AudioEngine.World := fst (AudioEngine.init fresh_world).

Definition some_buffer : AudioBuffer := mkBuffer "decoded" 10%Q [].

(** Fetch results: every file fails; only the file at [k] loads; all load. *)
Definition none_loads : Reply := RBuffers (fun _ => None).
Definition only_loads (k : nat) : Reply :=
  RBuffers (fun index => if Nat.eqb index k then Some some_buffer else None).
Definition all_load : Reply := RBuffers (fun _ => Some some_buffer).

(** The built-in configuration of a scene (an empty object when there is none). *)
Definition default_config (scene : string) : SceneConfig :=
  default (mkConfig None None None None None None None None None)
          (scene_config DEFAULT_SCENES scene).

(** *** What a call leaves alone *)

(** Every step of the task itself keeps [P]: each resumption that starts
    in a world with [P] suspends or ends in a world with [P].  (The calls
    it starts without awaiting them are not covered.) *)
Inductive stable {W A : Type} (P : W -> Prop) : Task W A -> Prop :=
| stable_done o : stable P (Done o)
| stable_await wt k :
    (forall r w, P w -> P (fst (k r w))) ->
    (forall r w, P w -> stable P (snd (k r w))) ->
    stable P (Await wt k)
| stable_detach bg rest : stable P rest -> stable P (Detach bg rest)
| stable_log msg rest : stable P rest -> stable P (Log msg rest)
| stable_stuck : stable P Stuck.

Definition keeps {W A : Type} (P : W -> Prop) (m : Async W A) : Prop :=
  forall w, P w -> P (fst (m w)) /\ stable P (snd (m w)).

(** The playback state of the engine object. *)
Definition playback (g : AudioEngine.t) : option nat * option string * bool :=
  (AudioEngine.currentPlayer g, AudioEngine.currentScene g, AudioEngine.isPlaying g).

(** The world a call leaves when it is run on its own (the world it
    started in, should it not settle). *)
Definition after {A : Type} (replies : list Reply) (m : Async AudioEngine.World A)
    (w : AudioEngine.World) : AudioEngine.World :=
  match call_alone 50 replies m w with
  | Some r => final r
  | None => w
  end.

(** Rain and cafe loaded with every file; then rain playing. *)
Definition scenes_loaded : AudioEngine.World :=
  after [all_load; all_load] (AudioEngine._loadScene "cafe")
        (after [all_load] (AudioEngine._loadScene "rain") ready_world).

(** Two seconds into the rain: the fade-in of the first track is over. *)
Definition rain_playing : AudioEngine.World :=
  AudioEngine.on_env (render_to 2) (after [] (AudioEngine.play "rain") scenes_loaded).


(** The fade that [stop(fade)] of a player schedules on a gain at [now]:
    [setValueAtTime(gain.value, now)], then
    [linearRampToValueAtTime(0, now + fade)]. *)
Definition fade_out (p : AudioParam.t) (now fade : Q) : AudioParam.t :=
  AudioParam.linearRampToValueAtTime 0 (now + fade)
    (AudioParam.setValueAtTime (AudioParam.value p) now p).

(** *** Noise *)

(** A sample inside the nominal range. *)
Definition in_unit_range (x : Q) : Prop := (-1 <= x /\ x <= 1)%Q.

(** A context at 44.1 kHz whose generator returns 0.99 again and again. *)
Definition loud_env : Env :=
  mkEnv 0%Q 44100 [] [] [] 0 (replicate (N.to_nat 88200) 0.99%Q).

(** Whether sample [i] of a finished run is above 1. *)
Definition above_one_at (i : nat) (run : option (list Q * list Q)) : bool :=
  match run with
  | Some (d, _) =>
      match d !! i with
      | Some x => negb (Qle_bool x 1)
      | None => false
      end
  | None => false
  end.

(** *** The master volume *)

(** The master gain's parameter after [setVolume], from the one before. *)
Definition volume_ramp (p : AudioParam.t) (now value rampTime : Q) : AudioParam.t :=
  AudioParam.linearRampToValueAtTime (clamp 0 1 value) (now + rampTime)
    (AudioParam.setValueAtTime (AudioParam.value p) now
       (AudioParam.cancelScheduledValues now p)).

(** *** Systems that differ in the console only *)

(** Two systems that differ at most in what was printed. *)
Definition same_but_output {W : Type} (s1 s2 : EventLoop.t (W:=W)) : Prop :=
  EventLoop.state s1 = EventLoop.state s2 /\ EventLoop.ready s1 = EventLoop.ready s2 /\
  EventLoop.blocked s1 = EventLoop.blocked s2 /\ EventLoop.hung s1 = EventLoop.hung s2.

Definition agree {W : Type} (o1 o2 : option (EventLoop.t (W:=W))) : Prop :=
  match o1, o2 with
  | Some s1, Some s2 => same_but_output s1 s2
  | None, None => True
  | _, _ => False
  end.

(** *** Analysis snapshots *)

Section Snapshots.
Import Reals.

(** A value of a [Uint8Array]. *)
Definition byte (x : Z) : Prop := (0 <= x <= 255)%Z.

(** The four components of a snapshot lie in [0, 1]. *)
Definition in_unit (d : AudioAnalyzer.Data) : Prop :=
  (0 <= AudioAnalyzer.lowFrequency d <= 1 /\
   0 <= AudioAnalyzer.midFrequency d <= 1 /\
   0 <= AudioAnalyzer.highFrequency d <= 1 /\
   0 <= AudioAnalyzer.volume d <= 1)%R.

(** What the analyser node hands to [update()]: two arrays of
    [frequencyBinCount] bytes.  The other calls take any argument. *)
Definition admissible (bins : Z) (c : AudioAnalyzer.Call) : Prop :=
  match c with
  | AudioAnalyzer.Update frequency timeDomain =>
      length frequency = Z.to_nat bins /\ length timeDomain = Z.to_nat bins /\
      Forall byte frequency /\ Forall byte timeDomain
  | _ => True
  end.

(** What holds of an analyzer from its construction on: the smoothed
    values lie in [0, 1], the smoothing factor in (0, 1], there is at
    least one bin, and no band starts below bin 0. *)
Definition analyzer_ok (a : AudioAnalyzer.t) : Prop :=
  in_unit (AudioAnalyzer.smoothedData a) /\
  (0 < AudioAnalyzer.smoothingFactor a <= 1)%R /\
  (0 < AudioAnalyzer.frequencyBinCount a)%Z /\
  (0 <= AudioAnalyzer.lowBinStart a)%Z /\
  (0 <= AudioAnalyzer.midBinStart a)%Z /\
  (0 <= AudioAnalyzer.highBinStart a)%Z.
End Snapshots.

(** *** A page with the hook mounted *)

Definition page : EventLoop.t (W:=UseStay.State) :=
  EventLoop.mk (UseStay.mount (quiet_env [0.5; 0.25; 0.75; 0.125; 0.875; 0.625]%Q)
                              (AudioEngine.mkPolicy true false))
               [] [] [] false.

(** The user has picked the rain scene: the switch holds the lock and
    waits for the files of the scene. *)
Definition page_switching : EventLoop.t (W:=UseStay.State) :=
  default page
    (EventLoop.invoke UseStay.clock 50
       (UseStay.switchScene (UseStay.latest (EventLoop.state page)) "rain") page).

(** *** Players and a sample loader to try things on *)

(** The rain player two seconds into the rain (three buffers), and the
    wind player once every recording has loaded (four buffers). *)
Definition rain_player : LoopPlayer.t :=
  match AudioEngine.heap rain_playing !! 3%nat with
  | Some (PLoop p) => p
  | _ => fst (LoopPlayer.create 0 None (quiet_env []))
  end.

Definition wind_player : WindPlayer.t :=
  match AudioEngine.heap
          (after [all_load] (AudioEngine._loadScene "wind") ready_world) !! 3%nat with
  | Some (PWind p) => p
  | _ => fst (WindPlayer.create 0 None None None None (quiet_env []))
  end.

(** A loader on a fresh context: with nothing cached, with one sample
    cached, and with the load of that sample in flight. *)
Definition loader_page : SampleLoader.World :=
  SampleLoader.mkWorld SampleLoader.create (snd (new_node DestinationNode (quiet_env [])))
                       0 [] [].

Definition loader_cached : SampleLoader.World :=
  SampleLoader.with_this
    (SampleLoader.set_buffers (<["click" := some_buffer]> ∅) SampleLoader.create) loader_page.

Definition loader_loading : SampleLoader.World :=
  fst (SampleLoader.load "click" "sfx/click.mp3" loader_page).

(* ================================================================== *)
(** ** utils/SampleLoader.js: variants *)
(* ================================================================== *)

From Stdlib Require DecimalString.

Module SampleLoaderVariants.
Import SampleLoader.
Local Open Scope Q_scope.

(** The template string [`${baseName}_${i}`] for a whole number [i]. *)
Definition variant_name (baseName : string) (i : nat) : string :=
  (baseName ++ "_" ++ DecimalString.NilZero.string_of_uint (Nat.to_uint i))%string.

(** The array [available] that the loop of [getRandomVariant] builds:
    the names [baseName_1 ... baseName_maxVariants] that are cached, in
    that order. *)
Definition available (baseName : string) (maxVariants : nat) (w : World) : list string :=
  filter (fun name => is_Some (buffers (this w) !! name))
         (map (variant_name baseName) (seq 1 maxVariants)).

(** [arr[i]] for a number [i]: nothing outside the array. *)
Definition element_at {A : Type} (arr : list A) (i : Z) : option A :=
  if (i <? 0)%Z then None else arr !! Z.to_nat i.

(** [getRandomVariant(baseName, maxVariants)]: the name, or [null];
    [maxVariants] counts the rounds of the loop.  [None]: [Math.random]
    had nothing left to give. *)
Definition getRandomVariant (baseName : string) (maxVariants : nat) (w : World)
  : option (option string * World) :=
  let available := available baseName maxVariants w in
  if (length available =? 0)%nat then Some (None, w) else
  match random (env w) with
  | Some (r, e) =>
      Some (element_at available (Math_floor (r * inject_Z (Z.of_nat (length available)))),
            with_env e w)
  | None => None
  end.
End SampleLoaderVariants.

(** A loader that has cached the first and the third of three raindrop
    samples, on a page whose next random number is 0.75. *)
Definition loader_raindrops : SampleLoader.World :=
  SampleLoader.mkWorld
    (SampleLoader.mk (<["raindrop_1" := some_buffer]> (<["raindrop_3" := some_buffer]> ∅)) ∅)
    (snd (new_node DestinationNode (quiet_env [0.75]%Q)))
    0 [] [].

(** *** Noise: how far a sample can go *)

(** A number between [-bound] and [bound]. *)
Definition within (bound x : Q) : Prop := (- bound <= x /\ x <= bound)%Q.

(** How far each of the seven running sums of [createPinkNoise] can go. *)
Definition pink_sums_bounded (s : NoiseGenerator.PinkState) : Prop :=
  within 48.7 (NoiseGenerator.b0 s) /\ within 11.24 (NoiseGenerator.b1 s) /\
  within 4.97 (NoiseGenerator.b2 s) /\ within 2.33 (NoiseGenerator.b3 s) /\
  within 1.19 (NoiseGenerator.b4 s) /\ within 0.071 (NoiseGenerator.b5 s) /\
  within 0.116 (NoiseGenerator.b6 s).

(** A context that runs at 2 Hz, so that a noise buffer has four
    samples, with eight random numbers to come; a brown-noise generator
    on it, and the same generator once started. *)
Definition slow_env : Env :=
  mkEnv 0%Q 2 [] [] [] 0 [0.5; 0.25; 0.75; 0; 0.5; 0.25; 0.75; 0]%Q.

Definition brown_generator : NoiseGenerator.t * Env :=
  NoiseGenerator.create NoiseGenerator.brown slow_env.

Definition brown_running : NoiseGenerator.t * Env :=
  default brown_generator
    (NoiseGenerator.start (fst brown_generator) (snd brown_generator)).

(** *** The analyzer: silence *)

Section Silence.
Import Reals.


End Silence.

(** *** Loop players: the track change that is scheduled *)

(** The fade-in that [_playNext] gives the gain of a new track at [now]:
    [gain.value = 0], [setValueAtTime(0, now)], then
    [linearRampToValueAtTime(1, now + fadeTime)]. *)
Definition fade_in (now fadeTime : Q) : AudioParam.t :=
  AudioParam.linearRampToValueAtTime 1 (now + fadeTime)
    (AudioParam.setValueAtTime 0 now (AudioParam.set_value 0 now (AudioParam.create 1))).

(** What holds of the timers of a page with the loop player [p] on it:
    no two pending timers share an id, none has an id the platform has not
    handed out yet, and a pending timer that would change the track of [p]
    belongs to a playing [p] and is the one [p] remembers in
    [nextTimeout]. *)
Definition schedule_ok (p : LoopPlayer.t) (e : Env) : Prop :=
  NoDup (timer_id <$> timers e) /\
  (forall tm, tm ∈ timers e -> (timer_id tm <= nextTimer e)%nat) /\
  (forall tm, tm ∈ timers e -> callback tm = LoopNext (LoopPlayer.self p) ->
     LoopPlayer.isPlaying p = true /\ LoopPlayer.nextTimeout p = Some (timer_id tm)).

(** At most one pending timer would change the track of the player [self]. *)
Definition at_most_one_change (self : nat) (e : Env) : Prop :=
  forall i j tm1 tm2,
    timers e !! i = Some tm1 -> timers e !! j = Some tm2 ->
    callback tm1 = LoopNext self -> callback tm2 = LoopNext self -> i = j.

(** No pending timer would change the track of the player [self]. *)
Definition no_change_pending (self : nat) (e : Env) : Prop :=
  forall tm, tm ∈ timers e -> callback tm <> LoopNext self.

(** The rain player of the page once its three files have loaded, before
    it is started for the first time. *)
Definition rain_loaded : LoopPlayer.t :=
  match AudioEngine.heap scenes_loaded !! 3%nat with
  | Some (PLoop p) => p
  | _ => fst (LoopPlayer.create 0 None (quiet_env []))
  end.
(* ================================================================== *)
(** ** More pages to try the engine on *)
(* ================================================================== *)

(** A browser that refuses to create an audio context, and one whose
    context starts suspended. *)
Definition refused_world : AudioEngine.World :=
  AudioEngine.mkWorld (quiet_env []) [] (AudioEngine.create (Some 0.7%Q) None None)
                      (AudioEngine.mkPolicy false false).

Definition suspended_world : AudioEngine.World :=
  AudioEngine.mkWorld (quiet_env []) [] (AudioEngine.create (Some 0.7%Q) None None)
                      (AudioEngine.mkPolicy true true).


(* ================================================================== *)
(** ** AudioEngine.js: [addScene] *)
(* ================================================================== *)

Module AudioEngineScenes.
Import AudioEngine.

Definition set_opt_scenes v g := mk v (opt_defaultVolume g) (opt_crossfadeDuration g)
  (audioContext g) (masterGain g) (analyzer g) (players g) (currentPlayer g) (currentScene g)
  (isInitialized g) (isPlaying g) (animationFrameId g) (loadingStatus g).

(** [scenes[scene] = config] on the configuration object: an existing
    property keeps its place, a new one goes last.  (Scene names are not
    written as array indices, which an object would put first.) *)
Fixpoint set_scene (scenes : list (string * SceneConfig)) (scene : string)
    (config : SceneConfig) : list (string * SceneConfig) :=
  match scenes with
  | [] => [(scene, config)]
  | (k, c) :: rest =>
      if String.eqb k scene then (k, config) :: rest
      else (k, c) :: set_scene rest scene config
  end.

(** [addScene(scene, config)]: the load is started and not awaited. *)
Definition addScene (scene : string) (config : SceneConfig) : Async World unit :=
  exec modify (on_this (fun g => set_opt_scenes (set_scene (opt_scenes g) scene config) g));
  do w <- get;
  if isInitialized (this w) then call_detached (_loadScene scene) else ret tt.
End AudioEngineScenes.

(** The hook on the page while the rain plays: what the engine, the refs
    and the React state are two seconds into the rain. *)
Definition hook_playing : UseStay.State :=
  UseStay.mk rain_playing true false "rain" true UseStay.playing.
(* ================================================================== *)
(** ** hooks/useStay.js: the volume *)
(* ================================================================== *)

Module UseStayVolume.
Local Open Scope Q_scope.

(** [CONFIG.VOLUME_STEP], [CONFIG.DEFAULT_VOLUME] *)
Definition VOLUME_STEP : Q := 0.1.
Definition DEFAULT_VOLUME : Q := 0.7.

(** The hook with its [volume] state ([useState(CONFIG.DEFAULT_VOLUME)]). *)
Record State := mk {
  hook : UseStay.State;
  volume : Q }.

(** The state after the mount effect; the engine is created with
    [defaultVolume: volume]. *)
Definition mount (e : Env) (policy : AudioEngine.Policy) : State :=
  mk (UseStay.mount e policy) DEFAULT_VOLUME.

(** [if (engineRef.current) engineRef.current.setVolume(value)], with the
    default ramp time of [setVolume]. *)
Definition engine_setVolume (value : Q) (s : UseStay.State) : UseStay.State :=
  if UseStay.engineRef s
  then UseStay.set_engine (AudioEngine.setVolume value 0.1 (UseStay.engine s)) s
  else s.

(** [changeVolume(delta)]; the updater passed to [setVolume] runs at once. *)
Definition changeVolume (delta : Q) (st : State) : State :=
  let newVolume := clamp 0 1 (volume st + delta) in
  mk (engine_setVolume newVolume (hook st)) newVolume.

(** [setVolumeAbsolute(value)] *)
Definition setVolumeAbsolute (value : Q) (st : State) : State :=
  let clampedValue := clamp 0 1 value in
  mk (engine_setVolume clampedValue (hook st)) clampedValue.

(** What the user can do to the volume: the slider, the two arrow keys
    ([changeVolume(CONFIG.VOLUME_STEP)] and its opposite), or a caller of
    [changeVolume]. *)
Inductive Call : Type :=
| Slider (value : Q)
| ArrowUp
| ArrowDown
| Change (delta : Q).

Definition call (c : Call) (st : State) : State :=
  match c with
  | Slider value => setVolumeAbsolute value st
  | ArrowUp => changeVolume VOLUME_STEP st
  | ArrowDown => changeVolume (- VOLUME_STEP) st
  | Change delta => changeVolume delta st
  end.

Definition run (calls : list Call) (st : State) : State := foldl (fun st c => call c st) st calls.
End UseStayVolume.

(* ================================================================== *)
(** ** hooks/useStay.js: when the controls are visible *)
(* ================================================================== *)

Module UseStayUi.
Local Open Scope Q_scope.

(** [CONFIG.UI_HIDE_DELAY] (ms), [CONFIG.UI_TRIGGER_ZONE] *)
Definition UI_HIDE_DELAY : Q := 5000.
Definition UI_TRIGGER_ZONE : Q := 0.2.

(** [uiVisible], the two refs, and the timers of the page that hide the
    controls when they fire: each with its id and the time it is due.
    Times are in milliseconds; timer ids are positive. *)
Record State := mk {
  uiVisible : bool;
  uiHideTimerRef : option nat;
  uiForcedHiddenRef : bool;
  pending : list (nat * Q);
  nextTimer : nat;
  now : Q }.

(** The state of a fresh mount: [useState(true)], [useRef(null)],
    [useRef(false)]. *)
Definition mount (tm : Q) : State := mk true None false [] 0 tm.

Definition clearTimeout (id : nat) (pending : list (nat * Q)) : list (nat * Q) :=
  filter (fun tm => fst tm <> id) pending.

(** [resetUiTimer()] *)
Definition resetUiTimer (s : State) : State :=
  if uiForcedHiddenRef s then s else
  let pending := match uiHideTimerRef s with
                 | Some id => clearTimeout id (pending s)
                 | None => pending s
                 end in
  let id := S (nextTimer s) in
  mk true (Some id) (uiForcedHiddenRef s)
     (pending ++ [(id, now s + UI_HIDE_DELAY)]) id (now s).

(** [toggleUiForced()] *)
Definition toggleUiForced (s : State) : State :=
  let forced := negb (uiForcedHiddenRef s) in
  if forced then
    match uiHideTimerRef s with
    | Some id => mk false None forced (clearTimeout id (pending s)) (nextTimer s) (now s)
    | None => mk false (uiHideTimerRef s) forced (pending s) (nextTimer s) (now s)
    end
  else
    resetUiTimer (mk (uiVisible s) (uiHideTimerRef s) forced (pending s) (nextTimer s) (now s)).

(** [handleMouseMove(e)] *)
Definition handleMouseMove (clientY innerHeight : Q) (s : State) : State :=
  let isInTriggerZone := negb (Qle_bool clientY (innerHeight * (1 - UI_TRIGGER_ZONE))) in
  if isInTriggerZone && negb (uiForcedHiddenRef s) then resetUiTimer s else s.

(** The callback of a hide timer: [setUiVisible(false)]. *)
Definition fire (id : nat) (s : State) : option State :=
  match list_find (fun tm => fst tm = id) (pending s) with
  | Some (_, (_, due)) =>
      if Qle_bool due (now s)
      then Some (mk false (uiHideTimerRef s) (uiForcedHiddenRef s)
                    (clearTimeout id (pending s)) (nextTimer s) (now s))
      else None
  | None => None
  end.

(** What happens on the page: the mouse moves, the H key, a control is
    used ([onInteraction]), time passes, a hide timer fires. *)
Inductive Event : Type :=
| MouseMove (clientY innerHeight : Q)
| KeyH
| Interaction
| Elapse (ms : Q)
| Fire (id : nat).

(** [None]: the event cannot happen (the timer is not due, or not there). *)
Definition step (ev : Event) (s : State) : option State :=
  match ev with
  | MouseMove y h => Some (handleMouseMove y h s)
  | KeyH => Some (toggleUiForced s)
  | Interaction => Some (resetUiTimer s)
  | Elapse d =>
      if Qle_bool 0 d
      then Some (mk (uiVisible s) (uiHideTimerRef s) (uiForcedHiddenRef s) (pending s)
                    (nextTimer s) (now s + d))
      else None
  | Fire id => fire id s
  end.

Fixpoint run (events : list Event) (s : State) : option State :=
  match events with
  | [] => Some s
  | ev :: rest =>
      match step ev s with
      | Some s' => run rest s'
      | None => None
      end
  end.
End UseStayUi.

(** *** What holds of the controls *)

(** At most one hide timer is pending, and it is the one the hook
    remembers, with the controls visible; while the controls are hidden by
    the H key, no timer is pending and the controls are not visible. *)
Definition ui_ok (s : UseStayUi.State) : Prop :=
  (length (UseStayUi.pending s) <= 1)%nat /\
  (forall tm, tm ∈ UseStayUi.pending s ->
     UseStayUi.uiHideTimerRef s = Some (fst tm) /\ UseStayUi.uiVisible s = true) /\
  (UseStayUi.uiForcedHiddenRef s = true ->
   UseStayUi.pending s = [] /\ UseStayUi.uiVisible s = false).

(** The timers [resetUiTimer] leaves of the ones that were pending. *)
Definition ui_cleared (s : UseStayUi.State) : list (nat * Q) :=
  match UseStayUi.uiHideTimerRef s with
  | Some id => UseStayUi.clearTimeout id (UseStayUi.pending s)
  | None => UseStayUi.pending s
  end.

(** The time the events take. *)
Fixpoint elapsed (events : list UseStayUi.Event) : Q :=
  match events with
  | [] => 0
  | UseStayUi.Elapse d :: rest => d + elapsed rest
  | _ :: rest => elapsed rest
  end.

Definition is_KeyH (ev : UseStayUi.Event) : bool :=
  match ev with UseStayUi.KeyH => true | _ => false end.

(** Events in which the user does nothing: time passes and timers fire. *)
Definition is_idle (ev : UseStayUi.Event) : bool :=
  match ev with UseStayUi.Elapse _ | UseStayUi.Fire _ => true | _ => false end.

(** The page while the rain plays, at the default volume. *)
Definition hook_at_default_volume : UseStayVolume.State :=
  UseStayVolume.mk hook_playing UseStayVolume.DEFAULT_VOLUME.

Definition four_arrows_up : list UseStayVolume.Call :=
  [UseStayVolume.ArrowUp; UseStayVolume.ArrowUp; UseStayVolume.ArrowUp; UseStayVolume.ArrowUp].
(* ================================================================== *)
(** ** The cafe player once loaded *)
(* ================================================================== *)

(** The cafe player of the page once its files have loaded, before it is
    started for the first time. *)
Definition cafe_loaded : CafePlayer.t :=
  match AudioEngine.heap scenes_loaded !! 4%nat with
  | Some (PCafe p) => p
  | _ => fst (CafePlayer.create 0 None None None (quiet_env []))
  end.

(** The fade-in that [CafePlayer.start] schedules on the ambience gain at
    [now]: [setValueAtTime(0, now)], then
    [linearRampToValueAtTime(1.0, now + 1.5)], behind what was scheduled. *)
Definition ambience_fade_in (gp : AudioParam.t) (now : Q) : AudioParam.t :=
  AudioParam.linearRampToValueAtTime 1.0 (now + 1.5) (AudioParam.setValueAtTime 0 now gp).

(** The page with rain and cafe loaded, where the next [Math.random()]
    gives 0.5. *)
Definition cafe_env : Env := with_rng [0.5%Q] (AudioEngine.env scenes_loaded).
(* ================================================================== *)
(** ** The recording layer of the wind *)
(* ================================================================== *)

(** The fade-in that [_startRecordingLayer] schedules on the recording
    gain at [now]: [setValueAtTime(0, now)], then
    [linearRampToValueAtTime(recordingMix, now + 2)]. *)
Definition recording_fade_in (gp : AudioParam.t) (now mix : Q) : AudioParam.t :=
  AudioParam.linearRampToValueAtTime mix (now + 2) (AudioParam.setValueAtTime 0 now gp).

(** A wind player that holds one recording of 30 seconds, loaded and not
    started, on a page with the two draws the start needs. *)
Definition one_recording : AudioBuffer := mkBuffer "wind/soft.mp3" 30 [].

Definition wind_fresh : WindPlayer.t * Env :=
  let '(p, e) := WindPlayer.create 0 None None None None (quiet_env [0.5%Q; 0.25%Q]) in
  (WindPlayer.set_isLoaded true (WindPlayer.set_recordingBuffers [one_recording] p), e).
(* ================================================================== *)
(** ** Where a call is suspended *)
(* ================================================================== *)

(** The suspensions of a task run on its own, in order: what it waits
    for, and the world it leaves behind while it waits. *)
Fixpoint trace_alone {W A : Type} (fuel : nat) (replies : list Reply) (w : W) (tk : Task W A)
  : list (Wait * W) :=
  match fuel with
  | O => []
  | S fuel' =>
      match tk with
      | Done _ => []
      | Await Tick k =>
          (Tick, w) :: (let '(w', tk') := k RUnit w in trace_alone fuel' replies w' tk')
      | Await wt k =>
          (wt, w) ::
          match replies with
          | r :: rest => let '(w', tk') := k r w in trace_alone fuel' rest w' tk'
          | [] => []
          end
      | Detach _ rest => trace_alone fuel' replies w rest
      | Log _ rest => trace_alone fuel' replies w rest
      | Stuck => []
      end
  end.

Definition call_trace {W A : Type} (fuel : nat) (replies : list Reply) (m : Async W A) (w : W)
  : list (Wait * W) :=
  let '(w1, tk) := m w in trace_alone fuel replies w1 tk.



(** Called on its own in the world [w] and answered with [replies], the
    [async] function [m] is suspended as [trace] says and settles as [r]
    says. *)
Definition runs_through {W A : Type} (replies : list Reply) (m : Async W A) (w : W)
    (trace : list (Wait * W)) (r : Run W A) : Prop :=
  exists fuel, call_alone fuel replies m w = Some r /\ call_trace fuel replies m w = trace.

(* ================================================================== *)
(** ** A player that sounds, and what [stop] does to it *)
(* ================================================================== *)

(** The player is playing, so that no earlier [stop] of it is under way;
    a loop player has a current track. *)
Definition sounding (pl : Player) : Prop :=
  match pl with
  | PLoop p =>
      LoopPlayer.isPlaying p = true /\
      is_Some (LoopPlayer.currentGain p) /\ is_Some (LoopPlayer.currentSource p)
  | PCafe p => CafePlayer.isPlaying p = true
  | PWind p => WindPlayer.isPlaying p = true
  end.








(** *** The cafe and the wind playing *)

(** The cafe playing, a second after [play("cafe")]. *)
Definition cafe_playing : AudioEngine.World :=
  AudioEngine.on_env (render_to 1) (after [] (AudioEngine.play "cafe") scenes_loaded).


(* ================================================================== *)
(** * Properties *)
(* ================================================================== *)

(** ** The node store *)

Section StoreFacts.
Context {A : Type}.
Implicit Types (ns l : list A) (x y : A).

Lemma lookup_fresh0 ns x l : (ns ++ x :: l) !! length ns = Some x.
Proof. apply list_lookup_middle. reflexivity. Qed.

Lemma insert_fresh0 ns x y l : <[length ns := y]> (ns ++ x :: l) = ns ++ y :: l.
Proof.
  rewrite insert_app_r_alt by lia. rewrite Nat.sub_diag. reflexivity.
Qed.

Lemma lookup_fresh ns l k : (ns ++ l) !! (length ns + k)%nat = l !! k.
Proof.
  rewrite lookup_app_r by lia. f_equal. lia.
Qed.

Lemma insert_fresh ns l k y : <[(length ns + k)%nat := y]> (ns ++ l) = ns ++ <[k := y]> l.
Proof. apply insert_app_r. Qed.
End StoreFacts.

(** Brings node-store expressions over [ns ++ fresh nodes] to normal form. *)
Ltac store :=
  repeat first
    [ progress cbn [fst snd nodes edges currentTime sampleRate timers nextTimer rng
                    with_nodes with_edges with_timers with_rng with_currentTime
                    length Nat.add app]
    | rewrite <- app_assoc
    | rewrite length_app
    | rewrite lookup_fresh0
    | rewrite insert_fresh0
    | rewrite lookup_fresh
    | rewrite insert_fresh
    | progress cbn [lookup list_lookup insert list_insert] ].

(** ** Noise generator *)

Section NoiseFacts.
Import NoiseGenerator.
Local Open Scope Q_scope.

Lemma white_of_range r : unit_interval r -> in_unit_range (white_of r).
Proof. unfold unit_interval, in_unit_range, white_of. intros [H0 H1]. split; lra. Qed.

Lemma white_loop_range n : forall rng data rest,
  Forall unit_interval rng ->
  white_loop n rng = Some (data, rest) ->
  Forall in_unit_range data /\ Forall unit_interval rest.
Proof.
  induction n as [|n IH]; intros rng data rest Hrng Hrun; simpl in Hrun.
  - injection Hrun as <- <-. split; [constructor | assumption].
  - destruct rng as [|r rng']; simpl in Hrun; [discriminate|].
    destruct (white_loop n rng') as [[d rs]|] eqn:E; [|discriminate].
    injection Hrun as <- <-.
    inversion Hrng as [|? ? Hr Hrest]; subst.
    destruct (IH _ _ _ Hrest E) as [Hd Hrs].
    split; [constructor; [apply white_of_range; exact Hr | exact Hd] | exact Hrs].
Qed.

(** With enough random numbers left, the loops run to their end. *)
Lemma white_loop_returns n : forall rng,
  (n <= length rng)%nat -> exists data rest, white_loop n rng = Some (data, rest).
Proof.
  induction n as [|n IH]; intros rng Hlen; simpl.
  - eauto.
  - destruct rng as [|r rng']; simpl in *; [lia|].
    destruct (IH rng') as (d & rs & ->); [lia|]. eauto.
Qed.

Lemma pink_loop_returns n : forall s rng,
  (n <= length rng)%nat -> exists data rest, pink_loop n s rng = Some (data, rest).
Proof.
  induction n as [|n IH]; intros s rng Hlen; cbn [pink_loop].
  - eauto.
  - destruct rng as [|r rng']; cbn [Math_random length] in *; [lia|].
    destruct (pink_step s (white_of r)) as [s' x].
    destruct (IH s' rng') as (d & rs & ->); [lia|]. eauto.
Qed.

Lemma brown_loop_returns n : forall s rng,
  (n <= length rng)%nat -> exists data rest, brown_loop n s rng = Some (data, rest).
Proof.
  induction n as [|n IH]; intros s rng Hlen; cbn [brown_loop].
  - eauto.
  - destruct rng as [|r rng']; cbn [Math_random length] in *; [lia|].
    destruct (brown_step s (white_of r)) as [s' x].
    destruct (IH s' rng') as (d & rs & ->); [lia|]. eauto.
Qed.

(** The first [k] samples of a longer run are the run of length [k]. *)
Lemma pink_loop_prefix k : forall n s rng data rest,
  (k <= n)%nat ->
  pink_loop n s rng = Some (data, rest) ->
  pink_loop k s (take k rng) = Some (take k data, []).
Proof.
  induction k as [|k IH]; intros n s rng data rest Hk Hrun; [reflexivity|].
  destruct n as [|n]; [lia|].
  destruct rng as [|r rng']; [discriminate|].
  cbn [pink_loop Math_random take] in *.
  destruct (pink_step s (white_of r)) as [s' x].
  destruct (pink_loop n s' rng') as [[d rs]|] eqn:E; [|discriminate].
  injection Hrun as <- <-.
  rewrite (IH n s' rng' d rs ltac:(lia) E). reflexivity.
Qed.

Lemma brown_loop_prefix k : forall n s rng data rest,
  (k <= n)%nat ->
  brown_loop n s rng = Some (data, rest) ->
  brown_loop k s (take k rng) = Some (take k data, []).
Proof.
  induction k as [|k IH]; intros n s rng data rest Hk Hrun; [reflexivity|].
  destruct n as [|n]; [lia|].
  destruct rng as [|r rng']; [discriminate|].
  cbn [brown_loop Math_random take] in *.
  destruct (brown_step s (white_of r)) as [s' x].
  destruct (brown_loop n s' rng') as [[d rs]|] eqn:E; [|discriminate].
  injection Hrun as <- <-.
  rewrite (IH n s' rng' d rs ltac:(lia) E). reflexivity.
Qed.
End NoiseFacts.

Section NoiseRange.
Import NoiseGenerator.
Local Open Scope Q_scope.

(** White noise stays in the unit range whatever the generator returns. *)
Lemma createWhiteNoise_in_range (e e' : Env) (source : nat) :
  Forall unit_interval (rng e) ->
  createWhiteNoise e = Some (source, e') ->
  Forall in_unit_range (samples_of source e').
Proof.
  intros Hrng Hmk. unfold createWhiteNoise in Hmk.
  destruct (white_loop (bufferSize e) (rng e)) as [[data rest]|] eqn:E; [|discriminate].
  injection Hmk as <- <-.
  destruct (white_loop_range _ _ _ _ Hrng E) as [Hd _].
  unfold samples_of, looping_source, createBufferSource, new_node,
    set_buffer, set_loop, update_node; cbn.
  rewrite lookup_app_r by (cbn; lia). rewrite Nat.sub_diag. cbn.
  rewrite list_lookup_insert_eq by (rewrite length_app; cbn; lia). cbn.
  rewrite list_lookup_insert_eq
    by (rewrite length_insert, length_app; cbn; lia).
  cbn. exact Hd.
Qed.

Lemma loud_env_admissible : Forall unit_interval (rng loud_env).
Proof.
  apply Forall_forall. intros r Hr. apply elem_of_replicate in Hr as [-> _].
  unfold unit_interval. split; lra.
Qed.

Lemma loud_env_supply : (bufferSize loud_env <= length (rng loud_env))%nat.
Proof.
  unfold bufferSize, loud_env; cbn [rng sampleRate]. rewrite length_replicate.
  apply Nat.eq_le_incl. f_equal.
Qed.

Lemma samples_of_looping_source data rest e :
  samples_of (fst (looping_source data rest e)) (snd (looping_source data rest e)) = data.
Proof.
  unfold samples_of, looping_source, createBufferSource, new_node,
    set_buffer, set_loop, update_node; cbn.
  rewrite lookup_app_r by (cbn; lia). rewrite Nat.sub_diag. cbn.
  rewrite list_lookup_insert_eq by (rewrite length_app; cbn; lia). cbn.
  rewrite list_lookup_insert_eq
    by (rewrite length_insert, length_app; cbn; lia).
  reflexivity.
Qed.

Lemma above_one_at_spec i d r :
  above_one_at i (Some (d, r)) = true -> exists x, d !! i = Some x /\ 1 < x.
Proof.
  unfold above_one_at. destruct (d !! i) as [x|]; [|discriminate].
  intros H. exists x. split; [reflexivity|].
  apply Qnot_le_lt. intros Hle. apply Qle_bool_iff in Hle.
  rewrite Hle in H. discriminate.
Qed.

Lemma pink_loud_prefix :
  above_one_at 21 (pink_loop 22 pink_init (replicate 22 0.99)) = true.
Proof. vm_compute. reflexivity. Qed.

Lemma brown_loud_prefix :
  above_one_at 17 (brown_loop 18 0 (replicate 18 0.99)) = true.
Proof. vm_compute. reflexivity. Qed.

(** C3: on that context the pink buffer passes 1 at sample 21 and the
    brown buffer at sample 17, although every random number is in [0,1). *)
Theorem noise_leaves_unit_range :
  Forall unit_interval (rng loud_env) /\
  (exists source e' x,
      createPinkNoise loud_env = Some (source, e') /\
      samples_of source e' !! 21%nat = Some x /\ 1 < x) /\
  (exists source e' x,
      createBrownNoise loud_env = Some (source, e') /\
      samples_of source e' !! 17%nat = Some x /\ 1 < x).
Proof.
  split; [exact loud_env_admissible|]. split.
  - destruct (pink_loop_returns _ pink_init _ loud_env_supply) as (data & rest & Hrun).
    assert (Hk : (22 <= bufferSize loud_env)%nat)
      by (unfold bufferSize; cbn [sampleRate loud_env]; lia).
    pose proof (pink_loop_prefix 22 _ _ _ _ _ Hk Hrun) as Hpre.
    cbn [rng loud_env] in Hpre. rewrite take_replicate in Hpre.
    replace (22 `min` N.to_nat 88200)%nat with 22%nat in Hpre by lia.
    pose proof pink_loud_prefix as Hchk. rewrite Hpre in Hchk.
    destruct (above_one_at_spec _ _ _ Hchk) as (x & Hx & Hgt).
    rewrite lookup_take_lt in Hx by lia.
    unfold createPinkNoise. rewrite Hrun.
    exists (fst (looping_source data rest loud_env)),
           (snd (looping_source data rest loud_env)), x.
    split; [f_equal; apply surjective_pairing|].
    rewrite samples_of_looping_source. split; assumption.
  - destruct (brown_loop_returns _ 0 _ loud_env_supply) as (data & rest & Hrun).
    assert (Hk : (18 <= bufferSize loud_env)%nat)
      by (unfold bufferSize; cbn [sampleRate loud_env]; lia).
    pose proof (brown_loop_prefix 18 _ _ _ _ _ Hk Hrun) as Hpre.
    cbn [rng loud_env] in Hpre. rewrite take_replicate in Hpre.
    replace (18 `min` N.to_nat 88200)%nat with 18%nat in Hpre by lia.
    pose proof brown_loud_prefix as Hchk. rewrite Hpre in Hchk.
    destruct (above_one_at_spec _ _ _ Hchk) as (x & Hx & Hgt).
    rewrite lookup_take_lt in Hx by lia.
    unfold createBrownNoise. rewrite Hrun.
    exists (fst (looping_source data rest loud_env)),
           (snd (looping_source data rest loud_env)), x.
    split; [f_equal; apply surjective_pairing|].
    rewrite samples_of_looping_source. split; assumption.
Qed.
End NoiseRange.

(** ** Automation timelines and the master volume *)

Section ParamFacts.
Import AudioParam.
Local Open Scope Q_scope.

Lemma gain_param_on_gain r f e p :
  gain_param r e = Some p -> gain_param r (on_gain r f e) = Some (f p).
Proof.
  unfold gain_param, on_gain, update_node. intros H.
  destruct (nodes e !! r) as [n|] eqn:E; [|discriminate].
  destruct n; try discriminate. injection H as ->.
  cbn. rewrite list_lookup_insert_eq; [reflexivity|].
  apply lookup_lt_Some in E. exact E.
Qed.

Lemma gain_value_param r e p : gain_param r e = Some p -> gain_value r e = value p.
Proof.
  unfold gain_param, gain_value. destruct (nodes e !! r) as [[]|]; try discriminate.
  intros H. injection H as ->. reflexivity.
Qed.

(** An event that is not earlier than any event of the list goes last. *)
Lemma insert_last ev l :
  Forall (fun x => time x <= time ev) l -> insert ev l = l ++ [ev].
Proof.
  induction l as [|x l IH]; intros H; [reflexivity|].
  inversion H as [|? ? Hx Hl]; subst. cbn.
  apply Qle_bool_iff in Hx. rewrite Hx. f_equal. exact (IH Hl).
Qed.

(** What [cancelScheduledValues] keeps lies strictly before the cancel time. *)
Lemma cancel_keeps_past tm p :
  Forall (fun x => time x < tm) (events (cancelScheduledValues tm p)).
Proof.
  unfold cancelScheduledValues. cbn. induction (events p) as [|x l IH]; [constructor|].
  cbn. destruct (Qle_bool tm (time x)) eqn:E.
  - cbn. rewrite decide_False; [exact IH|]. cbn. intros [].
  - cbn. rewrite decide_True by exact I. constructor; [|exact IH].
    apply Qnot_le_lt. intros Hle. apply Qle_bool_iff in Hle. congruence.
Qed.


End ParamFacts.

Section MasterVolume.
Import AudioParam AudioEngine.
Local Open Scope Q_scope.

Lemma clamp_unit x : 0 <= clamp 0 1 x /\ clamp 0 1 x <= 1.
Proof.
  unfold clamp. split.
  - apply Q.le_max_l.
  - apply Q.max_lub; [lra | apply Q.le_min_l].
Qed.

Lemma setVolume_param w mg ctx p value rampTime :
  masterGain (this w) = Some mg ->
  audioContext (this w) = Some ctx ->
  gain_param mg (env w) = Some p ->
  setVolume value rampTime w
  = with_env (on_gain mg (linearRampToValueAtTime (clamp 0 1 value)
                            (currentTime (env w) + rampTime))
               (on_gain mg (setValueAtTime (AudioParam.value p) (currentTime (env w)))
                  (on_gain mg (cancelScheduledValues (currentTime (env w))) (env w)))) w
  /\ gain_param mg (env (setVolume value rampTime w))
     = Some (volume_ramp p (currentTime (env w)) value rampTime).
Proof.
  intros Hmg Hctx Hp. unfold setVolume. rewrite Hmg, Hctx.
  pose proof (gain_param_on_gain mg (cancelScheduledValues (currentTime (env w))) _ _ Hp) as H1.
  rewrite (gain_value_param _ _ _ H1). cbn [AudioParam.value cancelScheduledValues].
  split; [reflexivity|].
  cbn [env with_env]. unfold volume_ramp.
  apply gain_param_on_gain. apply gain_param_on_gain. exact H1.
Qed.

Lemma volume_ramp_events p now value rampTime :
  0 <= rampTime ->
  events (volume_ramp p now value rampTime)
  = events (cancelScheduledValues now p)
      ++ [SetValue (AudioParam.value p) now; LinearRamp (clamp 0 1 value) (now + rampTime)].
Proof.
  intros Hd. unfold volume_ramp, linearRampToValueAtTime, setValueAtTime.
  cbn [events AudioParam.value].
  pose proof (cancel_keeps_past now p) as Hpast.
  rewrite (insert_last (SetValue (AudioParam.value p) now)).
  2:{ eapply Forall_impl; [exact Hpast|]. cbn. intros ev Hev. lra. }
  rewrite insert_last.
  2:{ apply Forall_app. split.
      - eapply Forall_impl; [exact Hpast|]. cbn. intros ev Hev. lra.
      - constructor; [cbn; lra | constructor]. }
  rewrite <- app_assoc. reflexivity.
Qed.




End MasterVolume.

(** ** Tasks run on their own *)

Section AloneFacts.
Context {W : Type}.

Lemma run_alone_more {A : Type} (fuel : nat) : forall extra replies (w : W) (tk : Task W A) res,
  run_alone fuel replies w tk = Some res ->
  run_alone (fuel + extra) replies w tk = Some res.
Proof.
  induction fuel as [|fuel IH]; intros extra replies w tk res Hrun; [discriminate|].
  cbn [run_alone Nat.add] in *.
  destruct tk as [o | wt k | bg rest | msg rest | ]; try assumption.
  - destruct wt.
    + destruct (k RUnit w) as [w' tk']. apply IH. exact Hrun.
    + destruct replies as [|r rs]; [discriminate|].
      destruct (k r w) as [w' tk']. apply IH. exact Hrun.
    + destruct replies as [|r rs]; [discriminate|].
      destruct (k r w) as [w' tk']. apply IH. exact Hrun.
    + destruct replies as [|r rs]; [discriminate|].
      destruct (k r w) as [w' tk']. apply IH. exact Hrun.
    + destruct replies as [|r rs]; [discriminate|].
      destruct (k r w) as [w' tk']. apply IH. exact Hrun.
  - apply IH. exact Hrun.
  - destruct (run_alone fuel replies w rest) as [r0|] eqn:E; [|discriminate].
    rewrite (IH extra _ _ _ _ E). exact Hrun.
Qed.

(** [await f()]: one more tick, the same result. *)
Lemma run_alone_settle {A : Type} (fuel : nat) : forall replies (w : W) (tk : Task W A) res,
  run_alone fuel replies w tk = Some res ->
  run_alone (S fuel) replies w (settle_task tk) = Some res.
Proof.
  induction fuel as [|fuel IH]; intros replies w tk res Hrun; [discriminate|].
  cbn [run_alone] in Hrun.
  destruct tk as [o | wt k | bg rest | msg rest | ]; cbn [settle_task].
  - cbn. exact Hrun.
  - destruct wt.
    + cbn [run_alone]. destruct (k RUnit w) as [w' tk']. apply IH. exact Hrun.
    + destruct replies as [|r rs]; [discriminate|]. cbn [run_alone].
      destruct (k r w) as [w' tk']. apply IH. exact Hrun.
    + destruct replies as [|r rs]; [discriminate|]. cbn [run_alone].
      destruct (k r w) as [w' tk']. apply IH. exact Hrun.
    + destruct replies as [|r rs]; [discriminate|]. cbn [run_alone].
      destruct (k r w) as [w' tk']. apply IH. exact Hrun.
    + destruct replies as [|r rs]; [discriminate|]. cbn [run_alone].
      destruct (k r w) as [w' tk']. apply IH. exact Hrun.
  - change (run_alone (S (S fuel)) replies w (Detach bg (settle_task rest)))
      with (run_alone (S fuel) replies w (settle_task rest)).
    apply IH. exact Hrun.
  - change (run_alone (S (S fuel)) replies w (Log msg (settle_task rest)))
      with (and_printed msg <$> run_alone (S fuel) replies w (settle_task rest)).
    destruct (run_alone fuel replies w rest) as [r0|] eqn:E; [|discriminate].
    rewrite (IH _ _ _ _ E). exact Hrun.
  - discriminate.
Qed.

(** Sequencing: the first part runs, then what follows it on the replies
    the first part left. *)
Lemma run_alone_bind {A B : Type} (fuel1 : nat) :
  forall fuel2 replies (w : W) (tk : Task W A) (f : A -> Async W B) r1 a r2,
  run_alone fuel1 replies w tk = Some r1 ->
  settled r1 = Fulfilled a ->
  call_alone fuel2 (unused r1) (f a) (final r1) = Some r2 ->
  call_alone (fuel1 + fuel2) replies (bind_task tk f) w
  = Some (mkRun (final r2) (settled r2) (printed r1 ++ printed r2) (unused r2)).
Proof.
  unfold call_alone.
  induction fuel1 as [|fuel1 IH];
    intros fuel2 replies w tk f r1 a r2 Hrun Ha Hnext; [discriminate|].
  cbn [run_alone] in Hrun.
  destruct tk as [o | wt k | bg rest | msg rest | ]; cbn [bind_task].
  - injection Hrun as <-. cbn [final settled unused printed app] in Ha, Hnext |- *. subst o.
    destruct (f a w) as [w2 tk2].
    replace (S fuel1 + fuel2)%nat with (fuel2 + S fuel1)%nat by lia.
    rewrite (run_alone_more _ _ _ _ _ _ Hnext).
    destruct r2. reflexivity.
  - destruct wt.
    + cbn [Nat.add run_alone].
      destruct (k RUnit w) as [w' tk'].
      specialize (IH fuel2 replies w' tk' f r1 a r2 Hrun Ha Hnext).
      destruct (bind_task tk' f w') as [w0 tk0]. exact IH.
    + destruct replies as [|r rs]; [discriminate|]. cbn [Nat.add run_alone].
      destruct (k r w) as [w' tk'].
      specialize (IH fuel2 rs w' tk' f r1 a r2 Hrun Ha Hnext).
      destruct (bind_task tk' f w') as [w0 tk0]. exact IH.
    + destruct replies as [|r rs]; [discriminate|]. cbn [Nat.add run_alone].
      destruct (k r w) as [w' tk'].
      specialize (IH fuel2 rs w' tk' f r1 a r2 Hrun Ha Hnext).
      destruct (bind_task tk' f w') as [w0 tk0]. exact IH.
    + destruct replies as [|r rs]; [discriminate|]. cbn [Nat.add run_alone].
      destruct (k r w) as [w' tk'].
      specialize (IH fuel2 rs w' tk' f r1 a r2 Hrun Ha Hnext).
      destruct (bind_task tk' f w') as [w0 tk0]. exact IH.
    + destruct replies as [|r rs]; [discriminate|]. cbn [Nat.add run_alone].
      destruct (k r w) as [w' tk'].
      specialize (IH fuel2 rs w' tk' f r1 a r2 Hrun Ha Hnext).
      destruct (bind_task tk' f w') as [w0 tk0]. exact IH.
  - specialize (IH fuel2 replies w rest f r1 a r2 Hrun Ha Hnext).
    destruct (bind_task rest f w) as [w0 tk0]. cbn [Nat.add run_alone]. exact IH.
  - destruct (run_alone fuel1 replies w rest) as [r0|] eqn:E; [|discriminate].
    injection Hrun as <-. cbn in Ha, Hnext.
    specialize (IH fuel2 replies w rest f r0 a r2 E Ha Hnext).
    destruct (bind_task rest f w) as [w0 tk0]. cbn [Nat.add run_alone].
    rewrite IH. reflexivity.
  - discriminate.
Qed.
End AloneFacts.

Section ZoomFacts.
Context {W V : Type} (L : Lens W V).

(** A computation on the object, run alone, is the same computation run
    alone inside the larger world. *)
Lemma run_alone_zoom {A : Type} (fuel : nat) :
  forall replies (w : W) (v : V) (tk : Task V A) r,
  lawful L ->
  view L w = Some v ->
  run_alone fuel replies v tk = Some r ->
  run_alone fuel replies w (zoom_task L tk)
  = Some (mkRun (over L (final r) w) (settled r) (printed r) (unused r)).
Proof.
  induction fuel as [|fuel IH]; intros replies w v tk r Hf Hv Hrun; [discriminate|].
  pose proof Hf as (Hpg & Hpp & Hgp).
  assert (Hstep : forall (k : Reply -> V -> V * Task V A) rp rs,
    (let '(v1, tk1) := k rp v in run_alone fuel rs v1 tk1) = Some r ->
    (let '(w1, tk1) :=
       match view L w with
       | Some v0 => let '(v1, t1) := k rp v0 in (over L v1 w, zoom_task L t1)
       | None => (w, Stuck)
       end in run_alone fuel rs w1 tk1)
    = Some (mkRun (over L (final r) w) (settled r) (printed r) (unused r))).
  { intros k rp rs Hk. rewrite Hv. destruct (k rp v) as [v1 tk1].
    rewrite (IH rs (over L v1 w) v1 tk1 r Hf); [| |exact Hk].
    - rewrite Hpp. reflexivity.
    - apply Hpg. eauto. }
  cbn [run_alone] in Hrun.
  destruct tk as [o0 | wt k | bg rest | msg rest | ]; cbn [zoom_task run_alone].
  - injection Hrun as <-. cbn. rewrite (Hgp _ _ Hv). reflexivity.
  - destruct wt.
    + apply Hstep. exact Hrun.
    + destruct replies as [|rp rs]; [discriminate|]. apply Hstep. exact Hrun.
    + destruct replies as [|rp rs]; [discriminate|]. apply Hstep. exact Hrun.
    + destruct replies as [|rp rs]; [discriminate|]. apply Hstep. exact Hrun.
    + destruct replies as [|rp rs]; [discriminate|]. apply Hstep. exact Hrun.
  - exact (IH _ _ _ _ _ Hf Hv Hrun).
  - destruct (run_alone fuel replies v rest) as [r0|] eqn:E; [|discriminate].
    injection Hrun as <-.
    rewrite (IH _ _ _ _ _ Hf Hv E). reflexivity.
  - discriminate.
Qed.
End ZoomFacts.

Section RunsTo.
Context {W : Type}.

(** A call that finishes without waiting. *)
Lemma runs_sync {A : Type} (m : Async W A) (w w1 : W) (o : Outcome A) replies :
  m w = (w1, Done o) -> runs_to replies m w (mkRun w1 o [] replies).
Proof. intros E. exists 1%nat. unfold call_alone. rewrite E. reflexivity. Qed.

Lemma runs_ret {A : Type} (a : A) (w : W) replies :
  runs_to replies (ret a) w (mkRun w (Fulfilled a) [] replies).
Proof. apply runs_sync. reflexivity. Qed.

Lemma runs_get (w : W) replies :
  runs_to replies get w (mkRun w (Fulfilled w) [] replies).
Proof. apply runs_sync. reflexivity. Qed.

Lemma runs_gets {A : Type} (f : W -> A) (w : W) replies :
  runs_to replies (gets f) w (mkRun w (Fulfilled (f w)) [] replies).
Proof. apply runs_sync. reflexivity. Qed.

Lemma runs_modify (f : W -> W) (w : W) replies :
  runs_to replies (modify f) w (mkRun (f w) (Fulfilled tt) [] replies).
Proof. apply runs_sync. reflexivity. Qed.

Lemma runs_attempt (f : W -> option W) (w w' : W) replies :
  f w = Some w' -> runs_to replies (attempt f) w (mkRun w' (Fulfilled tt) [] replies).
Proof. intros E. apply runs_sync. unfold attempt. rewrite E. reflexivity. Qed.

Lemma runs_console (msg : string) (w : W) replies :
  runs_to replies (console msg) w (mkRun w (Fulfilled tt) [msg] replies).
Proof. exists 2%nat. reflexivity. Qed.

(** An [await] on the environment takes the next reply. *)
Lemma runs_await (wt : Wait) (w : W) reply replies :
  wt <> Tick ->
  runs_to (reply :: replies) (await wt) w (mkRun w (Fulfilled reply) [] replies).
Proof. intros Hwt. exists 2%nat. destruct wt; [congruence | reflexivity..]. Qed.

Lemma runs_bind {A B : Type} (m : Async W A) (f : A -> Async W B) (w w1 w2 : W)
    a o out1 out2 replies replies1 replies2 :
  runs_to replies m w (mkRun w1 (Fulfilled a) out1 replies1) ->
  runs_to replies1 (f a) w1 (mkRun w2 o out2 replies2) ->
  runs_to replies (bind m f) w (mkRun w2 o (out1 ++ out2) replies2).
Proof.
  intros [fuel1 H1] [fuel2 H2]. exists (fuel1 + fuel2)%nat.
  unfold call_alone, bind in *. destruct (m w) as [w0 tk].
  exact (run_alone_bind fuel1 fuel2 replies w0 tk f _ a _ H1 eq_refl H2).
Qed.

(** What follows a rejected [await] is skipped. *)
Lemma runs_bind_rejected {A B : Type} (m : Async W A) (f : A -> Async W B) (w : W) r e replies :
  runs_to replies m w r -> settled r = Rejected e ->
  runs_to replies (bind m f) w (mkRun (final r) (Rejected e) (printed r) (unused r)).
Proof.
  intros [fuel H] He. exists fuel. unfold call_alone, bind in *.
  destruct (m w) as [w0 tk]. revert replies w0 tk r H He.
  induction fuel as [|fuel IH]; intros replies w0 tk r H He; [discriminate|].
  cbn [run_alone] in H.
  destruct tk as [o | wt k | bg rest | msg rest | ]; cbn [bind_task].
  - injection H as <-. cbn in He. subst o. reflexivity.
  - cbn [run_alone].
    destruct wt.
    + destruct (k RUnit w0) as [w' tk']. specialize (IH replies w' tk' r H He).
      destruct (bind_task tk' f w') as [w1 tk1]. exact IH.
    + destruct replies as [|rp rs]; [discriminate|].
      destruct (k rp w0) as [w' tk']. specialize (IH rs w' tk' r H He).
      destruct (bind_task tk' f w') as [w1 tk1]. exact IH.
    + destruct replies as [|rp rs]; [discriminate|].
      destruct (k rp w0) as [w' tk']. specialize (IH rs w' tk' r H He).
      destruct (bind_task tk' f w') as [w1 tk1]. exact IH.
    + destruct replies as [|rp rs]; [discriminate|].
      destruct (k rp w0) as [w' tk']. specialize (IH rs w' tk' r H He).
      destruct (bind_task tk' f w') as [w1 tk1]. exact IH.
    + destruct replies as [|rp rs]; [discriminate|].
      destruct (k rp w0) as [w' tk']. specialize (IH rs w' tk' r H He).
      destruct (bind_task tk' f w') as [w1 tk1]. exact IH.
  - specialize (IH replies w0 rest r H He).
    destruct (bind_task rest f w0) as [w1 tk1]. exact IH.
  - destruct (run_alone fuel replies w0 rest) as [r0|] eqn:E; [|discriminate].
    injection H as <-. cbn in He.
    specialize (IH replies w0 rest r0 E He).
    destruct (bind_task rest f w0) as [w1 tk1]. cbn [run_alone]. rewrite IH. reflexivity.
  - discriminate.
Qed.

(** [await f()] settles as [f()] does. *)
Lemma runs_await_call {A : Type} (m : Async W A) (w : W) r replies :
  runs_to replies m w r -> runs_to replies (await_call m) w r.
Proof.
  intros [fuel H]. exists (S fuel). unfold call_alone, await_call in *.
  destruct (m w) as [w0 tk]. apply run_alone_settle. exact H.
Qed.

Lemma runs_as {A : Type} (m : Async W A) (w : W) r r' replies :
  runs_to replies m w r -> r = r' -> runs_to replies m w r'.
Proof. intros H <-. exact H. Qed.

(** More fuel changes nothing. *)
Lemma runs_to_stable {A : Type} (m : Async W A) (w : W) r replies :
  runs_to replies m w r ->
  exists fuel0, forall fuel, (fuel0 <= fuel)%nat -> call_alone fuel replies m w = Some r.
Proof.
  intros [fuel0 H]. exists fuel0. intros fuel Hle.
  replace fuel with (fuel0 + (fuel - fuel0))%nat by lia.
  unfold call_alone in *. destruct (m w) as [w0 tk]. apply run_alone_more. exact H.
Qed.

(** A call settles in one way only. *)
Lemma runs_to_unique {A : Type} (m : Async W A) (w : W) r r' replies :
  runs_to replies m w r -> runs_to replies m w r' -> r = r'.
Proof.
  intros [f1 H1] [f2 H2]. unfold call_alone in *. destruct (m w) as [w0 tk].
  apply (run_alone_more _ f2) in H1. apply (run_alone_more _ f1) in H2.
  rewrite Nat.add_comm in H2. congruence.
Qed.
End RunsTo.

Lemma runs_zoom {W V A : Type} (L : Lens W V) (m : Async V A) (w : W) (v v' : V)
    o out replies replies' :
  lawful L ->
  view L w = Some v ->
  runs_to replies m v (mkRun v' o out replies') ->
  runs_to replies (zoom L m) w (mkRun (over L v' w) o out replies').
Proof.
  intros Hlaw Hv [fuel H]. exists fuel. unfold call_alone, zoom in *. rewrite Hv.
  destruct (m v) as [v1 tk].
  pose proof Hlaw as (Hpg & Hpp & _).
  rewrite (run_alone_zoom L fuel replies (over L v1 w) v1 tk _ Hlaw (Hpg _ _ (ex_intro _ v Hv)) H).
  cbn. rewrite Hpp. reflexivity.
Qed.

(** ** What a call leaves alone *)

Section Keeps.
Context {W : Type} (P : W -> Prop).

Lemma keeps_sync {A : Type} (m : Async W A) :
  (forall w, P w -> P (fst (m w))) ->
  (forall w, exists o, snd (m w) = Done o) ->
  keeps P m.
Proof.
  intros Hp Hd w Hw. split; [apply Hp; exact Hw|].
  destruct (Hd w) as [o ->]. constructor.
Qed.

Lemma keeps_ret {A : Type} (a : A) : keeps P (ret a).
Proof. intros w Hw. split; [exact Hw | constructor]. Qed.

Lemma keeps_throw {A : Type} e : keeps P (throw (A:=A) e).
Proof. intros w Hw. split; [exact Hw | constructor]. Qed.

Lemma keeps_get : keeps P get.
Proof. intros w Hw. split; [exact Hw | constructor]. Qed.

Lemma keeps_gets {A : Type} (f : W -> A) : keeps P (gets f).
Proof. intros w Hw. split; [exact Hw | constructor]. Qed.

Lemma keeps_modify (f : W -> W) : (forall w, P w -> P (f w)) -> keeps P (modify f).
Proof. intros Hf w Hw. split; [apply Hf; exact Hw | constructor]. Qed.

Lemma keeps_attempt (f : W -> option W) :
  (forall w w', P w -> f w = Some w' -> P w') -> keeps P (attempt f).
Proof.
  intros Hf w Hw. unfold attempt. destruct (f w) as [w'|] eqn:E; cbn.
  - split; [eapply Hf; eassumption | constructor].
  - split; [exact Hw | constructor].
Qed.

Lemma keeps_console msg : keeps P (console msg).
Proof. intros w Hw. split; [exact Hw | repeat constructor]. Qed.

Lemma keeps_await wt : keeps P (await wt).
Proof.
  intros w Hw. split; [exact Hw|]. constructor; intros r w' Hw'; cbn; [exact Hw' | constructor].
Qed.

Lemma stable_bind {A B : Type} (tk : Task W A) (f : A -> Async W B) :
  stable P tk -> (forall a, keeps P (f a)) ->
  forall w, P w -> P (fst (bind_task tk f w)) /\ stable P (snd (bind_task tk f w)).
Proof.
  intros Hst Hf. induction Hst as [o | wt k Hk1 Hk2 IH | bg rest Hrest IH | msg rest Hrest IH | ];
    intros w Hw; cbn [bind_task].
  - destruct o as [a|e]; [apply Hf; exact Hw | split; [exact Hw | constructor]].
  - split; [exact Hw|]. constructor; intros r w' Hw'.
    + specialize (IH r w' Hw' (fst (k r w')) (Hk1 r w' Hw')).
      destruct (k r w') as [w'' t']. exact (proj1 IH).
    + specialize (IH r w' Hw' (fst (k r w')) (Hk1 r w' Hw')).
      destruct (k r w') as [w'' t']. exact (proj2 IH).
  - specialize (IH w Hw). destruct (bind_task rest f w) as [w' t'].
    split; [exact (proj1 IH) | constructor; exact (proj2 IH)].
  - specialize (IH w Hw). destruct (bind_task rest f w) as [w' t'].
    split; [exact (proj1 IH) | constructor; exact (proj2 IH)].
  - split; [exact Hw | constructor].
Qed.

Lemma keeps_bind {A B : Type} (m : Async W A) (f : A -> Async W B) :
  keeps P m -> (forall a, keeps P (f a)) -> keeps P (bind m f).
Proof.
  intros Hm Hf w Hw. unfold bind. specialize (Hm w Hw).
  destruct (m w) as [w1 tk]. apply stable_bind; [exact (proj2 Hm) | exact Hf | exact (proj1 Hm)].
Qed.

Lemma stable_settle {A : Type} (tk : Task W A) : stable P tk -> stable P (settle_task tk).
Proof.
  induction 1 as [o | wt k Hk1 Hk2 IH | bg rest Hrest IH | msg rest Hrest IH | ];
    cbn [settle_task]; try (constructor; assumption).
  - constructor; intros r w Hw; cbn; [exact Hw | constructor].
  - constructor; intros r w Hw.
    + specialize (Hk1 r w Hw). destruct (k r w). exact Hk1.
    + specialize (IH r w Hw). destruct (k r w). exact IH.
Qed.

Lemma keeps_await_call {A : Type} (m : Async W A) : keeps P m -> keeps P (await_call m).
Proof.
  intros Hm w Hw. unfold await_call. specialize (Hm w Hw). destruct (m w) as [w1 tk].
  split; [exact (proj1 Hm) | apply stable_settle; exact (proj2 Hm)].
Qed.

Lemma stable_detached (tk : Task W unit) : stable P (detach_task tk).
Proof.
  revert tk. fix IH 1. intros tk.
  destruct tk as [o | wt k | bg rest | msg rest | ]; cbn [detach_task]; repeat constructor; apply IH.
Qed.

(** An un-awaited call: only its synchronous prefix counts. *)
Lemma keeps_call_detached (m : Async W unit) :
  (forall w, P w -> P (fst (m w))) -> keeps P (call_detached m).
Proof.
  intros Hm w Hw. unfold call_detached. specialize (Hm w Hw). destruct (m w) as [w1 tk].
  split; [exact Hm | apply stable_detached].
Qed.

Lemma run_alone_stable {A : Type} (fuel : nat) : forall replies (w : W) (tk : Task W A) r,
  stable P tk -> P w -> run_alone fuel replies w tk = Some r -> P (final r).
Proof.
  induction fuel as [|fuel IH]; intros replies w tk r Hst Hw Hrun; [discriminate|].
  cbn [run_alone] in Hrun.
  destruct Hst as [o | wt k Hk1 Hk2 | bg rest Hrest | msg rest Hrest | ].
  - injection Hrun as <-. exact Hw.
  - destruct wt.
    + specialize (Hk1 RUnit w Hw). specialize (Hk2 RUnit w Hw).
      destruct (k RUnit w) as [w' tk']. exact (IH _ _ _ _ Hk2 Hk1 Hrun).
    + destruct replies as [|rp rs]; [discriminate|].
      specialize (Hk1 rp w Hw). specialize (Hk2 rp w Hw).
      destruct (k rp w) as [w' tk']. exact (IH _ _ _ _ Hk2 Hk1 Hrun).
    + destruct replies as [|rp rs]; [discriminate|].
      specialize (Hk1 rp w Hw). specialize (Hk2 rp w Hw).
      destruct (k rp w) as [w' tk']. exact (IH _ _ _ _ Hk2 Hk1 Hrun).
    + destruct replies as [|rp rs]; [discriminate|].
      specialize (Hk1 rp w Hw). specialize (Hk2 rp w Hw).
      destruct (k rp w) as [w' tk']. exact (IH _ _ _ _ Hk2 Hk1 Hrun).
    + destruct replies as [|rp rs]; [discriminate|].
      specialize (Hk1 rp w Hw). specialize (Hk2 rp w Hw).
      destruct (k rp w) as [w' tk']. exact (IH _ _ _ _ Hk2 Hk1 Hrun).
  - exact (IH _ _ _ _ Hrest Hw Hrun).
  - destruct (run_alone fuel replies w rest) as [r0|] eqn:E; [|discriminate].
    injection Hrun as <-. cbn. exact (IH _ _ _ _ Hrest Hw E).
  - discriminate.
Qed.

(** What a call keeps at every step holds when it has settled. *)
Lemma runs_keeps {A : Type} (m : Async W A) (w : W) r replies :
  keeps P m -> P w -> runs_to replies m w r -> P (final r).
Proof.
  intros Hm Hw [fuel Hrun]. unfold call_alone in Hrun. specialize (Hm w Hw).
  destruct (m w) as [w1 tk]. exact (run_alone_stable fuel _ _ _ _ (proj2 Hm) (proj1 Hm) Hrun).
Qed.
End Keeps.

(** A computation on an object keeps what does not depend on the object. *)
Lemma stable_zoom {W V A : Type} (L : Lens W V) (P : W -> Prop) :
  (forall v w, P w -> P (over L v w)) ->
  forall tk : Task V A, stable P (zoom_task L tk).
Proof.
  intros Hover. fix IH 1. intros tk.
  destruct tk as [o | wt k | bg rest | msg rest | ]; cbn [zoom_task].
  - constructor.
  - constructor; intros r w Hw.
    + destruct (view L w) as [v|]; [|exact Hw].
      destruct (k r v) as [v' t']. cbn. apply Hover. exact Hw.
    + destruct (view L w) as [v|]; [|constructor].
      destruct (k r v) as [v' t']. cbn. apply IH.
  - constructor. apply IH.
  - constructor. apply IH.
  - constructor.
Qed.

Lemma keeps_zoom {W V A : Type} (L : Lens W V) (P : W -> Prop) (m : Async V A) :
  (forall v w, P w -> P (over L v w)) -> keeps P (zoom L m).
Proof.
  intros Hover w Hw. unfold zoom. destruct (view L w) as [v|].
  - destruct (m v) as [v' tk]. split; [apply Hover; exact Hw | apply stable_zoom; exact Hover].
  - split; [exact Hw | constructor].
Qed.

(** ** Track selection *)

Section EnvFrames.
(** The operations on nodes, edges and timers leave the random supply alone. *)
Lemma rng_update_node r f e : rng (update_node r f e) = rng e.
Proof. unfold update_node. destruct (nodes e !! r); reflexivity. Qed.

Lemma rng_on_gain r f e : rng (on_gain r f e) = rng e.
Proof. apply rng_update_node. Qed.

Lemma rng_source_start r e : rng (source_start r e) = rng e.
Proof. apply rng_update_node. Qed.

Lemma rng_set_buffer r b e : rng (set_buffer r b e) = rng e.
Proof. apply rng_update_node. Qed.

Lemma rng_set_loop r b e : rng (set_loop r b e) = rng e.
Proof. apply rng_update_node. Qed.

Lemma rng_set_playbackRate r b e : rng (set_playbackRate r b e) = rng e.
Proof. apply rng_update_node. Qed.

Lemma rng_set_detune r b e : rng (set_detune r b e) = rng e.
Proof. apply rng_update_node. Qed.

Lemma rng_clearTimeout id e : rng (clearTimeout id e) = rng e.
Proof. reflexivity. Qed.

Lemma rng_setTimeout cb ms e : rng (snd (setTimeout cb ms e)) = rng e.
Proof. reflexivity. Qed.

Lemma rng_connect a b e : rng (connect a b e) = rng e.
Proof. reflexivity. Qed.

Lemma rng_disconnect a e : rng (disconnect a e) = rng e.
Proof. reflexivity. Qed.

Lemma rng_new_node n e : rng (snd (new_node n e)) = rng e.
Proof. reflexivity. Qed.

Lemma rng_createGain e : rng (snd (createGain e)) = rng e.
Proof. reflexivity. Qed.

Lemma rng_createBufferSource e : rng (snd (createBufferSource e)) = rng e.
Proof. reflexivity. Qed.

Lemma rng_createBiquadFilter e : rng (snd (createBiquadFilter e)) = rng e.
Proof. reflexivity. Qed.

Lemma rng_with_nodes ns e : rng (with_nodes ns e) = rng e.
Proof. reflexivity. Qed.

Lemma rng_with_edges es e : rng (with_edges es e) = rng e.
Proof. reflexivity. Qed.

Lemma rng_with_timers ts n e : rng (with_timers ts n e) = rng e.
Proof. reflexivity. Qed.

Lemma rng_with_rng r e : rng (with_rng r e) = r.
Proof. reflexivity. Qed.
End EnvFrames.

Create Rewrite HintDb env_rng.
#[export] Hint Rewrite rng_update_node rng_on_gain rng_source_start rng_set_buffer
  rng_set_loop rng_set_playbackRate rng_set_detune rng_clearTimeout rng_setTimeout
  rng_connect rng_disconnect rng_new_node rng_createGain rng_createBufferSource
  rng_createBiquadFilter rng_with_nodes rng_with_edges rng_with_timers
  rng_with_rng : env_rng.

Section DrawFacts.
Local Open Scope Q_scope.

Lemma index_of_draw_range len r :
  unit_interval r ->
  (0 < len)%nat ->
  (0 <= index_of_draw len r < Z.of_nat len)%Z.
Proof.
  intros [H0 H1] Hlen. unfold index_of_draw, Math_floor.
  assert (Hn : 0 < inject_Z (Z.of_nat len)).
  { replace 0 with (inject_Z 0) by reflexivity. rewrite <- Zlt_Qlt. lia. }
  split.
  - change 0%Z with (Qfloor 0). apply Qfloor_resp_le. nra.
  - rewrite Zlt_Qlt. eapply Qle_lt_trans; [apply Qfloor_le|]. nra.
Qed.

(** *** LoopPlayer *)

Lemma loop_draw_differs len current : forall draws i rest,
  (1 < len)%nat ->
  LoopPlayer.draw_index len current draws = Some (i, rest) -> i <> current.
Proof.
  induction draws as [|r draws IH]; intros i rest Hlen Hrun; cbn [LoopPlayer.draw_index WindPlayer.draw_index] in Hrun; [discriminate|].
  fold (index_of_draw len r) in Hrun.
  destruct (index_of_draw len r =? current)%Z eqn:E.
  - assert (Hl : (1 <? len)%nat = true) by (apply Nat.ltb_lt; exact Hlen).
    rewrite Hl in Hrun. cbn [andb] in Hrun. exact (IH _ _ Hlen Hrun).
  - cbn [andb] in Hrun. injection Hrun as <- <-. apply Z.eqb_neq. exact E.
Qed.

Lemma loop_draw_spec len current : forall draws i rest,
  LoopPlayer.draw_index len current draws = Some (i, rest) ->
  exists r, r ∈ draws /\ i = index_of_draw len r /\ exists used, draws = used ++ rest.
Proof.
  induction draws as [|r draws IH]; intros i rest Hrun; cbn [LoopPlayer.draw_index WindPlayer.draw_index] in Hrun; [discriminate|].
  fold (index_of_draw len r) in Hrun.
  destruct ((index_of_draw len r =? current)%Z && (1 <? len)%nat).
  - destruct (IH _ _ Hrun) as (r' & Hin & Hi & used & Hused).
    exists r'. split; [right; exact Hin|]. split; [exact Hi|].
    exists (r :: used). rewrite Hused. reflexivity.
  - injection Hrun as <- <-. exists r. split; [left|]. split; [reflexivity|].
    exists [r]. reflexivity.
Qed.

Lemma loop_draw_returns len current : forall draws,
  Exists (fun r => index_of_draw len r <> current) draws ->
  exists i rest, LoopPlayer.draw_index len current draws = Some (i, rest).
Proof.
  induction draws as [|r draws IH]; intros Hex; [inversion Hex|]. cbn [LoopPlayer.draw_index WindPlayer.draw_index].
  fold (index_of_draw len r).
  destruct (index_of_draw len r =? current)%Z eqn:E; cbn [andb].
  - destruct (1 <? len)%nat; [|eauto].
    apply IH. inversion Hex as [? ? Hr|? ? Hr]; subst; [|exact Hr].
    apply Z.eqb_eq in E. contradiction.
  - eauto.
Qed.

(** *** WindPlayer *)

Lemma wind_draw_differs len current : forall draws i rest,
  WindPlayer.draw_index len current draws = Some (i, rest) -> i <> current.
Proof.
  induction draws as [|r draws IH]; intros i rest Hrun; cbn [LoopPlayer.draw_index WindPlayer.draw_index] in Hrun; [discriminate|].
  fold (index_of_draw len r) in Hrun.
  destruct (index_of_draw len r =? current)%Z eqn:E.
  - exact (IH _ _ Hrun).
  - injection Hrun as <- <-. apply Z.eqb_neq. exact E.
Qed.

Lemma wind_draw_spec len current : forall draws i rest,
  WindPlayer.draw_index len current draws = Some (i, rest) ->
  exists r, r ∈ draws /\ i = index_of_draw len r /\ exists used, draws = used ++ rest.
Proof.
  induction draws as [|r draws IH]; intros i rest Hrun; cbn [LoopPlayer.draw_index WindPlayer.draw_index] in Hrun; [discriminate|].
  fold (index_of_draw len r) in Hrun.
  destruct (index_of_draw len r =? current)%Z.
  - destruct (IH _ _ Hrun) as (r' & Hin & Hi & used & Hused).
    exists r'. split; [right; exact Hin|]. split; [exact Hi|].
    exists (r :: used). rewrite Hused. reflexivity.
  - injection Hrun as <- <-. exists r. split; [left|]. split; [reflexivity|].
    exists [r]. reflexivity.
Qed.

Lemma wind_draw_returns len current : forall draws,
  Exists (fun r => index_of_draw len r <> current) draws ->
  exists i rest, WindPlayer.draw_index len current draws = Some (i, rest).
Proof.
  induction draws as [|r draws IH]; intros Hex; [inversion Hex|]. cbn [LoopPlayer.draw_index WindPlayer.draw_index].
  fold (index_of_draw len r).
  destruct (index_of_draw len r =? current)%Z eqn:E; cbn [andb].
  - apply IH. inversion Hex as [? ? Hr|? ? Hr]; subst; [|exact Hr].
    apply Z.eqb_eq in E. contradiction.
  - eauto.
Qed.
End DrawFacts.

(** Reads fields through the setters of the player records. *)
Ltac loop_fields :=
  cbn [LoopPlayer.self LoopPlayer.crossfadeDuration LoopPlayer.buffers LoopPlayer.urls
       LoopPlayer.output LoopPlayer.currentSource LoopPlayer.currentGain
       LoopPlayer.currentIndex LoopPlayer.isPlaying LoopPlayer.isLoaded
       LoopPlayer.nextTimeout LoopPlayer.set_buffers LoopPlayer.set_urls
       LoopPlayer.set_current LoopPlayer.set_currentIndex LoopPlayer.set_isPlaying
       LoopPlayer.set_isLoaded LoopPlayer.set_nextTimeout] in *.

Ltac wind_fields :=
  cbn [WindPlayer.self WindPlayer.softWindUrls WindPlayer.synthMix WindPlayer.recordingMix
       WindPlayer.crossfadeDuration WindPlayer.output WindPlayer.windSynth
       WindPlayer.synthGain WindPlayer.recordingBuffers WindPlayer.currentSource
       WindPlayer.recordingGain WindPlayer.recordingFilter WindPlayer.isPlaying
       WindPlayer.isLoaded WindPlayer.crossfadeTimer WindPlayer._currentBufferIndex
       WindPlayer.set_windSynth WindPlayer.set_recordingBuffers WindPlayer.set_currentSource
       WindPlayer.set_isPlaying WindPlayer.set_isLoaded WindPlayer.set_crossfadeTimer
       WindPlayer.set_currentBufferIndex WindPlayer.set_mix] in *.

Ltac cafe_fields :=
  cbn [CafePlayer.self CafePlayer.ambienceUrl CafePlayer.sfxUrls CafePlayer.sfxInterval
       CafePlayer.output CafePlayer.ambienceBuffer CafePlayer.ambienceSource
       CafePlayer.ambienceGain CafePlayer.lowpassFilter CafePlayer.highShelf
       CafePlayer.sfxBuffers CafePlayer.sfxGain CafePlayer.isPlaying CafePlayer.isLoaded
       CafePlayer.sfxTimer CafePlayer.set_ambienceBuffer CafePlayer.set_ambienceSource
       CafePlayer.set_sfxBuffers CafePlayer.set_isPlaying CafePlayer.set_isLoaded
       CafePlayer.set_sfxTimer] in *.

(** Names the result of the allocation or timer call a hypothesis starts
    with, and records that it left the random supply alone. *)
Ltac name_pair H :=
  lazymatch type of H with
  | (match ?f with pair _ _ => _ end) = _ =>
      let r := fresh "ref" in
      let e := fresh "env" in
      let E := fresh "Eq" in
      let R := fresh "Hrng" in
      destruct f as [r e] eqn:E;
      first [ assert (R : rng e = rng (snd f)) by (rewrite E; reflexivity);
              autorewrite with env_rng in R
            | idtac ]
  end.

Section PickFacts.
Local Open Scope Q_scope.

Lemma Forall_suffix {A} (P : A -> Prop) (used rest : list A) :
  Forall P (used ++ rest) -> Forall P rest.
Proof. intros H. apply Forall_app in H. tauto. Qed.

(** One track change of a loop player that holds several buffers. *)
Lemma loop_playNext_pick (p p' : LoopPlayer.t) (e e' : Env) :
  LoopPlayer.isPlaying p = true ->
  (1 < length (LoopPlayer.buffers p))%nat ->
  Forall unit_interval (rng e) ->
  LoopPlayer._playNext false p e = Some (p', e') ->
  LoopPlayer.currentIndex p' <> LoopPlayer.currentIndex p /\
  LoopPlayer.buffers p' = LoopPlayer.buffers p /\
  LoopPlayer.isPlaying p' = true /\
  Forall unit_interval (rng e').
Proof.
  intros Hplay Hlen Hrng Hrun.
  unfold LoopPlayer._playNext, LoopPlayer._getNextIndex in Hrun.
  rewrite Hplay in Hrun. cbn [negb] in Hrun.
  destruct (length (LoopPlayer.buffers p) =? 0)%nat eqn:E0;
    [apply Nat.eqb_eq in E0; lia|].
  destruct (length (LoopPlayer.buffers p) =? 1)%nat eqn:E1;
    [apply Nat.eqb_eq in E1; lia|].
  destruct (LoopPlayer.draw_index _ _ (rng e)) as [[i rest]|] eqn:Ed; [|discriminate].
  pose proof (loop_draw_differs _ _ _ _ _ Hlen Ed) as Hne.
  destruct (loop_draw_spec _ _ _ _ _ Ed) as (r & Hin & Hi & used & Hused).
  assert (Hr : unit_interval r) by (eapply Forall_forall in Hrng; eassumption).
  assert (Hpos : (0 < length (LoopPlayer.buffers p))%nat) by lia.
  pose proof (index_of_draw_range _ r Hr Hpos) as Hrange. rewrite <- Hi in Hrange.
  destruct (i =? -1)%Z eqn:Em; [apply Z.eqb_eq in Em; lia|].
  destruct (LoopPlayer.buffer_at p i) as [buffer|]; [|discriminate].
  cbv zeta in Hrun.
  name_pair Hrun. name_pair Hrun.
  destruct (setTimeout _ _ _) as [id env1] eqn:Et in Hrun.
  injection Hrun as <- <-.
  cbn [LoopPlayer.currentIndex LoopPlayer.buffers LoopPlayer.isPlaying
       LoopPlayer.set_nextTimeout LoopPlayer.set_current LoopPlayer.set_currentIndex].
  repeat split; try assumption.
  rewrite Hused in Hrng. apply Forall_suffix in Hrng.
  assert (Hfin : rng env1 = rest); [|rewrite Hfin; exact Hrng].
  change env1 with (snd (id, env1)). rewrite <- Et. clear Et.
  cbn [LoopPlayer.nextTimeout LoopPlayer.currentGain LoopPlayer.currentSource
       LoopPlayer.set_current LoopPlayer.set_currentIndex].
  autorewrite with env_rng.
  destruct (LoopPlayer.nextTimeout p); autorewrite with env_rng;
    (destruct (LoopPlayer.currentGain p); [destruct (LoopPlayer.currentSource p)|]);
    autorewrite with env_rng; congruence.
Qed.

Lemma random_admissible (P : Q -> Prop) e r e' :
  Forall P (rng e) -> random e = Some (r, e') -> Forall P (rng e').
Proof.
  unfold random, Math_random. destruct (rng e) as [|x rest]; [discriminate|].
  intros H Hr. injection Hr as <- <-. cbn. inversion H; assumption.
Qed.

Lemma new_recording_source_admissible (P : Q -> Prop) buffer e source rate e' :
  Forall P (rng e) ->
  WindPlayer.new_recording_source buffer e = Some (source, rate, e') ->
  Forall P (rng e').
Proof.
  intros H Hrun. unfold WindPlayer.new_recording_source, createBufferSource, new_node in Hrun.
  cbn [fst snd] in Hrun.
  match type of Hrun with
  | context [random ?x] => destruct (random x) as [[r1 e1]|] eqn:E1; [|discriminate];
      assert (H1 : Forall P (rng e1))
        by (eapply random_admissible; [|exact E1]; autorewrite with env_rng; exact H)
  end.
  match type of Hrun with
  | context [random ?x] => destruct (random x) as [[r2 e2]|] eqn:E2; [|discriminate];
      assert (H2 : Forall P (rng e2))
        by (eapply random_admissible; [|exact E2]; autorewrite with env_rng; exact H1)
  end.
  injection Hrun as <- <- <-. autorewrite with env_rng. exact H2.
Qed.

(** One crossfade of a wind player that holds several recordings. *)
Lemma wind_crossfade_pick (p p' : WindPlayer.t) (e e' : Env) :
  WindPlayer.isPlaying p = true ->
  (1 < length (WindPlayer.recordingBuffers p))%nat ->
  Forall unit_interval (rng e) ->
  WindPlayer._performCrossfade p e = Some (p', e') ->
  WindPlayer._currentBufferIndex p' <> WindPlayer._currentBufferIndex p /\
  WindPlayer.recordingBuffers p' = WindPlayer.recordingBuffers p /\
  WindPlayer.isPlaying p' = true /\
  Forall unit_interval (rng e').
Proof.
  intros Hplay Hlen Hrng Hrun.
  unfold WindPlayer._performCrossfade, WindPlayer._getRandomBufferIndex in Hrun.
  rewrite Hplay in Hrun. cbn [negb orb] in Hrun.
  destruct (length (WindPlayer.recordingBuffers p) =? 0)%nat eqn:E0;
    [apply Nat.eqb_eq in E0; lia|].
  destruct (length (WindPlayer.recordingBuffers p) =? 1)%nat eqn:E1;
    [apply Nat.eqb_eq in E1; lia|].
  destruct (WindPlayer.draw_index _ _ (rng e)) as [[i rest]|] eqn:Ed; [|discriminate].
  pose proof (wind_draw_differs _ _ _ _ _ Ed) as Hne.
  destruct (wind_draw_spec _ _ _ _ _ Ed) as (r & Hin & Hi & used & Hused).
  rewrite Hused in Hrng. apply Forall_suffix in Hrng.
  destruct (WindPlayer.buffer_at _ i) as [buffer|]; [|discriminate].
  cbv zeta in Hrun.
  name_pair Hrun. name_pair Hrun.
  match type of Hrun with
  | context [WindPlayer.new_recording_source ?b ?x] =>
      destruct (WindPlayer.new_recording_source b x) as [[[source rate] e1]|] eqn:Es;
        [|discriminate];
      assert (H1 : Forall unit_interval (rng e1))
        by (eapply new_recording_source_admissible; [|exact Es];
            autorewrite with env_rng; congruence)
  end.
  unfold WindPlayer._scheduleCrossfade in Hrun.
  destruct (setTimeout _ _ _) as [id env1] eqn:Et in Hrun.
  injection Hrun as <- <-.
  cbn [WindPlayer._currentBufferIndex WindPlayer.recordingBuffers WindPlayer.isPlaying
       WindPlayer.set_crossfadeTimer WindPlayer.set_currentSource
       WindPlayer.set_currentBufferIndex].
  repeat split; try assumption.
  assert (Hfin : rng env1 = rng e1); [|rewrite Hfin; exact H1].
  change env1 with (snd (id, env1)). rewrite <- Et. clear Et.
  autorewrite with env_rng.
  destruct (WindPlayer.currentSource p); autorewrite with env_rng; reflexivity.
Qed.

Lemma no_adjacent_repeat_cons x y l :
  x <> y -> no_adjacent_repeat (y :: l) -> no_adjacent_repeat (x :: y :: l).
Proof.
  intros Hne Hl [|i] a b Ha Hb; cbn in Ha, Hb.
  - congruence.
  - exact (Hl i a b Ha Hb).
Qed.

Lemma no_adjacent_repeat_single x : no_adjacent_repeat [x].
Proof. intros [|i] a b Ha Hb; cbn in Ha, Hb; discriminate. Qed.

Lemma loop_picks_distinct n : forall p e l p' e',
  LoopPlayer.isPlaying p = true ->
  (1 < length (LoopPlayer.buffers p))%nat ->
  Forall unit_interval (rng e) ->
  loop_picks n p e = Some (l, p', e') ->
  no_adjacent_repeat (LoopPlayer.currentIndex p :: l).
Proof.
  induction n as [|n IH]; intros p e l p' e' Hplay Hlen Hrng Hrun; cbn [loop_picks] in Hrun.
  - injection Hrun as <- <- <-. apply no_adjacent_repeat_single.
  - destruct (LoopPlayer._playNext false p e) as [[p1 e1]|] eqn:E1; [|discriminate].
    destruct (loop_picks n p1 e1) as [[[l1 p2] e2]|] eqn:E2; [|discriminate].
    injection Hrun as <- <- <-.
    destruct (loop_playNext_pick p p1 e e1 Hplay Hlen Hrng E1) as (Hne & Hb & Hp & Hr).
    apply no_adjacent_repeat_cons; [congruence|].
    apply (IH p1 e1 l1 p2 e2 Hp ltac:(rewrite Hb; exact Hlen) Hr E2).
Qed.

Lemma wind_picks_distinct n : forall p e l p' e',
  WindPlayer.isPlaying p = true ->
  (1 < length (WindPlayer.recordingBuffers p))%nat ->
  Forall unit_interval (rng e) ->
  wind_picks n p e = Some (l, p', e') ->
  no_adjacent_repeat (WindPlayer._currentBufferIndex p :: l).
Proof.
  induction n as [|n IH]; intros p e l p' e' Hplay Hlen Hrng Hrun; cbn [wind_picks] in Hrun.
  - injection Hrun as <- <- <-. apply no_adjacent_repeat_single.
  - destruct (WindPlayer._performCrossfade p e) as [[p1 e1]|] eqn:E1; [|discriminate].
    destruct (wind_picks n p1 e1) as [[[l1 p2] e2]|] eqn:E2; [|discriminate].
    injection Hrun as <- <- <-.
    destruct (wind_crossfade_pick p p1 e e1 Hplay Hlen Hrng E1) as (Hne & Hb & Hp & Hr).
    apply no_adjacent_repeat_cons; [congruence|].
    apply (IH p1 e1 l1 p2 e2 Hp ltac:(rewrite Hb; exact Hlen) Hr E2).
Qed.

(** C2.  A loop player and a wind player that each hold more than one
    loaded buffer.  Whenever the next-track selection returns, the index
    differs from the one picked before; it does return as soon as the
    random numbers still to come contain one that maps to another index;
    and along any run of track changes no two consecutive picks (the
    pick before the run included) are equal. *)
Theorem next_pick_differs_from_previous
    (lp : LoopPlayer.t) (wp : WindPlayer.t) (e : Env) :
  (1 < length (LoopPlayer.buffers lp))%nat ->
  (1 < length (WindPlayer.recordingBuffers wp))%nat ->
  (forall i e', LoopPlayer._getNextIndex lp e = Some (i, e') ->
                i <> LoopPlayer.currentIndex lp) /\
  (forall i e', WindPlayer._getRandomBufferIndex wp e = Some (i, e') ->
                i <> WindPlayer._currentBufferIndex wp) /\
  (Exists (fun r => index_of_draw (length (LoopPlayer.buffers lp)) r
                    <> LoopPlayer.currentIndex lp) (rng e) ->
   exists i e', LoopPlayer._getNextIndex lp e = Some (i, e')) /\
  (Exists (fun r => index_of_draw (length (WindPlayer.recordingBuffers wp)) r
                    <> WindPlayer._currentBufferIndex wp) (rng e) ->
   exists i e', WindPlayer._getRandomBufferIndex wp e = Some (i, e')) /\
  (forall n picks lp' e',
     LoopPlayer.isPlaying lp = true -> Forall unit_interval (rng e) ->
     loop_picks n lp e = Some (picks, lp', e') ->
     no_adjacent_repeat (LoopPlayer.currentIndex lp :: picks)) /\
  (forall n picks wp' e',
     WindPlayer.isPlaying wp = true -> Forall unit_interval (rng e) ->
     wind_picks n wp e = Some (picks, wp', e') ->
     no_adjacent_repeat (WindPlayer._currentBufferIndex wp :: picks)).
Proof.
  intros Hl Hw.
  assert (Hl0 : (length (LoopPlayer.buffers lp) =? 0)%nat = false) by (apply Nat.eqb_neq; lia).
  assert (Hl1 : (length (LoopPlayer.buffers lp) =? 1)%nat = false) by (apply Nat.eqb_neq; lia).
  assert (Hw1 : (length (WindPlayer.recordingBuffers wp) =? 1)%nat = false)
    by (apply Nat.eqb_neq; lia).
  repeat split.
  - intros i e' Hrun. unfold LoopPlayer._getNextIndex in Hrun. rewrite Hl0, Hl1 in Hrun.
    destruct (LoopPlayer.draw_index _ _ _) as [[j rest]|] eqn:Ed; [|discriminate].
    injection Hrun as <- <-. exact (loop_draw_differs _ _ _ _ _ Hl Ed).
  - intros i e' Hrun. unfold WindPlayer._getRandomBufferIndex in Hrun. rewrite Hw1 in Hrun.
    destruct (WindPlayer.draw_index _ _ _) as [[j rest]|] eqn:Ed; [|discriminate].
    injection Hrun as <- <-. exact (wind_draw_differs _ _ _ _ _ Ed).
  - intros Hex. unfold LoopPlayer._getNextIndex. rewrite Hl0, Hl1.
    destruct (loop_draw_returns _ _ _ Hex) as (i & rest & ->). eauto.
  - intros Hex. unfold WindPlayer._getRandomBufferIndex. rewrite Hw1.
    destruct (wind_draw_returns _ _ _ Hex) as (i & rest & ->). eauto.
  - intros n picks lp' e' Hplay Hrng Hrun.
    exact (loop_picks_distinct n lp e picks lp' e' Hplay Hl Hrng Hrun).
  - intros n picks wp' e' Hplay Hrng Hrun.
    exact (wind_picks_distinct n wp e picks wp' e' Hplay Hw Hrng Hrun).
Qed.


(** The rain player (three buffers) and the wind player (four buffers),
    with the random numbers of the page still to come. *)
Lemma next_pick_differs_from_previous_witness :
  (exists i e',
     LoopPlayer._getNextIndex rain_player (AudioEngine.env rain_playing) = Some (i, e') /\
     i <> LoopPlayer.currentIndex rain_player) /\
  (exists i e',
     WindPlayer._getRandomBufferIndex wind_player (AudioEngine.env rain_playing)
     = Some (i, e') /\
     i <> WindPlayer._currentBufferIndex wind_player).
Proof.
  assert (Hloop : (1 < length (LoopPlayer.buffers rain_player))%nat)
    by (vm_compute; lia).
  assert (Hwind : (1 < length (WindPlayer.recordingBuffers wind_player))%nat)
    by (vm_compute; lia).
  destruct (next_pick_differs_from_previous rain_player wind_player
              (AudioEngine.env rain_playing) Hloop Hwind)
    as (Hl & Hw & Hlret & Hwret & _).
  split.
  - destruct Hlret as (i & e' & Hpick).
    { vm_compute. apply Exists_cons_hd. discriminate. }
    exists i, e'. split; [exact Hpick | exact (Hl i e' Hpick)].
  - destruct Hwret as (i & e' & Hpick).
    { vm_compute. apply Exists_cons_hd. discriminate. }
    exists i, e'. split; [exact Hpick | exact (Hw i e' Hpick)].
Defined.
End PickFacts.

(** ** Loading a scene *)

Section ArrayFacts.
Context {A : Type}.

Lemma js_array_set_beyond (arr : list (option A)) (i : nat) (v : A) :
  (length arr <= i)%nat ->
  js_filter_defined (js_array_set arr i v) = js_filter_defined arr ++ [v] /\
  length (js_array_set arr i v) = S i.
Proof.
  intros Hle. unfold js_array_set, js_filter_defined.
  assert (Hlt : (i <? length arr)%nat = false) by (apply Nat.ltb_ge; exact Hle).
  rewrite Hlt. split.
  - rewrite !omap_app. f_equal.
    assert (Hholes : forall n, omap (fun x : option A => x) (replicate n None) = [])
      by (induction n; [reflexivity | assumption]).
    rewrite Hholes. reflexivity.
  - rewrite !length_app, length_replicate. cbn. lia.
Qed.

(** Writing the results of [Promise.all] by index, in order, into an
    array and dropping the holes keeps exactly the loaded buffers. *)
Lemma fill_then_filter (f : nat -> option A) (n : nat) : forall start arr,
  (length arr <= start)%nat ->
  js_filter_defined
    (foldl (fun arr index => match f index with
                             | Some buffer => js_array_set arr index buffer
                             | None => arr
                             end) arr (seq start n))
  = js_filter_defined arr ++ omap f (seq start n).
Proof.
  induction n as [|n IH]; intros start arr Hle; cbn [seq foldl omap].
  - rewrite app_nil_r. reflexivity.
  - cbn. destruct (f start) as [v|] eqn:E.
    + destruct (js_array_set_beyond arr start v Hle) as [Hf Hl].
      rewrite IH by lia. rewrite Hf, <- app_assoc. reflexivity.
    + rewrite IH by lia. reflexivity.
Qed.

Lemma omap_nonempty (f : nat -> option A) (l : list nat) :
  (0 <? length (omap f l))%nat
  = existsb (fun i => match f i with Some _ => true | None => false end) l.
Proof.
  induction l as [|i l IH]; [reflexivity|]. cbn.
  destruct (f i); cbn; [reflexivity | exact IH].
Qed.
End ArrayFacts.

Section PlayerLenses.
Import AudioEngine.

Lemma world_eta (w : World) : mkWorld (env w) (heap w) (this w) (policy w) = w.
Proof. destruct w. reflexivity. Qed.

Lemma loop_at_lawful (r : nat) : lawful (loop_at r).
Proof.
  repeat split.
  - intros [p e] w [u Hu]. cbn in *.
    destruct (heap w !! r) as [pl|] eqn:E; [|discriminate].
    rewrite list_lookup_insert_eq by (eapply lookup_lt_Some; exact E). reflexivity.
  - intros [p e] [p' e'] w. cbn. unfold with_env, with_heap. cbn.
    rewrite list_insert_insert_eq. reflexivity.
  - intros [p e] w Hv. cbn in *.
    destruct (heap w !! r) as [[q| |]|] eqn:E; try discriminate.
    injection Hv as -> <-. unfold with_env, with_heap. cbn.
    rewrite (list_insert_id _ _ _ E). apply world_eta.
Qed.

Lemma cafe_at_lawful (r : nat) : lawful (cafe_at r).
Proof.
  repeat split.
  - intros [p e] w [u Hu]. cbn in *.
    destruct (heap w !! r) as [pl|] eqn:E; [|discriminate].
    rewrite list_lookup_insert_eq by (eapply lookup_lt_Some; exact E). reflexivity.
  - intros [p e] [p' e'] w. cbn. unfold with_env, with_heap. cbn.
    rewrite list_insert_insert_eq. reflexivity.
  - intros [p e] w Hv. cbn in *.
    destruct (heap w !! r) as [[|q|]|] eqn:E; try discriminate.
    injection Hv as -> <-. unfold with_env, with_heap. cbn.
    rewrite (list_insert_id _ _ _ E). apply world_eta.
Qed.

Lemma wind_at_lawful (r : nat) : lawful (wind_at r).
Proof.
  repeat split.
  - intros [p e] w [u Hu]. cbn in *.
    destruct (heap w !! r) as [pl|] eqn:E; [|discriminate].
    rewrite list_lookup_insert_eq by (eapply lookup_lt_Some; exact E). reflexivity.
  - intros [p e] [p' e'] w. cbn. unfold with_env, with_heap. cbn.
    rewrite list_insert_insert_eq. reflexivity.
  - intros [p e] w Hv. cbn in *.
    destruct (heap w !! r) as [[| |q]|] eqn:E; try discriminate.
    injection Hv as -> <-. unfold with_env, with_heap. cbn.
    rewrite (list_insert_id _ _ _ E). apply world_eta.
Qed.
End PlayerLenses.

(** *** The three [load] methods *)

Lemma loop_load_runs (urls : list string) (p : LoopPlayer.t) (e : Env) reply replies :
  exists p',
    runs_to (reply :: replies) (LoopPlayer.load urls) (p, e)
            (mkRun (p', e) (Fulfilled tt) ["[LoopPlayer] Loaded files"] replies) /\
    LoopPlayer.buffers p' = omap (loaded_at reply) (seq 0 (length urls)) /\
    LoopPlayer.isLoaded p' = some_loaded reply (length urls) /\
    LoopPlayer.output p' = LoopPlayer.output p /\
    LoopPlayer.isPlaying p' = LoopPlayer.isPlaying p.
Proof.
  eexists. split.
  - unfold LoopPlayer.load. eapply runs_as.
    + eapply runs_bind; [apply runs_modify|]. cbn beta iota.
      eapply runs_bind; [apply runs_await; discriminate|].
      eapply runs_bind; [apply runs_modify|]. cbn beta iota.
      apply runs_console.
    + cbn [app]. reflexivity.
  - cbn. rewrite (fill_then_filter (loaded_at reply) (length urls) 0 []) by (cbn; lia).
    cbn. unfold some_loaded. rewrite <- omap_nonempty. auto.
Qed.

Lemma wind_load_runs (p : WindPlayer.t) (e : Env) reply :
  exists p' out,
    runs_to [reply] WindPlayer.load (p, e) (mkRun (p', e) (Fulfilled tt) out
       (if (0 <? length (WindPlayer.softWindUrls p))%nat then [] else [reply])) /\
    WindPlayer.isLoaded p' = true /\
    WindPlayer.output p' = WindPlayer.output p /\
    WindPlayer.recordingBuffers p' =
      (if (0 <? length (WindPlayer.softWindUrls p))%nat
       then omap (loaded_at reply) (seq 0 (length (WindPlayer.softWindUrls p)))
       else WindPlayer.recordingBuffers p).
Proof.
  unfold WindPlayer.load.
  destruct (0 <? length (WindPlayer.softWindUrls p))%nat eqn:Hlen.
  - do 2 eexists. split.
    + eapply runs_as.
      * eapply runs_bind; [apply runs_gets|]. cbn beta iota. rewrite Hlen.
        eapply runs_bind.
        { eapply runs_bind; [apply runs_await; discriminate|].
          eapply runs_bind; [apply runs_modify|]. apply runs_console. }
        eapply runs_bind; [apply runs_modify|]. apply runs_console.
      * cbn [app]. reflexivity.
    + cbn. auto.
  - do 2 eexists. split.
    + eapply runs_as.
      * eapply runs_bind; [apply runs_gets|]. cbn beta iota. rewrite Hlen.
        eapply runs_bind; [apply runs_ret|].
        eapply runs_bind; [apply runs_modify|]. apply runs_console.
      * cbn [app]. reflexivity.
    + cbn. auto.
Qed.

Lemma cafe_load_runs (p : CafePlayer.t) (e : Env) u first second :
  CafePlayer.ambienceUrl p = Some u -> u <> "" ->
  exists p',
    runs_to [first; second] CafePlayer.load (p, e)
            (mkRun (p', e) (Fulfilled tt) ["[CafePlayer] Loaded"] []) /\
    CafePlayer.ambienceBuffer p' = loaded_at first 0 /\
    CafePlayer.sfxBuffers p' = omap (loaded_at second) (seq 0 (length (CafePlayer.sfxUrls p))) /\
    CafePlayer.isLoaded p' = match loaded_at first 0 with Some _ => true | None => false end /\
    CafePlayer.output p' = CafePlayer.output p.
Proof.
  intros Hu Hne.
  assert (Ht : CafePlayer.truthy_url (CafePlayer.ambienceUrl p) = Some u).
  { rewrite Hu. destruct u; [congruence | reflexivity]. }
  unfold CafePlayer.load. eexists. split.
  - eapply runs_as.
    + eapply runs_bind; [apply runs_gets|]. cbn beta iota. rewrite Ht.
      eapply runs_bind.
      { eapply runs_bind; [apply runs_await; discriminate|]. apply runs_modify. }
      eapply runs_bind; [apply runs_gets|]. cbn beta iota.
      eapply runs_bind; [apply runs_await; discriminate|].
      eapply runs_bind; [apply runs_modify|]. apply runs_console.
    + cbn [app]. reflexivity.
  - cbn. auto.
Qed.

(** What the constructors keep of their options. *)
Lemma cafe_create_options self a s i e p e' :
  CafePlayer.create self a s i e = (p, e') ->
  CafePlayer.ambienceUrl p = a /\ CafePlayer.sfxUrls p = nullish s [] /\
  CafePlayer.isPlaying p = false.
Proof.
  unfold CafePlayer.create, createGain, createBiquadFilter, new_node.
  cbv beta iota zeta. intros H. injection H as <- _. cbn. auto.
Qed.

Lemma wind_create_options self f sm rm c e p e' :
  WindPlayer.create self f sm rm c e = (p, e') ->
  WindPlayer.softWindUrls p = nullish f [] /\ WindPlayer.recordingBuffers p = [] /\
  WindPlayer.isPlaying p = false.
Proof.
  unfold WindPlayer.create, WindSynth.create, createGain, createBiquadFilter, new_node.
  cbv beta iota zeta. intros H. injection H as <- _. cbn. auto.
Qed.

Lemma loop_create_options self c e p e' :
  LoopPlayer.create self c e = (p, e') ->
  LoopPlayer.buffers p = [] /\ LoopPlayer.isPlaying p = false.
Proof.
  unfold LoopPlayer.create, createGain, new_node.
  cbv beta iota zeta. intros H. injection H as <- _. cbn. auto.
Qed.

(** *** [_loadScene] *)

Section LoadScene.
Import AudioEngine.

(** [new X(...)] in a world: the new object is the last of the heap. *)
Lemma runs_alloc (make : nat -> Env -> Player * Env) (w : World) pl e replies :
  make (length (heap w)) (env w) = (pl, e) ->
  runs_to replies (fun w => let '(r, w) := alloc make w in ret r w) w
          (mkRun (with_env e (with_heap (heap w ++ [pl]) w))
                 (Fulfilled (length (heap w))) [] replies).
Proof.
  intros E. apply runs_sync. unfold alloc. rewrite E. reflexivity.
Qed.

Lemma runs_register (scene : string) (r : nat) (w : World) mg pl replies :
  masterGain (this w) = Some mg ->
  heap w !! r = Some pl ->
  runs_to replies (register_player scene r) w
    (mkRun (on_this (set_players (<[scene := r]> (players (this w))))
                    (on_env (connect (player_output pl) mg) w))
           (Fulfilled tt) [("[AudioEngine] Scene loaded: " ++ scene)%string] replies).
Proof.
  intros Hmg Hpl. unfold register_player. eapply runs_as.
  - eapply runs_bind; [apply runs_get|]. cbn beta. rewrite Hmg, Hpl.
    eapply runs_bind; [apply runs_modify|]. apply runs_console.
  - reflexivity.
Qed.

Lemma loadScene_loop (w : World) scene config urls mg reply :
  players (this w) !! scene = None ->
  scene_config (opt_scenes (this w)) scene = Some config ->
  masterGain (this w) = Some mg ->
  type config <> Some "cafe" -> type config <> Some "wind" ->
  files config = Some urls -> urls <> [] ->
  exists w' out,
    runs_to [reply] (_loadScene scene) w (mkRun w' (Fulfilled tt) out []) /\
    isSceneLoaded scene w' = some_loaded reply (length urls).
Proof.
  intros Hnew Hconf Hmg Hcafe Hwind Hfiles Hurls.
  destruct (LoopPlayer.create (length (heap w)) (Some (num_or (crossfadeDuration config) 2))
              (env w)) as [p0 e0] eqn:Hcreate.
  destruct (loop_load_runs urls p0 e0 reply []) as (p1 & Hload & _ & Hloaded & Hout & _).
  do 2 eexists. split.
  - unfold _loadScene. eapply runs_as.
    + eapply runs_bind; [apply runs_get|]. cbn beta. rewrite Hnew, Hconf.
      eapply runs_bind; [apply runs_modify|].
      rewrite (bool_decide_eq_false_2 _ Hcafe), (bool_decide_eq_false_2 _ Hwind), Hfiles.
      destruct urls as [|u urls']; [congruence|].
      eapply runs_bind.
      { eapply runs_bind.
        { apply runs_alloc. cbn [on_this with_this env heap]. rewrite Hcreate. reflexivity. }
        eapply runs_bind.
        { apply runs_await_call. eapply runs_zoom; [apply loop_at_lawful| |exact Hload].
          cbn. rewrite lookup_fresh0. reflexivity. }
        eapply runs_bind.
        { eapply runs_register.
          - cbn. exact Hmg.
          - cbn. rewrite insert_fresh0. apply lookup_fresh0. }
        apply runs_ret. }
      cbn beta iota. apply runs_modify.
    + reflexivity.
  - unfold isSceneLoaded. cbn. rewrite lookup_insert_eq. rewrite insert_fresh0, lookup_fresh0.
    cbn. exact Hloaded.
Qed.

Lemma loadScene_cafe (w : World) scene config u mg first second :
  players (this w) !! scene = None ->
  scene_config (opt_scenes (this w)) scene = Some config ->
  masterGain (this w) = Some mg ->
  type config = Some "cafe" ->
  ambience config = Some u -> u <> "" ->
  exists w' out,
    runs_to [first; second] (_loadScene scene) w (mkRun w' (Fulfilled tt) out []) /\
    isSceneLoaded scene w' = match loaded_at first 0 with Some _ => true | None => false end.
Proof.
  intros Hnew Hconf Hmg Hcafe Hamb Hu.
  destruct (CafePlayer.create (length (heap w)) (ambience config) (sfx config)
              (sfxInterval config) (env w)) as [p0 e0] eqn:Hcreate.
  destruct (cafe_create_options _ _ _ _ _ _ _ Hcreate) as (Hurl & _ & _).
  rewrite Hamb in Hurl.
  destruct (cafe_load_runs p0 e0 u first second Hurl Hu) as (p1 & Hload & _ & _ & Hloaded & _).
  do 2 eexists. split.
  - unfold _loadScene. eapply runs_as.
    + eapply runs_bind; [apply runs_get|]. cbn beta. rewrite Hnew, Hconf.
      eapply runs_bind; [apply runs_modify|].
      rewrite (bool_decide_eq_true_2 _ Hcafe).
      eapply runs_bind.
      { eapply runs_bind.
        { apply runs_alloc. cbn [on_this with_this env heap]. rewrite Hcreate. reflexivity. }
        eapply runs_bind.
        { apply runs_await_call. eapply runs_zoom; [apply cafe_at_lawful| |exact Hload].
          cbn. rewrite lookup_fresh0. reflexivity. }
        eapply runs_bind.
        { eapply runs_register.
          - cbn. exact Hmg.
          - cbn. rewrite insert_fresh0. apply lookup_fresh0. }
        apply runs_ret. }
      cbn beta iota. apply runs_modify.
    + reflexivity.
  - unfold isSceneLoaded. cbn. rewrite lookup_insert_eq. rewrite insert_fresh0, lookup_fresh0.
    cbn. exact Hloaded.
Qed.

Lemma loadScene_wind (w : World) scene config mg reply :
  players (this w) !! scene = None ->
  scene_config (opt_scenes (this w)) scene = Some config ->
  masterGain (this w) = Some mg ->
  type config = Some "wind" ->
  exists w' out rest,
    runs_to [reply] (_loadScene scene) w (mkRun w' (Fulfilled tt) out rest) /\
    isSceneLoaded scene w' = true.
Proof.
  intros Hnew Hconf Hmg Hwind.
  assert (Hcafe : type config <> Some "cafe") by (rewrite Hwind; discriminate).
  destruct (WindPlayer.create (length (heap w)) (softWindFiles config)
              (Some (nullish (synthMix config) 0.35%Q)) (Some (nullish (recordingMix config) 0.65%Q))
              (Some (num_or (crossfadeDuration config) 4)) (env w)) as [p0 e0] eqn:Hcreate.
  destruct (wind_load_runs p0 e0 reply) as (p1 & out1 & Hload & Hloaded & _).
  do 3 eexists. split.
  - unfold _loadScene. eapply runs_as.
    + eapply runs_bind; [apply runs_get|]. cbn beta. rewrite Hnew, Hconf.
      eapply runs_bind; [apply runs_modify|].
      rewrite (bool_decide_eq_false_2 _ Hcafe), (bool_decide_eq_true_2 _ Hwind).
      eapply runs_bind.
      { eapply runs_bind.
        { apply runs_alloc. cbn [on_this with_this env heap]. rewrite Hcreate. reflexivity. }
        eapply runs_bind.
        { apply runs_await_call. eapply runs_zoom; [apply wind_at_lawful| |exact Hload].
          cbn. rewrite lookup_fresh0. reflexivity. }
        eapply runs_bind.
        { eapply runs_register.
          - cbn. exact Hmg.
          - cbn. rewrite insert_fresh0. apply lookup_fresh0. }
        apply runs_ret. }
      cbn beta iota. apply runs_modify.
    + reflexivity.
  - unfold isSceneLoaded. cbn. rewrite lookup_insert_eq. rewrite insert_fresh0, lookup_fresh0.
    cbn. exact Hloaded.
Qed.
End LoadScene.

(** C5, as the code has it.  When the first load of a scene on an
    initialised engine has settled, what [isSceneLoaded(scene)] answers
    depends on the player variant: for a scene played by a [LoopPlayer]
    it is true exactly when at least one of the configured files loaded;
    for the cafe scene it is true exactly when the ambience file loaded,
    whatever became of the effect files; for the wind scene it is true
    in every case, also when every recording failed. *)
Theorem scene_loaded_by_variant (w : AudioEngine.World) scene config mg :
  AudioEngine.players (AudioEngine.this w) !! scene = None ->
  scene_config (AudioEngine.opt_scenes (AudioEngine.this w)) scene = Some config ->
  AudioEngine.masterGain (AudioEngine.this w) = Some mg ->
  (forall urls reply,
     type config <> Some "cafe" -> type config <> Some "wind" ->
     files config = Some urls -> urls <> [] ->
     exists w' out,
       runs_to [reply] (AudioEngine._loadScene scene) w (mkRun w' (Fulfilled tt) out []) /\
       AudioEngine.isSceneLoaded scene w' = some_loaded reply (length urls)) /\
  (forall u first second,
     type config = Some "cafe" -> ambience config = Some u -> u <> "" ->
     exists w' out,
       runs_to [first; second] (AudioEngine._loadScene scene) w
               (mkRun w' (Fulfilled tt) out []) /\
       AudioEngine.isSceneLoaded scene w'
       = match loaded_at first 0 with Some _ => true | None => false end) /\
  (forall reply,
     type config = Some "wind" ->
     exists w' out rest,
       runs_to [reply] (AudioEngine._loadScene scene) w (mkRun w' (Fulfilled tt) out rest) /\
       AudioEngine.isSceneLoaded scene w' = true).
Proof.
  intros Hnew Hconf Hmg. repeat split.
  - intros urls reply Hc Hw Hf Hu. exact (loadScene_loop w scene config urls mg reply Hnew Hconf Hmg Hc Hw Hf Hu).
  - intros u first second Hc Ha Hu.
    exact (loadScene_cafe w scene config u mg first second Hnew Hconf Hmg Hc Ha Hu).
  - intros reply Hw. exact (loadScene_wind w scene config mg reply Hnew Hconf Hmg Hw).
Qed.

(** The rain scene of the built-in table, loaded on a fresh engine: one
    file of three is enough, none of three is not. *)
Lemma scene_loaded_by_variant_witness :
  (exists w' out,
     runs_to [only_loads 1] (AudioEngine._loadScene "rain") ready_world
             (mkRun w' (Fulfilled tt) out []) /\
     AudioEngine.isSceneLoaded "rain" w' = true) /\
  (exists w' out,
     runs_to [none_loads] (AudioEngine._loadScene "rain") ready_world
             (mkRun w' (Fulfilled tt) out []) /\
     AudioEngine.isSceneLoaded "rain" w' = false).
Proof.
  assert (Hnew : AudioEngine.players (AudioEngine.this ready_world) !! "rain" = None)
    by (vm_compute; reflexivity).
  assert (Hconf : scene_config (AudioEngine.opt_scenes (AudioEngine.this ready_world)) "rain"
                  = Some (default_config "rain")) by (vm_compute; reflexivity).
  assert (Hmg : AudioEngine.masterGain (AudioEngine.this ready_world) = Some 1%nat)
    by (vm_compute; reflexivity).
  destruct (scene_loaded_by_variant ready_world "rain" (default_config "rain") 1 Hnew Hconf Hmg)
    as (Hloop & _ & _).
  assert (Hfiles : files (default_config "rain")
                   = Some [ "src/audio/loops/rain/gentle-rain-from-window.mp3";
                            "src/audio/loops/rain/rain-and-birds.mp3";
                            "src/audio/loops/rain/rain-on-concrete-sound-30331.mp3" ])
    by (vm_compute; reflexivity).
  split.
  - destruct (Hloop _ (only_loads 1) ltac:(discriminate) ltac:(discriminate) Hfiles
                    ltac:(discriminate)) as (w' & out & Hrun & Hloaded).
    exists w', out. split; [exact Hrun | rewrite Hloaded; reflexivity].
  - destruct (Hloop _ none_loads ltac:(discriminate) ltac:(discriminate) Hfiles
                    ltac:(discriminate)) as (w' & out & Hrun & Hloaded).
    exists w', out. split; [exact Hrun | rewrite Hloaded; reflexivity].
Defined.

(** The rule "loaded exactly when some asset loaded" does not hold for
    every variant: the wind scene reports loaded when each of its four
    recordings failed, and the cafe scene reports not loaded when its four
    effect files loaded but the ambience did not. *)
Lemma loaded_is_not_some_asset_loaded :
  (exists w' out rest,
     runs_to [none_loads] (AudioEngine._loadScene "wind") ready_world
             (mkRun w' (Fulfilled tt) out rest) /\
     some_loaded none_loads 4 = false /\
     AudioEngine.isSceneLoaded "wind" w' = true) /\
  (exists w' out,
     runs_to [none_loads; all_load] (AudioEngine._loadScene "cafe") ready_world
             (mkRun w' (Fulfilled tt) out []) /\
     some_loaded all_load 4 = true /\
     AudioEngine.isSceneLoaded "cafe" w' = false).
Proof.
  split.
  - destruct (loadScene_wind ready_world "wind" (default_config "wind") 1 none_loads)
      as (w' & out & rest & Hrun & Hloaded); try (vm_compute; reflexivity).
    exists w', out, rest. repeat split; [exact Hrun | exact Hloaded].
  - destruct (loadScene_cafe ready_world "cafe" (default_config "cafe")
                "src/audio/loops/coffee/people-talking-at-cafe-ambience.mp3" 1
                none_loads all_load)
      as (w' & out & Hrun & Hloaded); try (vm_compute; reflexivity); try discriminate.
    exists w', out. repeat split; [exact Hrun | exact Hloaded].
Qed.

(** ** [AudioEngine.play] *)

Section Play.
Import AudioEngine.

(** Loading a scene does not touch the playback state. *)
Lemma loadScene_keeps_playback (scene : string) c :
  keeps (fun w => playback (this w) = c) (_loadScene scene).
Proof.
  assert (Halloc : forall make,
    keeps (fun w => playback (this w) = c)
          (fun w => let '(r, w) := alloc make w in ret r w)).
  { intros make w Hw. unfold alloc. destruct (make _ _) as [pl e]. cbn.
    split; [exact Hw | constructor]. }
  assert (Hreg : forall r, keeps (fun w => playback (this w) = c) (register_player scene r)).
  { intros r. unfold register_player. apply keeps_bind; [apply keeps_get|]. intros w.
    destruct (masterGain (this w)), (heap w !! r); try apply keeps_console.
    apply keeps_bind; [|intros; apply keeps_console].
    apply keeps_modify. intros w' Hw'. exact Hw'. }
  unfold _loadScene. apply keeps_bind; [apply keeps_get|]. intros w.
  destruct (players (this w) !! scene); [apply keeps_ret|].
  destruct (scene_config _ _) as [config|]; [|apply keeps_console].
  apply keeps_bind; [apply keeps_modify; intros w' Hw'; exact Hw'|]. intros _.
  apply keeps_bind.
  - destruct (bool_decide _); [|destruct (bool_decide _)].
    + apply keeps_bind; [apply Halloc|]. intros r.
      apply keeps_bind; [apply keeps_await_call, keeps_zoom; intros [p e] w' Hw'; exact Hw'|].
      intros _. apply keeps_bind; [apply Hreg | intros; apply keeps_ret].
    + apply keeps_bind; [apply Halloc|]. intros r.
      apply keeps_bind; [apply keeps_await_call, keeps_zoom; intros [p e] w' Hw'; exact Hw'|].
      intros _. apply keeps_bind; [apply Hreg | intros; apply keeps_ret].
    + destruct (files config) as [[|u urls]|].
      * apply keeps_bind; [apply keeps_console | intros; apply keeps_ret].
      * apply keeps_bind; [apply Halloc|]. intros r.
        apply keeps_bind; [apply keeps_await_call, keeps_zoom; intros [p e] w' Hw'; exact Hw'|].
        intros _. apply keeps_bind; [apply Hreg | intros; apply keeps_ret].
      * apply keeps_bind; [apply keeps_console | intros; apply keeps_ret].
  - intros [|]; [apply keeps_modify; intros w' Hw'; exact Hw' | apply keeps_ret].
Qed.

(** [player.stop(fadeTime)] and [player.start()] work on the player and
    the platform: the engine object is not touched. *)
Lemma player_stop_keeps_engine (r : nat) (fadeTime : Q) g :
  keeps (fun w => this w = g) (player_stop r fadeTime).
Proof.
  intros w Hw. unfold player_stop.
  destruct (heap w !! r) as [[p|p|p]|].
  - refine (keeps_zoom (loop_at r) _ (LoopPlayer.stop fadeTime) _ w Hw). intros [q e] w' Hw'. exact Hw'.
  - refine (keeps_zoom (cafe_at r) _ (CafePlayer.stop fadeTime) _ w Hw). intros [q e] w' Hw'. exact Hw'.
  - refine (keeps_zoom (wind_at r) _ (WindPlayer.stop fadeTime) _ w Hw). intros [q e] w' Hw'. exact Hw'.
  - split; [exact Hw | constructor].
Qed.

Lemma player_start_keeps_engine (r : nat) (w w' : World) :
  player_start r w = Some w' -> this w' = this w.
Proof.
  unfold player_start. destruct (heap w !! r) as [[p|p|p]|]; [| | |discriminate].
  - destruct (LoopPlayer.start p (env w)) as [[q e]|]; [|discriminate].
    intros H. injection H as <-. reflexivity.
  - destruct (CafePlayer.start p (env w)) as [[q e]|]; [|discriminate].
    intros H. injection H as <-. reflexivity.
  - destruct (WindPlayer.start p (env w)) as [[q e]|]; [|discriminate].
    intros H. injection H as <-. reflexivity.
Qed.

Lemma isSceneLoaded_player (scene : string) (w : World) :
  isSceneLoaded scene w = true ->
  exists player pl, players (this w) !! scene = Some player /\
                    heap w !! player = Some pl /\ player_isLoaded pl = true.
Proof.
  unfold isSceneLoaded. destruct (players (this w) !! scene) as [r|]; [|discriminate].
  destruct (heap w !! r) as [pl|] eqn:Hpl; [|discriminate]. intros H. exists r, pl. auto.
Qed.

(** C6, as the code has it.  [play(scene)] on an engine that is not
    initialised only logs a warning.  On an initialised engine it does
    nothing when [scene] is current and playing.  Otherwise, when the scene
    does not report loaded, it awaits [_loadScene(scene)], which leaves the
    playback state alone; when the scene still does not report loaded it
    logs that and returns, the playback state being what it was; when the
    scene reports loaded (at once or after the load) it calls [stop(0)] on
    the previous player without awaiting it, starts the player of the
    scene and sets [currentPlayer], [currentScene] and [isPlaying]. *)
Theorem play_by_cases (w : World) (scene : string) (replies : list Reply) :
  (isInitialized (this w) = false ->
   runs_to replies (play scene) w
           (mkRun w (Fulfilled tt) ["[AudioEngine] Not initialized"] replies)) /\
  (isInitialized (this w) = true ->
   currentScene (this w) = Some scene -> isPlaying (this w) = true ->
   runs_to replies (play scene) w (mkRun w (Fulfilled tt) [] replies)) /\
  (isInitialized (this w) = true ->
   ~ (currentScene (this w) = Some scene /\ isPlaying (this w) = true) ->
   forall wl outl rest,
     (if isSceneLoaded scene w then wl = w /\ outl = [] /\ rest = replies
      else exists out,
        runs_to replies (_loadScene scene) w (mkRun wl (Fulfilled tt) out rest) /\
        outl = ("[AudioEngine] Loading scene: " ++ scene)%string :: out) ->
     playback (this wl) = playback (this w) /\
     (isSceneLoaded scene wl = false ->
      runs_to replies (play scene) w
        (mkRun wl (Fulfilled tt)
               (outl ++ [("[AudioEngine] Scene not available: " ++ scene)%string]) rest)) /\
     (isSceneLoaded scene wl = true ->
      exists player,
        players (this wl) !! scene = Some player /\
        forall ws outs w2,
          match currentPlayer (this wl) with
          | Some old =>
              runs_to rest (call_detached (player_stop old 0)) wl
                      (mkRun ws (Fulfilled tt) outs rest)
          | None => ws = wl /\ outs = []
          end ->
          player_start player ws = Some w2 ->
          runs_to replies (play scene) w
            (mkRun (on_this (set_playback (Some player) (Some scene) true) w2)
                   (Fulfilled tt)
                   (outl ++ outs ++ [("[AudioEngine] Playing: " ++ scene)%string]) rest) /\
          playback (this (on_this (set_playback (Some player) (Some scene) true) w2))
          = (Some player, Some scene, true))).
Proof.
  split; [|split].
  - intros Hinit. unfold play. eapply runs_as.
    + eapply runs_bind; [apply runs_get|]. cbn beta. rewrite Hinit. apply runs_console.
    + reflexivity.
  - intros Hinit Hscene Hplaying. unfold play. eapply runs_as.
    + eapply runs_bind; [apply runs_get|]. cbn beta. rewrite Hinit, Hscene, Hplaying.
      rewrite bool_decide_eq_true_2 by reflexivity. apply runs_ret.
    + reflexivity.
  - intros Hinit Hother wl outl rest Hload.
    assert (Hguard : bool_decide (currentScene (this w) = Some scene) && isPlaying (this w)
                     = false).
    { destruct (bool_decide _) eqn:Hb; [|reflexivity].
      apply bool_decide_eq_true_1 in Hb. destruct (isPlaying (this w)); [|reflexivity].
      exfalso. apply Hother. split; [exact Hb | reflexivity]. }
    assert (Hsame : playback (this wl) = playback (this w)).
    { destruct (isSceneLoaded scene w).
      - destruct Hload as (-> & _ & _). reflexivity.
      - destruct Hload as (out & Hrun & _).
        exact (runs_keeps _ _ _ _ _ (loadScene_keeps_playback scene (playback (this w)))
                          eq_refl Hrun). }
    split; [exact Hsame|]. split.
    + intros Hnot. unfold play.
      destruct (isSceneLoaded scene w) eqn:Hl.
      { destruct Hload as (-> & _ & _). congruence. }
      destruct Hload as (out & Hrun & ->). eapply runs_as.
      * eapply runs_bind; [apply runs_get|]. cbn beta. rewrite Hinit, Hguard, Hl. cbn [negb].
        eapply runs_bind.
        { eapply runs_bind; [apply runs_console|].
          eapply runs_bind; [apply runs_await_call; exact Hrun|].
          eapply runs_bind; [apply runs_get|]. cbn beta. rewrite Hnot. cbn [negb].
          eapply runs_bind; [apply runs_console | apply runs_ret]. }
        cbn [negb]. apply runs_ret.
      * cbn [app]. rewrite !app_nil_r. reflexivity.
    + intros Hyes. destruct (isSceneLoaded_player scene wl Hyes) as (player & pl & Hpl & _).
      exists player. split; [exact Hpl|]. intros ws outs w2 Hstop Hstart.
      assert (Hthis : this ws = this wl).
      { destruct (currentPlayer (this wl)) as [old|].
        - exact (runs_keeps _ _ _ _ _
                   (keeps_call_detached _ _
                      (fun w0 Hw0 => proj1 (player_stop_keeps_engine old 0 (this wl) w0 Hw0)))
                   eq_refl Hstop).
        - destruct Hstop as (-> & _). reflexivity. }
      split; [|reflexivity].
      assert (Hensure : runs_to replies
        (if negb (isSceneLoaded scene w) then
           exec console ("[AudioEngine] Loading scene: " ++ scene);
           exec await_call (_loadScene scene);
           do w <- get;
           if negb (isSceneLoaded scene w) then
             exec console ("[AudioEngine] Scene not available: " ++ scene);
             ret false
           else ret true
         else ret true) w (mkRun wl (Fulfilled true) outl rest)).
      { destruct (isSceneLoaded scene w) eqn:Hl.
        - destruct Hload as (-> & -> & ->). cbn [negb]. apply runs_ret.
        - destruct Hload as (out & Hrun & ->). cbn [negb]. eapply runs_as.
          + eapply runs_bind; [apply runs_console|].
            eapply runs_bind; [apply runs_await_call; exact Hrun|].
            eapply runs_bind; [apply runs_get|]. cbn beta. rewrite Hyes. cbn [negb].
            apply runs_ret.
          + cbn [app]. rewrite !app_nil_r. reflexivity. }
      assert (Hprev : runs_to rest
        match currentPlayer (this wl) with
        | Some old => call_detached (player_stop old 0)
        | None => ret tt
        end wl (mkRun ws (Fulfilled tt) outs rest)).
      { destruct (currentPlayer (this wl)) as [old|].
        - exact Hstop.
        - destruct Hstop as (-> & ->). apply runs_ret. }
      unfold play. eapply runs_as.
      * eapply runs_bind; [apply runs_get|]. cbn beta. rewrite Hinit, Hguard. cbn [negb].
        eapply runs_bind; [exact Hensure|]. cbn [negb].
        eapply runs_bind; [apply runs_get|]. cbn beta.
        eapply runs_bind; [exact Hprev|].
        eapply runs_bind; [apply runs_get|]. cbn beta. rewrite Hthis, Hpl.
        eapply runs_bind; [apply runs_attempt; exact Hstart|].
        eapply runs_bind; [apply runs_modify | apply runs_console].
      * cbn [app]. reflexivity.
Qed.
End Play.

(** Rain is playing and the cafe scene is loaded: [play("cafe")] stops
    the rain player without a fade, starts the cafe player and makes it
    the current one. *)
Lemma play_by_cases_witness :
  exists wf,
    runs_to [] (AudioEngine.play "cafe") rain_playing
            (mkRun wf (Fulfilled tt) ["[AudioEngine] Playing: cafe"] []) /\
    playback (AudioEngine.this wf) = (Some 4%nat, Some "cafe", true).
Proof.
  assert (Hinit : AudioEngine.isInitialized (AudioEngine.this rain_playing) = true)
    by (vm_compute; reflexivity).
  assert (Hscene : AudioEngine.currentScene (AudioEngine.this rain_playing) = Some "rain")
    by (vm_compute; reflexivity).
  assert (Hloaded : AudioEngine.isSceneLoaded "cafe" rain_playing = true)
    by (vm_compute; reflexivity).
  assert (Hcur : AudioEngine.currentPlayer (AudioEngine.this rain_playing) = Some 3%nat)
    by (vm_compute; reflexivity).
  assert (Hcafe : AudioEngine.players (AudioEngine.this rain_playing) !! "cafe" = Some 4%nat)
    by (vm_compute; reflexivity).
  assert (Hother : ~ (AudioEngine.currentScene (AudioEngine.this rain_playing) = Some "cafe" /\
                      AudioEngine.isPlaying (AudioEngine.this rain_playing) = true))
    by (rewrite Hscene; intros [H _]; discriminate).
  destruct (play_by_cases rain_playing "cafe" []) as (_ & _ & Hplay).
  specialize (Hplay Hinit Hother rain_playing [] []).
  rewrite Hloaded in Hplay.
  destruct (Hplay (conj eq_refl (conj eq_refl eq_refl))) as (_ & _ & Hcommit).
  destruct (Hcommit Hloaded) as (player & Hplayer & Hrun).
  rewrite Hcafe in Hplayer. injection Hplayer as <-.
  rewrite Hcur in Hrun.
  set (ws := after [] (call_detached (AudioEngine.player_stop 3 0)) rain_playing).
  set (w2 := default ws (AudioEngine.player_start 4 ws)).
  destruct (Hrun ws [] w2) as (Hfinal & Hstate).
  - exists 5%nat. vm_compute. reflexivity.
  - vm_compute. reflexivity.
  - eexists. split; [exact Hfinal | exact Hstate].
Defined.

(** Two ways in which [play] is not what the general rule says.  On an
    engine that is not initialised, [play("rain")] only logs: nothing is
    loaded and nothing starts.  And when every recording of the wind scene
    fails to load, [play("wind")] does not log and return: the scene
    reports loaded, its player starts with no recording at all, and the
    playback state changes. *)
Lemma play_without_engine_or_assets :
  (runs_to [] (AudioEngine.play "rain") fresh_world
           (mkRun fresh_world (Fulfilled tt) ["[AudioEngine] Not initialized"] []) /\
   playback (AudioEngine.this fresh_world) = (None, None, false) /\
   AudioEngine.isSceneLoaded "rain" fresh_world = false) /\
  (exists wf out p,
     runs_to [none_loads] (AudioEngine.play "wind") ready_world
             (mkRun wf (Fulfilled tt) out []) /\
     playback (AudioEngine.this ready_world) = (None, None, false) /\
     playback (AudioEngine.this wf) = (Some 3%nat, Some "wind", true) /\
     AudioEngine.heap wf !! 3%nat = Some (PWind p) /\
     WindPlayer.recordingBuffers p = [] /\
     WindPlayer.isPlaying p = true).
Proof.
  split.
  - split; [exists 5%nat; vm_compute; reflexivity|]. split; vm_compute; reflexivity.
  - do 3 eexists. split; [exists 50%nat; vm_compute; reflexivity|].
    split; [vm_compute; reflexivity|]. split; [vm_compute; reflexivity|].
    split; [vm_compute; reflexivity|]. split; vm_compute; reflexivity.
Qed.

(** ** Where a call is suspended *)

Section TraceFacts.
Context {W : Type}.



End TraceFacts.

Section TraceZoom.
Context {W V : Type} (L : Lens W V).

End TraceZoom.

Section RunsThrough.
Context {W : Type}.

Lemma runs_through_to {A : Type} (m : Async W A) (w : W) tr r replies :
  runs_through replies m w tr r -> runs_to replies m w r.
Proof. intros (fuel & H & _). exists fuel. exact H. Qed.






End RunsThrough.


(** ** [AudioEngine.stop] *)

Section Stop.
Import AudioEngine.
Local Open Scope Q_scope.


(** Releasing the current track: a source that had been started is
    stopped, and source and gain lose their connections. *)
Lemma release_current_started (p : LoopPlayer.t) (e : Env) s g b l pr d sp :
  LoopPlayer.currentSource p = Some s -> LoopPlayer.currentGain p = Some g ->
  nodes e !! s = Some (BufferSourceNode b l pr d true sp) ->
  nodes (LoopPlayer.release_current p e) !! s = Some (BufferSourceNode b l pr d true true) /\
  edges (LoopPlayer.release_current p e)
  = filter (fun ab => negb (Nat.eqb (fst ab) g))
           (filter (fun ab => negb (Nat.eqb (fst ab) s)) (edges e)).
Proof.
  intros Hs Hg Hnode. unfold LoopPlayer.release_current, try_stop_then, source_stop.
  rewrite Hs, Hg, Hnode. cbn. split; [|reflexivity].
  apply list_lookup_insert_eq. eapply lookup_lt_Some. exact Hnode.
Qed.

(** *** What the fade leaves alone *)






(** *** The three players *)






(** *** The engine *)



End Stop.



(** ** The event loop: the console is write-only *)

Section LoopFacts.
Import EventLoop.
Context {W : Type} (clock : W -> Q).

Lemma same_but_output_refl (s : EventLoop.t (W:=W)) : same_but_output s s.
Proof. repeat split. Qed.

Lemma absorb_same (tk : Task W unit) : forall s1 s2,
  same_but_output s1 s2 -> same_but_output (absorb clock tk s1) (absorb clock tk s2).
Proof.
  revert tk. fix IH 1. intros tk s1 s2 (Hs & Hr & Hb & Hh).
  destruct tk as [o | wt k | bg rest | msg rest | ]; cbn.
  - repeat split; assumption.
  - destruct wt; cbn; repeat split; cbn; congruence.
  - apply IH. apply IH. repeat split; assumption.
  - apply IH. repeat split; assumption.
  - repeat split; cbn; congruence.
Qed.

Lemma step_same k s1 s2 :
  same_but_output s1 s2 -> same_but_output (step clock k s1) (step clock k s2).
Proof.
  intros (Hs & Hr & Hb & Hh). unfold step. rewrite Hs.
  destruct (k (state s2)) as [w tk]. apply absorb_same.
  repeat split; cbn; assumption.
Qed.

Lemma drain_same fuel : forall s1 s2,
  same_but_output s1 s2 -> agree (drain clock fuel s1) (drain clock fuel s2).
Proof.
  induction fuel as [|fuel IH]; intros s1 s2 H;
    pose proof H as (Hs & Hr & Hb & Hh); cbn; rewrite Hr;
    destruct (ready s2) as [|k rest]; cbn; try exact H; try exact I.
  apply IH. apply step_same. repeat split; cbn; assumption.
Qed.

Lemma invoke_same fuel m s1 s2 :
  same_but_output s1 s2 -> agree (invoke clock fuel m s1) (invoke clock fuel m s2).
Proof. intros H. unfold invoke. apply drain_same. apply step_same. exact H. Qed.

Lemma deliver_same fuel i r s1 s2 :
  same_but_output s1 s2 -> agree (deliver clock fuel i r s1) (deliver clock fuel i r s2).
Proof.
  intros H. pose proof H as (Hs & Hr & Hb & Hh). unfold deliver. rewrite Hb, Hs.
  destruct (blocked s2 !! i) as [b|]; [|exact I].
  destruct (deliverable b (clock (state s2))); [|exact I].
  apply drain_same. apply step_same. repeat split; cbn; congruence.
Qed.
End LoopFacts.

(** ** The scene-transition lock of [useStay] *)

Section SceneLock.
Import EventLoop UseStay.

Lemma drain_idle {W} (clk : W -> Q) fuel (s : EventLoop.t (W:=W)) :
  ready s = [] -> drain clk fuel s = Some s.
Proof. intros H. destruct fuel; cbn; rewrite H; reflexivity. Qed.

(** The two segments of a [switchScene] call that finds the lock held:
    up to [await ensureInit()], and from there to the early [return]. *)
Lemma switchScene_rejected_segments (st : State) (c : Closure) (newScene : string) :
  engineRef st = true ->
  AudioEngine.isInitialized (AudioEngine.this (engine st)) = true ->
  exists k,
    switchScene c newScene st = (st, Await Tick k) /\
    forall st', engineRef st' = true -> isSwitchingRef st' = true ->
      k RUnit st' = (st', Log "[useStay] Scene switch in progress, ignored"
                            (Done (Fulfilled tt))).
Proof.
  intros Href Hinit.
  unfold switchScene, await_call, ensureInit, bind, get. cbn [bind_task].
  rewrite Href, Hinit. cbn [negb ret bind_task settle_task].
  eexists. split; [reflexivity|].
  intros st' Href' Hlock'. cbn [bind_task negb].
  rewrite Href', Hlock'. reflexivity.
Qed.

Lemma switchScene_unmounted (st : State) (c : Closure) (newScene : string) :
  engineRef st = false ->
  exists k,
    switchScene c newScene st = (st, Await Tick k) /\
    forall st', k RUnit st' = (st', Done (Fulfilled tt)).
Proof.
  intros Href.
  unfold switchScene, await_call, ensureInit, bind, get. cbn [bind_task].
  rewrite Href. cbn [negb ret bind_task settle_task].
  eexists. split; [reflexivity|].
  intros st'. reflexivity.
Qed.

(** C1.  A [switchScene] call made from an event handler while the lock
    of an earlier call is held: when its handler and the continuations
    it made ready have run, the hook state, the engine, the players and
    the platform are what they were; nothing of the call is left in the
    microtask queue or among the blocked continuations (so it is not
    queued and never runs again); a warning was printed.  Every later
    event, in particular the one that lets the first call finish, then
    has the effect it would have had without the second call. *)
Theorem second_switch_is_rejected
    (sys : EventLoop.t (W:=State)) (c : Closure) (newScene : string) (fuel : nat) :
  ready sys = [] ->
  isSwitchingRef (state sys) = true ->
  (engineRef (state sys) = true ->
   AudioEngine.isInitialized (AudioEngine.this (engine (state sys))) = true) ->
  (1 <= fuel)%nat ->
  exists sys',
    invoke clock fuel (switchScene c newScene) sys = Some sys' /\
    state sys' = state sys /\
    ready sys' = [] /\
    blocked sys' = blocked sys /\
    hung sys' = hung sys /\
    output sys' =
      output sys ++ (if engineRef (state sys)
                     then ["[useStay] Scene switch in progress, ignored"] else []) /\
    (forall fuel' i r,
       agree (deliver clock fuel' i r sys') (deliver clock fuel' i r sys)) /\
    (forall fuel' m,
       agree (invoke clock fuel' m sys') (invoke clock fuel' m sys)).
Proof.
  intros Hready Hlock Hinit Hfuel.
  destruct sys as [st rd bl out hg]. cbn in Hready, Hlock, Hinit. subst rd.
  destruct fuel as [|fuel]; [lia|].
  assert (Hrun : exists sys',
    invoke clock (S fuel) (switchScene c newScene) (EventLoop.mk st [] bl out hg) = Some sys' /\
    state sys' = st /\ ready sys' = [] /\ blocked sys' = bl /\ hung sys' = hg /\
    output sys' = out ++ (if engineRef st
                          then ["[useStay] Scene switch in progress, ignored"] else [])).
  { unfold invoke. unfold step at 1. cbn [state ready blocked output hung].
    destruct (engineRef st) eqn:Href.
    - destruct (switchScene_rejected_segments st c newScene Href (Hinit eq_refl))
        as (k & -> & Hk).
      cbn [absorb app drain ready state blocked output hung]. unfold step.
      cbn [state ready blocked output hung]. rewrite (Hk st Href Hlock).
      cbn [absorb state ready blocked output hung].
      rewrite drain_idle by reflexivity.
      eexists. split; [reflexivity|]. cbn. repeat split; reflexivity.
    - destruct (switchScene_unmounted st c newScene Href) as (k & -> & Hk).
      cbn [absorb app drain ready state blocked output hung]. unfold step.
      cbn [state ready blocked output hung]. rewrite (Hk st).
      cbn [absorb state ready blocked output hung].
      rewrite drain_idle by reflexivity.
      eexists. split; [reflexivity|]. cbn. rewrite app_nil_r. repeat split; reflexivity. }
  destruct Hrun as (sys' & Hinv & Hst & Hrd & Hbl & Hhg & Hout).
  exists sys'. cbn [state ready blocked hung output].
  assert (Hsame : same_but_output sys' (EventLoop.mk st [] bl out hg))
    by (repeat split; cbn; assumption).
  repeat split; try assumption.
  - intros fuel' i r. apply deliver_same. exact Hsame.
  - intros fuel' m. apply invoke_same. exact Hsame.
Qed.

(** The page where the rain scene is being switched to: a second switch,
    to the wind scene, changes nothing and leaves a warning. *)
Lemma second_switch_is_rejected_witness :
  exists sys',
    invoke clock 10 (switchScene (mkClosure "rain" false) "wind") page_switching = Some sys' /\
    state sys' = state page_switching /\
    ready sys' = [] /\
    blocked sys' = blocked page_switching /\
    output sys' = output page_switching ++ ["[useStay] Scene switch in progress, ignored"].
Proof.
  assert (Hready : ready page_switching = []) by (vm_compute; reflexivity).
  assert (Hlock : isSwitchingRef (state page_switching) = true) by (vm_compute; reflexivity).
  assert (Href : engineRef (state page_switching) = true) by (vm_compute; reflexivity).
  assert (Hinit : engineRef (state page_switching) = true ->
                  AudioEngine.isInitialized
                    (AudioEngine.this (engine (state page_switching))) = true)
    by (intros _; vm_compute; reflexivity).
  destruct (second_switch_is_rejected page_switching (mkClosure "rain" false) "wind" 10
              Hready Hlock Hinit ltac:(lia))
    as (sys' & Hrun & Hstate & Hready' & Hblocked & _ & Hout & _).
  rewrite Href in Hout.
  exists sys'. split; [exact Hrun|]. split; [exact Hstate|]. split; [exact Hready'|].
  split; [exact Hblocked | exact Hout].
Defined.
End SceneLock.

(** ** The analyzer *)

Section Analyzer.
Import Reals AudioAnalyzer.
Local Open Scope R_scope.

Lemma sum_from_bytes (data : list Z) (n : nat) : forall start,
  Forall byte data -> (0 <= start)%Z -> (Z.to_nat start + n <= length data)%nat ->
  exists s, sum_from data start n = Some s /\ (0 <= s <= 255 * Z.of_nat n)%Z.
Proof.
  induction n as [|n IH]; intros start Hb Hs Hlen; cbn [sum_from].
  - exists 0%Z. split; [reflexivity | lia].
  - unfold byte_at. destruct (start <? 0)%Z eqn:Hneg; [apply Z.ltb_lt in Hneg; lia|].
    destruct (data !! Z.to_nat start) as [b|] eqn:Hget.
    2:{ apply lookup_ge_None in Hget. lia. }
    destruct (IH (start + 1)%Z Hb ltac:(lia) ltac:(lia)) as (s & -> & Hrange).
    exists (b + s)%Z. split; [reflexivity|].
    assert (Hbyte : byte b).
    { rewrite Forall_forall in Hb. apply Hb. eapply list_elem_of_lookup_2. exact Hget. }
    unfold byte in Hbyte. lia.
Qed.

Lemma average_energy_unit (a : t) (startBin endBin : Z) :
  Forall byte (frequencyData a) ->
  length (frequencyData a) = Z.to_nat (frequencyBinCount a) ->
  (0 <= startBin)%Z ->
  exists x, _getAverageEnergy a startBin endBin = Some x /\ 0 <= x <= 1.
Proof.
  intros Hb Hlen Hs. unfold _getAverageEnergy.
  set (count := (Z.min endBin (frequencyBinCount a) - startBin)%Z).
  destruct (count <=? 0)%Z eqn:Hc.
  - exists 0. split; [reflexivity | lra].
  - apply Z.leb_gt in Hc.
    destruct (sum_from_bytes (frequencyData a) (Z.to_nat count) startBin Hb Hs)
      as (s & -> & Hrange); [unfold count in *; lia|].
    eexists. split; [reflexivity|].
    rewrite Z2Nat.id in Hrange by lia.
    assert (H0 : 0 <= IZR s) by (apply IZR_le; lia).
    assert (H1 : IZR s <= 255 * IZR count).
    { rewrite <- mult_IZR. apply IZR_le. lia. }
    assert (Hpos : 0 < IZR count) by (apply IZR_lt; lia).
    split.
    + apply Rmult_le_pos; [apply Rmult_le_pos; [exact H0|]|lra].
      apply Rlt_le, Rinv_0_lt_compat. exact Hpos.
    + apply Rmult_le_reg_r with 255; [lra|]. unfold Rdiv. rewrite Rmult_assoc.
      replace (/ 255 * 255) with 1 by lra. rewrite Rmult_1_r, Rmult_1_l.
      apply Rmult_le_reg_r with (IZR count); [exact Hpos|].
      rewrite Rmult_assoc, Rinv_l by lra. lra.
Qed.

Lemma square_sum_bound (data : list Z) :
  Forall byte data -> 0 <= square_sum data <= INR (length data).
Proof.
  induction 1 as [|x l Hx Hl IH]; cbn [square_sum length].
  - cbn. lra.
  - rewrite S_INR. unfold byte in Hx.
    assert (H0 : 0 <= IZR x) by (apply IZR_le; lia).
    assert (H1 : IZR x <= 255) by (apply IZR_le; lia).
    set (y := (IZR x - 128) / 128).
    assert (Hy : -1 <= y <= 1) by (unfold y; lra).
    assert (Hsq : 0 <= y * y <= 1) by nra.
    lra.
Qed.

Lemma rms_volume_unit (a : t) :
  Forall byte (timeDomainData a) -> timeDomainData a <> [] ->
  exists x, _getRMSVolume a = Some x /\ 0 <= x <= 1.
Proof.
  intros Hb Hne. unfold _getRMSVolume.
  destruct (timeDomainData a) as [|y l] eqn:E; [congruence|].
  eexists. split; [reflexivity|]. split.
  - apply Rmin_glb; [|lra].
    apply Rmult_le_pos; [apply sqrt_pos | lra].
  - apply Rmin_r.
Qed.

Lemma smooth_unit (a : t) (current new : R) :
  0 < smoothingFactor a <= 1 -> 0 <= current <= 1 -> 0 <= new <= 1 ->
  0 <= _smooth a current new <= 1.
Proof. unfold _smooth. intros Hf Hc Hn. nra. Qed.

Lemma update_ok (frequency timeDomain : list Z) (a : t) :
  analyzer_ok a -> admissible (frequencyBinCount a) (Update frequency timeDomain) ->
  exists a', update frequency timeDomain a = Some a' /\ analyzer_ok a' /\
             frequencyBinCount a' = frequencyBinCount a.
Proof.
  intros (Hs & Hf & Hbins & Hlow & Hmid & Hhigh) (Hlf & Hld & Hbf & Hbd).
  destruct Hs as (Hs1 & Hs2 & Hs3 & Hs4).
  unfold update.
  destruct (average_energy_unit (set_frequencyData frequency a)
              (lowBinStart a) (lowBinEnd a) Hbf Hlf Hlow) as (x1 & E1 & Hx1).
  destruct (average_energy_unit (set_frequencyData frequency a)
              (midBinStart a) (midBinEnd a) Hbf Hlf Hmid) as (x2 & E2 & Hx2).
  destruct (average_energy_unit (set_frequencyData frequency a)
              (highBinStart a) (highBinEnd a) Hbf Hlf Hhigh) as (x3 & E3 & Hx3).
  cbn [lowBinStart lowBinEnd midBinStart midBinEnd highBinStart highBinEnd set_frequencyData]
    in E1, E2, E3 |- *.
  rewrite E1, E2, E3.
  destruct (rms_volume_unit (set_timeDomainData timeDomain (set_frequencyData frequency a)))
    as (x4 & E4 & Hx4).
  { exact Hbd. }
  { cbn. intros ->. cbn in Hld. lia. }
  cbn [set_timeDomainData set_frequencyData] in E4. rewrite E4.
  eexists. split; [reflexivity|]. split; [|reflexivity].
  split; [|repeat split; assumption || apply Hf].
  repeat split; cbn; apply smooth_unit; cbn; assumption || (split; assumption).
Qed.

Lemma call_ok (c : Call) (a : t) :
  analyzer_ok a -> admissible (frequencyBinCount a) c ->
  exists a', call c a = Some a' /\ analyzer_ok a' /\
             frequencyBinCount a' = frequencyBinCount a.
Proof.
  intros Hok Hadm. destruct c as [f d | | x]; cbn [call].
  - apply update_ok; assumption.
  - eexists. split; [reflexivity|]. split; [|reflexivity].
    destruct Hok as (_ & Hf & Hrest). split; [|split; [exact Hf | exact Hrest]].
    unfold in_unit. cbn. repeat split; lra.
  - eexists. split; [reflexivity|]. split; [|reflexivity].
    destruct Hok as (Hs & _ & Hrest). split; [exact Hs|]. split; [|exact Hrest].
    cbn. split.
    + apply Rlt_le_trans with 0.01; [lra | apply Rmax_l].
    + apply Rmax_lub; [lra | apply Rmin_l].
Qed.

Lemma run_ok (calls : list Call) : forall a,
  analyzer_ok a -> Forall (admissible (frequencyBinCount a)) calls ->
  exists a', run calls a = Some a' /\ analyzer_ok a'.
Proof.
  induction calls as [|c calls IH]; intros a Hok Hadm; cbn [run].
  - exists a. split; [reflexivity | exact Hok].
  - inversion Hadm as [|? ? Hc Hrest]; subst.
    destruct (call_ok c a Hok Hc) as (a1 & -> & Hok1 & Hbins).
    apply IH; [exact Hok1 | rewrite Hbins; exact Hrest].
Qed.

Lemma valid_fftSize_bins (size : Z) : valid_fftSize size = true -> (0 < size / 2)%Z.
Proof.
  unfold valid_fftSize. intros H.
  apply andb_prop in H as [H _]. apply andb_prop in H as [H _].
  apply Z.leb_le in H. apply Z.div_str_pos. lia.
Qed.

Lemma floor_of_ratio (x binFrequency : Q) :
  (0 <= x)%Q -> (0 <= binFrequency)%Q -> (0 <= Math_floor (x / binFrequency))%Z.
Proof.
  intros Hx Hb. unfold Math_floor.
  change 0%Z with (Qfloor 0). apply Qfloor_resp_le.
  unfold Qdiv. apply Qmult_le_0_compat; [exact Hx|]. apply Qinv_le_0_compat. exact Hb.
Qed.

Lemma create_ok fftSize smoothingTimeConstant (e e' : Env) (a : t) :
  create fftSize smoothingTimeConstant e = Some (a, e') -> analyzer_ok a.
Proof.
  unfold create.
  set (size := match fftSize with
               | Some n => if (n =? 0)%Z then 2048%Z else n
               | None => 2048%Z
               end).
  destruct (valid_fftSize size) eqn:Hvalid; [|discriminate].
  cbn [negb new_node]. cbv zeta. intros H. injection H as <- _.
  pose proof (valid_fftSize_bins size Hvalid) as Hbins.
  assert (Hfreq : (0 <= inject_Z (Z.of_N (sampleRate e)) / 2 / inject_Z (size / 2))%Q).
  { unfold Qdiv. apply Qmult_le_0_compat.
    - apply Qmult_le_0_compat; [|discriminate].
      change 0%Q with (inject_Z 0). rewrite <- Zle_Qle. apply N2Z.is_nonneg.
    - apply Qinv_le_0_compat. change 0%Q with (inject_Z 0). rewrite <- Zle_Qle. lia. }
  split; [unfold in_unit; cbn; repeat split; lra|].
  split; [cbn; lra|].
  split; [exact Hbins|].
  split; [|split].
  - change (0 <= Math_floor (20 / (inject_Z (Z.of_N (sampleRate e)) / 2 / inject_Z (size / 2))))%Z.
    apply floor_of_ratio; [discriminate | exact Hfreq].
  - change (0 <= Math_floor (250 / (inject_Z (Z.of_N (sampleRate e)) / 2 / inject_Z (size / 2))))%Z.
    apply floor_of_ratio; [discriminate | exact Hfreq].
  - change (0 <= Math_floor (2000 / (inject_Z (Z.of_N (sampleRate e)) / 2 / inject_Z (size / 2))))%Z.
    apply floor_of_ratio; [discriminate | exact Hfreq].
Qed.

(** C4.  An analyzer built by the constructor on a context with a
    positive sample rate, and then driven by any sequence of [update()]
    (each reading two arrays of [frequencyBinCount] bytes), [reset()] and
    [setSmoothingFactor(x)] (for any real [x]): every call returns, and
    the four components of [getData()] lie in [0, 1] at construction and
    after the calls. *)
Theorem snapshot_stays_in_unit_interval fftSize smoothingTimeConstant (e e' : Env) (a : t)
    (calls : list Call) :
  create fftSize smoothingTimeConstant e = Some (a, e') ->
  (0 < sampleRate e)%N ->
  Forall (admissible (frequencyBinCount a)) calls ->
  in_unit (getData a) /\
  exists a', run calls a = Some a' /\ in_unit (getData a').
Proof.
  intros Hcreate _ Hcalls. pose proof (create_ok _ _ _ _ _ Hcreate) as Hok.
  split; [exact (proj1 Hok)|].
  destruct (run_ok calls a Hok Hcalls) as (a' & Hrun & Hok').
  exists a'. split; [exact Hrun | exact (proj1 Hok')].
Qed.

(** The default analyzer at 44.1 kHz, fed the loudest and the quietest
    input, with a smoothing factor out of range and a reset in between. *)
Lemma snapshot_stays_in_unit_interval_witness :
  exists a e' a',
    AudioAnalyzer.create None None (quiet_env []) = Some (a, e') /\
    AudioAnalyzer.run
      [ AudioAnalyzer.Update (replicate 1024 255%Z) (replicate 1024 0%Z);
        AudioAnalyzer.SetSmoothingFactor 5%R;
        AudioAnalyzer.Update (replicate 1024 0%Z) (replicate 1024 255%Z);
        AudioAnalyzer.Reset;
        AudioAnalyzer.Update (replicate 1024 128%Z) (replicate 1024 128%Z) ] a = Some a' /\
    in_unit (AudioAnalyzer.getData a').
Proof.
  assert (Hnew : exists a e',
    AudioAnalyzer.create None None (quiet_env []) = Some (a, e') /\
    AudioAnalyzer.frequencyBinCount a = 1024%Z)
    by (do 2 eexists; split; reflexivity).
  destruct Hnew as (a & e' & Hcreate & Hbins).
  assert (Hbytes : forall b n, (0 <= b <= 255)%Z -> Forall byte (replicate n b)).
  { intros b n Hb. apply Forall_replicate. exact Hb. }
  assert (Hupdate : forall x y, (0 <= x <= 255)%Z -> (0 <= y <= 255)%Z ->
    admissible (AudioAnalyzer.frequencyBinCount a)
               (AudioAnalyzer.Update (replicate 1024 x) (replicate 1024 y))).
  { intros x y Hx Hy. rewrite Hbins. cbn [admissible]. rewrite !length_replicate.
    split; [reflexivity|]. split; [reflexivity|]. split; apply Hbytes; assumption. }
  destruct (snapshot_stays_in_unit_interval None None (quiet_env []) e' a
              [ AudioAnalyzer.Update (replicate 1024 255%Z) (replicate 1024 0%Z);
                AudioAnalyzer.SetSmoothingFactor 5%R;
                AudioAnalyzer.Update (replicate 1024 0%Z) (replicate 1024 255%Z);
                AudioAnalyzer.Reset;
                AudioAnalyzer.Update (replicate 1024 128%Z) (replicate 1024 128%Z) ]
              Hcreate eq_refl)
    as (_ & a' & Hrun & Hunit).
  - constructor; [apply Hupdate; lia|]. constructor; [exact I|].
    constructor; [apply Hupdate; lia|]. constructor; [exact I|].
    constructor; [apply Hupdate; lia|]. constructor.
  - exists a, e', a'. split; [exact Hcreate|]. split; [exact Hrun | exact Hunit].
Defined.
End Analyzer.

(** ** Sample loader *)

Section SampleLoaderFacts.
Import SampleLoader.
Local Open Scope Q_scope.

(** C9.  [load(name, url)]:
    - a cached name returns its buffer at once: no fetch, nothing changes;
    - a name whose load is in flight waits for that same promise: no
      fetch, nothing changes, and the call settles as that promise does;
    - otherwise exactly one fetch of [url] is started and entered as in
      flight; when it is fulfilled the buffer is cached under [name], the
      in-flight entry is removed and the buffer returned; when it is
      rejected the call is rejected, [name] is in neither table, and the
      next [load(name, url)] starts a fetch again. *)
Theorem load_caches_and_deduplicates (w : World) (name url : string) :
  (forall buffer, buffers (this w) !! name = Some buffer ->
     load name url w = (w, Done (Fulfilled buffer))) /\
  (forall pending,
     buffers (this w) !! name = None -> loading (this w) !! name = Some pending ->
     exists k, load name url w = (w, Await (Settle pending) k) /\
       forall o w', k (RBuffer o) w' = (w', Done o)) /\
  (buffers (this w) !! name = None -> loading (this w) !! name = None ->
     exists w1 k,
       load name url w = (w1, Await (Settle (length (fetched w))) k) /\
       fetched w1 = fetched w ++ [url] /\
       buffers (this w1) = buffers (this w) /\
       loading (this w1) = <[name := length (fetched w)]> (loading (this w)) /\
       env w1 = env w /\
       (forall buffer w',
          exists w2,
            k (RBuffer (Fulfilled buffer)) w'
            = (w2, Log ("[SampleLoader] Loaded: " ++ name) (Done (Fulfilled buffer))) /\
            buffers (this w2) = <[name := buffer]> (buffers (this w')) /\
            loading (this w2) = delete name (loading (this w')) /\
            fetched w2 = fetched w') /\
       (forall error,
          exists w2,
            k (RBuffer (Rejected error)) w1
            = (w2, Log ("[SampleLoader] Failed to load " ++ name) (Done (Rejected error))) /\
            buffers (this w2) !! name = None /\
            loading (this w2) !! name = None /\
            buffers (this w2) = buffers (this w) /\
            fetched w2 = fetched w ++ [url] /\
            exists w3 k', load name url w2 = (w3, Await (Settle (S (length (fetched w)))) k') /\
                          fetched w3 = fetched w ++ [url; url])).
Proof.
  split; [|split].
  - intros buffer Hc. unfold load, bind, get; cbn. rewrite Hc. reflexivity.
  - intros pending Hc Hl. unfold load, bind, get; cbn. rewrite Hc, Hl. cbn.
    eexists. split; [reflexivity|]. intros o w'. reflexivity.
  - intros Hc Hl. unfold load, bind, get, _fetchAndDecode, modify, ret, await.
    cbn -[lookup insert delete app String.append]. rewrite Hc, Hl.
    cbn -[lookup insert delete app String.append].
    eexists _, _. split; [reflexivity|].
    cbn -[lookup insert delete app String.append].
    repeat split.
    + intros buffer w'. eexists. split; [reflexivity|].
      cbn -[lookup insert delete app String.append]. repeat split.
    + intros error. eexists. split; [reflexivity|].
      cbn -[lookup insert delete app String.append].
      assert (Hgone : delete name (<[name := length (fetched w)]> (loading (this w))) !! name
                      = None) by apply lookup_delete_eq.
      repeat split; try assumption.
      rewrite Hc, Hgone. cbn -[lookup insert delete app String.append].
      rewrite length_app, Nat.add_1_r.
      eexists _, _. split; [reflexivity|].
      cbn -[lookup insert delete app String.append].
      rewrite <- app_assoc. reflexivity.
Qed.


(** A cached sample, a sample being loaded, and a sample never asked for. *)
Lemma load_caches_and_deduplicates_witness :
  load "click" "sfx/click.mp3" loader_cached = (loader_cached, Done (Fulfilled some_buffer)) /\
  (exists k, load "click" "sfx/click.mp3" loader_loading
             = (loader_loading, Await (Settle 0) k)) /\
  (exists w1 k, load "click" "sfx/click.mp3" loader_page = (w1, Await (Settle 0) k) /\
                fetched w1 = ["sfx/click.mp3"]).
Proof.
  split; [|split].
  - destruct (load_caches_and_deduplicates loader_cached "click" "sfx/click.mp3")
      as (Hcached & _ & _).
    apply Hcached. vm_compute. reflexivity.
  - destruct (load_caches_and_deduplicates loader_loading "click" "sfx/click.mp3")
      as (_ & Hpending & _).
    destruct (Hpending 0%nat) as (k & Hk & _); [vm_compute; reflexivity..|].
    exists k. exact Hk.
  - destruct (load_caches_and_deduplicates loader_page "click" "sfx/click.mp3")
      as (_ & _ & Hfresh).
    destruct Hfresh as (w1 & k & Hk & Hfetched & _); [vm_compute; reflexivity..|].
    exists w1, k. split; [exact Hk | exact Hfetched].
Defined.

End SampleLoaderFacts.

(** ** The sample loader: variants, [clear] and the end of a sample *)

Section LoaderVariants.
Import SampleLoader SampleLoaderVariants.
Local Open Scope Q_scope.

Lemma available_cached baseName maxVariants w name :
  name ∈ available baseName maxVariants w <->
  exists i, (1 <= i <= maxVariants)%nat /\ name = variant_name baseName i /\
            is_Some (buffers (this w) !! name).
Proof.
  unfold available. rewrite list_elem_of_filter, list_elem_of_fmap. split.
  - intros (Hc & i & -> & Hi). apply elem_of_seq in Hi. exists i. split; [lia|]. auto.
  - intros (i & Hi & -> & Hc). split; [exact Hc|]. exists i. split; [reflexivity|].
    apply elem_of_seq. lia.
Qed.

(** X1: [getRandomVariant].  When none of the names
    [baseName_1 .. baseName_maxVariants] is cached the answer is [null]
    and [Math.random] is not called.  Otherwise, for a random number in
    [0, 1), the answer is one of those names, it is cached, and one random
    number has been used.  The loader itself is never changed. *)
Theorem getRandomVariant_returns_cached_variant
    (baseName : string) (maxVariants : nat) (w : World) :
  ((forall i, (1 <= i <= maxVariants)%nat -> has (variant_name baseName i) w = false) ->
   getRandomVariant baseName maxVariants w = Some (None, w)) /\
  (forall r rest,
     rng (env w) = r :: rest -> unit_interval r ->
     (exists i, (1 <= i <= maxVariants)%nat /\ has (variant_name baseName i) w = true) ->
     exists i,
       (1 <= i <= maxVariants)%nat /\
       has (variant_name baseName i) w = true /\
       getRandomVariant baseName maxVariants w
       = Some (Some (variant_name baseName i), with_env (with_rng rest (env w)) w)).
Proof.
  split.
  - intros Hnone. unfold getRandomVariant.
    assert (Hempty : available baseName maxVariants w = []).
    { apply elem_of_nil_inv. intros name Hin. apply available_cached in Hin.
      destruct Hin as (i & Hi & -> & Hc). specialize (Hnone i Hi).
      unfold has in Hnone. apply bool_decide_eq_false in Hnone. contradiction. }
    rewrite Hempty. reflexivity.
  - intros r rest Hrng Hr (i0 & Hi0 & Hhas0). unfold getRandomVariant.
    assert (Hin0 : variant_name baseName i0 ∈ available baseName maxVariants w).
    { apply available_cached. exists i0. split; [exact Hi0|]. split; [reflexivity|].
      unfold has in Hhas0. apply bool_decide_eq_true in Hhas0. exact Hhas0. }
    assert (Hlen : (0 < length (available baseName maxVariants w))%nat).
    { destruct (available baseName maxVariants w); [inversion Hin0 | cbn; lia]. }
    destruct (length (available baseName maxVariants w) =? 0)%nat eqn:E;
      [apply Nat.eqb_eq in E; lia|].
    unfold random, Math_random. rewrite Hrng.
    pose proof (index_of_draw_range _ r Hr Hlen) as Hidx. unfold index_of_draw in Hidx.
    unfold element_at.
    destruct (Math_floor (r * inject_Z (Z.of_nat (length (available baseName maxVariants w))))
              <? 0)%Z eqn:Hneg; [apply Z.ltb_lt in Hneg; lia|].
    destruct (available baseName maxVariants w !! Z.to_nat
                (Math_floor (r * inject_Z (Z.of_nat (length (available baseName maxVariants w))))))
      as [name|] eqn:Hget.
    2:{ apply lookup_ge_None in Hget. lia. }
    apply list_elem_of_lookup_2 in Hget. apply available_cached in Hget.
    destruct Hget as (i & Hi & -> & Hc). exists i. split; [exact Hi|].
    split; [unfold has; apply bool_decide_eq_true; exact Hc | reflexivity].
Qed.

(** Two of three raindrops cached and the draw 0.75: the third one is
    picked.  With nothing cached for the base name: [null]. *)
Lemma getRandomVariant_returns_cached_variant_witness :
  (exists i w',
     (1 <= i <= 3)%nat /\
     getRandomVariant "raindrop" 3 loader_raindrops = Some (Some (variant_name "raindrop" i), w')) /\
  getRandomVariant "cup_clink" 2 loader_raindrops = Some (None, loader_raindrops).
Proof.
  destruct (getRandomVariant_returns_cached_variant "raindrop" 3 loader_raindrops)
    as (_ & Hsome).
  destruct (getRandomVariant_returns_cached_variant "cup_clink" 2 loader_raindrops)
    as (Hnone & _).
  split.
  - destruct (Hsome 0.75 []) as (i & Hi & _ & Hpick).
    + reflexivity.
    + split; [discriminate | reflexivity].
    + exists 1%nat. split; [lia | vm_compute; reflexivity].
    + eexists i, _. split; [exact Hi | exact Hpick].
  - apply Hnone. intros i Hi.
    assert (Hcases : i = 1%nat \/ i = 2%nat) by lia.
    destruct Hcases as [-> | ->]; vm_compute; reflexivity.
Defined.
End LoaderVariants.

Section LoaderLifecycle.
Import SampleLoader.
Local Open Scope Q_scope.

(** X2: [clear()] does not cancel a load.  With the load of [name] in
    flight, [clear()] empties both tables, so a new [load(name, url)]
    fetches the file a second time; and when the first fetch is
    fulfilled its buffer is cached in the cleared loader all the same. *)
Theorem clear_does_not_cancel_loads (w : World) (name url : string) :
  buffers (this w) !! name = None -> loading (this w) !! name = None ->
  exists w1 k,
    load name url w = (w1, Await (Settle (length (fetched w))) k) /\
    (forall other, has other (clear w1) = false /\ loading (this (clear w1)) !! other = None) /\
    (exists w2 k2,
       load name url (clear w1) = (w2, Await (Settle (S (length (fetched w)))) k2) /\
       fetched w2 = fetched w ++ [url; url]) /\
    (forall buffer,
       exists w3 rest,
         k (RBuffer (Fulfilled buffer)) (clear w1) = (w3, rest) /\
         get_sample name w3 = Some buffer /\ has name w3 = true).
Proof.
  intros Hc Hl. unfold load, bind, get, _fetchAndDecode, modify, ret, await.
  cbn -[lookup insert delete app String.append]. rewrite Hc, Hl.
  cbn -[lookup insert delete app String.append].
  eexists _, _. split; [reflexivity|].
  split; [|split].
  - intros other. unfold has, clear. cbn -[lookup insert delete app String.append].
    rewrite !lookup_empty. split; [|reflexivity].
    apply bool_decide_eq_false. intros [x Hx]. discriminate.
  - unfold clear. cbn -[lookup insert delete app String.append].
    rewrite !lookup_empty. cbn -[lookup insert delete app String.append].
    rewrite length_app, Nat.add_1_r.
    eexists _, _. split; [reflexivity|].
    cbn -[lookup insert delete app String.append]. rewrite <- app_assoc. reflexivity.
  - intros buffer. eexists _, _. split; [reflexivity|].
    unfold get_sample, has, clear. cbn -[lookup insert delete app String.append].
    rewrite lookup_insert_eq. split; [reflexivity|].
    apply bool_decide_eq_true. eauto.
Qed.

Lemma clear_does_not_cancel_loads_witness :
  exists w1 k w3 rest,
    load "click" "sfx/click.mp3" loader_page = (w1, Await (Settle 0) k) /\
    has "click" (clear w1) = false /\
    k (RBuffer (Fulfilled some_buffer)) (clear w1) = (w3, rest) /\
    has "click" w3 = true.
Proof.
  destruct (clear_does_not_cancel_loads loader_page "click" "sfx/click.mp3")
    as (w1 & k & Hload & Hclear & _ & Hlate); [reflexivity..|].
  destruct (Hlate some_buffer) as (w3 & rest & Hk & _ & Hhas).
  exists w1, k, w3, rest.
  split; [exact Hload|]. split; [exact (proj1 (Hclear "click"))|].
  split; [exact Hk | exact Hhas].
Defined.

Lemma filter_keeps_all {A : Type} (P : A -> Prop) `{!forall x, Decision (P x)} (l : list A) :
  Forall P l -> filter P l = l.
Proof.
  induction 1 as [|x l Hx Hl IH]; [reflexivity|].
  rewrite filter_cons_True by exact Hx. rewrite IH. reflexivity.
Qed.

Lemma play_cached_effect (w : World) name options buffer :
  buffers (this w) !! name = Some buffer ->
  fst (play name options w) = Some (length (nodes (env w))) /\
  edges (env (snd (play name options w)))
  = edges (env w) ++
      [(length (nodes (env w)), S (length (nodes (env w))));
       (S (length (nodes (env w))), nullish (opt_destination options) (destination w))] /\
  this (snd (play name options w)) = this w /\
  onended (snd (play name options w))
  = onended w ++ [(length (nodes (env w)), S (length (nodes (env w))))].
Proof.
  intros Hc. unfold play. rewrite Hc.
  unfold createBufferSource, createGain, new_node, set_buffer, set_playbackRate,
    set_detune, on_gain, source_start, update_node, connect.
  cbn [fst snd env with_env with_onended this fetched onended].
  store. rewrite Nat.add_1_r. split; [reflexivity|]. split; [reflexivity|].
  split; reflexivity.
Qed.

(** X3: the end of a sample.  When the source that [play] returned has
    ended, its handler disconnects the source and the gain that [play]
    made: the connections of the graph are again those from before
    [play], and the cache is untouched. *)
Theorem ended_sample_is_disconnected (w : World) name options buffer :
  buffers (this w) !! name = Some buffer ->
  (forall a b, (a, b) ∈ edges (env w) -> (a < length (nodes (env w)))%nat) ->
  (forall s g, (s, g) ∈ onended w -> (s < length (nodes (env w)))%nat) ->
  fst (play name options w) = Some (length (nodes (env w))) /\
  edges (env (ended (length (nodes (env w))) (snd (play name options w)))) = edges (env w) /\
  this (ended (length (nodes (env w))) (snd (play name options w))) = this w.
Proof.
  intros Hc Hedges Hhandlers.
  destruct (play_cached_effect w name options buffer Hc) as (Hsource & Hconn & Hthis & Hh).
  split; [exact Hsource|].
  unfold ended. rewrite Hh.
  set (s := length (nodes (env w))) in *.
  assert (Hfind : list_find (fun sg : nat * nat => sg.1 = s) (onended w ++ [(s, S s)])
                  = Some (length (onended w), (s, S s))).
  { apply list_find_Some. split; [apply lookup_fresh0|]. split; [reflexivity|].
    intros j [s' g'] Hj Hlt. rewrite lookup_app_l in Hj by exact Hlt. cbn.
    apply list_elem_of_lookup_2 in Hj. apply Hhandlers in Hj. lia. }
  rewrite Hfind. cbn [env with_env this]. split; [|exact Hthis].
  unfold disconnect. cbn [edges with_edges]. rewrite Hconn.
  assert (Hkeep : forall n, (s <= n)%nat ->
    filter (fun ab : nat * nat => negb (fst ab =? n)%nat) (edges (env w)) = edges (env w)).
  { intros n Hn. apply filter_keeps_all. apply Forall_forall. intros [a b] Hab.
    apply Hedges in Hab. cbn. destruct (Nat.eqb_spec a n); [lia | exact I]. }
  rewrite filter_app, (Hkeep s) by lia.
  rewrite filter_cons_False by (cbn [fst]; rewrite Nat.eqb_refl; cbn; tauto).
  rewrite filter_cons_True
    by (cbn [fst]; destruct (Nat.eqb_spec (S s) s) as [Hbad|_]; [lia | exact I]).
  rewrite filter_nil, filter_app, (Hkeep (S s)) by lia.
  rewrite filter_cons_False by (cbn [fst]; rewrite Nat.eqb_refl; cbn; tauto).
  rewrite filter_nil. apply app_nil_r.
Qed.

(** The cached click, played at half volume on a page without any
    connection: once it has ended there is again no connection. *)
Lemma ended_sample_is_disconnected_witness :
  fst (play "click" (mkOptions None (Some 0.5) None None) loader_cached) = Some 1%nat /\
  edges (env (ended 1 (snd (play "click" (mkOptions None (Some 0.5) None None) loader_cached))))
  = [].
Proof.
  destruct (ended_sample_is_disconnected loader_cached "click"
              (mkOptions None (Some 0.5) None None) some_buffer)
    as (Hsource & Hedges & _).
  - reflexivity.
  - intros a b Hin. vm_compute in Hin. inversion Hin.
  - intros s g Hin. vm_compute in Hin. inversion Hin.
  - split; [exact Hsource | exact Hedges].
Defined.
End LoaderLifecycle.
(** ** The noise generator: how far the samples can go, and the class *)

Section NoiseBounds.
Import NoiseGenerator.
Local Open Scope Q_scope.

(** The running value of [createBrownNoise] never leaves [-1, 1]. *)
Lemma brown_step_bound lastOut white :
  -1 <= lastOut <= 1 -> in_unit_range white ->
  -1 <= fst (brown_step lastOut white) <= 1 /\
  within 3.5 (snd (brown_step lastOut white)).
Proof.
  unfold in_unit_range, within, brown_step. cbn [fst snd]. intros H Hw.
  set (y := (lastOut + 0.02 * white) / 1.02).
  assert (Hy : y * 1.02 == lastOut + 0.02 * white).
  { unfold y. field. }
  split; split; lra.
Qed.

Lemma brown_loop_bound n : forall lastOut rng data rest,
  -1 <= lastOut <= 1 -> Forall unit_interval rng ->
  brown_loop n lastOut rng = Some (data, rest) ->
  length data = n /\ Forall (within 3.5) data.
Proof.
  induction n as [|n IH]; intros lastOut rng data rest Hl Hrng Hrun; cbn [brown_loop] in Hrun.
  - injection Hrun as <- <-. split; [reflexivity | constructor].
  - destruct rng as [|r rng']; cbn [Math_random] in Hrun; [discriminate|].
    inversion Hrng as [|? ? Hr Hrest]; subst.
    pose proof (brown_step_bound lastOut (white_of r) Hl (white_of_range r Hr)) as [Hs Hx].
    destruct (brown_step lastOut (white_of r)) as [lastOut' x]. cbn [fst snd] in Hs, Hx.
    destruct (brown_loop n lastOut' rng') as [[d rs]|] eqn:E; [|discriminate].
    injection Hrun as <- <-.
    destruct (IH _ _ _ _ Hs Hrest E) as [Hlen Hd].
    split; [cbn; rewrite Hlen; reflexivity | constructor; assumption].
Qed.

Lemma pink_step_bound s white :
  pink_sums_bounded s -> in_unit_range white ->
  pink_sums_bounded (fst (pink_step s white)) /\ within 7.61 (snd (pink_step s white)).
Proof.
  unfold pink_sums_bounded, in_unit_range, within, pink_step. destruct s as [a0 a1 a2 a3 a4 a5 a6].
  cbn [fst snd b0 b1 b2 b3 b4 b5 b6].
  intros (H0 & H1 & H2 & H3 & H4 & H5 & H6) Hw.
  repeat split; lra.
Qed.

Lemma pink_loop_bound n : forall s rng data rest,
  pink_sums_bounded s -> Forall unit_interval rng ->
  pink_loop n s rng = Some (data, rest) ->
  length data = n /\ Forall (within 7.61) data.
Proof.
  induction n as [|n IH]; intros s rng data rest Hs Hrng Hrun; cbn [pink_loop] in Hrun.
  - injection Hrun as <- <-. split; [reflexivity | constructor].
  - destruct rng as [|r rng']; cbn [Math_random] in Hrun; [discriminate|].
    inversion Hrng as [|? ? Hr Hrest]; subst.
    pose proof (pink_step_bound s (white_of r) Hs (white_of_range r Hr)) as [Hs' Hx].
    destruct (pink_step s (white_of r)) as [s' x]. cbn [fst snd] in Hs', Hx.
    destruct (pink_loop n s' rng') as [[d rs]|] eqn:E; [|discriminate].
    injection Hrun as <- <-.
    destruct (IH _ _ _ _ Hs' Hrest E) as [Hlen Hd].
    split; [cbn; rewrite Hlen; reflexivity | constructor; assumption].
Qed.

Lemma pink_init_bounded : pink_sums_bounded pink_init.
Proof. unfold pink_sums_bounded, within, pink_init; cbn. repeat split; lra. Qed.

(** X4: The brown buffer: [context.sampleRate * 2] samples, each within
    3.5 of zero, whatever [Math.random] returns. *)
Theorem brown_noise_within_three_and_a_half (e : Env) :
  Forall unit_interval (rng e) -> (bufferSize e <= length (rng e))%nat ->
  exists source e',
    createBrownNoise e = Some (source, e') /\
    length (samples_of source e') = bufferSize e /\
    Forall (within 3.5) (samples_of source e').
Proof.
  intros Hrng Hlen.
  destruct (brown_loop_returns _ 0 _ Hlen) as (data & rest & Hrun).
  assert (H0 : -1 <= 0 <= 1) by (split; lra).
  destruct (brown_loop_bound _ _ _ _ _ H0 Hrng Hrun) as [Hn Hd].
  unfold createBrownNoise. rewrite Hrun.
  exists (fst (looping_source data rest e)), (snd (looping_source data rest e)).
  split; [f_equal; apply surjective_pairing|].
  rewrite samples_of_looping_source. split; assumption.
Qed.

(** X5: The pink buffer: [context.sampleRate * 2] samples, each within
    7.61 of zero, whatever [Math.random] returns. *)
Theorem pink_noise_within_seven_point_six (e : Env) :
  Forall unit_interval (rng e) -> (bufferSize e <= length (rng e))%nat ->
  exists source e',
    createPinkNoise e = Some (source, e') /\
    length (samples_of source e') = bufferSize e /\
    Forall (within 7.61) (samples_of source e').
Proof.
  intros Hrng Hlen.
  destruct (pink_loop_returns _ pink_init _ Hlen) as (data & rest & Hrun).
  destruct (pink_loop_bound _ _ _ _ _ pink_init_bounded Hrng Hrun) as [Hn Hd].
  unfold createPinkNoise. rewrite Hrun.
  exists (fst (looping_source data rest e)), (snd (looping_source data rest e)).
  split; [f_equal; apply surjective_pairing|].
  rewrite samples_of_looping_source. split; assumption.
Qed.

(** At 44.1 kHz with 0.99 at every draw, where the brown buffer passes 1,
    its 88200 samples still stay within 3.5. *)
Lemma brown_noise_within_three_and_a_half_witness :
  exists source e',
    createBrownNoise loud_env = Some (source, e') /\
    length (samples_of source e') = bufferSize loud_env /\
    Forall (within 3.5) (samples_of source e').
Proof.
  destruct (brown_noise_within_three_and_a_half loud_env loud_env_admissible loud_env_supply)
    as (source & e' & Hmk & Hlen & Hd).
  exists source, e'. split; [exact Hmk|]. split; [exact Hlen | exact Hd].
Defined.

Lemma pink_noise_within_seven_point_six_witness :
  exists source e',
    createPinkNoise loud_env = Some (source, e') /\
    length (samples_of source e') = bufferSize loud_env /\
    Forall (within 7.61) (samples_of source e').
Proof.
  destruct (pink_noise_within_seven_point_six loud_env loud_env_admissible loud_env_supply)
    as (source & e' & Hmk & Hlen & Hd).
  exists source, e'. split; [exact Hmk|]. split; [exact Hlen | exact Hd].
Defined.
End NoiseBounds.

Section NoiseClass.
Import NoiseGenerator.
Local Open Scope Q_scope.

Lemma white_loop_length n : forall rng data rest,
  white_loop n rng = Some (data, rest) -> length data = n.
Proof.
  induction n as [|n IH]; intros rng data rest Hrun; cbn [white_loop] in Hrun.
  - injection Hrun as <- <-. reflexivity.
  - destruct (Math_random rng) as [[r rng']|]; [|discriminate].
    destruct (white_loop n rng') as [[d rs]|] eqn:E; [|discriminate].
    injection Hrun as <- <-. cbn. rewrite (IH _ _ _ E). reflexivity.
Qed.

Lemma pink_loop_length n : forall s rng data rest,
  pink_loop n s rng = Some (data, rest) -> length data = n.
Proof.
  induction n as [|n IH]; intros s rng data rest Hrun; cbn [pink_loop] in Hrun.
  - injection Hrun as <- <-. reflexivity.
  - destruct (Math_random rng) as [[r rng']|]; [|discriminate].
    destruct (pink_step s (white_of r)) as [s' x].
    destruct (pink_loop n s' rng') as [[d rs]|] eqn:E; [|discriminate].
    injection Hrun as <- <-. cbn. rewrite (IH _ _ _ _ E). reflexivity.
Qed.

Lemma brown_loop_length n : forall s rng data rest,
  brown_loop n s rng = Some (data, rest) -> length data = n.
Proof.
  induction n as [|n IH]; intros s rng data rest Hrun; cbn [brown_loop] in Hrun.
  - injection Hrun as <- <-. reflexivity.
  - destruct (Math_random rng) as [[r rng']|]; [|discriminate].
    destruct (brown_step s (white_of r)) as [s' x].
    destruct (brown_loop n s' rng') as [[d rs]|] eqn:E; [|discriminate].
    injection Hrun as <- <-. cbn. rewrite (IH _ _ _ _ E). reflexivity.
Qed.

(** What the three constructors have in common. *)
Lemma looping_source_effect data rest e :
  looping_source data rest e
  = (length (nodes e),
     mkEnv (currentTime e) (sampleRate e)
           (nodes e ++ [BufferSourceNode (Some (mkBuffer "" 2 data)) true 1 0 false false])
           (edges e) (timers e) (nextTimer e) rest).
Proof.
  unfold looping_source, createBufferSource, new_node, set_buffer, set_loop, update_node.
  store. reflexivity.
Qed.

Lemma noise_made (ty : NoiseType) (e : Env) :
  (bufferSize e <= length (rng e))%nat ->
  exists data rest,
    match ty with
    | pink => createPinkNoise e
    | brown => createBrownNoise e
    | white => createWhiteNoise e
    end = Some (looping_source data rest e) /\
    length data = bufferSize e.
Proof.
  intros Hlen. destruct ty.
  - destruct (white_loop_returns _ _ Hlen) as (data & rest & Hrun).
    exists data, rest. unfold createWhiteNoise. rewrite Hrun.
    split; [reflexivity | exact (white_loop_length _ _ _ _ Hrun)].
  - destruct (pink_loop_returns _ pink_init _ Hlen) as (data & rest & Hrun).
    exists data, rest. unfold createPinkNoise. rewrite Hrun.
    split; [reflexivity | exact (pink_loop_length _ _ _ _ _ Hrun)].
  - destruct (brown_loop_returns _ 0 _ Hlen) as (data & rest & Hrun).
    exists data, rest. unfold createBrownNoise. rewrite Hrun.
    split; [reflexivity | exact (brown_loop_length _ _ _ _ _ Hrun)].
Qed.

Lemma disconnected_has_no_edge a b e : (a, b) ∉ edges (disconnect a e).
Proof.
  unfold disconnect. cbn [edges with_edges]. intros Hin.
  apply list_elem_of_filter in Hin. destruct Hin as [Hneq _].
  cbn [fst] in Hneq. rewrite Nat.eqb_refl in Hneq. exact Hneq.
Qed.

(** X6: [start()] of the class.  The generator gets a fresh looping source
    over a buffer of [sampleRate * 2] samples, connected to the output
    and started.  A source that was running is stopped and loses its
    connections before that: there are never two sources on the output. *)
Theorem noise_start_replaces_running_source (g : t) (e : Env) :
  (bufferSize e <= length (rng e))%nat ->
  (forall s, source g = Some s ->
     exists b l pr d sp, nodes e !! s = Some (BufferSourceNode b l pr d true sp)) ->
  exists g' e' buffer,
    start g e = Some (g', e') /\
    source g' = Some (length (nodes e)) /\ type g' = type g /\ output g' = output g /\
    nodes e' !! length (nodes e) = Some (BufferSourceNode (Some buffer) true 1 0 true false) /\
    length (channelData buffer) = bufferSize e /\
    (length (nodes e), output g) ∈ edges e' /\
    (forall s, source g = Some s ->
       (forall b, (s, b) ∉ edges e') /\
       exists b l pr d, nodes e' !! s = Some (BufferSourceNode b l pr d true true)).
Proof.
  intros Hlen Hrun. unfold start, stop.
  destruct (source g) as [s|] eqn:Hs.
  - destruct (Hrun s eq_refl) as (b & l & pr & d & sp & Hnode).
    unfold try_stop_then, source_stop. rewrite Hnode. cbn [type output source].
    set (e1 := disconnect s _).
    assert (Hsize : bufferSize e1 = bufferSize e) by reflexivity.
    assert (Hrng1 : rng e1 = rng e) by reflexivity.
    assert (Hlen1 : (bufferSize e1 <= length (rng e1))%nat) by (rewrite Hsize, Hrng1; exact Hlen).
    destruct (noise_made (type g) e1 Hlen1) as (data & rest & Hmade & Hdata).
    rewrite Hmade, looping_source_effect.
    assert (Hn1 : length (nodes e1) = length (nodes e)).
    { unfold e1, disconnect. cbn [nodes with_edges with_nodes]. apply length_insert. }
    assert (Hlt : (s < length (nodes e))%nat) by (eapply lookup_lt_Some; exact Hnode).
    eexists _, _, (mkBuffer "" 2 data). split; [reflexivity|].
    cbn [source type output]. rewrite Hn1.
    split; [reflexivity|]. split; [reflexivity|]. split; [reflexivity|].
    unfold source_start, connect, update_node. cbn [nodes edges with_edges with_nodes].
    rewrite <- Hn1. rewrite lookup_fresh0. cbn [nodes with_nodes]. rewrite insert_fresh0.
    split; [apply lookup_fresh0|]. split; [cbn [channelData]; rewrite Hdata; exact Hsize|].
    split; [apply elem_of_app; right; constructor|].
    intros s' Hs'. injection Hs' as <-. split.
    + intros b' Hin. apply elem_of_app in Hin. destruct Hin as [Hin|Hin].
      * exact (disconnected_has_no_edge s b' _ Hin).
      * apply list_elem_of_singleton in Hin. injection Hin as Heq _. rewrite length_insert in Heq. lia.
    + exists b, l, pr, d. rewrite lookup_app_l by lia.
      unfold e1, disconnect. cbn [nodes with_edges with_nodes].
      apply list_lookup_insert_eq. exact Hlt.
  - destruct (noise_made (type g) e Hlen) as (data & rest & Hmade & Hdata).
    rewrite Hmade, looping_source_effect.
    eexists _, _, (mkBuffer "" 2 data). split; [reflexivity|].
    cbn [source type output].
    split; [reflexivity|]. split; [reflexivity|]. split; [reflexivity|].
    unfold source_start, connect, update_node. cbn [nodes edges with_edges with_nodes].
    rewrite lookup_fresh0. cbn [nodes with_nodes]. rewrite insert_fresh0.
    split; [apply lookup_fresh0|]. split; [cbn [channelData]; exact Hdata|].
    split; [apply elem_of_app; right; constructor|].
    intros s' Hs'. discriminate.
Qed.

(** A running brown-noise generator (output 0, source 1) is started
    again: the new source is node 2, and node 1 has no connection left. *)
Lemma noise_start_replaces_running_source_witness :
  exists g' e',
    start (fst brown_running) (snd brown_running) = Some (g', e') /\
    source g' = Some 2%nat /\
    (2%nat, 0%nat) ∈ edges e' /\
    (forall b, (1%nat, b) ∉ edges e').
Proof.
  destruct (noise_start_replaces_running_source (fst brown_running) (snd brown_running))
    as (g' & e' & buffer & Hstart & Hsource & _ & _ & _ & _ & Hedge & Hold).
  - vm_compute. lia.
  - intros s Hs. vm_compute in Hs. injection Hs as <-.
    eexists _, _, _, _, _. vm_compute. reflexivity.
  - exists g', e'. split; [exact Hstart|]. split; [exact Hsource|].
    split; [exact Hedge|]. exact (proj1 (Hold 1%nat eq_refl)).
Defined.
End NoiseClass.
(** ** The analyzer: its bands, and what silence does *)

Section AnalyzerBands.
Import Reals AudioAnalyzer.
Local Open Scope Z_scope.

Lemma floor_of_ratio_mono (x y binFrequency : Q) :
  (x <= y)%Q -> (0 <= binFrequency)%Q ->
  Math_floor (x / binFrequency) <= Math_floor (y / binFrequency).
Proof.
  intros Hxy Hb. unfold Math_floor. apply Qfloor_resp_le.
  unfold Qdiv. apply Qmult_le_compat_r; [exact Hxy|]. apply Qinv_le_0_compat. exact Hb.
Qed.

(** X7: The three bands of an analyzer lie side by side: the low band
    starts at bin 0 or above, the mid band starts where the low band
    ends, the high band where the mid band ends, and none ends before it
    starts. *)
Theorem bands_are_adjacent_and_ordered fftSize smoothingTimeConstant (e e' : Env) (a : t) :
  create fftSize smoothingTimeConstant e = Some (a, e') ->
  0 <= lowBinStart a <= lowBinEnd a /\
  midBinStart a = lowBinEnd a /\ midBinStart a <= midBinEnd a /\
  highBinStart a = midBinEnd a /\ highBinStart a <= highBinEnd a.
Proof.
  unfold create.
  set (size := match fftSize with
               | Some n => if (n =? 0)%Z then 2048%Z else n
               | None => 2048%Z
               end).
  destruct (valid_fftSize size) eqn:Hvalid; [|discriminate].
  cbn [negb new_node]. cbv zeta. intros H. injection H as <- _.
  pose proof (valid_fftSize_bins size Hvalid) as Hbins.
  assert (Hfreq : (0 <= inject_Z (Z.of_N (sampleRate e)) / 2 / inject_Z (size / 2))%Q).
  { unfold Qdiv. apply Qmult_le_0_compat.
    - apply Qmult_le_0_compat; [|discriminate].
      change 0%Q with (inject_Z 0). rewrite <- Zle_Qle. apply N2Z.is_nonneg.
    - apply Qinv_le_0_compat. change 0%Q with (inject_Z 0). rewrite <- Zle_Qle. lia. }
  set (bf := (inject_Z (Z.of_N (sampleRate e)) / 2 / inject_Z (size / 2))%Q) in *.
  change (0 <= Math_floor (20 / bf) <= Math_floor (250 / bf) /\
          Math_floor (250 / bf) = Math_floor (250 / bf) /\
          Math_floor (250 / bf) <= Math_floor (2000 / bf) /\
          Math_floor (2000 / bf) = Math_floor (2000 / bf) /\
          Math_floor (2000 / bf) <= Math_floor (8000 / bf)).
  split; [split|].
  - apply floor_of_ratio; [discriminate | exact Hfreq].
  - apply floor_of_ratio_mono; [discriminate | exact Hfreq].
  - split; [reflexivity|]. split; [apply floor_of_ratio_mono; [discriminate | exact Hfreq]|].
    split; [reflexivity|]. apply floor_of_ratio_mono; [discriminate | exact Hfreq].
Qed.

(** The analyzer of the engine at 44.1 kHz: bins 0 to 11, 11 to 92 and
    92 to 371. *)
Lemma bands_are_adjacent_and_ordered_witness :
  exists a e',
    create (Some 2048) (Some 0.85%Q) (quiet_env []) = Some (a, e') /\
    (lowBinStart a, lowBinEnd a, midBinEnd a, highBinEnd a) = (0, 11, 92, 371) /\
    midBinStart a = lowBinEnd a /\ highBinStart a = midBinEnd a.
Proof.
  assert (Hnew : exists a e',
    create (Some 2048) (Some 0.85%Q) (quiet_env []) = Some (a, e') /\
    (lowBinStart a, lowBinEnd a, midBinEnd a, highBinEnd a) = (0, 11, 92, 371))
    by (do 2 eexists; split; [reflexivity | vm_compute; reflexivity]).
  destruct Hnew as (a & e' & Hcreate & Hbins).
  destruct (bands_are_adjacent_and_ordered _ _ _ _ _ Hcreate) as (_ & Hmid & _ & Hhigh & _).
  exists a, e'. split; [exact Hcreate|]. split; [exact Hbins|]. split; assumption.
Defined.
End AnalyzerBands.

Section AnalyzerSilence.
Import Reals AudioAnalyzer.
Local Open Scope R_scope.







End AnalyzerSilence.
(** ** The loop player: start, the scheduled track change, and [stop] *)

(** Runs the platform call that is applied to an environment in normal
    form, so that a chain of calls is evaluated from the inside out. *)
Ltac env_step_base :=
  lazymatch goal with
  | |- context [new_node ?n (mkEnv ?a ?b ?c ?d ?x ?y ?z)] =>
      change (new_node n (mkEnv a b c d x y z)) with (length c, mkEnv a b (c ++ [n]) d x y z)
  | |- context [connect ?s ?t (mkEnv ?a ?b ?c ?d ?x ?y ?z)] =>
      change (connect s t (mkEnv a b c d x y z)) with (mkEnv a b c (d ++ [(s, t)]) x y z)
  | |- context [setTimeout ?cb ?ms (mkEnv ?a ?b ?c ?d ?x ?y ?z)] =>
      change (setTimeout cb ms (mkEnv a b c d x y z))
        with (S y, mkEnv a b c d (x ++ [mkTimer (S y) (a + ms / 1000)%Q cb]) (S y) z)
  | |- context [clearTimeout ?id (mkEnv ?a ?b ?c ?d ?x ?y ?z)] =>
      change (clearTimeout id (mkEnv a b c d x y z))
        with (mkEnv a b c d (filter (fun tm => negb (Nat.eqb (timer_id tm) id)) x) y z)
  | |- context [with_rng ?r (mkEnv ?a ?b ?c ?d ?x ?y ?z)] =>
      change (with_rng r (mkEnv a b c d x y z)) with (mkEnv a b c d x y r)
  | |- context [with_nodes ?n (mkEnv ?a ?b ?c ?d ?x ?y ?z)] =>
      change (with_nodes n (mkEnv a b c d x y z)) with (mkEnv a b n d x y z)
  | |- context [with_edges ?n (mkEnv ?a ?b ?c ?d ?x ?y ?z)] =>
      change (with_edges n (mkEnv a b c d x y z)) with (mkEnv a b c n x y z)
  end.

Ltac env_step :=
  first
    [ env_step_base
    | lazymatch goal with
      | |- context [update_node ?r ?f (mkEnv ?a ?b ?c ?d ?x ?y ?z)] =>
          change (update_node r f (mkEnv a b c d x y z))
            with (match c !! r with
                  | Some n => mkEnv a b (<[r := f n]> c) d x y z
                  | None => mkEnv a b c d x y z
                  end)
      | |- context [gain_value ?g (mkEnv ?a ?b ?c ?d ?x ?y ?z)] =>
          change (gain_value g (mkEnv a b c d x y z))
            with (match c !! g with Some (GainNode p) => AudioParam.value p | _ => 0%Q end)
      end ].

Ltac env_eval := repeat (env_step; store).

(** Changing a node changes nothing but the node store. *)
Lemma update_node_frame r f a b c d x y z :
  exists c', update_node r f (mkEnv a b c d x y z) = mkEnv a b c' d x y z.
Proof. unfold update_node. cbn. destruct (c !! r); eexists; reflexivity. Qed.

(** The same evaluation for a goal in which the nodes do not matter. *)
Ltac env_frame :=
  first
    [ env_step_base
    | lazymatch goal with
      | |- context [update_node ?r ?f (mkEnv ?a ?b ?c ?d ?x ?y ?z)] =>
          let c' := fresh "ns" in
          let E := fresh "E" in
          destruct (update_node_frame r f a b c d x y z) as [c' E];
          rewrite E; clear E
      end ].

Ltac env_frames := repeat (env_frame; store).

Section LoopTrack.
Local Open Scope Q_scope.

(** Choosing the next index touches nothing but the random supply. *)
Lemma loop_getNextIndex_env (p : LoopPlayer.t) (e e1 : Env) i :
  LoopPlayer._getNextIndex p e = Some (i, e1) -> exists rest, e1 = with_rng rest e.
Proof.
  unfold LoopPlayer._getNextIndex.
  destruct (length (LoopPlayer.buffers p) =? 0)%nat.
  { intros H. injection H as <- <-. exists (rng e). destruct e; reflexivity. }
  destruct (length (LoopPlayer.buffers p) =? 1)%nat.
  { intros H. injection H as <- <-. exists (rng e). destruct e; reflexivity. }
  destruct (LoopPlayer.draw_index _ _ _) as [[j rest]|]; [|discriminate].
  intros H. injection H as <- <-. exists rest. reflexivity.
Qed.

(** A track change of a player without a current track. *)
Lemma loop_playNext_fresh (isFirst : bool) (p : LoopPlayer.t) (e : Env) i rest buffer :
  LoopPlayer.isPlaying p = true ->
  LoopPlayer._getNextIndex p e = Some (i, with_rng rest e) ->
  i <> (-1)%Z -> LoopPlayer.buffer_at p i = Some buffer ->
  LoopPlayer.currentGain p = None \/ LoopPlayer.currentSource p = None ->
  exists e',
    LoopPlayer._playNext isFirst p e
    = Some (LoopPlayer.set_nextTimeout (Some (S (nextTimer e)))
              (LoopPlayer.set_current (Some (length (nodes e))) (Some (S (length (nodes e))))
                 (LoopPlayer.set_currentIndex i p)), e') /\
    nodes e' = nodes e ++
      [BufferSourceNode (Some buffer) false 1 0 true false;
       GainNode (fade_in (currentTime e)
                   (if isFirst then 1.5 else LoopPlayer.crossfadeDuration p))] /\
    edges e' = edges e ++ [(length (nodes e), S (length (nodes e)));
                           (S (length (nodes e)), LoopPlayer.output p)] /\
    timers e' =
      match LoopPlayer.nextTimeout p with
      | Some id => filter (fun tm => negb (Nat.eqb (timer_id tm) id)) (timers e)
      | None => timers e
      end ++
      [mkTimer (S (nextTimer e))
         (currentTime e +
          Qmax ((duration buffer - LoopPlayer.crossfadeDuration p) * 1000) 1000 / 1000)
         (LoopNext (LoopPlayer.self p))] /\
    nextTimer e' = S (nextTimer e) /\ currentTime e' = currentTime e /\ rng e' = rest.
Proof.
  intros Hplay Hidx Hi Hbuf Hold. unfold LoopPlayer._playNext.
  rewrite Hplay, Hidx. cbn [negb]. apply Z.eqb_neq in Hi. rewrite Hi, Hbuf.
  destruct p as [self0 cf bufs urls0 out cs cg ci playing loaded nt].
  destruct e as [ct sr ns es ts ntm rg].
  cbn [LoopPlayer.currentGain LoopPlayer.currentSource] in Hold.
  assert (Hnone : match cg, cs with
                  | Some _, Some _ => False
                  | _, _ => True
                  end).
  { destruct Hold as [-> | ->]; [exact I|]. destruct cg; exact I. }
  unfold createBufferSource, createGain, set_buffer, set_loop, on_gain, source_start, fade_in.
  clear Hplay Hidx Hbuf Hi Hold. loop_fields. env_eval.
  destruct cg as [og|], cs as [os|]; try contradiction;
    (destruct nt as [id|]; env_eval; rewrite Nat.add_1_r;
     eexists; (split; [reflexivity|]); cbn [nodes edges timers nextTimer currentTime rng];
     (split; [reflexivity|]); (split; [reflexivity|]); (split; [reflexivity|]);
     (split; [reflexivity|]); split; reflexivity).
Qed.

(** A track change of a player with a current track: a crossfade. *)
Lemma loop_playNext_crossfade (isFirst : bool) (p : LoopPlayer.t) (e : Env)
    i rest buffer og os gp :
  LoopPlayer.isPlaying p = true ->
  LoopPlayer._getNextIndex p e = Some (i, with_rng rest e) ->
  i <> (-1)%Z -> LoopPlayer.buffer_at p i = Some buffer ->
  LoopPlayer.currentGain p = Some og -> LoopPlayer.currentSource p = Some os ->
  nodes e !! og = Some (GainNode gp) ->
  exists e',
    LoopPlayer._playNext isFirst p e
    = Some (LoopPlayer.set_nextTimeout (Some (S (S (nextTimer e))))
              (LoopPlayer.set_current (Some (length (nodes e))) (Some (S (length (nodes e))))
                 (LoopPlayer.set_currentIndex i p)), e') /\
    nodes e' =
      <[og := GainNode (fade_out gp (currentTime e)
                          (if isFirst then 1.5 else LoopPlayer.crossfadeDuration p))]>
        (nodes e) ++
      [BufferSourceNode (Some buffer) false 1 0 true false;
       GainNode (fade_in (currentTime e)
                   (if isFirst then 1.5 else LoopPlayer.crossfadeDuration p))] /\
    edges e' = edges e ++ [(length (nodes e), S (length (nodes e)));
                           (S (length (nodes e)), LoopPlayer.output p)] /\
    timers e' =
      match LoopPlayer.nextTimeout p with
      | Some id => filter (fun tm => negb (Nat.eqb (timer_id tm) id))
      | None => fun ts => ts
      end
        (timers e ++
         [mkTimer (S (nextTimer e))
            (currentTime e +
             ((if isFirst then 1.5 else LoopPlayer.crossfadeDuration p) * 1000 + 100) / 1000)
            (LoopCleanup os og)]) ++
      [mkTimer (S (S (nextTimer e)))
         (currentTime e +
          Qmax ((duration buffer - LoopPlayer.crossfadeDuration p) * 1000) 1000 / 1000)
         (LoopNext (LoopPlayer.self p))] /\
    nextTimer e' = S (S (nextTimer e)) /\ currentTime e' = currentTime e /\ rng e' = rest.
Proof.
  intros Hplay Hidx Hi Hbuf Hg Hs Hog. unfold LoopPlayer._playNext.
  rewrite Hplay, Hidx. cbn [negb]. apply Z.eqb_neq in Hi. rewrite Hi, Hbuf.
  destruct p as [self0 cf bufs urls0 out cs cg ci playing loaded nt].
  destruct e as [ct sr ns es ts ntm rg].
  cbn [LoopPlayer.currentGain LoopPlayer.currentSource] in Hg, Hs. subst cg cs.
  cbn [nodes] in Hog.
  assert (Hlt : (og < length ns)%nat) by (eapply lookup_lt_Some; exact Hog).
  unfold createBufferSource, createGain, set_buffer, set_loop, on_gain, source_start,
    fade_in, fade_out.
  clear Hplay Hidx Hbuf Hi. loop_fields. env_eval.
  rewrite !lookup_app_l by exact Hlt. rewrite Hog.
  rewrite insert_app_l by exact Hlt. env_eval.
  rewrite lookup_app_l by (rewrite length_insert; exact Hlt).
  rewrite list_lookup_insert_eq by exact Hlt.
  rewrite insert_app_l by (rewrite length_insert; exact Hlt).
  rewrite list_insert_insert_eq.
  set (ns' := <[og := _]> ns).
  assert (Hl' : length ns = length ns') by (symmetry; apply length_insert).
  rewrite !Hl'. env_eval.
  destruct nt as [id|]; env_eval; rewrite Nat.add_1_r;
    (eexists; (split; [reflexivity|]); cbn [nodes edges timers nextTimer currentTime rng];
     (split; [reflexivity|]); (split; [reflexivity|]); (split; [reflexivity|]);
     (split; [reflexivity|]); split; reflexivity).
Qed.

Lemma with_rng_same (e : Env) : with_rng (rng e) e = e.
Proof. destruct e; reflexivity. Qed.

(** The first index a player picks that was never started. *)
Lemma loop_first_index (p : LoopPlayer.t) (e : Env) r rest :
  LoopPlayer.currentIndex p = (-1)%Z -> (0 < length (LoopPlayer.buffers p))%nat ->
  rng e = r :: rest -> unit_interval r ->
  exists buffer,
    LoopPlayer._getNextIndex p e
    = Some (if (length (LoopPlayer.buffers p) =? 1)%nat then 0%Z
            else index_of_draw (length (LoopPlayer.buffers p)) r,
            with_rng (if (length (LoopPlayer.buffers p) =? 1)%nat then r :: rest else rest) e) /\
    LoopPlayer.buffer_at p
      (if (length (LoopPlayer.buffers p) =? 1)%nat then 0%Z
       else index_of_draw (length (LoopPlayer.buffers p)) r) = Some buffer /\
    (if (length (LoopPlayer.buffers p) =? 1)%nat then 0%Z
     else index_of_draw (length (LoopPlayer.buffers p)) r) <> (-1)%Z.
Proof.
  intros Hcur Hlen Hrng Hr.
  pose proof (index_of_draw_range _ r Hr Hlen) as Hrange.
  unfold LoopPlayer._getNextIndex, LoopPlayer.buffer_at.
  destruct (length (LoopPlayer.buffers p) =? 0)%nat eqn:E0; [apply Nat.eqb_eq in E0; lia|].
  destruct (length (LoopPlayer.buffers p) =? 1)%nat eqn:E1.
  - destruct (LoopPlayer.buffers p !! Z.to_nat 0) as [buffer|] eqn:Hb.
    2:{ apply lookup_ge_None in Hb. cbn in Hb. lia. }
    exists buffer. rewrite <- Hrng, with_rng_same. cbn. split; [reflexivity|].
    split; [reflexivity | discriminate].
  - rewrite Hrng. cbn [LoopPlayer.draw_index]. fold (index_of_draw (length (LoopPlayer.buffers p)) r).
    rewrite Hcur.
    destruct (index_of_draw (length (LoopPlayer.buffers p)) r =? -1)%Z eqn:Em;
      [apply Z.eqb_eq in Em; lia|]. cbn [andb].
    destruct (index_of_draw (length (LoopPlayer.buffers p)) r <? 0)%Z eqn:Hneg;
      [apply Z.ltb_lt in Hneg; lia|].
    destruct (LoopPlayer.buffers p !! Z.to_nat (index_of_draw (length (LoopPlayer.buffers p)) r))
      as [buffer|] eqn:Hb.
    2:{ apply lookup_ge_None in Hb. lia. }
    exists buffer. split; [reflexivity|]. split; [reflexivity | lia].
Qed.

(** X9: [start()].  It does nothing on a player that is not loaded or is
    playing already.  On a loaded player that was never started it picks
    a buffer (with a single buffer, without asking [Math.random]), plays
    it through a new source and a new gain that fades in from 0 to 1 over
    1.5 seconds whatever the crossfade time of the player is, and
    schedules the next track change: [crossfadeDuration] seconds before
    the buffer ends, but never sooner than a second from now. *)
Theorem loop_start_fades_in_first_track (p : LoopPlayer.t) (e : Env) :
  (LoopPlayer.isLoaded p = false \/ LoopPlayer.isPlaying p = true ->
   LoopPlayer.start p e = Some (p, e)) /\
  (forall r rest,
     LoopPlayer.isLoaded p = true -> LoopPlayer.isPlaying p = false ->
     LoopPlayer.currentIndex p = (-1)%Z -> LoopPlayer.currentSource p = None ->
     LoopPlayer.nextTimeout p = None ->
     (0 < length (LoopPlayer.buffers p))%nat ->
     rng e = r :: rest -> unit_interval r ->
     exists i buffer p' e' due,
       i = (if (length (LoopPlayer.buffers p) =? 1)%nat then 0%Z
            else index_of_draw (length (LoopPlayer.buffers p)) r) /\
       LoopPlayer.buffers p !! Z.to_nat i = Some buffer /\
       LoopPlayer.start p e = Some (p', e') /\
       LoopPlayer.isPlaying p' = true /\ LoopPlayer.currentIndex p' = i /\
       LoopPlayer.currentSource p' = Some (length (nodes e)) /\
       LoopPlayer.currentGain p' = Some (S (length (nodes e))) /\
       LoopPlayer.nextTimeout p' = Some (S (nextTimer e)) /\
       nodes e' = nodes e ++
         [BufferSourceNode (Some buffer) false 1 0 true false;
          GainNode (fade_in (currentTime e) 1.5)] /\
       edges e' = edges e ++ [(length (nodes e), S (length (nodes e)));
                              (S (length (nodes e)), LoopPlayer.output p)] /\
       timers e' = timers e ++
         [mkTimer (S (nextTimer e)) due (LoopNext (LoopPlayer.self p))] /\
       due == currentTime e +
              Qmax ((duration buffer - LoopPlayer.crossfadeDuration p) * 1000) 1000 / 1000 /\
       currentTime e + 1 <= due).
Proof.
  split.
  - intros [H | H]; unfold LoopPlayer.start; rewrite H; [reflexivity|].
    destruct (LoopPlayer.isLoaded p); reflexivity.
  - intros r rest Hloaded Hidle Hcur Hsrc Hnt Hlen Hrng Hr.
    destruct (loop_first_index (LoopPlayer.set_isPlaying true p) e r rest Hcur Hlen Hrng Hr)
      as (buffer & Hidx & Hbuf & Hne).
    loop_fields.
    set (i := if (length (LoopPlayer.buffers p) =? 1)%nat then 0%Z
              else index_of_draw (length (LoopPlayer.buffers p)) r) in *.
    destruct (loop_playNext_fresh true (LoopPlayer.set_isPlaying true p) e i _ buffer
                eq_refl Hidx Hne Hbuf (or_intror Hsrc))
      as (e' & Hrun & Hnodes & Hedges & Htimers & Hnext & Htime & Hrest).
    loop_fields. rewrite Hnt in Htimers.
    eexists i, buffer, _, e', _. split; [reflexivity|].
    split.
    { unfold LoopPlayer.buffer_at in Hbuf. loop_fields.
      destruct (i <? 0)%Z; [discriminate | exact Hbuf]. }
    split; [unfold LoopPlayer.start; rewrite Hloaded, Hidle; exact Hrun|].
    loop_fields.
    split; [reflexivity|]. split; [reflexivity|]. split; [reflexivity|].
    split; [reflexivity|]. split; [reflexivity|].
    split; [exact Hnodes|]. split; [exact Hedges|]. split; [exact Htimers|].
    split; [reflexivity|].
    pose proof (Q.le_max_r ((duration buffer - LoopPlayer.crossfadeDuration p) * 1000) 1000)
      as Hmax.
    set (m := Qmax _ _) in *. 
    assert (Hdiv : 1 <= m / 1000).
    { apply Qle_shift_div_l; [reflexivity | lra]. }
    lra.
Qed.

(** The rain player of the page (three buffers, crossfade 3 s, buffers of
    10 s) with 0.5 as the next random number: the second buffer is
    picked, and the next change is due after 7 seconds. *)
Lemma loop_start_fades_in_first_track_witness :
  exists p' e',
    LoopPlayer.start rain_loaded (AudioEngine.env scenes_loaded) = Some (p', e') /\
    LoopPlayer.isPlaying p' = true /\ LoopPlayer.currentIndex p' = 1%Z /\
    exists id due,
      timers e' = timers (AudioEngine.env scenes_loaded) ++ [mkTimer id due (LoopNext 3)] /\
      due == 7.
Proof.
  destruct (loop_start_fades_in_first_track rain_loaded (AudioEngine.env scenes_loaded))
    as (_ & Hstart).
  destruct (Hstart 0.5 [0.25; 0.75; 0.125; 0.875; 0.625])
    as (i & buffer & p' & e' & due & Hi & Hbuf & Hrun & Hplay & Hidx & _ & _ & _ & _ & _ &
        Htimers & Hdue & _).
  - vm_compute. reflexivity.
  - vm_compute. reflexivity.
  - vm_compute. reflexivity.
  - vm_compute. reflexivity.
  - vm_compute. reflexivity.
  - vm_compute. lia.
  - vm_compute. reflexivity.
  - split; [discriminate | reflexivity].
  - exists p', e'. split; [exact Hrun|]. split; [exact Hplay|].
    assert (Hone : i = 1%Z) by (rewrite Hi; vm_compute; reflexivity).
    split; [rewrite Hidx; exact Hone|].
    exists (S (nextTimer (AudioEngine.env scenes_loaded))), due.
    split; [exact Htimers|]. rewrite Hdue.
    rewrite Hone in Hbuf. vm_compute in Hbuf. injection Hbuf as <-.
    vm_compute. reflexivity.
Defined.
End LoopTrack.

Section LoopRace.
Local Open Scope Q_scope.

(** [stop(fade)] on a player with a current track: what it does before
    it waits, and what it will do when the wait is over. *)
Lemma loop_stop_effect (fade : Q) (p : LoopPlayer.t) (e : Env) g s gp :
  LoopPlayer.isPlaying p = true ->
  LoopPlayer.currentGain p = Some g -> LoopPlayer.currentSource p = Some s ->
  nodes e !! g = Some (GainNode gp) ->
  exists e0 k,
    LoopPlayer.stop fade (p, e)
    = ((LoopPlayer.set_nextTimeout None (LoopPlayer.set_isPlaying false p), e0),
       Await (Timer (fade * 1000)) k) /\
    (forall reply v,
       k reply v = ((LoopPlayer.set_current None None (fst v),
                     LoopPlayer.release_current (fst v) (snd v)), Done (Fulfilled tt))) /\
    nodes e0 = <[g := GainNode (fade_out gp (currentTime e) fade)]> (nodes e) /\
    edges e0 = edges e /\ currentTime e0 = currentTime e /\ rng e0 = rng e.
Proof.
  intros Hp Hg Hs Hog. destruct p as [self0 cf bufs urls0 out cs cg ci playing loaded nt].
  destruct e as [ct sr ns es ts ntm rg].
  cbn in Hp, Hg, Hs, Hog. subst.
  unfold LoopPlayer.stop, bind, gets, modify, await, ret, on_gain, fade_out.
  destruct nt as [id|];
    cbn [bind_task negb fst snd LoopPlayer.isPlaying LoopPlayer.nextTimeout
         LoopPlayer.set_isPlaying LoopPlayer.set_nextTimeout LoopPlayer.currentGain
         LoopPlayer.currentSource];
    env_eval; rewrite Hog; env_eval;
    rewrite list_lookup_insert_eq by (eapply lookup_lt_Some; exact Hog);
    rewrite list_insert_insert_eq;
    do 2 eexists; (split; [reflexivity|]); (split; [intros reply [p1 e1]; reflexivity|]);
    cbn [nodes edges currentTime rng];
    (split; [reflexivity|]); (split; [reflexivity|]); split; reflexivity.
Qed.

(** The choice of the next index reads the buffers, the current index
    and the random supply, and nothing else. *)
Lemma loop_getNextIndex_same (p q : LoopPlayer.t) (e e1 : Env) i rest :
  LoopPlayer.buffers q = LoopPlayer.buffers p ->
  LoopPlayer.currentIndex q = LoopPlayer.currentIndex p ->
  rng e1 = rng e ->
  LoopPlayer._getNextIndex p e = Some (i, with_rng rest e) ->
  LoopPlayer._getNextIndex q e1 = Some (i, with_rng rest e1).
Proof.
  intros Hb Hc Hr. unfold LoopPlayer._getNextIndex. rewrite Hb, Hc, Hr.
  assert (Hsame : forall j, Some (j, e) = Some (i, with_rng rest e) ->
                            Some (j, e1) = Some (i, with_rng rest e1)).
  { intros j H. injection H as -> He. f_equal. f_equal.
    assert (Hrest : rng e = rest) by (rewrite He at 1; destruct e; reflexivity).
    rewrite <- Hrest, <- Hr. symmetry. apply with_rng_same. }
  destruct (length (LoopPlayer.buffers p) =? 0)%nat; [apply Hsame|].
  destruct (length (LoopPlayer.buffers p) =? 1)%nat; [apply Hsame|].
  destruct (LoopPlayer.draw_index _ _ _) as [[j rest']|]; [|discriminate].
  intros H. injection H as -> He. rewrite He. reflexivity.
Qed.

(** X10: Starting again while [stop] is fading.  [stop(fade)] has been
    called on a playing track and waits for its fade; [start()] is called
    before the wait is over.  The player starts a new source - and when
    the wait of [stop] is over, it is this new source that [stop] stops
    and disconnects: the player reports playing, with no current track. *)
Theorem loop_start_during_fade_is_cut_off (p : LoopPlayer.t) (e : Env) (fade : Q)
    g s gp i rest buffer :
  LoopPlayer.isPlaying p = true -> LoopPlayer.isLoaded p = true ->
  LoopPlayer.currentGain p = Some g -> LoopPlayer.currentSource p = Some s ->
  nodes e !! g = Some (GainNode gp) ->
  LoopPlayer._getNextIndex p e = Some (i, with_rng rest e) -> i <> (-1)%Z ->
  LoopPlayer.buffer_at p i = Some buffer ->
  exists p1 e1 k p2 e2,
    LoopPlayer.stop fade (p, e) = ((p1, e1), Await (Timer (fade * 1000)) k) /\
    LoopPlayer.isPlaying p1 = false /\
    LoopPlayer.start p1 e1 = Some (p2, e2) /\
    LoopPlayer.isPlaying p2 = true /\
    LoopPlayer.currentSource p2 = Some (length (nodes e)) /\
    LoopPlayer.currentGain p2 = Some (S (length (nodes e))) /\
    nodes e2 !! length (nodes e) = Some (BufferSourceNode (Some buffer) false 1 0 true false) /\
    forall reply, exists p3 e3,
      k reply (p2, e2) = ((p3, e3), Done (Fulfilled tt)) /\
      LoopPlayer.isPlaying p3 = true /\
      LoopPlayer.currentSource p3 = None /\ LoopPlayer.currentGain p3 = None /\
      nodes e3 !! length (nodes e)
      = Some (BufferSourceNode (Some buffer) false 1 0 true true) /\
      (forall b, (length (nodes e), b) ∉ edges e3) /\
      (forall b, (S (length (nodes e)), b) ∉ edges e3).
Proof.
  intros Hplay Hloaded Hg Hs Hog Hidx Hi Hbuf.
  destruct (loop_stop_effect fade p e g s gp Hplay Hg Hs Hog)
    as (e1 & k & Hstop & Hk & Hnodes1 & Hedges1 & Htime1 & Hrng1).
  set (p1 := LoopPlayer.set_nextTimeout None (LoopPlayer.set_isPlaying false p)) in *.
  assert (Hlt : (g < length (nodes e))%nat) by (eapply lookup_lt_Some; exact Hog).
  assert (Hlen1 : length (nodes e1) = length (nodes e))
    by (rewrite Hnodes1; apply length_insert).
  assert (Hog1 : nodes e1 !! g = Some (GainNode (fade_out gp (currentTime e) fade)))
    by (rewrite Hnodes1; apply list_lookup_insert_eq; exact Hlt).
  assert (Hidx1 : LoopPlayer._getNextIndex (LoopPlayer.set_isPlaying true p1) e1
                  = Some (i, with_rng rest e1))
    by (apply (loop_getNextIndex_same p _ e e1); [reflexivity | reflexivity | exact Hrng1 | exact Hidx]).
  destruct (loop_playNext_crossfade true (LoopPlayer.set_isPlaying true p1) e1 i rest buffer
              g s _ eq_refl Hidx1 Hi Hbuf Hg Hs Hog1)
    as (e2 & Hrun & Hnodes2 & Hedges2 & _).
  rewrite Hlen1 in Hrun, Hedges2.
  assert (Hnew : nodes e2 !! length (nodes e)
                 = Some (BufferSourceNode (Some buffer) false 1 0 true false)).
  { rewrite Hnodes2.
    replace (length (nodes e)) with (length (<[g:=GainNode
               (fade_out (fade_out gp (currentTime e) fade) (currentTime e1) 1.5)]> (nodes e1)))
      by (rewrite length_insert; exact Hlen1).
    apply lookup_fresh0. }
  eexists p1, e1, k, _, e2. split; [exact Hstop|]. split; [reflexivity|].
  split; [unfold LoopPlayer.start; unfold p1 at 1 2; loop_fields; rewrite Hloaded; exact Hrun|].
  loop_fields. split; [reflexivity|]. split; [reflexivity|]. split; [reflexivity|].
  split; [exact Hnew|].
  intros reply. eexists _, _. split; [apply Hk|]. cbn [fst snd]. loop_fields.
  split; [reflexivity|]. split; [reflexivity|]. split; [reflexivity|].
  match goal with
  | |- context [LoopPlayer.release_current ?q e2] =>
      destruct (release_current_started q e2 (length (nodes e)) (S (length (nodes e)))
                  _ _ _ _ _ eq_refl eq_refl Hnew) as (Hstopped & Hedges3)
  end.
  split; [exact Hstopped|]. rewrite Hedges3.
  split; intros b Hin; apply list_elem_of_filter in Hin as [Hn1 Hin].
  - apply list_elem_of_filter in Hin as [Hn0 _]. cbn [fst] in Hn0.
    rewrite Nat.eqb_refl in Hn0. exact Hn0.
  - cbn [fst] in Hn1. rewrite Nat.eqb_refl in Hn1. exact Hn1.
Qed.

(** The rain player two seconds into the rain (source 20, gain 21):
    [stop(3)], then [start()] at once.  The new source is node 22, and it
    is node 22 that the end of [stop] disconnects. *)
Lemma loop_start_during_fade_is_cut_off_witness :
  exists p1 e1 k p2 e2 p3 e3,
    LoopPlayer.stop 3 (rain_player, AudioEngine.env rain_playing)
    = ((p1, e1), Await (Timer (3 * 1000)) k) /\
    LoopPlayer.start p1 e1 = Some (p2, e2) /\
    LoopPlayer.currentSource p2 = Some 22%nat /\
    k RUnit (p2, e2) = ((p3, e3), Done (Fulfilled tt)) /\
    LoopPlayer.isPlaying p3 = true /\ LoopPlayer.currentSource p3 = None /\
    (forall b, (22%nat, b) ∉ edges e3).
Proof.
  assert (Hn : length (nodes (AudioEngine.env rain_playing)) = 22%nat)
    by (vm_compute; reflexivity).
  destruct (loop_start_during_fade_is_cut_off rain_player (AudioEngine.env rain_playing) 3
              21 20
              (default (AudioParam.create 1) (gain_param 21 (AudioEngine.env rain_playing)))
              0 [0.75; 0.125; 0.875; 0.625] some_buffer)
    as (p1 & e1 & k & p2 & e2 & Hstop & _ & Hstart & _ & Hsrc & _ & _ & Hlate).
  - vm_compute. reflexivity.
  - vm_compute. reflexivity.
  - vm_compute. reflexivity.
  - vm_compute. reflexivity.
  - vm_compute. reflexivity.
  - vm_compute. reflexivity.
  - discriminate.
  - vm_compute. reflexivity.
  - destruct (Hlate RUnit) as (p3 & e3 & Hk & Hplay & Hnone & _ & _ & Hcut & _).
    rewrite Hn in Hsrc, Hcut.
    exists p1, e1, k, p2, e2, p3, e3.
    split; [exact Hstop|]. split; [exact Hstart|]. split; [exact Hsrc|].
    split; [exact Hk|]. split; [exact Hplay|]. split; [exact Hnone | exact Hcut].
Defined.
End LoopRace.

Section LoopSchedule.
Local Open Scope Q_scope.

(** [clearTimeout(nextTimeout)], when there is one to clear. *)
Lemma cleared_sublist (old : option nat) (ts : list TimerEntry) :
  match old with
  | Some id => filter (fun tm => negb (Nat.eqb (timer_id tm) id))
  | None => fun ts => ts
  end ts `sublist_of` ts.
Proof. destruct old; [apply sublist_filter | reflexivity]. Qed.

Lemma cleared_elem (old : option nat) (ts : list TimerEntry) tm :
  tm ∈ match old with
       | Some id => filter (fun tm => negb (Nat.eqb (timer_id tm) id))
       | None => fun ts => ts
       end ts ->
  tm ∈ ts /\ old <> Some (timer_id tm).
Proof.
  destruct old as [id|]; [|intros H; split; [exact H | discriminate]].
  intros H. apply list_elem_of_filter in H. destruct H as [Hne Hin].
  split; [exact Hin|]. intros Heq. injection Heq as ->.
  rewrite Nat.eqb_refl in Hne. exact Hne.
Qed.

(** The timers after a track change, from those before it. *)
Lemma schedule_step (self ntm id : nat) (ts extra : list TimerEntry) (old : option nat) due :
  NoDup (timer_id <$> ts) ->
  (forall tm, tm ∈ ts -> (timer_id tm <= ntm)%nat) ->
  (forall tm, tm ∈ ts -> callback tm = LoopNext self -> old = Some (timer_id tm)) ->
  (extra = [] /\ id = S ntm \/
   exists d os og, extra = [mkTimer (S ntm) d (LoopCleanup os og)] /\ id = S (S ntm)) ->
  NoDup (timer_id <$> (match old with
                       | Some o => filter (fun tm => negb (Nat.eqb (timer_id tm) o))
                       | None => fun ts => ts
                       end (ts ++ extra) ++ [mkTimer id due (LoopNext self)])) /\
  (forall tm, tm ∈ match old with
                   | Some o => filter (fun tm => negb (Nat.eqb (timer_id tm) o))
                   | None => fun ts => ts
                   end (ts ++ extra) ++ [mkTimer id due (LoopNext self)] ->
     (timer_id tm <= id)%nat /\ (callback tm = LoopNext self -> timer_id tm = id)).
Proof.
  intros Hdup Hmax Hown Hextra.
  assert (Hall : forall tm, tm ∈ ts ++ extra ->
            (timer_id tm < id)%nat /\ (callback tm = LoopNext self -> tm ∈ ts)).
  { intros tm Hin. apply elem_of_app in Hin. destruct Hin as [Hin | Hin].
    - specialize (Hmax tm Hin). split; [|intros _; exact Hin].
      destruct Hextra as [[_ ->] | (d & os & og & _ & ->)]; lia.
    - destruct Hextra as [[-> _] | (d & os & og & -> & ->)]; [inversion Hin|].
      apply list_elem_of_singleton in Hin. subst tm. cbn. split; [lia | discriminate]. }
  assert (Hdup2 : NoDup (timer_id <$> (ts ++ extra))).
  { rewrite fmap_app. apply NoDup_app. split; [exact Hdup|]. split.
    - intros x Hx Hx'. apply list_elem_of_fmap in Hx as (tm & -> & Hin). specialize (Hmax tm Hin).
      destruct Hextra as [[-> _] | (d & os & og & -> & _)]; [inversion Hx'|].
      apply list_elem_of_singleton in Hx'. cbn in Hx'. lia.
    - destruct Hextra as [[-> _] | (d & os & og & -> & _)]; [constructor|].
      apply NoDup_singleton. }
  split.
  - rewrite fmap_app. apply NoDup_app. split.
    + eapply sublist_NoDup; [exact Hdup2|]. apply fmap_sublist. apply cleared_sublist.
    + split; [|apply NoDup_singleton].
      intros x Hx Hx'. apply list_elem_of_singleton in Hx'. cbn in Hx'. subst x.
      apply list_elem_of_fmap in Hx as (tm & Hid & Hin).
      apply cleared_elem in Hin as [Hin _]. apply Hall in Hin as [Hlt _]. lia.
  - intros tm Hin. apply elem_of_app in Hin. destruct Hin as [Hin | Hin].
    + apply cleared_elem in Hin as [Hin Hne]. destruct (Hall tm Hin) as [Hlt Hts].
      split; [lia|]. intros Hcb. exfalso. apply Hne. apply Hown; [apply Hts|]; exact Hcb.
    + apply list_elem_of_singleton in Hin. subst tm. cbn. split; [lia | reflexivity].
Qed.

(** What a track change does to the timers, whenever it returns. *)
Lemma loop_playNext_schedule (isFirst : bool) (p p' : LoopPlayer.t) (e e' : Env) :
  LoopPlayer._playNext isFirst p e = Some (p', e') ->
  LoopPlayer.self p' = LoopPlayer.self p /\
  (LoopPlayer.isPlaying p' = LoopPlayer.isPlaying p /\
   LoopPlayer.nextTimeout p' = LoopPlayer.nextTimeout p /\
   timers e' = timers e /\ nextTimer e' = nextTimer e \/
   LoopPlayer.isPlaying p' = true /\
   exists extra id due,
     LoopPlayer.nextTimeout p' = Some id /\ nextTimer e' = id /\
     timers e' =
       match LoopPlayer.nextTimeout p with
       | Some o => filter (fun tm => negb (Nat.eqb (timer_id tm) o))
       | None => fun ts => ts
       end (timers e ++ extra) ++ [mkTimer id due (LoopNext (LoopPlayer.self p))] /\
     (extra = [] /\ id = S (nextTimer e) \/
      exists d os og, extra = [mkTimer (S (nextTimer e)) d (LoopCleanup os og)] /\
                      id = S (S (nextTimer e)))).
Proof.
  unfold LoopPlayer._playNext.
  destruct (LoopPlayer.isPlaying p) eqn:Hplay; cbn [negb].
  2:{ intros H. injection H as <- <-. split; [reflexivity|]. left. rewrite Hplay. auto. }
  destruct (LoopPlayer._getNextIndex p e) as [[i e1]|] eqn:Hidx; [|discriminate].
  destruct (loop_getNextIndex_env _ _ _ _ Hidx) as (rest & ->).
  destruct (i =? -1)%Z.
  { intros H. injection H as <- <-. split; [reflexivity|]. left. rewrite Hplay.
    destruct e; cbn. auto. }
  destruct (LoopPlayer.buffer_at p i) as [buffer|]; [|discriminate].
  destruct p as [self0 cf bufs urls0 out cs cg ci playing loaded nt].
  destruct e as [ct sr ns es ts ntm rg].
  cbn [LoopPlayer.isPlaying] in Hplay. subst playing.
  unfold createBufferSource, createGain, set_buffer, set_loop, on_gain, source_start.
  clear Hidx. loop_fields. env_frames.
  destruct cg as [og|], cs as [os|]; env_frames;
    (destruct nt as [o|]; env_frames; intros H; injection H as <- <-;
     (split; [reflexivity|]); right; (split; [reflexivity|]);
     cbn [timers nextTimer LoopPlayer.nextTimeout LoopPlayer.set_nextTimeout]).
  all: try (exists [], (S ntm); eexists; (split; [reflexivity|]); (split; [reflexivity|]);
             rewrite app_nil_r; split; [reflexivity | left; split; reflexivity]).
  all: try (eexists [_], (S (S ntm)); eexists; (split; [reflexivity|]); (split; [reflexivity|]);
             split; [reflexivity | right; eexists _, _, _; split; reflexivity]).
  eexists [_], (S (S ntm)); eexists. split; [reflexivity|]. split; [reflexivity|].
  split; [rewrite <- app_assoc; reflexivity | right; eexists _, _, _; split; reflexivity].
Qed.

(** What [stop] does to the timers before it waits. *)
Lemma loop_stop_schedule (fade : Q) (p : LoopPlayer.t) (e : Env) :
  LoopPlayer.self (fst (fst (LoopPlayer.stop fade (p, e)))) = LoopPlayer.self p /\
  LoopPlayer.isPlaying (fst (fst (LoopPlayer.stop fade (p, e)))) = false /\
  nextTimer (snd (fst (LoopPlayer.stop fade (p, e)))) = nextTimer e /\
  (LoopPlayer.isPlaying p = false /\
   timers (snd (fst (LoopPlayer.stop fade (p, e)))) = timers e \/
   LoopPlayer.isPlaying p = true /\
   LoopPlayer.nextTimeout (fst (fst (LoopPlayer.stop fade (p, e)))) = None /\
   timers (snd (fst (LoopPlayer.stop fade (p, e))))
   = match LoopPlayer.nextTimeout p with
     | Some o => filter (fun tm => negb (Nat.eqb (timer_id tm) o))
     | None => fun ts => ts
     end (timers e)).
Proof.
  destruct p as [self0 cf bufs urls0 out cs cg ci playing loaded nt].
  destruct e as [ct sr ns es ts ntm rg].
  unfold LoopPlayer.stop, bind, gets, modify, await, ret, on_gain.
  destruct playing; cbn [bind_task negb fst snd LoopPlayer.isPlaying]; loop_fields.
  2:{ split; [reflexivity|]. split; [reflexivity|]. split; [reflexivity|]. left. auto. }
  destruct nt as [o|], cg as [og|], cs as [os|];
    cbn [bind_task fst snd]; loop_fields; env_frames;
    (split; [reflexivity|]); (split; [reflexivity|]); (split; [reflexivity|]);
    right; (split; [reflexivity|]); split; reflexivity.
Qed.

(** X11: A loop player never has two track changes scheduled.  On a page
    whose timers are in order, they are still in order after a track
    change, after [start()] and after the synchronous part of
    [stop(fade)]; so at most one pending timer would change the track, and
    once [stop] has been called none would: no track starts after
    [stop()]. *)
Theorem loop_schedules_one_track_change (p : LoopPlayer.t) (e : Env) :
  schedule_ok p e ->
  at_most_one_change (LoopPlayer.self p) e /\
  (forall isFirst p' e',
     LoopPlayer._playNext isFirst p e = Some (p', e') -> schedule_ok p' e') /\
  (forall p' e', LoopPlayer.start p e = Some (p', e') -> schedule_ok p' e') /\
  (forall fade,
     schedule_ok (fst (fst (LoopPlayer.stop fade (p, e)))) (snd (fst (LoopPlayer.stop fade (p, e)))) /\
     no_change_pending (LoopPlayer.self p) (snd (fst (LoopPlayer.stop fade (p, e))))).
Proof.
  intros Hok.
  assert (Hnext : forall q, schedule_ok q e -> forall isFirst p' e',
            LoopPlayer._playNext isFirst q e = Some (p', e') -> schedule_ok p' e').
  { clear p Hok. intros p (Hdup & Hmax & Hown) isFirst p' e' Hrun.
    destruct (loop_playNext_schedule _ _ _ _ _ Hrun)
      as (Hself & [(Hplay & Hnt & Hts & Hn) | (Hplay & extra & id & due & Hnt & Hn & Hts & Hextra)]).
    - unfold schedule_ok. rewrite Hts, Hn, Hself, Hplay, Hnt. auto.
    - assert (Hown' : forall tm, tm ∈ timers e -> callback tm = LoopNext (LoopPlayer.self p) ->
                LoopPlayer.nextTimeout p = Some (timer_id tm))
        by (intros tm Hin Hcb; exact (proj2 (Hown tm Hin Hcb))).
      destruct (schedule_step _ _ _ _ _ _ due Hdup Hmax Hown' Hextra) as (Hd & Hall).
      unfold schedule_ok. rewrite Hts, Hn, Hself, Hplay, Hnt.
      split; [exact Hd|]. split; [intros tm Hin; exact (proj1 (Hall tm Hin))|].
      intros tm Hin Hcb. split; [reflexivity|]. f_equal. symmetry.
      exact (proj2 (Hall tm Hin) Hcb). }
  split; [|split; [|split]].
  - destruct Hok as (Hdup & _ & Hown). intros i j tm1 tm2 H1 H2 C1 C2.
    destruct (Hown tm1 (list_elem_of_lookup_2 _ _ _ H1) C1) as [_ E1].
    destruct (Hown tm2 (list_elem_of_lookup_2 _ _ _ H2) C2) as [_ E2].
    rewrite E1 in E2. injection E2 as E2.
    apply (NoDup_lookup _ i j (timer_id tm1) Hdup).
    + rewrite list_lookup_fmap, H1. reflexivity.
    + rewrite list_lookup_fmap, H2, E2. reflexivity.
  - exact (Hnext p Hok).
  - intros p' e'. unfold LoopPlayer.start.
    destruct (LoopPlayer.isLoaded p); cbn [negb].
    2:{ intros H. injection H as <- <-. exact Hok. }
    destruct (LoopPlayer.isPlaying p) eqn:Hplay.
    { intros H. injection H as <- <-. exact Hok. }
    apply Hnext. destruct Hok as (Hdup & Hmax & Hown).
    split; [exact Hdup|]. split; [exact Hmax|]. intros tm Hin Hcb.
    destruct (Hown tm Hin Hcb) as [Hp _]. congruence.
  - intros fade. destruct Hok as (Hdup & Hmax & Hown).
    destruct (loop_stop_schedule fade p e)
      as (Hself & Hidle & Hn & [(Hplay & Hts) | (Hplay & Hnt & Hts)]).
    + assert (Hnone : forall tm, tm ∈ timers e -> callback tm <> LoopNext (LoopPlayer.self p)).
      { intros tm Hin Hcb. destruct (Hown tm Hin Hcb) as [Hp _]. congruence. }
      split; [|unfold no_change_pending; rewrite Hts; exact Hnone].
      unfold schedule_ok. rewrite Hts, Hn, Hself.
      split; [exact Hdup|]. split; [exact Hmax|]. intros tm Hin Hcb.
      exfalso. exact (Hnone tm Hin Hcb).
    + assert (Hnone : forall tm,
                tm ∈ match LoopPlayer.nextTimeout p with
                     | Some o => filter (fun tm => negb (Nat.eqb (timer_id tm) o))
                     | None => fun ts => ts
                     end (timers e) ->
                callback tm <> LoopNext (LoopPlayer.self p)).
      { intros tm Hin Hcb. apply cleared_elem in Hin as [Hin Hne].
        apply Hne. exact (proj2 (Hown tm Hin Hcb)). }
      split; [|unfold no_change_pending; rewrite Hts; exact Hnone].
      unfold schedule_ok. rewrite Hts, Hn, Hself.
      split; [eapply sublist_NoDup; [exact Hdup|]; apply fmap_sublist, cleared_sublist|].
      split; [intros tm Hin; apply cleared_elem in Hin as [Hin _]; exact (Hmax tm Hin)|].
      intros tm Hin Hcb. exfalso. exact (Hnone tm Hin Hcb).
Qed.

(** The rain player two seconds into the rain: one change is pending;
    after [stop(3)] has been called, none is. *)
Lemma loop_schedules_one_track_change_witness :
  (exists tm, timers (AudioEngine.env rain_playing) = [tm] /\ callback tm = LoopNext 3) /\
  at_most_one_change 3 (AudioEngine.env rain_playing) /\
  no_change_pending 3
    (snd (fst (LoopPlayer.stop 3 (rain_player, AudioEngine.env rain_playing)))).
Proof.
  assert (Hts : timers (AudioEngine.env rain_playing) = [mkTimer 1 (7000 # 1000) (LoopNext 3)])
    by (vm_compute; reflexivity).
  assert (Hok : schedule_ok rain_player (AudioEngine.env rain_playing)).
  { unfold schedule_ok. rewrite Hts. split; [apply NoDup_singleton|].
    split; intros tm Hin; apply list_elem_of_singleton in Hin; subst tm.
    - vm_compute. lia.
    - intros _. split; vm_compute; reflexivity. }
  destruct (loop_schedules_one_track_change rain_player (AudioEngine.env rain_playing) Hok)
    as (Hone & _ & _ & Hstop).
  split; [eexists; split; [exact Hts | reflexivity]|].
  split; [exact Hone | exact (proj2 (Hstop 3))].
Defined.
End LoopSchedule.
(** ** The engine: [init], [switchScene], scenes that are not there *)

Section CatchFacts.
Context {W : Type}.

(** [try { m } catch]: a body that is fulfilled is not caught. *)
Lemma run_alone_catch_fulfilled {A : Type} (fuel : nat) :
  forall replies (w : W) (tk : Task W A) (h : string -> Async W A) r a,
  run_alone fuel replies w tk = Some r ->
  settled r = Fulfilled a ->
  call_alone fuel replies (catch_task tk h) w = Some r.
Proof.
  unfold call_alone.
  induction fuel as [|fuel IH]; intros replies w tk h r a Hrun Ha; [discriminate|].
  cbn [run_alone] in Hrun.
  destruct tk as [o | wt k | bg rest | msg rest | ]; cbn [catch_task].
  - injection Hrun as <-. cbn in Ha. subst o. reflexivity.
  - cbn [run_alone]. destruct wt.
    + destruct (k RUnit w) as [w' tk']. specialize (IH replies w' tk' h r a Hrun Ha).
      destruct (catch_task tk' h w') as [w1 tk1]. exact IH.
    + destruct replies as [|rp rs]; [discriminate|].
      destruct (k rp w) as [w' tk']. specialize (IH rs w' tk' h r a Hrun Ha).
      destruct (catch_task tk' h w') as [w1 tk1]. exact IH.
    + destruct replies as [|rp rs]; [discriminate|].
      destruct (k rp w) as [w' tk']. specialize (IH rs w' tk' h r a Hrun Ha).
      destruct (catch_task tk' h w') as [w1 tk1]. exact IH.
    + destruct replies as [|rp rs]; [discriminate|].
      destruct (k rp w) as [w' tk']. specialize (IH rs w' tk' h r a Hrun Ha).
      destruct (catch_task tk' h w') as [w1 tk1]. exact IH.
    + destruct replies as [|rp rs]; [discriminate|].
      destruct (k rp w) as [w' tk']. specialize (IH rs w' tk' h r a Hrun Ha).
      destruct (catch_task tk' h w') as [w1 tk1]. exact IH.
  - specialize (IH replies w rest h r a Hrun Ha).
    destruct (catch_task rest h w) as [w1 tk1]. exact IH.
  - destruct (run_alone fuel replies w rest) as [r0|] eqn:E; [|discriminate].
    injection Hrun as <-. cbn in Ha.
    specialize (IH replies w rest h r0 a E Ha).
    destruct (catch_task rest h w) as [w1 tk1]. cbn [run_alone]. rewrite IH. reflexivity.
  - discriminate.
Qed.

(** A body that is rejected: the handler runs on the replies it left. *)
Lemma run_alone_catch_rejected {A : Type} (fuel1 : nat) :
  forall fuel2 replies (w : W) (tk : Task W A) (h : string -> Async W A) r1 e r2,
  run_alone fuel1 replies w tk = Some r1 ->
  settled r1 = Rejected e ->
  call_alone fuel2 (unused r1) (h e) (final r1) = Some r2 ->
  call_alone (fuel1 + fuel2) replies (catch_task tk h) w
  = Some (mkRun (final r2) (settled r2) (printed r1 ++ printed r2) (unused r2)).
Proof.
  unfold call_alone.
  induction fuel1 as [|fuel1 IH];
    intros fuel2 replies w tk h r1 e r2 Hrun He Hnext; [discriminate|].
  cbn [run_alone] in Hrun.
  destruct tk as [o | wt k | bg rest | msg rest | ]; cbn [catch_task].
  - injection Hrun as <-. cbn [final settled unused printed app] in He, Hnext |- *. subst o.
    destruct (h e w) as [w2 tk2].
    replace (S fuel1 + fuel2)%nat with (fuel2 + S fuel1)%nat by lia.
    rewrite (run_alone_more _ _ _ _ _ _ Hnext).
    destruct r2. reflexivity.
  - destruct wt.
    + cbn [Nat.add run_alone].
      destruct (k RUnit w) as [w' tk'].
      specialize (IH fuel2 replies w' tk' h r1 e r2 Hrun He Hnext).
      destruct (catch_task tk' h w') as [w0 tk0]. exact IH.
    + destruct replies as [|r rs]; [discriminate|]. cbn [Nat.add run_alone].
      destruct (k r w) as [w' tk'].
      specialize (IH fuel2 rs w' tk' h r1 e r2 Hrun He Hnext).
      destruct (catch_task tk' h w') as [w0 tk0]. exact IH.
    + destruct replies as [|r rs]; [discriminate|]. cbn [Nat.add run_alone].
      destruct (k r w) as [w' tk'].
      specialize (IH fuel2 rs w' tk' h r1 e r2 Hrun He Hnext).
      destruct (catch_task tk' h w') as [w0 tk0]. exact IH.
    + destruct replies as [|r rs]; [discriminate|]. cbn [Nat.add run_alone].
      destruct (k r w) as [w' tk'].
      specialize (IH fuel2 rs w' tk' h r1 e r2 Hrun He Hnext).
      destruct (catch_task tk' h w') as [w0 tk0]. exact IH.
    + destruct replies as [|r rs]; [discriminate|]. cbn [Nat.add run_alone].
      destruct (k r w) as [w' tk'].
      specialize (IH fuel2 rs w' tk' h r1 e r2 Hrun He Hnext).
      destruct (catch_task tk' h w') as [w0 tk0]. exact IH.
  - specialize (IH fuel2 replies w rest h r1 e r2 Hrun He Hnext).
    destruct (catch_task rest h w) as [w0 tk0]. cbn [Nat.add run_alone]. exact IH.
  - destruct (run_alone fuel1 replies w rest) as [r0|] eqn:E; [|discriminate].
    injection Hrun as <-. cbn in He, Hnext.
    specialize (IH fuel2 replies w rest h r0 e r2 E He Hnext).
    destruct (catch_task rest h w) as [w0 tk0]. cbn [Nat.add run_alone].
    rewrite IH. reflexivity.
  - discriminate.
Qed.

Lemma runs_try_catch_fulfilled {A : Type} (m : Async W A) (h : string -> Async W A)
    (w w1 : W) a out replies rest :
  runs_to replies m w (mkRun w1 (Fulfilled a) out rest) ->
  runs_to replies (try_catch m h) w (mkRun w1 (Fulfilled a) out rest).
Proof.
  intros [fuel H]. exists fuel. unfold call_alone, try_catch in *.
  destruct (m w) as [w0 tk].
  exact (run_alone_catch_fulfilled fuel replies w0 tk h _ a H eq_refl).
Qed.

Lemma runs_try_catch_rejected {A : Type} (m : Async W A) (h : string -> Async W A)
    (w w1 w2 : W) e o out1 out2 replies replies1 replies2 :
  runs_to replies m w (mkRun w1 (Rejected e) out1 replies1) ->
  runs_to replies1 (h e) w1 (mkRun w2 o out2 replies2) ->
  runs_to replies (try_catch m h) w (mkRun w2 o (out1 ++ out2) replies2).
Proof.
  intros [fuel1 H1] [fuel2 H2]. exists (fuel1 + fuel2)%nat.
  unfold call_alone, try_catch in *. destruct (m w) as [w0 tk].
  exact (run_alone_catch_rejected fuel1 fuel2 replies w0 tk h _ e _ H1 eq_refl H2).
Qed.

(** A rejection passes through what would have followed. *)
Lemma runs_throw {A : Type} (e : string) (w : W) replies :
  runs_to replies (throw (A:=A) e) w (mkRun w (Rejected e) [] replies).
Proof. apply runs_sync. reflexivity. Qed.
End CatchFacts.

Section EngineInit.
Import AudioEngine.
Local Open Scope Q_scope.

(** X12: [init()] by cases.  On an initialised engine it does nothing.  When
    the browser refuses to create an audio context it logs the failure and
    rejects, and the engine is as before.  When the context starts
    suspended and [resume()] is rejected, it logs and rejects as well, but
    the engine keeps the context it has created, without being
    initialised.  Otherwise it creates the master gain at the default
    volume and the analyser, connects master gain, analyser and
    destination in a row, marks the engine initialised and starts the
    preload of the scenes without waiting for it. *)
Theorem init_by_cases (w : World) (replies : list Reply) :
  (isInitialized (this w) = true ->
   runs_to replies init w (mkRun w (Fulfilled tt) [] replies)) /\
  (isInitialized (this w) = false -> allows_context (policy w) = false ->
   runs_to replies init w
     (mkRun w (Rejected "NotAllowedError") ["[AudioEngine] Failed to initialize"] replies)) /\
  (isInitialized (this w) = false -> allows_context (policy w) = true ->
   starts_suspended (policy w) = true ->
   forall err,
   exists wc,
     runs_to (RError err :: replies) init w
       (mkRun wc (Rejected err) ["[AudioEngine] Failed to initialize"] replies) /\
     isInitialized (this wc) = false /\
     audioContext (this wc) = Some (length (nodes (env w))) /\
     masterGain (this wc) = masterGain (this w) /\
     nodes (env wc) = nodes (env w) ++ [DestinationNode]) /\
  (isInitialized (this w) = false -> allows_context (policy w) = true ->
   forall rest,
   (if starts_suspended (policy w)
    then exists r, replies = r :: rest /\ forall err, r <> RError err
    else rest = replies) ->
   exists w1,
     isInitialized (this w1) = true /\
     audioContext (this w1) = Some (length (nodes (env w))) /\
     masterGain (this w1) = Some (S (length (nodes (env w)))) /\
     analyzer (this w1) = Some (S (S (length (nodes (env w))))) /\
     nodes (env w1) = nodes (env w) ++
       [DestinationNode;
        GainNode (AudioParam.set_value (opt_defaultVolume (this w)) (currentTime (env w))
                    (AudioParam.create 1));
        AnalyserNode 2048 0.85] /\
     edges (env w1) = edges (env w) ++
       [(S (length (nodes (env w))), S (S (length (nodes (env w)))));
        (S (S (length (nodes (env w)))), length (nodes (env w)))] /\
     playback (this w1) = playback (this w) /\ players (this w1) = players (this w) /\
     heap w1 = heap w /\
     forall wp outp rest',
       runs_to rest (call_detached _preloadScenes) w1 (mkRun wp (Fulfilled tt) outp rest') ->
       runs_to replies init w
         (mkRun wp (Fulfilled tt) ("[AudioEngine] Initialized" :: outp) rest')).
Proof.
  split; [|split; [|split]].
  - intros Hinit. unfold init. eapply runs_as.
    + eapply runs_bind; [apply runs_get|]. cbn beta. rewrite Hinit. apply runs_ret.
    + reflexivity.
  - intros Hinit Hpol. unfold init. eapply runs_as.
    + eapply runs_bind; [apply runs_get|]. cbn beta. rewrite Hinit, Hpol. cbn [negb].
      eapply runs_try_catch_rejected; [apply runs_throw|].
      eapply runs_bind; [apply runs_console | apply runs_throw].
    + reflexivity.
  - intros Hinit Hpol Hsusp err.
    destruct w as [e hp g pol]. destruct e as [ct sr ns es ts ntm rg].
    cbn [this policy env nodes] in *.
    eexists. split.
    + unfold init. eapply runs_as.
      * eapply runs_bind; [apply runs_get|]. cbn beta. cbn [this policy]. rewrite Hinit, Hpol, Hsusp.
        cbn [negb].
        eapply runs_try_catch_rejected.
        { eapply runs_bind; [apply runs_sync; reflexivity|].
          eapply runs_bind; [apply runs_modify|].
          eapply runs_bind_rejected;
            [eapply runs_bind; [apply runs_await; discriminate | apply runs_throw]
            | reflexivity]. }
        eapply runs_bind; [apply runs_console | apply runs_throw].
      * reflexivity.
    + cbn. rewrite Hinit. repeat split; reflexivity.
  - intros Hinit Hpol rest Hreplies.
    destruct w as [e hp g pol]. destruct e as [ct sr ns es ts ntm rg].
    cbn [this policy env nodes edges currentTime heap] in *.
    eexists. split; [|split; [|split; [|split; [|split; [|split; [|split; [|split; [|split]]]]]]]].
    10:{ intros wp outp rest' Hpre. unfold init. eapply runs_as.
      - eapply runs_bind; [apply runs_get|]. cbn beta. cbn [this policy]. rewrite Hinit, Hpol.
        cbn [negb].
        apply runs_try_catch_fulfilled.
        eapply runs_bind; [apply runs_sync; reflexivity|].
        eapply runs_bind; [apply runs_modify|].
        eapply runs_bind.
        { destruct (starts_suspended pol).
          - destruct Hreplies as (r & -> & Hr).
            eapply runs_bind; [apply runs_await; discriminate|].
            destruct r; try apply runs_ret. exfalso. exact (Hr e eq_refl).
          - subst rest. apply runs_ret. }
        eapply runs_bind; [apply runs_modify|].
        eapply runs_bind; [apply runs_console|]. exact Hpre.
      - reflexivity. }
    all: unfold on_this, with_this, with_env, createGain, on_gain;
      cbn [this env policy heap fst snd]; env_eval; cbn;
      rewrite ?Nat.add_1_r;
      replace (length ns + 2)%nat with (S (S (length ns))) by lia; reflexivity.
Qed.

(** A browser that refuses the context; one whose context does not
    resume; and the page: master gain 1 at volume 0.7 behind the
    destination 0, analyser 2. *)
Lemma init_by_cases_witness :
  runs_to [] init refused_world
    (mkRun refused_world (Rejected "NotAllowedError")
           ["[AudioEngine] Failed to initialize"] []) /\
  (exists wc,
     runs_to [RError "InvalidStateError"] init suspended_world
       (mkRun wc (Rejected "InvalidStateError") ["[AudioEngine] Failed to initialize"] []) /\
     isInitialized (this wc) = false /\ audioContext (this wc) = Some 0%nat) /\
  (exists w1,
     isInitialized (this w1) = true /\ masterGain (this w1) = Some 1%nat /\
     edges (env w1) = [(1%nat, 2%nat); (2%nat, 0%nat)]).
Proof.
  split; [|split].
  - destruct (init_by_cases refused_world []) as (_ & Hrefused & _).
    apply Hrefused; reflexivity.
  - destruct (init_by_cases suspended_world []) as (_ & _ & Hsuspended & _).
    destruct (Hsuspended eq_refl eq_refl eq_refl "InvalidStateError")
      as (wc & Hrun & Hinit & Hctx & _).
    exists wc. split; [exact Hrun|]. split; [exact Hinit | exact Hctx].
  - destruct (init_by_cases fresh_world []) as (_ & _ & _ & Hready).
    destruct (Hready eq_refl eq_refl [] eq_refl)
      as (w1 & Hinit & _ & Hmg & _ & _ & Hedges & _).
    exists w1. split; [exact Hinit|]. split; [exact Hmg | exact Hedges].
Defined.
End EngineInit.

Section EngineSwitch.
Import AudioEngine.
Local Open Scope Q_scope.

(** X13: [switchScene(scene, fadeTime)] by cases.  On an engine that is not
    initialised it only logs a warning.  When [scene] is the current scene
    it does nothing, whether the engine is playing or not.  Otherwise,
    when the scene does not report loaded, it awaits [_loadScene(scene)]
    (without the log line of [play]); when the scene still does not report
    loaded it logs that and returns.  When the scene reports loaded it
    starts the player of the scene first, makes it the current one, and
    only then calls [stop(fadeTime)] on the previous player, without
    awaiting it: the two players sound together while the old one fades. *)
Theorem switchScene_by_cases (w : World) (scene : string) (fade : Q) (replies : list Reply) :
  (isInitialized (this w) = false ->
   runs_to replies (switchScene scene fade) w
           (mkRun w (Fulfilled tt) ["[AudioEngine] Not initialized"] replies)) /\
  (isInitialized (this w) = true -> currentScene (this w) = Some scene ->
   runs_to replies (switchScene scene fade) w (mkRun w (Fulfilled tt) [] replies)) /\
  (isInitialized (this w) = true -> currentScene (this w) <> Some scene ->
   forall wl outl rest,
     (if isSceneLoaded scene w then wl = w /\ outl = [] /\ rest = replies
      else runs_to replies (_loadScene scene) w (mkRun wl (Fulfilled tt) outl rest)) ->
     playback (this wl) = playback (this w) /\
     (isSceneLoaded scene wl = false ->
      runs_to replies (switchScene scene fade) w
        (mkRun wl (Fulfilled tt)
               (outl ++ [("[AudioEngine] Scene not available: " ++ scene)%string]) rest)) /\
     (isSceneLoaded scene wl = true ->
      exists player,
        players (this wl) !! scene = Some player /\
        forall w2 ws outs,
          player_start player wl = Some w2 ->
          match currentPlayer (this wl) with
          | Some old =>
              runs_to rest (call_detached (player_stop old fade))
                      (on_this (set_playback (Some player) (Some scene) true) w2)
                      (mkRun ws (Fulfilled tt) outs rest)
          | None => ws = on_this (set_playback (Some player) (Some scene) true) w2 /\ outs = []
          end ->
          runs_to replies (switchScene scene fade) w
            (mkRun ws (Fulfilled tt)
                   (outl ++ outs ++ [("[AudioEngine] Switched to: " ++ scene)%string]) rest) /\
          playback (this ws) = (Some player, Some scene, true))).
Proof.
  split; [|split].
  - intros Hinit. unfold switchScene. eapply runs_as.
    + eapply runs_bind; [apply runs_get|]. cbn beta. rewrite Hinit. apply runs_console.
    + reflexivity.
  - intros Hinit Hscene. unfold switchScene. eapply runs_as.
    + eapply runs_bind; [apply runs_get|]. cbn beta. rewrite Hinit, Hscene.
      rewrite bool_decide_eq_true_2 by reflexivity. apply runs_ret.
    + reflexivity.
  - intros Hinit Hother wl outl rest Hload.
    assert (Hguard : bool_decide (currentScene (this w) = Some scene) = false)
      by (apply bool_decide_eq_false_2; exact Hother).
    assert (Hsame : playback (this wl) = playback (this w)).
    { destruct (isSceneLoaded scene w).
      - destruct Hload as (-> & _ & _). reflexivity.
      - exact (runs_keeps _ _ _ _ _ (loadScene_keeps_playback scene (playback (this w)))
                          eq_refl Hload). }
    split; [exact Hsame|]. split.
    + intros Hnot. unfold switchScene.
      destruct (isSceneLoaded scene w) eqn:Hl.
      { destruct Hload as (-> & _ & _). congruence. }
      eapply runs_as.
      * eapply runs_bind; [apply runs_get|]. cbn beta. rewrite Hinit, Hguard, Hl. cbn [negb].
        eapply runs_bind.
        { eapply runs_bind; [apply runs_await_call; exact Hload|].
          eapply runs_bind; [apply runs_get|]. cbn beta. rewrite Hnot. cbn [negb].
          eapply runs_bind; [apply runs_console | apply runs_ret]. }
        cbn [negb]. apply runs_ret.
      * cbn [app]. rewrite !app_nil_r. reflexivity.
    + intros Hyes. destruct (isSceneLoaded_player scene wl Hyes) as (player & pl & Hpl & _).
      exists player. split; [exact Hpl|]. intros w2 ws outs Hstart Hstop.
      assert (Hthis : this ws = set_playback (Some player) (Some scene) true (this w2)).
      { destruct (currentPlayer (this wl)) as [old|].
        - exact (runs_keeps _ _ _ _ _
                   (keeps_call_detached _ _
                      (fun w0 Hw0 => proj1 (player_stop_keeps_engine old fade _ w0 Hw0)))
                   eq_refl Hstop).
        - destruct Hstop as (-> & _). reflexivity. }
      split; [|rewrite Hthis; reflexivity].
      assert (Hensure : runs_to replies
        (if negb (isSceneLoaded scene w) then
           exec await_call (_loadScene scene);
           do w <- get;
           if negb (isSceneLoaded scene w) then
             exec console ("[AudioEngine] Scene not available: " ++ scene);
             ret false
           else ret true
         else ret true) w (mkRun wl (Fulfilled true) outl rest)).
      { destruct (isSceneLoaded scene w) eqn:Hl.
        - destruct Hload as (-> & -> & ->). cbn [negb]. apply runs_ret.
        - cbn [negb]. eapply runs_as.
          + eapply runs_bind; [apply runs_await_call; exact Hload|].
            eapply runs_bind; [apply runs_get|]. cbn beta. rewrite Hyes. cbn [negb].
            apply runs_ret.
          + cbn [app]. rewrite !app_nil_r. reflexivity. }
      assert (Hprev : runs_to rest
        match currentPlayer (this wl) with
        | Some old => call_detached (player_stop old fade)
        | None => ret tt
        end (on_this (set_playback (Some player) (Some scene) true) w2)
        (mkRun ws (Fulfilled tt) outs rest)).
      { destruct (currentPlayer (this wl)) as [old|].
        - exact Hstop.
        - destruct Hstop as (-> & ->). apply runs_ret. }
      unfold switchScene. eapply runs_as.
      * eapply runs_bind; [apply runs_get|]. cbn beta. rewrite Hinit, Hguard. cbn [negb].
        eapply runs_bind; [exact Hensure|]. cbn [negb].
        eapply runs_bind; [apply runs_get|]. cbn beta. cbv zeta. rewrite Hpl.
        eapply runs_bind; [apply runs_attempt; exact Hstart|].
        eapply runs_bind; [apply runs_modify|].
        eapply runs_bind; [exact Hprev | apply runs_console].
      * cbn [app]. reflexivity.
Qed.
End EngineSwitch.

(** Rain is playing and the cafe scene is loaded: [switchScene("cafe", 3)]
    starts the cafe player, makes it the current one and lets the rain
    player fade for three seconds. *)
Lemma switchScene_by_cases_witness :
  exists wf p,
    runs_to [] (AudioEngine.switchScene "cafe" 3) rain_playing
            (mkRun wf (Fulfilled tt) ["[AudioEngine] Switched to: cafe"] []) /\
    playback (AudioEngine.this wf) = (Some 4%nat, Some "cafe", true) /\
    AudioEngine.heap wf !! 3%nat = Some (PLoop p) /\
    LoopPlayer.isPlaying p = false /\ LoopPlayer.currentSource p = Some 20%nat.
Proof.
  assert (Hinit : AudioEngine.isInitialized (AudioEngine.this rain_playing) = true)
    by (vm_compute; reflexivity).
  assert (Hscene : AudioEngine.currentScene (AudioEngine.this rain_playing) <> Some "cafe")
    by (vm_compute; discriminate).
  assert (Hloaded : AudioEngine.isSceneLoaded "cafe" rain_playing = true)
    by (vm_compute; reflexivity).
  assert (Hcur : AudioEngine.currentPlayer (AudioEngine.this rain_playing) = Some 3%nat)
    by (vm_compute; reflexivity).
  assert (Hcafe : AudioEngine.players (AudioEngine.this rain_playing) !! "cafe" = Some 4%nat)
    by (vm_compute; reflexivity).
  destruct (switchScene_by_cases rain_playing "cafe" 3 []) as (_ & _ & Hswitch).
  specialize (Hswitch Hinit Hscene rain_playing [] []).
  rewrite Hloaded in Hswitch.
  destruct (Hswitch (conj eq_refl (conj eq_refl eq_refl))) as (_ & _ & Hcommit).
  destruct (Hcommit Hloaded) as (player & Hplayer & Hrun).
  rewrite Hcafe in Hplayer. injection Hplayer as <-.
  rewrite Hcur in Hrun.
  set (w2 := default rain_playing (AudioEngine.player_start 4 rain_playing)).
  set (ws := after [] (call_detached (AudioEngine.player_stop 3 3))
                   (AudioEngine.on_this
                      (AudioEngine.set_playback (Some 4%nat) (Some "cafe") true) w2)).
  destruct (Hrun w2 ws []) as (Hfinal & Hstate).
  - vm_compute. reflexivity.
  - exists 5%nat. vm_compute. reflexivity.
  - eexists ws, _. split; [exact Hfinal|]. split; [exact Hstate|].
    split; [vm_compute; reflexivity|]. split; vm_compute; reflexivity.
Defined.


Section UnknownScene.
Import AudioEngine.
Local Open Scope Q_scope.

End UnknownScene.


Section AddScene.
Import AudioEngine AudioEngineScenes.
Local Open Scope Q_scope.

Lemma scene_config_set_scene scenes scene config :
  scene_config (set_scene scenes scene config) scene = Some config.
Proof.
  induction scenes as [|[k c] rest IH]; cbn.
  - rewrite String.eqb_refl. reflexivity.
  - destruct (String.eqb k scene) eqn:E; cbn; rewrite E; [reflexivity | exact IH].
Qed.

Lemma scene_config_set_other scenes scene config other :
  other <> scene ->
  scene_config (set_scene scenes scene config) other = scene_config scenes other.
Proof.
  intros Hne. induction scenes as [|[k c] rest IH]; cbn.
  - destruct (String.eqb scene other) eqn:E; [|reflexivity].
    apply String.eqb_eq in E. congruence.
  - destruct (String.eqb k scene) eqn:E; cbn.
    + apply String.eqb_eq in E. subst k.
      destruct (String.eqb scene other) eqn:E'; [|reflexivity].
      apply String.eqb_eq in E'. congruence.
    + rewrite IH. reflexivity.
Qed.

(** Loading a scene does not touch the table of scenes. *)
Lemma loadScene_keeps_scenes (scene : string) c :
  keeps (fun w => opt_scenes (this w) = c) (_loadScene scene).
Proof.
  assert (Halloc : forall make,
    keeps (fun w => opt_scenes (this w) = c)
          (fun w => let '(r, w) := alloc make w in ret r w)).
  { intros make w Hw. unfold alloc. destruct (make _ _) as [pl e]. cbn.
    split; [exact Hw | constructor]. }
  assert (Hreg : forall r, keeps (fun w => opt_scenes (this w) = c) (register_player scene r)).
  { intros r. unfold register_player. apply keeps_bind; [apply keeps_get|]. intros w.
    destruct (masterGain (this w)), (heap w !! r); try apply keeps_console.
    apply keeps_bind; [|intros; apply keeps_console].
    apply keeps_modify. intros w' Hw'. exact Hw'. }
  unfold _loadScene. apply keeps_bind; [apply keeps_get|]. intros w.
  destruct (players (this w) !! scene); [apply keeps_ret|].
  destruct (scene_config _ _) as [config|]; [|apply keeps_console].
  apply keeps_bind; [apply keeps_modify; intros w' Hw'; exact Hw'|]. intros _.
  apply keeps_bind.
  - destruct (bool_decide _); [|destruct (bool_decide _)].
    + apply keeps_bind; [apply Halloc|]. intros r.
      apply keeps_bind; [apply keeps_await_call, keeps_zoom; intros [p e] w' Hw'; exact Hw'|].
      intros _. apply keeps_bind; [apply Hreg | intros; apply keeps_ret].
    + apply keeps_bind; [apply Halloc|]. intros r.
      apply keeps_bind; [apply keeps_await_call, keeps_zoom; intros [p e] w' Hw'; exact Hw'|].
      intros _. apply keeps_bind; [apply Hreg | intros; apply keeps_ret].
    + destruct (files config) as [[|u urls]|].
      * apply keeps_bind; [apply keeps_console | intros; apply keeps_ret].
      * apply keeps_bind; [apply Halloc|]. intros r.
        apply keeps_bind; [apply keeps_await_call, keeps_zoom; intros [p e] w' Hw'; exact Hw'|].
        intros _. apply keeps_bind; [apply Hreg | intros; apply keeps_ret].
      * apply keeps_bind; [apply keeps_console | intros; apply keeps_ret].
  - intros [|]; [apply keeps_modify; intros w' Hw'; exact Hw' | apply keeps_ret].
Qed.

(** X15: [addScene(scene, config)].  The configuration is what the table
    then gives for [scene], and the other scenes keep theirs.  But on an
    engine that is not initialised, and on one that has a player for
    [scene] already, that is all: nothing is loaded, and a scene that was
    loaded keeps the player built from its old configuration. *)
Theorem addScene_keeps_loaded_player (w : World) (scene : string) (config : SceneConfig) :
  scene_config (opt_scenes (this (fst (addScene scene config w)))) scene = Some config /\
  (forall other, other <> scene ->
     scene_config (opt_scenes (this (fst (addScene scene config w)))) other
     = scene_config (opt_scenes (this w)) other) /\
  (isInitialized (this w) = false \/ is_Some (players (this w) !! scene) ->
   snd (addScene scene config w) = Done (Fulfilled tt) /\
   env (fst (addScene scene config w)) = env w /\
   heap (fst (addScene scene config w)) = heap w /\
   players (this (fst (addScene scene config w))) = players (this w) /\
   playback (this (fst (addScene scene config w))) = playback (this w) /\
   isSceneLoaded scene (fst (addScene scene config w)) = isSceneLoaded scene w).
Proof.
  assert (Hkeeps : forall v,
            opt_scenes (this (fst (call_detached (_loadScene scene) v))) = opt_scenes (this v)).
  { intros v.
    exact (proj1 (keeps_call_detached _ _
                    (fun v0 Hv0 => proj1 (loadScene_keeps_scenes scene _ v0 Hv0)) v eq_refl)). }
  unfold addScene, bind, modify, get. cbn [bind_task fst snd].
  set (w1 := on_this (fun g => set_opt_scenes (set_scene (opt_scenes g) scene config) g) w).
  assert (H1 : scene_config (opt_scenes (this w1)) scene = Some config /\
               forall other, other <> scene ->
                 scene_config (opt_scenes (this w1)) other
                 = scene_config (opt_scenes (this w)) other).
  { split; [apply scene_config_set_scene|]. intros other Hne.
    apply scene_config_set_other. exact Hne. }
  assert (Hinit1 : isInitialized (this w1) = isInitialized (this w)) by reflexivity.
  split; [|split].
  - rewrite Hinit1. destruct (isInitialized (this w)); [|exact (proj1 H1)].
    rewrite Hkeeps. exact (proj1 H1).
  - rewrite Hinit1. destruct (isInitialized (this w)); [|exact (proj2 H1)].
    rewrite Hkeeps. exact (proj2 H1).
  - intros Hcase. rewrite Hinit1.
    destruct (isInitialized (this w)) eqn:Hinit.
    + destruct Hcase as [Hcase | [r Hr]]; [discriminate|].
      unfold call_detached, _loadScene, bind, get. cbn [bind_task fst snd].
      change (players (this w1)) with (players (this w)). rewrite Hr.
      cbn. repeat split; reflexivity.
    + cbn. repeat split; reflexivity.
Qed.
End AddScene.

(** While the rain plays, the rain scene is given a new file: the table
    has it, and the rain player is the one from the old files. *)
Lemma addScene_keeps_loaded_player_witness :
  scene_config
    (AudioEngine.opt_scenes
       (AudioEngine.this
          (fst (AudioEngineScenes.addScene "rain" (loop_config ["loops/storm.mp3"] 1%Q)
                  rain_playing)))) "rain"
  = Some (loop_config ["loops/storm.mp3"] 1%Q) /\
  AudioEngine.heap
    (fst (AudioEngineScenes.addScene "rain" (loop_config ["loops/storm.mp3"] 1%Q) rain_playing))
  = AudioEngine.heap rain_playing /\
  LoopPlayer.buffers rain_player = [some_buffer; some_buffer; some_buffer].
Proof.
  destruct (addScene_keeps_loaded_player rain_playing "rain"
              (loop_config ["loops/storm.mp3"] 1%Q)) as (Hconf & _ & Hkeep).
  destruct Hkeep as (_ & _ & Hheap & _).
  - right. exists 3%nat. vm_compute. reflexivity.
  - split; [exact Hconf|]. split; [exact Hheap|]. vm_compute. reflexivity.
Defined.

(** ** The hook: [ensureInit] and [togglePlay] *)

Section HookInit.
Import UseStay.
Local Open Scope Q_scope.

Lemma the_engine_lawful : lawful the_engine.
Proof.
  split; [|split].
  - intros v w _. reflexivity.
  - intros v v' w. reflexivity.
  - intros v w H. cbn in H. injection H as <-. destruct w; reflexivity.
Qed.

(** X16: [ensureInit()] never rejects.  Without an engine it answers
    [false]; with an initialised engine [true]; otherwise it awaits
    [engine.init()] and answers [true] when that is fulfilled, and logs
    and answers [false] when it is rejected. *)
Theorem ensureInit_never_rejects (s : State) (replies : list Reply) :
  (engineRef s = false ->
   runs_to replies ensureInit s (mkRun s (Fulfilled false) [] replies)) /\
  (engineRef s = true -> AudioEngine.isInitialized (AudioEngine.this (engine s)) = true ->
   runs_to replies ensureInit s (mkRun s (Fulfilled true) [] replies)) /\
  (engineRef s = true -> AudioEngine.isInitialized (AudioEngine.this (engine s)) = false ->
   forall w' o out rest,
     runs_to replies AudioEngine.init (engine s) (mkRun w' o out rest) ->
     runs_to replies ensureInit s
       (mkRun (set_engine w' s)
              (Fulfilled match o with Fulfilled _ => true | Rejected _ => false end)
              (out ++ match o with
                      | Fulfilled _ => []
                      | Rejected _ => ["[useStay] AudioEngine init failed"]
                      end) rest)).
Proof.
  split; [|split].
  - intros Href. unfold ensureInit. eapply runs_as.
    + eapply runs_bind; [apply runs_get|]. cbn beta. rewrite Href. apply runs_ret.
    + reflexivity.
  - intros Href Hinit. unfold ensureInit. eapply runs_as.
    + eapply runs_bind; [apply runs_get|]. cbn beta. rewrite Href, Hinit. apply runs_ret.
    + reflexivity.
  - intros Href Hinit w' o out rest Hrun.
    assert (Hzoom : runs_to replies (await_call (zoom the_engine AudioEngine.init)) s
                      (mkRun (set_engine w' s) o out rest)).
    { apply runs_await_call.
      exact (runs_zoom the_engine AudioEngine.init s (engine s) w' o out replies rest
               the_engine_lawful eq_refl Hrun). }
    unfold ensureInit. destruct o as [[]|err].
    + eapply runs_as.
      * eapply runs_bind; [apply runs_get|]. cbn beta. rewrite Href, Hinit. cbn [negb].
        apply runs_try_catch_fulfilled.
        eapply runs_bind; [exact Hzoom | apply runs_ret].
      * cbn [app]. rewrite !app_nil_r. reflexivity.
    + eapply runs_as.
      * eapply runs_bind; [apply runs_get|]. cbn beta. rewrite Href, Hinit. cbn [negb].
        eapply runs_try_catch_rejected.
        { eapply runs_as; [eapply runs_bind_rejected; [exact Hzoom | reflexivity]|].
          reflexivity. }
        eapply runs_bind; [apply runs_console | apply runs_ret].
      * cbn [app]. rewrite ?app_nil_r. reflexivity.
Qed.

(** A page whose browser refuses the audio context: the first gesture
    leaves a log line and the answer [false]. *)
Lemma ensureInit_never_rejects_witness :
  runs_to [] ensureInit (mount (quiet_env []) (AudioEngine.mkPolicy false false))
    (mkRun (mount (quiet_env []) (AudioEngine.mkPolicy false false)) (Fulfilled false)
           ["[AudioEngine] Failed to initialize"; "[useStay] AudioEngine init failed"] []).
Proof.
  destruct (ensureInit_never_rejects (mount (quiet_env []) (AudioEngine.mkPolicy false false)) [])
    as (_ & _ & Hinit).
  exact (Hinit eq_refl eq_refl _ (Rejected "NotAllowedError")
           ["[AudioEngine] Failed to initialize"] []
           (ex_intro _ 5%nat eq_refl)).
Defined.
End HookInit.

Section HookToggle.
Import UseStay.
Local Open Scope Q_scope.

(** [ensureInit()] on a hook whose engine is initialised. *)
Lemma ensureInit_ready (s : State) (replies : list Reply) :
  engineRef s = true -> AudioEngine.isInitialized (AudioEngine.this (engine s)) = true ->
  runs_to replies (await_call ensureInit) s (mkRun s (Fulfilled true) [] replies).
Proof.
  intros Href Hinit. apply runs_await_call. unfold ensureInit. eapply runs_as.
  - eapply runs_bind; [apply runs_get|]. cbn beta. rewrite Href, Hinit. apply runs_ret.
  - reflexivity.
Qed.

(** X17: [togglePlay()], as created by a render that saw [c].  Without an
    engine it does nothing.  When the render saw the engine playing, it
    awaits [engine.stop(3)] and then sets [isPlaying] to false and the
    playback state to idle; it neither looks at the scene lock nor takes
    it.  When the render saw the engine paused, it is [switchScene] to
    the scene the render saw. *)
Theorem togglePlay_by_cases (s : State) (c : Closure) (replies : list Reply) :
  (engineRef s = false ->
   runs_to replies (togglePlay c) s (mkRun s (Fulfilled tt) [] replies)) /\
  (engineRef s = true -> AudioEngine.isInitialized (AudioEngine.this (engine s)) = true ->
   seen_playing c = true ->
   forall w' out rest,
     runs_to replies (AudioEngine.stop FADE_DURATION) (engine s)
             (mkRun w' (Fulfilled tt) out rest) ->
     runs_to replies (togglePlay c) s
       (mkRun (setPlaybackState idle (setIsPlaying false (set_engine w' s)))
              (Fulfilled tt) out rest) /\
     isSwitchingRef (setPlaybackState idle (setIsPlaying false (set_engine w' s)))
     = isSwitchingRef s) /\
  (engineRef s = true -> AudioEngine.isInitialized (AudioEngine.this (engine s)) = true ->
   seen_playing c = false ->
   forall s' o out rest,
     runs_to replies (switchScene c (seen_scene c)) s (mkRun s' o out rest) ->
     runs_to replies (togglePlay c) s (mkRun s' o out rest)).
Proof.
  split; [|split].
  - intros Href. unfold togglePlay. eapply runs_as.
    + eapply runs_bind.
      { apply runs_await_call. unfold ensureInit.
        eapply runs_bind; [apply runs_get|]. cbn beta. rewrite Href. apply runs_ret. }
      cbn [negb]. apply runs_ret.
    + reflexivity.
  - intros Href Hinit Hplaying w' out rest Hstop. split; [|reflexivity].
    unfold togglePlay. eapply runs_as.
    + eapply runs_bind; [apply ensureInit_ready; assumption|]. cbn [negb].
      eapply runs_bind; [apply runs_get|]. cbn beta. rewrite Href, Hplaying. cbn [negb].
      eapply runs_bind.
      { apply runs_await_call.
        exact (runs_zoom the_engine _ s (engine s) w' _ out replies rest
                 the_engine_lawful eq_refl Hstop). }
      apply runs_modify.
    + cbn [app]. rewrite app_nil_r. reflexivity.
  - intros Href Hinit Hpaused s' o out rest Hswitch.
    unfold togglePlay. destruct o as [[]|err].
    + eapply runs_as.
      * eapply runs_bind; [apply ensureInit_ready; assumption|]. cbn [negb].
        eapply runs_bind; [apply runs_get|]. cbn beta. rewrite Href, Hpaused. cbn [negb].
        apply runs_await_call. exact Hswitch.
      * reflexivity.
    + eapply runs_as.
      * eapply runs_bind; [apply ensureInit_ready; assumption|]. cbn [negb].
        eapply runs_bind; [apply runs_get|]. cbn beta. rewrite Href, Hpaused. cbn [negb].
        apply runs_await_call. exact Hswitch.
      * reflexivity.
Qed.
End HookToggle.

(** The page while the rain plays: the space bar fades the rain for three
    seconds and then shows the hook as paused. *)
Lemma togglePlay_by_cases_witness :
  exists s',
    runs_to [RUnit] (UseStay.togglePlay (UseStay.latest hook_playing)) hook_playing
            (mkRun s' (Fulfilled tt) ["[AudioEngine] Stopped"] []) /\
    UseStay.isPlaying s' = false /\ UseStay.playbackState s' = UseStay.idle /\
    playback (AudioEngine.this (UseStay.engine s')) = (None, None, false).
Proof.
  destruct (togglePlay_by_cases hook_playing (UseStay.latest hook_playing) [RUnit])
    as (_ & Hpause & _).
  set (w' := after [RUnit] (AudioEngine.stop UseStay.FADE_DURATION) rain_playing).
  destruct (Hpause eq_refl ltac:(vm_compute; reflexivity) eq_refl w'
              ["[AudioEngine] Stopped"] []) as (Hrun & _).
  - exists 10%nat. vm_compute. reflexivity.
  - eexists. split; [exact Hrun|]. split; [reflexivity|]. split; [reflexivity|].
    vm_compute. reflexivity.
Defined.
(** ** The hook: the volume *)

Section HookVolume.
Import UseStayVolume.
Local Open Scope Q_scope.

Lemma clamp_unit_fixed v : 0 <= v -> v <= 1 -> clamp 0 1 v == v.
Proof.
  intros H0 H1. unfold clamp.
  rewrite (Q.min_r 1 v) by exact H1. apply Q.max_r. exact H0.
Qed.

Lemma update_node_time r f e : currentTime (update_node r f e) = currentTime e.
Proof. unfold update_node. destruct (nodes e !! r); destruct e; reflexivity. Qed.

Lemma call_volume c st : 0 <= volume (call c st) /\ volume (call c st) <= 1.
Proof. destruct c; cbn; apply clamp_unit. Qed.

Lemma run_snoc calls c st : run (calls ++ [c]) st = call c (run calls st).
Proof. unfold run. rewrite foldl_app. reflexivity. Qed.

Lemma engine_setVolume_before_init v s :
  AudioEngine.masterGain (AudioEngine.this (UseStay.engine s)) = None ->
  engine_setVolume v s = s.
Proof.
  intros H. unfold engine_setVolume, AudioEngine.setVolume. rewrite H.
  destruct (UseStay.engineRef s); [|reflexivity]. destruct s; reflexivity.
Qed.

Lemma call_hook c st :
  hook (call c st) = engine_setVolume (volume (call c st)) (hook st).
Proof. destruct c; reflexivity. Qed.

(** What [engine_setVolume] does to an initialised engine. *)
Lemma engine_setVolume_param v s mg ctx gp :
  UseStay.engineRef s = true ->
  AudioEngine.masterGain (AudioEngine.this (UseStay.engine s)) = Some mg ->
  AudioEngine.audioContext (AudioEngine.this (UseStay.engine s)) = Some ctx ->
  gain_param mg (AudioEngine.env (UseStay.engine s)) = Some gp ->
  let s' := engine_setVolume v s in
  UseStay.engineRef s' = true /\
  AudioEngine.this (UseStay.engine s') = AudioEngine.this (UseStay.engine s) /\
  currentTime (AudioEngine.env (UseStay.engine s')) = currentTime (AudioEngine.env (UseStay.engine s)) /\
  gain_param mg (AudioEngine.env (UseStay.engine s'))
  = Some (volume_ramp gp (currentTime (AudioEngine.env (UseStay.engine s))) v 0.1).
Proof.
  intros Href Hmg Hctx Hgp. cbn zeta. unfold engine_setVolume. rewrite Href.
  destruct (setVolume_param (UseStay.engine s) mg ctx gp v 0.1 Hmg Hctx Hgp) as [Heq Hp].
  cbn [UseStay.set_engine UseStay.engineRef UseStay.engine].
  split; [exact Href|]. split; [|split].
  - rewrite Heq. destruct (UseStay.engine s); reflexivity.
  - rewrite Heq. destruct (UseStay.engine s) as [e ? ? ?].
    cbn [AudioEngine.with_env AudioEngine.env]. unfold on_gain.
    rewrite !update_node_time. reflexivity.
  - exact Hp.
Qed.

(** X18: However the volume is changed (slider, arrow keys, [changeVolume]), the
    hook's volume stays between 0 and 1.  Before the engine is initialised
    the engine does not notice: it keeps the volume it was created with.
    On an initialised engine, the last thing scheduled on the master gain
    is a ramp of 0.1 s to the hook's volume. *)
Theorem hook_volume_is_clamped_and_sent_to_engine (st : State) (calls : list Call) :
  0 <= volume st <= 1 ->
  let st' := run calls st in
  (0 <= volume st' <= 1) /\
  (AudioEngine.masterGain (AudioEngine.this (UseStay.engine (hook st))) = None ->
   hook st' = hook st) /\
  (forall mg ctx gp,
     calls <> [] ->
     UseStay.engineRef (hook st) = true ->
     AudioEngine.masterGain (AudioEngine.this (UseStay.engine (hook st))) = Some mg ->
     AudioEngine.audioContext (AudioEngine.this (UseStay.engine (hook st))) = Some ctx ->
     gain_param mg (AudioEngine.env (UseStay.engine (hook st))) = Some gp ->
     exists gp' target,
       gain_param mg (AudioEngine.env (UseStay.engine (hook st'))) = Some gp' /\
       last (AudioParam.events gp')
       = Some (AudioParam.LinearRamp target
                 (currentTime (AudioEngine.env (UseStay.engine (hook st))) + 0.1)) /\
       target == volume st').
Proof.
  intros Hv. cbn zeta. split; [|split].
  - induction calls as [|c calls IH] using rev_ind; [exact Hv|].
    rewrite run_snoc. apply call_volume.
  - intros Hmg. induction calls as [|c calls IH] using rev_ind; [reflexivity|].
    rewrite run_snoc, call_hook, IH. apply engine_setVolume_before_init. exact Hmg.
  - intros mg ctx gp Hne Href Hmg Hctx Hgp.
    assert (Hinv : forall calls,
              let s := hook (run calls st) in
              UseStay.engineRef s = true /\
              AudioEngine.this (UseStay.engine s) = AudioEngine.this (UseStay.engine (hook st)) /\
              currentTime (AudioEngine.env (UseStay.engine s))
              = currentTime (AudioEngine.env (UseStay.engine (hook st))) /\
              exists gp', gain_param mg (AudioEngine.env (UseStay.engine s)) = Some gp').
    { clear calls Hne. intros calls. cbn zeta.
      induction calls as [|c calls IH] using rev_ind.
      - repeat split; try assumption. exists gp. exact Hgp.
      - destruct IH as (Hr & Hthis & Htime & gp1 & Hgp1).
        rewrite run_snoc, call_hook.
        destruct (engine_setVolume_param (volume (call c (run calls st))) (hook (run calls st))
                    mg ctx gp1 Hr) as (Hr' & Hthis' & Htime' & Hgp');
          [rewrite Hthis; exact Hmg | rewrite Hthis; exact Hctx | exact Hgp1 |].
        split; [exact Hr'|]. split; [congruence|]. split; [congruence|].
        eexists. exact Hgp'. }
    destruct calls as [|c calls _] using rev_ind; [congruence|].
    destruct (Hinv calls) as (Hr & Hthis & Htime & gp1 & Hgp1).
    rewrite run_snoc, call_hook.
    destruct (engine_setVolume_param (volume (call c (run calls st))) (hook (run calls st))
                mg ctx gp1 Hr) as (Hr' & Hthis' & Htime' & Hgp');
      [rewrite Hthis; exact Hmg | rewrite Hthis; exact Hctx | exact Hgp1 |].
    eexists. exists (clamp 0 1 (volume (call c (run calls st)))).
    split; [exact Hgp'|]. split.
    + rewrite volume_ramp_events by (unfold Qle; cbn; lia).
      change [?a; ?b] with ([a] ++ [b]). rewrite app_assoc, last_snoc, Htime. reflexivity.
    + apply clamp_unit_fixed; apply call_volume.
Qed.
End HookVolume.

(** The page while the rain plays, at the default volume 0.7: four presses
    of the up arrow leave the volume at 1, and the master gain ends with a
    ramp to 1. *)
Lemma hook_volume_is_clamped_and_sent_to_engine_witness :
  (0 <= UseStayVolume.volume (UseStayVolume.run four_arrows_up hook_at_default_volume) <= 1)%Q /\
  exists mg gp' target,
    AudioEngine.masterGain (AudioEngine.this rain_playing) = Some mg /\
    gain_param mg (AudioEngine.env (UseStay.engine (UseStayVolume.hook
                     (UseStayVolume.run four_arrows_up hook_at_default_volume)))) = Some gp' /\
    last (AudioParam.events gp') = Some (AudioParam.LinearRamp target (2 + 0.1)%Q) /\
    (target == 1)%Q.
Proof.
  unfold four_arrows_up, hook_at_default_volume.
  destruct (hook_volume_is_clamped_and_sent_to_engine
              (UseStayVolume.mk hook_playing UseStayVolume.DEFAULT_VOLUME)
              [UseStayVolume.ArrowUp; UseStayVolume.ArrowUp;
               UseStayVolume.ArrowUp; UseStayVolume.ArrowUp])
    as (Hv & _ & Hramp).
  - vm_compute. split; discriminate.
  - split; [exact Hv|].
    destruct (Hramp 1%nat 0%nat
                (default (AudioParam.create 0) (gain_param 1 (AudioEngine.env rain_playing))))
      as (gp' & target & Hgp' & Hlast & Htarget).
    + discriminate.
    + reflexivity.
    + vm_compute. reflexivity.
    + vm_compute. reflexivity.
    + vm_compute. reflexivity.
    + exists 1%nat, gp', target. split; [vm_compute; reflexivity|].
      split; [exact Hgp'|]. split; [exact Hlast|].
      rewrite Htarget. vm_compute. reflexivity.
Defined.

(** ** The hook: when the controls are visible *)

Section HookUi.
Import UseStayUi.
Local Open Scope Q_scope.

Lemma clearTimeout_all id (l : list (nat * Q)) :
  (forall tm, tm ∈ l -> fst tm = id) -> clearTimeout id l = [].
Proof.
  intros H. unfold clearTimeout. induction l as [|tm l IH]; [reflexivity|].
  rewrite filter_cons. destruct (decide (fst tm <> id)) as [Hne|_].
  - exfalso. apply Hne, H. left.
  - apply IH. intros tm' Hin. apply H. right. exact Hin.
Qed.

Lemma clearTimeout_sub id (l : list (nat * Q)) tm : tm ∈ clearTimeout id l -> tm ∈ l.
Proof. unfold clearTimeout. intros H. apply list_elem_of_filter in H. apply H. Qed.

Lemma cleared_empty s :
  (forall tm, tm ∈ pending s -> uiHideTimerRef s = Some (fst tm) /\ uiVisible s = true) ->
  ui_cleared s = [].
Proof.
  intros H. unfold ui_cleared. destruct (uiHideTimerRef s) as [id|] eqn:Href.
  - apply clearTimeout_all. intros tm Hin. destruct (H tm Hin) as [Heq _]. congruence.
  - destruct (pending s) as [|tm l]; [reflexivity|].
    destruct (H tm) as [Heq _]; [left | discriminate].
Qed.

Lemma resetUiTimer_eq s :
  uiForcedHiddenRef s = false ->
  resetUiTimer s
  = mk true (Some (S (nextTimer s))) false
       (ui_cleared s ++ [(S (nextTimer s), now s + UI_HIDE_DELAY)]) (S (nextTimer s)) (now s).
Proof. intros H. unfold resetUiTimer, ui_cleared. rewrite H. reflexivity. Qed.

Lemma resetUiTimer_ok s : ui_ok s -> ui_ok (resetUiTimer s).
Proof.
  intros Hok. destruct (uiForcedHiddenRef s) eqn:Hf.
  - unfold resetUiTimer. rewrite Hf. exact Hok.
  - destruct Hok as (_ & Href & _).
    rewrite (resetUiTimer_eq s Hf), (cleared_empty s Href). cbn [app].
    split; [|split]; cbn [pending uiHideTimerRef uiVisible uiForcedHiddenRef].
    + cbn. lia.
    + intros tm Hin. apply list_elem_of_singleton in Hin. subst tm. split; reflexivity.
    + discriminate.
Qed.

Lemma toggleUiForced_ok s : ui_ok s -> ui_ok (toggleUiForced s).
Proof.
  intros Hok. unfold toggleUiForced. destruct (uiForcedHiddenRef s) eqn:Hf; cbn [negb].
  - apply resetUiTimer_ok. destruct Hok as (Hlen & Href & Hforced).
    split; [exact Hlen|]. split; [exact Href|]. cbn. discriminate.
  - destruct Hok as (Hlen & Href & _).
    pose proof (cleared_empty s Href) as Hc. unfold ui_cleared in Hc.
    destruct (uiHideTimerRef s) as [id|]; rewrite ?Hc;
      (split; [|split]; cbn [pending uiHideTimerRef uiVisible uiForcedHiddenRef];
       [cbn; lia | intros tm Hin; apply elem_of_nil in Hin; destruct Hin | intros _; split; reflexivity]).
Qed.

Lemma ui_fire_ok id s s' : ui_ok s -> fire id s = Some s' -> ui_ok s'.
Proof.
  intros (Hlen & Href & Hforced) Hfire. unfold fire in Hfire.
  destruct (list_find (fun tm => fst tm = id) (pending s)) as [[i [id' due]]|] eqn:Hfind;
    [|discriminate].
  destruct (Qle_bool due (now s)); [|discriminate]. injection Hfire as <-.
  apply list_find_Some in Hfind. destruct Hfind as (Hlook & Hid & _). cbn in Hid. subst id'.
  apply list_elem_of_lookup_2 in Hlook. destruct (Href _ Hlook) as [Hr _]. cbn [fst] in Hr.
  assert (Hc : clearTimeout id (pending s) = []).
  { apply clearTimeout_all. intros tm Hin. destruct (Href tm Hin) as [Hr' _]. congruence. }
  rewrite Hc.
  split; [|split]; cbn [pending uiHideTimerRef uiVisible uiForcedHiddenRef].
  - cbn. lia.
  - intros tm Hin. apply elem_of_nil in Hin. destruct Hin.
  - intros _. split; reflexivity.
Qed.

Lemma ui_step_ok ev s s' : ui_ok s -> step ev s = Some s' -> ui_ok s'.
Proof.
  intros Hok Hstep. destruct ev as [y h| | |d|id]; cbn [step] in Hstep.
  - injection Hstep as <-. unfold handleMouseMove.
    destruct (_ && _); [apply resetUiTimer_ok|]; exact Hok.
  - injection Hstep as <-. apply toggleUiForced_ok, Hok.
  - injection Hstep as <-. apply resetUiTimer_ok, Hok.
  - destruct (Qle_bool 0 d); [|discriminate]. injection Hstep as <-. exact Hok.
  - exact (ui_fire_ok id s s' Hok Hstep).
Qed.

Lemma ui_run_ok events : forall s s', ui_ok s -> run events s = Some s' -> ui_ok s'.
Proof.
  induction events as [|ev rest IH]; intros s s' Hok Hrun; cbn [run] in Hrun.
  - injection Hrun as <-. exact Hok.
  - destruct (step ev s) as [s1|] eqn:Hstep; [|discriminate].
    exact (IH s1 s' (ui_step_ok ev s s1 Hok Hstep) Hrun).
Qed.

Lemma ui_mount_ok tm : ui_ok (mount tm).
Proof.
  split; [|split]; cbn.
  - lia.
  - intros x Hin. apply elem_of_nil in Hin. destruct Hin.
  - discriminate.
Qed.

Lemma idle_keeps_visible events : forall s s',
  forallb is_idle events = true -> pending s = [] -> uiVisible s = true ->
  run events s = Some s' -> pending s' = [] /\ uiVisible s' = true.
Proof.
  induction events as [|ev rest IH]; intros s s' Hidle Hp Hv Hrun; cbn [run] in Hrun.
  - injection Hrun as <-. split; assumption.
  - cbn [forallb] in Hidle. apply andb_prop in Hidle. destruct Hidle as [Hev Hrest].
    destruct ev as [y h| | |d|id]; try discriminate; cbn [step] in Hrun.
    + destruct (Qle_bool 0 d); [|discriminate].
      match type of Hrun with run _ ?x = _ => apply (IH x s') end; assumption.
    + unfold fire in Hrun. rewrite Hp in Hrun. cbn in Hrun. discriminate.
Qed.

(** X19: From the mount on, whatever happens on the page: at most one hide
    timer is pending, it is the one the hook remembers, and the controls
    are visible while it is pending; while the controls are hidden with
    the H key they are not visible and no timer is pending.  Until the
    user does something, the controls stay visible, however much time
    passes: the mount starts no hide timer. *)
Theorem controls_have_one_hide_timer (tm : Q) (events : list Event) (s : State) :
  run events (mount tm) = Some s ->
  ui_ok s /\
  (forallb is_idle events = true -> uiVisible s = true /\ pending s = []).
Proof.
  intros Hrun. split.
  - exact (ui_run_ok events _ _ (ui_mount_ok tm) Hrun).
  - intros Hidle.
    destruct (idle_keeps_visible events (mount tm) s Hidle eq_refl eq_refl Hrun) as [Hp Hv].
    split; assumption.
Qed.

Lemma run_elapsed_nonneg events : forall s s', run events s = Some s' -> 0 <= elapsed events.
Proof.
  induction events as [|ev rest IH]; intros s s' Hrun; cbn [run] in Hrun.
  - cbn. lra.
  - destruct (step ev s) as [s1|] eqn:Hstep; [|discriminate].
    pose proof (IH s1 s' Hrun) as Hrest.
    destruct ev as [y h| | |d|id]; cbn [elapsed]; try exact Hrest.
    cbn [step] in Hstep. destruct (Qle_bool 0 d) eqn:Hd; [|discriminate].
    apply Qle_bool_iff in Hd. lra.
Qed.

Lemma resetUiTimer_late B s :
  uiForcedHiddenRef s = false -> B <= now s + UI_HIDE_DELAY ->
  (forall tm, tm ∈ pending s -> B <= snd tm) ->
  uiForcedHiddenRef (resetUiTimer s) = false /\ uiVisible (resetUiTimer s) = true /\
  now (resetUiTimer s) = now s /\
  (forall tm, tm ∈ pending (resetUiTimer s) -> B <= snd tm).
Proof.
  intros Hf HB Hlate. rewrite (resetUiTimer_eq s Hf).
  cbn [pending uiHideTimerRef uiVisible uiForcedHiddenRef now].
  repeat split. intros tm Hin. apply elem_of_app in Hin. destruct Hin as [Hin|Hin].
  - apply Hlate. unfold ui_cleared in Hin. destruct (uiHideTimerRef s); [|exact Hin].
    exact (clearTimeout_sub _ _ _ Hin).
  - apply list_elem_of_singleton in Hin. subst tm. exact HB.
Qed.

Lemma visible_until B events : forall s s',
  uiForcedHiddenRef s = false -> uiVisible s = true ->
  (forall tm, tm ∈ pending s -> B <= snd tm) ->
  B <= now s + UI_HIDE_DELAY ->
  now s + elapsed events < B ->
  forallb (fun ev => negb (is_KeyH ev)) events = true ->
  run events s = Some s' ->
  uiVisible s' = true.
Proof.
  induction events as [|ev rest IH]; intros s s' Hf Hv Hlate HB Hnow Hkeys Hrun;
    cbn [run] in Hrun.
  - injection Hrun as <-. exact Hv.
  - cbn [forallb] in Hkeys. apply andb_prop in Hkeys. destruct Hkeys as [Hev Hrest].
    destruct (step ev s) as [s1|] eqn:Hstep; [|discriminate].
    pose proof (run_elapsed_nonneg rest s1 s' Hrun) as Hpos.
    destruct (resetUiTimer_late B s Hf HB Hlate) as (Hf' & Hv' & Hnow' & Hlate').
    destruct ev as [y h| | |d|id]; try discriminate; cbn [step] in Hstep; cbn [elapsed] in Hnow.
    + injection Hstep as <-. unfold handleMouseMove in *.
      destruct (_ && _).
      * refine (IH _ s' Hf' Hv' Hlate' _ _ Hrest Hrun); rewrite Hnow'; assumption.
      * exact (IH _ s' Hf Hv Hlate HB Hnow Hrest Hrun).
    + injection Hstep as <-.
      refine (IH _ s' Hf' Hv' Hlate' _ _ Hrest Hrun); rewrite Hnow'; assumption.
    + destruct (Qle_bool 0 d) eqn:Hd; [|discriminate]. apply Qle_bool_iff in Hd.
      injection Hstep as <-.
      match type of Hrun with run _ ?x = _ => apply (IH x s') end;
        cbn [pending uiVisible uiForcedHiddenRef now]; try assumption; lra.
    + exfalso. unfold fire in Hstep.
      destruct (list_find (fun tm => fst tm = id) (pending s)) as [[i [id' due]]|] eqn:Hfind;
        [|discriminate].
      apply list_find_Some in Hfind. destruct Hfind as (Hlook & _).
      apply list_elem_of_lookup_2 in Hlook. apply Hlate in Hlook. cbn [snd] in Hlook.
      destruct (Qle_bool due (now s)) eqn:Hdue; [|discriminate].
      apply Qle_bool_iff in Hdue. lra.
Qed.

(** X20: After [resetUiTimer()] (a control was used, or the mouse came to the
    bottom of the page) while the controls are not hidden with the H key,
    the controls are visible and stay so for the next 5000 ms, whatever
    happens but the H key; when nothing happens for 5000 ms, the hide timer
    fires and hides them, leaving no timer behind. *)
Theorem controls_stay_for_the_hide_delay (s : State) :
  ui_ok s -> uiForcedHiddenRef s = false ->
  (forall events s',
     forallb (fun ev => negb (is_KeyH ev)) events = true ->
     elapsed events < UI_HIDE_DELAY ->
     run events (resetUiTimer s) = Some s' ->
     uiVisible s' = true) /\
  (exists s', run [Elapse UI_HIDE_DELAY; Fire (S (nextTimer s))] (resetUiTimer s) = Some s' /\
              uiVisible s' = false /\ pending s' = []).
Proof.
  intros (_ & Href & _) Hf. pose proof (cleared_empty s Href) as Hc.
  pose proof (resetUiTimer_eq s Hf) as Heq. rewrite Hc in Heq. cbn [app] in Heq.
  split.
  - intros events s' Hkeys Hlt Hrun.
    apply (visible_until (now s + UI_HIDE_DELAY) events (resetUiTimer s) s'); try assumption;
      rewrite Heq; cbn [pending uiHideTimerRef uiVisible uiForcedHiddenRef now];
      try reflexivity.
    + intros tm Hin. apply list_elem_of_singleton in Hin. subst tm. cbn [snd]. lra.
    + lra.
    + lra.
  - rewrite Heq. cbn [run step]. change (Qle_bool 0 UI_HIDE_DELAY) with true. cbn iota.
    unfold fire. cbn [pending now list_find fst]. 
    rewrite decide_True by reflexivity. cbn [fmap option_fmap option_map].
    assert (Hdue : Qle_bool (now s + UI_HIDE_DELAY) (now s + UI_HIDE_DELAY) = true).
    { apply Qle_bool_iff. lra. }
    rewrite Hdue. eexists. split; [reflexivity|]. split; [reflexivity|].
    cbn [pending]. apply clearTimeout_all. intros tm Hin.
    apply list_elem_of_singleton in Hin. subst tm. reflexivity.
Qed.
End HookUi.

(** A control is used, then the H key hides the controls; the mouse at the
    bottom of the page and six seconds later they are still hidden, and no
    timer is pending. *)
Lemma controls_have_one_hide_timer_witness :
  exists s,
    UseStayUi.run [UseStayUi.Interaction; UseStayUi.Elapse 1000; UseStayUi.KeyH;
                   UseStayUi.MouseMove 900 1000; UseStayUi.Elapse 6000]
                  (UseStayUi.mount 0) = Some s /\
    ui_ok s /\ UseStayUi.uiVisible s = false /\ UseStayUi.pending s = [].
Proof.
  eexists. split; [vm_compute; reflexivity|]. split; [|split; reflexivity].
  refine (proj1 (controls_have_one_hide_timer 0
                   [UseStayUi.Interaction; UseStayUi.Elapse 1000; UseStayUi.KeyH;
                    UseStayUi.MouseMove 900 1000; UseStayUi.Elapse 6000] _ _)).
  vm_compute. reflexivity.
Defined.

(** On a fresh page a control is used: 5000 ms later the hide timer, the
    first of the page, fires and hides the controls. *)
Lemma controls_stay_for_the_hide_delay_witness :
  ui_ok (UseStayUi.mount 0) /\
  exists s',
    UseStayUi.run [UseStayUi.Elapse UseStayUi.UI_HIDE_DELAY; UseStayUi.Fire 1]
                  (UseStayUi.resetUiTimer (UseStayUi.mount 0)) = Some s' /\
    UseStayUi.uiVisible s' = false /\ UseStayUi.pending s' = [].
Proof.
  split; [apply ui_mount_ok|].
  exact (proj2 (controls_stay_for_the_hide_delay (UseStayUi.mount 0) (ui_mount_ok 0) eq_refl)).
Defined.
(** ** The cafe player: [start] *)

Section CafeStart.
Local Open Scope Q_scope.

(** The ambience part of [start()]. *)
Lemma cafe_start_ambience (p : CafePlayer.t) (e : Env) buffer gp :
  CafePlayer.isLoaded p = true -> CafePlayer.isPlaying p = false ->
  CafePlayer.ambienceBuffer p = Some buffer ->
  gain_param (CafePlayer.ambienceGain p) e = Some gp ->
  exists e1,
    CafePlayer.start p e
    = CafePlayer._startSfx
        (CafePlayer.set_ambienceSource (Some (length (nodes e))) (CafePlayer.set_isPlaying true p))
        e1 /\
    nodes e1 = <[CafePlayer.ambienceGain p := GainNode (ambience_fade_in gp (currentTime e))]>
                 (nodes e) ++ [BufferSourceNode (Some buffer) true 1 0 true false] /\
    edges e1 = edges e ++ [(length (nodes e), CafePlayer.lowpassFilter p)] /\
    timers e1 = timers e /\ nextTimer e1 = nextTimer e /\ rng e1 = rng e /\
    currentTime e1 = currentTime e.
Proof.
  intros Hl Hp Hb Hg. unfold CafePlayer.start. rewrite Hl, Hp. cbn [negb orb].
  destruct p as [self0 au su si out ab asrc ag lp hs sb sg playing loaded st].
  destruct e as [ct sr ns es ts ntm rg]. cafe_fields. subst ab.
  unfold gain_param in Hg. cbn [nodes] in Hg.
  destruct (ns !! ag) as [[gp0| | | |]|] eqn:Hag; try discriminate. injection Hg as ->.
  pose proof (lookup_lt_Some _ _ _ Hag) as Hlt.
  unfold createBufferSource, set_buffer, set_loop, on_gain, source_start, ambience_fade_in.
  env_eval.
  rewrite (lookup_app_l ns _ ag Hlt), Hag. env_eval.
  rewrite (insert_app_l ns _ ag _ Hlt).
  set (ns1 := <[ag := _]> ns).
  assert (Hlen1 : length ns1 = length ns) by apply length_insert.
  assert (Hag1 : ns1 !! ag = Some (GainNode (AudioParam.setValueAtTime 0 ct gp))).
  { apply list_lookup_insert_eq. exact Hlt. }
  rewrite (lookup_app_l ns1 _ ag) by (rewrite Hlen1; exact Hlt). rewrite Hag1. env_eval.
  rewrite (insert_app_l ns1 _ ag) by (rewrite Hlen1; exact Hlt).
  set (ns2 := <[ag := _]> ns1).
  assert (Hlen2 : length ns = length ns2).
  { unfold ns2. rewrite length_insert. symmetry. exact Hlen1. }
  rewrite Hlen2. store. env_eval. rewrite <- Hlen2.
  eexists. split; [reflexivity|]. cbn [nodes edges timers nextTimer rng currentTime].
  split; [|repeat split].
  unfold ns2, ns1. rewrite list_insert_insert_eq. reflexivity.
Qed.

Lemma startSfx_none (p : CafePlayer.t) (e : Env) :
  CafePlayer.sfxBuffers p = [] -> CafePlayer._startSfx p e = Some (p, e).
Proof. intros H. unfold CafePlayer._startSfx. rewrite H. reflexivity. Qed.

Lemma startSfx_some (p : CafePlayer.t) (e : Env) r rest :
  CafePlayer.sfxBuffers p <> [] -> rng e = r :: rest ->
  CafePlayer._startSfx p e
  = Some (CafePlayer.set_sfxTimer (Some (S (nextTimer e))) p,
          with_timers (timers e ++ [mkTimer (S (nextTimer e))
                                      (currentTime e + (2000 + r * 3000) / 1000)
                                      (CafeSfx (CafePlayer.self p))])
                      (S (nextTimer e)) (with_rng rest e)).
Proof.
  intros Hne Hr. unfold CafePlayer._startSfx, random.
  destruct (CafePlayer.sfxBuffers p) as [|b l]; [congruence|]. cbn [length Nat.eqb].
  rewrite Hr. reflexivity.
Qed.

(** X21: [start()] of the cafe player.  Not loaded, or playing already: nothing
    happens.  Otherwise, with an ambience buffer: a new looping source over
    it is connected to the low-pass filter and started, and the ambience
    gain is faded in from 0 to 1 over 1.5 s; with effect buffers, one timer
    for the first effect is set, due no sooner than 2 and no later than 5
    seconds from now, and without them no timer is set and no random
    number is drawn. *)
Theorem cafe_start_by_cases (p : CafePlayer.t) (e : Env) :
  (CafePlayer.isLoaded p = false \/ CafePlayer.isPlaying p = true ->
   CafePlayer.start p e = Some (p, e)) /\
  (forall buffer gp,
     CafePlayer.isLoaded p = true -> CafePlayer.isPlaying p = false ->
     CafePlayer.ambienceBuffer p = Some buffer ->
     gain_param (CafePlayer.ambienceGain p) e = Some gp ->
     let source := length (nodes e) in
     let started := CafePlayer.set_ambienceSource (Some source) (CafePlayer.set_isPlaying true p) in
     let sounding e' :=
       nodes e' = <[CafePlayer.ambienceGain p := GainNode (ambience_fade_in gp (currentTime e))]>
                    (nodes e) ++ [BufferSourceNode (Some buffer) true 1 0 true false] /\
       edges e' = edges e ++ [(source, CafePlayer.lowpassFilter p)] /\
       currentTime e' = currentTime e in
     (CafePlayer.sfxBuffers p = [] ->
      exists e', CafePlayer.start p e = Some (started, e') /\ sounding e' /\
                 timers e' = timers e /\ rng e' = rng e) /\
     (forall r rest,
        CafePlayer.sfxBuffers p <> [] -> rng e = r :: rest -> unit_interval r ->
        exists e' due,
          CafePlayer.start p e
          = Some (CafePlayer.set_sfxTimer (Some (S (nextTimer e))) started, e') /\
          sounding e' /\
          timers e' = timers e ++ [mkTimer (S (nextTimer e)) due (CafeSfx (CafePlayer.self p))] /\
          currentTime e + 2 <= due /\ due <= currentTime e + 5 /\
          rng e' = rest)).
Proof.
  split.
  - intros H. unfold CafePlayer.start.
    destruct H as [-> | ->]; [reflexivity|]. rewrite orb_true_r. reflexivity.
  - intros buffer gp Hl Hp Hb Hg. cbn zeta.
    destruct (cafe_start_ambience p e buffer gp Hl Hp Hb Hg)
      as (e1 & Hstart & Hn & He & Ht & Hnt & Hr & Hc).
    split.
    + intros Hsfx. exists e1. rewrite Hstart. split; [apply startSfx_none; exact Hsfx|].
      repeat split; assumption.
    + intros r rest Hsfx Hrng [H0 H1].
      rewrite Hstart.
      rewrite (startSfx_some _ e1 r rest) by (try exact Hsfx; rewrite Hr; exact Hrng).
      eexists. eexists. split; [rewrite Hnt, Ht, Hc; reflexivity|].
      cbn [nodes edges currentTime timers rng with_timers with_rng].
      split; [repeat split; assumption|]. split; [reflexivity|].
      assert (Hd : (2000 + r * 3000) / 1000 == 2 + 3 * r) by field.
      split; [|split; [|reflexivity]]; rewrite Hd; lra.
Qed.
End CafeStart.

(** The cafe of the page, loaded with its effects: [start()] starts the
    ambience and, with the draw 0.5, sets the first effect no sooner than
    2 and no later than 5 seconds ahead. *)
Lemma cafe_start_by_cases_witness :
  exists e' tm,
    CafePlayer.start cafe_loaded cafe_env
    = Some (CafePlayer.set_sfxTimer (Some (S (nextTimer cafe_env)))
              (CafePlayer.set_ambienceSource (Some (length (nodes cafe_env)))
                 (CafePlayer.set_isPlaying true cafe_loaded)), e') /\
    timers e' = timers cafe_env ++
                [mkTimer (S (nextTimer cafe_env)) tm (CafeSfx (CafePlayer.self cafe_loaded))] /\
    (currentTime cafe_env + 2 <= tm)%Q /\ (tm <= currentTime cafe_env + 5)%Q /\ rng e' = [].
Proof.
  pose (buffer := default (mkBuffer String.EmptyString 0 [])
                          (CafePlayer.ambienceBuffer cafe_loaded)).
  pose (gp := default (AudioParam.create 0)
                (gain_param (CafePlayer.ambienceGain cafe_loaded) cafe_env)).
  assert (Hl : CafePlayer.isLoaded cafe_loaded = true) by (vm_compute; reflexivity).
  assert (Hp : CafePlayer.isPlaying cafe_loaded = false) by (vm_compute; reflexivity).
  assert (Hb : CafePlayer.ambienceBuffer cafe_loaded = Some buffer) by (vm_compute; reflexivity).
  assert (Hg : gain_param (CafePlayer.ambienceGain cafe_loaded) cafe_env = Some gp)
    by (vm_compute; reflexivity).
  assert (Hs : CafePlayer.sfxBuffers cafe_loaded <> []) by (vm_compute; discriminate).
  assert (Hr : rng cafe_env = [0.5%Q]) by (vm_compute; reflexivity).
  assert (Hu : unit_interval 0.5) by (split; [discriminate | reflexivity]).
  pose proof (proj2 (proj2 (cafe_start_by_cases cafe_loaded cafe_env) buffer gp Hl Hp Hb Hg)
                0.5%Q [] Hs Hr Hu) as H.
  destruct H as (e' & tm & Hstart & _ & Ht & H2 & H5 & Hrest).
  exists e', tm. split; [exact Hstart|]. split; [exact Ht|]. split; [exact H2|].
  split; [exact H5 | exact Hrest].
Defined.
(** ** The wind player: the recording layer *)

Section WindRecording.
Local Open Scope Q_scope.

(** Choosing the next recording touches nothing but the random supply. *)
Lemma wind_getRandomBufferIndex_env (p : WindPlayer.t) (e e1 : Env) i :
  WindPlayer._getRandomBufferIndex p e = Some (i, e1) -> e1 = with_rng (rng e1) e.
Proof.
  unfold WindPlayer._getRandomBufferIndex.
  destruct (length (WindPlayer.recordingBuffers p) =? 1)%nat.
  { intros H. injection H as <- <-. destruct e; reflexivity. }
  destruct (WindPlayer.draw_index _ _ _) as [[j rest]|]; [|discriminate].
  intros H. injection H as <- <-. reflexivity.
Qed.

(** X22: [_startRecordingLayer()].  Without recordings it does nothing.
    Otherwise the chosen recording is played once by a new source whose
    rate stays within 5.1 % of normal and whose detune stays within 50
    cents (the code computes [0.95 + 0.1 r] and [100 (r - 0.5)]; the
    bounds leave room for its rounding), the recording gain is faded in
    from 0 to the recording mix over 2 s, and one timer for the crossfade
    is set, due no sooner than one second from now. *)
Theorem wind_recording_is_varied (p : WindPlayer.t) (e : Env) :
  (WindPlayer.recordingBuffers p = [] -> WindPlayer._startRecordingLayer p e = Some (p, e)) /\
  (forall index e1 buffer r1 r2 rest gp,
     WindPlayer.recordingBuffers p <> [] ->
     WindPlayer._getRandomBufferIndex p e = Some (index, e1) ->
     WindPlayer.buffer_at p index = Some buffer ->
     rng e1 = r1 :: r2 :: rest -> unit_interval r1 -> unit_interval r2 ->
     gain_param (WindPlayer.recordingGain p) e = Some gp ->
     exists e' rate detune due,
       WindPlayer._startRecordingLayer p e
       = Some (WindPlayer.set_crossfadeTimer (Some (S (nextTimer e)))
                 (WindPlayer.set_currentSource (Some (length (nodes e)))
                    (WindPlayer.set_currentBufferIndex index p)), e') /\
       nodes e' = <[WindPlayer.recordingGain p :=
                      GainNode (recording_fade_in gp (currentTime e) (WindPlayer.recordingMix p))]>
                    (nodes e) ++ [BufferSourceNode (Some buffer) false rate detune true false] /\
       0.949 <= rate /\ rate <= 1.051 /\ -50 <= detune /\ detune <= 50 /\
       edges e' = edges e ++ [(length (nodes e), WindPlayer.recordingFilter p)] /\
       timers e' = timers e ++
                   [mkTimer (S (nextTimer e)) due (WindCrossfade (WindPlayer.self p))] /\
       currentTime e + 1 <= due /\
       rng e' = rest).
Proof.
  split.
  - intros H. unfold WindPlayer._startRecordingLayer. rewrite H. reflexivity.
  - intros index e1 buffer r1 r2 rest gp Hne Hidx Hbuf Hrng [H10 H11] [H20 H21] Hg.
    pose proof (wind_getRandomBufferIndex_env p e e1 index Hidx) as He1.
    rewrite Hrng in He1. subst e1.
    unfold WindPlayer._startRecordingLayer. rewrite Hidx.
    destruct (WindPlayer.recordingBuffers p) as [|b0 bs] eqn:Hbufs; [congruence|].
    cbn [length Nat.eqb].
    assert (Hbuf' : WindPlayer.buffer_at (WindPlayer.set_currentBufferIndex index p) index
                    = Some buffer).
    { unfold WindPlayer.buffer_at in *. wind_fields. exact Hbuf. }
    rewrite Hbuf'. clear Hbuf' Hbuf Hidx Hbufs Hne.
    destruct p as [self0 su sm rm cf out ws sg rb cs rg rf playing loaded ct0 cbi].
    destruct e as [ct sr ns es ts ntm rg0]. wind_fields.
    unfold gain_param in Hg. cbn [nodes] in Hg.
    destruct (ns !! rg) as [[gp0| | | |]|] eqn:Hrg; try discriminate. injection Hg as ->.
    pose proof (lookup_lt_Some _ _ _ Hrg) as Hlt.
    unfold WindPlayer.new_recording_source, createBufferSource, set_buffer, set_loop,
      set_playbackRate, set_detune, on_gain, source_start, recording_fade_in, random.
    env_eval. cbn [Math_random]. env_eval. cbn [Math_random]. env_eval.
    rewrite (lookup_app_l ns _ rg Hlt), Hrg. env_eval.
    rewrite (insert_app_l ns _ rg _ Hlt).
    set (ns1 := <[rg := _]> ns).
    assert (Hlen1 : length ns1 = length ns) by apply length_insert.
    assert (Hrg1 : ns1 !! rg = Some (GainNode (AudioParam.setValueAtTime 0 ct gp))).
    { apply list_lookup_insert_eq. exact Hlt. }
    rewrite (lookup_app_l ns1 _ rg) by (rewrite Hlen1; exact Hlt). rewrite Hrg1. env_eval.
    rewrite (insert_app_l ns1 _ rg) by (rewrite Hlen1; exact Hlt).
    set (ns2 := <[rg := _]> ns1).
    assert (Hlen2 : length ns = length ns2).
    { unfold ns2. rewrite length_insert. symmetry. exact Hlen1. }
    rewrite Hlen2. store. env_eval. rewrite <- Hlen2.
    unfold WindPlayer._scheduleCrossfade. env_eval. wind_fields.
    eexists. exists (0.95 + r1 * 0.1), ((r2 - 0.5) * 100). eexists.
    split; [reflexivity|]. cbn [nodes edges timers nextTimer rng currentTime].
    split; [unfold ns2, ns1; rewrite list_insert_insert_eq; reflexivity|].
    split; [lra|]. split; [lra|]. split; [lra|]. split; [lra|].
    split; [reflexivity|]. split; [reflexivity|]. split; [|reflexivity].
    pose proof (Q.le_max_r ((duration buffer / (0.95 + r1 * 0.1) - cf) * 1000) 1000) as Hmax.
    set (m := Qmax _ _) in *.
    assert (Hm : m / 1000 == m * (1 # 1000)) by field.
    rewrite Hm. lra.
Qed.
End WindRecording.

(** A wind player with one recording of 30 seconds and the draws 0.5 and
    0.25: the recording starts at the normal rate, 25 cents lower, and
    the crossfade is set as the first timer of the page. *)
Lemma wind_recording_is_varied_witness :
  exists e' rate detune due,
    WindPlayer._startRecordingLayer (fst wind_fresh) (snd wind_fresh)
    = Some (WindPlayer.set_crossfadeTimer (Some (S (nextTimer (snd wind_fresh))))
              (WindPlayer.set_currentSource (Some (length (nodes (snd wind_fresh))))
                 (WindPlayer.set_currentBufferIndex 0 (fst wind_fresh))), e') /\
    nodes e' !! length (nodes (snd wind_fresh))
    = Some (BufferSourceNode (Some one_recording) false rate detune true false) /\
    (0.949 <= rate)%Q /\ (rate <= 1.051)%Q /\ (-50 <= detune)%Q /\ (detune <= 50)%Q /\
    timers e' = timers (snd wind_fresh) ++ [mkTimer (S (nextTimer (snd wind_fresh))) due
                                             (WindCrossfade (WindPlayer.self (fst wind_fresh)))] /\
    (currentTime (snd wind_fresh) + 1 <= due)%Q.
Proof.
  pose (gp := default (AudioParam.create 0)
                (gain_param (WindPlayer.recordingGain (fst wind_fresh)) (snd wind_fresh))).
  assert (Hne : WindPlayer.recordingBuffers (fst wind_fresh) <> [])
    by (vm_compute; discriminate).
  assert (Hidx : WindPlayer._getRandomBufferIndex (fst wind_fresh) (snd wind_fresh)
                 = Some (0%Z, snd wind_fresh)) by (vm_compute; reflexivity).
  assert (Hbuf : WindPlayer.buffer_at (fst wind_fresh) 0 = Some one_recording)
    by (vm_compute; reflexivity).
  assert (Hrng : rng (snd wind_fresh) = [0.5%Q; 0.25%Q]) by (vm_compute; reflexivity).
  assert (Hu1 : unit_interval 0.5) by (split; [discriminate | reflexivity]).
  assert (Hu2 : unit_interval 0.25) by (split; [discriminate | reflexivity]).
  assert (Hg : gain_param (WindPlayer.recordingGain (fst wind_fresh)) (snd wind_fresh) = Some gp)
    by (vm_compute; reflexivity).
  pose proof (proj2 (wind_recording_is_varied (fst wind_fresh) (snd wind_fresh))
                0%Z (snd wind_fresh) one_recording 0.5%Q 0.25%Q [] gp
                Hne Hidx Hbuf Hrng Hu1 Hu2 Hg) as H.
  destruct H as (e' & rate & detune & due & Hrun & Hn & Hr0 & Hr1 & Hd0 & Hd1 & _ & Ht & Hdue & _).
  exists e', rate, detune, due. split; [exact Hrun|].
  split.
  { rewrite Hn. rewrite <- (length_insert (nodes (snd wind_fresh))
                             (WindPlayer.recordingGain (fst wind_fresh))
                             (GainNode (recording_fade_in gp (currentTime (snd wind_fresh))
                                          (WindPlayer.recordingMix (fst wind_fresh))))).
    apply list_lookup_middle. reflexivity. }
  split; [exact Hr0|]. split; [exact Hr1|]. split; [exact Hd0|]. split; [exact Hd1|].
  split; [exact Ht | exact Hdue].
Defined.

